(** * System Design Lab: topology analysis, load propagation, metrics and
      validation, embedded in Rocq

    The engine of the repository (GraphTraversal.ts, SimulationEngine.ts,
    MetricsCalculator.ts, ValidationContext.ts, ArchitectureValidator.ts) and
    the progress score of the scenarios (computeScenarioProgress) are
    embedded shallowly. Part I holds the definitions, function by function and
    under the names of the source; Part II holds their properties.

    Conventions of the embedding:
    - a JavaScript [number] is an exact rational [Q]: no rounding error, no
      overflow, no [NaN]; the one division whose divisor can be zero is
      written out with the result that the source gets; a count such as
      [array.length] is a [nat];
    - [Map<string, T>] is [gmap string T]; [Set<string>] is [gset string],
      or a list in insertion order where the source iterates over the set;
    - a [while] loop, and the recursive search of findCriticalPath, take a
      fuel argument and return [None] when it runs out; Part II proves that
      the fuel handed over by each caller suffices on every graph;
    - the component catalog [COMPONENT_MAP] (constants/componentDefinitions)
      is a parameter of every function that reads it.
*)

From Stdlib Require Import QArith Qround Qminmax ZArith Lia Lqa String List.
From Stdlib Require Import DecimalString.
From Stdlib Require DecimalNat DecimalFacts.
From stdpp Require Import gmap strings list fin_maps.

Set Warnings "-clear-no-such-hyp".

Local Open Scope string_scope.
Local Open Scope list_scope.

(** * Part I: the engine *)

(** ** JavaScript numbers as rationals *)

Module Js.

(** [a < b], [a <= b], [a === b] on numbers. *)
Definition ltb (a b : Q) : bool := negb (Qle_bool b a).
Definition leb (a b : Q) : bool := Qle_bool a b.
Definition eqb (a b : Q) : bool := Qeq_bool a b.

(** [Math.round]: the nearest integer, halves rounded towards +infinity. *)
Definition round (x : Q) : Z := Qfloor (x + (1 # 2)).

(** [x || d] on a number: the falsy number is 0. *)
Definition orElse (x d : Q) : Q := if Qeq_bool x 0 then d else x.

(** [m.get(k) || 0]: a missing key and a stored 0 both give 0. *)
Definition getOr0 (m : gmap string Q) (k : string) : Q :=
  match m !! k with
  | Some v => orElse v 0
  | None => 0
  end.

(** [n] as a number. *)
Definition ofNat (n : nat) : Q := inject_Z (Z.of_nat n).

End Js.

(** ** Data model (types/components.ts) *)

Inductive ComponentCategory :=
  | clients | loadbalancing | compute | storage
  | messaging | observability | network | ai.

Inductive ConsistencyModel := strong | eventual | causal.

Inductive CAPAlignment := CP | AP | CA.

Record ComponentDefinition := {
  category : ComponentCategory;
  maxThroughput : Q;
  baseLatency : Q;
  failureRateAtCapacity : Q;
  isHorizontallyScalable : bool;
  availabilitySLA : Q;
  consistencyModel : ConsistencyModel;
  capAlignment : CAPAlignment;
  costPerInstancePerMonth : Q
}.

Record NodeConfig := {
  label : string;
  replicas : Q;
  region : string
}.

(** [isAI] is optional in the source; an absent flag is falsy and is [false]
    here. The per-tick display fields (status, currentLoad, ...) are not read
    by the engine functions below. *)
Record SystemNodeData := {
  componentType : string;
  config : NodeConfig;
  isFailed : bool;
  isAI : bool
}.

Record Node := { node_id : string; data : SystemNodeData }.

Record Edge := { source : string; target : string }.

#[global] Instance category_eq_dec : EqDecision ComponentCategory.
Proof. solve_decision. Defined.

(** [n.data.config.replicas || 1] *)
Definition replicasOr1 (n : Node) : Q := Js.orElse (replicas (config (data n))) 1.

(** [nodes.find((n) => n.id === nid)] *)
Definition findNode (nodes : list Node) (nid : string) : option Node :=
  List.find (fun n => bool_decide (node_id n = nid)) nodes.

(** ** SimulationEngine.ts: propagateLoad *)

Module Propagation.

(** State of the [while (queue.length > 0)] loop. [forwarded] is a ghost
    field, never read by the loop: it logs, in order, each node id for which
    the body ran past the [visited] test, with the [incomingLoad] it read. *)
Record LoopState := {
  loadMap : gmap string Q;
  queue : list string;
  visited : gset string;
  forwarded : list (string * Q)
}.

(** First loop: [adj.set(node.id, []); inDegree.set(node.id, 0)]. *)
Definition initTables (nodes : list Node)
  : gmap string (list string) * gmap string nat :=
  fold_left
    (fun t n => (<[node_id n := []]> (fst t), <[node_id n := 0%nat]> (snd t)))
    nodes (∅, ∅).

(** Second loop: push the target on the source's list when the source is a
    node, and count the edge in the target's in-degree. *)
Definition addEdge (t : gmap string (list string) * gmap string nat) (e : Edge)
  : gmap string (list string) * gmap string nat :=
  let adj :=
    match fst t !! source e with
    | Some l => <[source e := l ++ [target e]]> (fst t)
    | None => fst t
    end in
  (adj, <[target e := (default 0%nat (snd t !! target e) + 1)%nat]> (snd t)).

Definition buildTables (nodes : list Node) (edges : list Edge) :=
  fold_left addEdge edges (initTables nodes).

Definition isSource (inDegree : gmap string nat) (n : Node) : bool :=
  Nat.eqb (default 0%nat (inDegree !! node_id n)) 0.

(** [for (const next of neighbors) { loadMap.set(next, (loadMap.get(next)
    || 0) + perNeighbor); queue.push(next); }] *)
Definition distribute (perNeighbor : Q) (neighbors : list string)
    (lm : gmap string Q) (q : list string) : gmap string Q * list string :=
  fold_left
    (fun s next => (<[next := (Js.getOr0 (fst s) next + perNeighbor)%Q]> (fst s),
                    snd s ++ [next]))
    neighbors (lm, q).

(** One iteration of the loop on a non-empty queue. *)
Definition step (adj : gmap string (list string)) (nodeId : string)
    (rest : list string) (st : LoopState) : LoopState :=
  if bool_decide (nodeId ∈ visited st) then
    {| loadMap := loadMap st; queue := rest;
       visited := visited st; forwarded := forwarded st |}
  else
    let incomingLoad := Js.getOr0 (loadMap st) nodeId in
    let neighbors := default [] (adj !! nodeId) in
    let '(lm, q) :=
      match neighbors with
      | [] => (loadMap st, rest)
      | _ :: _ =>
          distribute (incomingLoad / Js.ofNat (length neighbors))%Q
                     neighbors (loadMap st) rest
      end in
    {| loadMap := lm; queue := q;
       visited := {[nodeId]} ∪ visited st;
       forwarded := forwarded st ++ [(nodeId, incomingLoad)] |}.

Fixpoint loop (fuel : nat) (adj : gmap string (list string)) (st : LoopState)
  : option LoopState :=
  match queue st with
  | [] => Some st
  | nodeId :: rest =>
      match fuel with
      | O => None
      | S fuel' => loop fuel' adj (step adj nodeId rest st)
      end
  end.

(** Last loop: nodes that were never reached get load 0. *)
Definition fillUnreached (nodes : list Node) (lm : gmap string Q) : gmap string Q :=
  fold_left
    (fun m n => match m !! node_id n with
                | Some _ => m
                | None => <[node_id n := 0%Q]> m
                end)
    nodes lm.

Definition sourcesOf (nodes : list Node) (edges : list Edge) : list Node :=
  List.filter (isSource (snd (buildTables nodes edges))) nodes.

Definition perSourceOf (sources : list Node) (trafficLoad : Q) : Q :=
  if (0 <? length sources)%nat
  then (trafficLoad / Js.ofNat (length sources))%Q else 0%Q.

Definition initState (nodes : list Node) (edges : list Edge) (trafficLoad : Q)
  : LoopState :=
  let sources := sourcesOf nodes edges in
  let perSource := perSourceOf sources trafficLoad in
  {| loadMap := fold_left (fun m s => <[node_id s := perSource]> m) sources ∅;
     queue := map node_id sources;
     visited := ∅;
     forwarded := [] |}.

(** Iterations granted to the loop; [loop_fuel_enough] shows that they
    suffice on every graph. *)
Definition fuelFor (nodes : list Node) (edges : list Edge) : nat :=
  length nodes + length edges * length nodes.

(** The state in which the [while] loop ends. *)
Definition run (nodes : list Node) (edges : list Edge) (trafficLoad : Q)
  : option LoopState :=
  loop (fuelFor nodes edges) (fst (buildTables nodes edges))
       (initState nodes edges trafficLoad).

Definition propagateLoad (nodes : list Node) (edges : list Edge)
    (trafficLoad : Q) : option (gmap string Q) :=
  st ← run nodes edges trafficLoad;
  Some (fillUnreached nodes (loadMap st)).

End Propagation.


(** ** GraphTraversal.ts *)

(** [[...new Set(xs)]]: the first occurrence of each element, in order. *)
Fixpoint dedupFirst (seen : list string) (xs : list string) : list string :=
  match xs with
  | [] => []
  | x :: xs' =>
      if bool_decide (x ∈ seen) then dedupFirst seen xs'
      else x :: dedupFirst (x :: seen) xs'
  end.

(** A loop [for (x of l) { if (f x) { flag = true; break; } }] whose test may
    itself run a fuelled loop. *)
Fixpoint existsM {A : Type} (f : A -> option bool) (l : list A) : option bool :=
  match l with
  | [] => Some false
  | x :: l' =>
      match f x with
      | None => None
      | Some true => Some true
      | Some false => existsM f l'
      end
  end.

Record TopologyAnalysis := {
  criticalPath : list string;
  criticalPathLatency : Q;
  spofNodeIds : list string;
  bottleneckNodeId : option string;
  networkHops : nat;
  redundancyGroups : gmap string (list string);
  hasClients : bool;
  hasStorage : bool;
  hasCaches : bool;
  hasQueues : bool
}.

(** Build an adjacency list from the edges. *)
Definition buildAdjacencyList (edges : list Edge) : gmap string (list string) :=
  fold_left
    (fun adj e => <[source e := default [] (adj !! source e) ++ [target e]]> adj)
    edges ∅.

(** Build the reverse adjacency list. *)
Definition buildReverseAdjacency (edges : list Edge) : gmap string (list string) :=
  fold_left
    (fun rev e => <[target e := default [] (rev !! target e) ++ [source e]]> rev)
    edges ∅.

(** Source nodes: no incoming edges. *)
Definition findSourceNodes (nodes : list Node) (edges : list Edge) : list string :=
  let targets : gset string := list_to_set (map target edges) in
  map node_id (List.filter (fun n => negb (bool_decide (node_id n ∈ targets))) nodes).

(** Sink nodes: no outgoing edges. *)
Definition findSinkNodes (nodes : list Node) (edges : list Edge) : list string :=
  let sources : gset string := list_to_set (map source edges) in
  map node_id (List.filter (fun n => negb (bool_decide (node_id n ∈ sources))) nodes).

(** [new Map(nodes.map((n) => [n.id, n]))]: a later node replaces an earlier
    one with the same id. *)
Definition nodeMapOf (nodes : list Node) : gmap string Node :=
  fold_left (fun m n => <[node_id n := n]> m) nodes ∅.

(** The breadth-first search that findSPOFs runs, once on the adjacency
    without the candidate node and once on the whole adjacency:
    [while (queue.length > 0) { cur = queue.shift(); if (reachable.has(cur))
    continue; reachable.add(cur); for (next of adj.get(cur) || []) if
    (!reachable.has(next)) queue.push(next); }]. *)
Fixpoint bfs (fuel : nat) (adj : gmap string (list string))
    (queue : list string) (reachable : gset string) : option (gset string) :=
  match queue with
  | [] => Some reachable
  | cur :: rest =>
      match fuel with
      | O => None
      | S fuel' =>
          if bool_decide (cur ∈ reachable) then bfs fuel' adj rest reachable
          else
            let reachable' := {[cur]} ∪ reachable in
            bfs fuel' adj
                (rest ++ List.filter (fun next => negb (bool_decide (next ∈ reachable')))
                                     (default [] (adj !! cur)))
                reachable'
      end
  end.

(** Iterations granted to one search. *)
Definition bfsFuel (edges : list Edge) : nat := S (length edges * length edges).

(** Find the bottleneck and the rest of the analysis depend on the catalog. *)
Section GraphTraversal.
Variable COMPONENT_MAP : gmap string ComponentDefinition.

(** [COMPONENT_MAP.get(node.data.componentType)] *)
Definition defOf (n : Node) : option ComponentDefinition :=
  COMPONENT_MAP !! componentType (data n).

(** [def?.category === "clients" || def?.category === "observability"] *)
Definition isClientOrObservability (n : Node) : bool :=
  match defOf n with
  | Some d => bool_decide (category d = clients)
              || bool_decide (category d = observability)
  | None => false
  end.

Definition getNodeLatency (n : Node) : Q :=
  match defOf n with
  | Some d => baseLatency d
  | None => 10
  end.

(** The recursive search of findCriticalPath. [best] is the pair
    (bestPath, bestLatency) of the enclosing function; [path] and [visited]
    are restored by the source after each call ([path.pop()],
    [visited.delete(next)]), so each call gets its own value here. *)
Fixpoint dfs (fuel : nat) (nodeMap : gmap string Node)
    (adj : gmap string (list string)) (nodeId : string) (path : list string)
    (totalLatency : Q) (visited : gset string) (best : list string * Q)
  : option (list string * Q) :=
  match fuel with
  | O => None
  | S fuel' =>
      match nodeMap !! nodeId with
      | None => Some best
      | Some node =>
          let latency := (totalLatency + getNodeLatency node)%Q in
          let path' := path ++ [nodeId] in
          let neighbors := default [] (adj !! nodeId) in
          let unvisited :=
            List.filter (fun n => negb (bool_decide (n ∈ visited))) neighbors in
          match unvisited with
          | [] =>
              if Js.ltb (snd best) latency then Some (path', latency)
              else Some best
          | _ :: _ =>
              fold_left
                (fun acc next =>
                   match acc with
                   | None => None
                   | Some b =>
                       dfs fuel' nodeMap adj next path' latency
                           ({[next]} ∪ visited) b
                   end)
                unvisited (Some best)
          end
      end
  end.

(** Find the longest-latency path from any source to any sink. *)
Definition findCriticalPath (nodes : list Node) (edges : list Edge)
  : option (list string * Q) :=
  let adj := buildAdjacencyList edges in
  let nodeMap := nodeMapOf nodes in
  let sources := findSourceNodes nodes edges in
  match sources, nodes with
  | [], n0 :: _ => Some ([node_id n0], getNodeLatency n0)
  | _, _ =>
      match
        fold_left
          (fun acc src =>
             match acc with
             | None => None
             | Some b => dfs (S (length nodes)) nodeMap adj src [] 0 {[src]} b
             end)
          sources (Some ([], 0%Q))
      with
      | None => None
      | Some (bestPath, bestLatency) =>
          match bestPath, nodes with
          | [], n0 :: _ => Some ([node_id n0], getNodeLatency n0)
          | _, _ => Some (bestPath, bestLatency)
          end
      end
  end.

(** The adjacency with [nodeId] removed, as keys and as targets. *)
Definition remainingAdjOf (adj : gmap string (list string)) (nodeId : string)
  : gmap string (list string) :=
  List.filter (fun t => negb (bool_decide (t = nodeId))) <$> delete nodeId adj.

(** Does removing [nodeId] cut a sink off a source that reached it before? *)
Definition disconnectsGraph (edges : list Edge) (adj : gmap string (list string))
    (sources sinks : list string) (nodeId : string) : option bool :=
  let remainingAdj := remainingAdjOf adj nodeId in
  existsM
    (fun src =>
       if bool_decide (src = nodeId) then Some false
       else
         match bfs (bfsFuel edges) remainingAdj [src] ∅ with
         | None => None
         | Some reachable =>
             existsM
               (fun sink =>
                  if bool_decide (sink = nodeId) then Some false
                  else if bool_decide (sink ∈ reachable) then Some false
                  else
                    match bfs (bfsFuel edges) adj [src] ∅ with
                    | None => None
                    | Some origReachable =>
                        Some (bool_decide (sink ∈ origReachable))
                    end)
               sinks
         end)
    sources.

(** First loop of findSPOFs: the structural test on every candidate node. *)
Fixpoint cutVertexSPOFs (edges : list Edge) (adj : gmap string (list string))
    (sources sinks : list string) (candidates : list Node) (spofs : list string)
  : option (list string) :=
  match candidates with
  | [] => Some spofs
  | node :: rest =>
      if isClientOrObservability node then
        cutVertexSPOFs edges adj sources sinks rest spofs
      else if Js.ltb 1 (replicas (config (data node))) then
        cutVertexSPOFs edges adj sources sinks rest spofs
      else
        match disconnectsGraph edges adj sources sinks (node_id node) with
        | None => None
        | Some true =>
            cutVertexSPOFs edges adj sources sinks rest (spofs ++ [node_id node])
        | Some false => cutVertexSPOFs edges adj sources sinks rest spofs
        end
  end.

(** Second loop of findSPOFs: nodes on the critical path without replica. *)
Definition criticalPathSPOFs (nodes : list Node) (critPath : list string)
    (spofs : list string) : list string :=
  fold_left
    (fun spofs nid =>
       match findNode nodes nid with
       | None => spofs
       | Some node =>
           if isClientOrObservability node then spofs
           else if Js.leb (replicas (config (data node))) 1
                   && negb (bool_decide (nid ∈ spofs))
                then spofs ++ [nid]
                else spofs
       end)
    critPath spofs.

(** Identify SPOFs. *)
Definition findSPOFs (nodes : list Node) (edges : list Edge) : option (list string) :=
  if (length nodes <=? 1)%nat then Some (map node_id nodes)
  else
    let adj := buildAdjacencyList edges in
    let sources := findSourceNodes nodes edges in
    let sinks := findSinkNodes nodes edges in
    match cutVertexSPOFs edges adj sources sinks nodes [] with
    | None => None
    | Some spofs =>
        match findCriticalPath nodes edges with
        | None => None
        | Some (critPath, _) =>
            Some (dedupFirst [] (criticalPathSPOFs nodes critPath spofs))
        end
    end.

(** Effective capacity of a node with catalog entry [d]:
    [def.maxThroughput * (node.data.config.replicas || 1)]. *)
Definition capacityOf (d : ComponentDefinition) (n : Node) : Q :=
  (maxThroughput d * replicasOr1 n)%Q.

(** Find the bottleneck node on the critical path. [minThroughput] starts at
    [Infinity], which is [None] here. *)
Definition findBottleneck (nodes : list Node) (criticalPath : list string)
  : option string :=
  snd
    (fold_left
       (fun (acc : option Q * option string) nid =>
          match findNode nodes nid with
          | None => acc
          | Some node =>
              match defOf node with
              | None => acc
              | Some d =>
                  if bool_decide (category d = clients) then acc
                  else
                    let effectiveThroughput := capacityOf d node in
                    match fst acc with
                    | None => (Some effectiveThroughput, Some nid)
                    | Some minThroughput =>
                        if Js.ltb effectiveThroughput minThroughput
                        then (Some effectiveThroughput, Some nid)
                        else acc
                    end
              end
          end)
       criticalPath (None, None)).

(** Group nodes by component type. *)
Definition findRedundancyGroups (nodes : list Node) : gmap string (list string) :=
  fold_left
    (fun groups n =>
       let type := componentType (data n) in
       <[type := default [] (groups !! type) ++ [node_id n]]> groups)
    nodes ∅.

Definition typeCheck (nodes : list Node) (cats : list ComponentCategory) : bool :=
  existsb
    (fun n => match defOf n with
              | Some d => bool_decide (category d ∈ cats)
              | None => false
              end)
    nodes.

Definition cacheTypes : list string := ["redis-cache"; "memcached"].
Definition queueTypes : list string := ["message-queue"; "event-stream"; "pub-sub"].

Definition hasTypeIn (types : list string) (nodes : list Node) : bool :=
  existsb (fun n => bool_decide (componentType (data n) ∈ types)) nodes.

(** Full topology analysis. *)
Definition analyzeTopology (nodes : list Node) (edges : list Edge)
  : option TopologyAnalysis :=
  match nodes with
  | [] =>
      Some {| criticalPath := []; criticalPathLatency := 0;
              spofNodeIds := []; bottleneckNodeId := None; networkHops := 0;
              redundancyGroups := ∅; hasClients := false; hasStorage := false;
              hasCaches := false; hasQueues := false |}
  | _ :: _ =>
      match findCriticalPath nodes edges with
      | None => None
      | Some (path, latency) =>
          match findSPOFs nodes edges with
          | None => None
          | Some spofs =>
              Some {| criticalPath := path;
                      criticalPathLatency := latency;
                      spofNodeIds := spofs;
                      bottleneckNodeId := findBottleneck nodes path;
                      networkHops := length path - 1;
                      redundancyGroups := findRedundancyGroups nodes;
                      hasClients := typeCheck nodes [clients];
                      hasStorage := typeCheck nodes [storage];
                      hasCaches := hasTypeIn cacheTypes nodes;
                      hasQueues := hasTypeIn queueTypes nodes |}
          end
      end
  end.

End GraphTraversal.

(** ** MetricsCalculator.ts *)

(** The snapshot without its [timestamp] ([Date.now()]). *)
Record MetricSnapshot := {
  throughput : Q;
  latencyP50 : Q;
  latencyP95 : Q;
  latencyP99 : Q;
  availability : Q;
  errorRate : Q;
  metricsNetworkHops : nat;
  metricsConsistencyModel : string;
  cacheHitRate : option Q;
  dbReadWriteRatio : option Q;
  scalabilityScore : Q;
  monthlyCost : Q;
  queueDepth : option Q;
  capState : string
}.

Definition capLabel (a : CAPAlignment) : string :=
  match a with CP => "CP" | AP => "AP" | CA => "CA" end.

(** [xs.join(" + ")] *)
Fixpoint joinPlus (xs : list string) : string :=
  match xs with
  | [] => ""
  | [x] => x
  | x :: xs' => x +:+ " + " +:+ joinPlus xs'
  end.

(** The error term of one node at load [trafficLoad] and capacity
    [capacity]. The division [trafficLoad / capacity] by a zero capacity is
    written out: the source gets [Infinity] for a positive load, which exceeds
    1 and makes the term [Math.min(1, Infinity)], and [-Infinity] or [NaN]
    otherwise, for which both comparisons are false. *)
Definition errorTerm (failureRate trafficLoad capacity : Q) : Q :=
  if Js.eqb capacity 0 then
    if Js.ltb 0 trafficLoad then 1 else 0
  else
    let loadRatio := (trafficLoad / capacity)%Q in
    if Js.ltb 1 loadRatio then
      Qmin 1 (failureRate + (loadRatio - 1) * 0.5)
    else if Js.ltb 0.8 loadRatio then
      (failureRate * ((loadRatio - 0.8) / 0.2))%Q
    else 0%Q.

Section MetricsCalculator.
Variable COMPONENT_MAP : gmap string ComponentDefinition.

(** The loop of computeThroughput; [None] is [Infinity]. *)
Definition minCapacityOn (nodes : list Node) (path : list string) : option Q :=
  fold_left
    (fun (minCapacity : option Q) nid =>
       match findNode nodes nid with
       | None => minCapacity
       | Some node =>
           match defOf COMPONENT_MAP node with
           | None => minCapacity
           | Some d =>
               if bool_decide (category d = clients) then minCapacity
               else
                 let capacity := capacityOf d node in
                 match minCapacity with
                 | None => Some capacity
                 | Some m => if Js.ltb capacity m then Some capacity else Some m
                 end
           end
       end)
    path None.

(** Throughput = min capacity along the critical path. *)
Definition computeThroughput (nodes : list Node) (topology : TopologyAnalysis)
    (trafficLoad : Q) : Q :=
  match criticalPath topology with
  | [] => 0
  | _ :: _ =>
      match minCapacityOn nodes (criticalPath topology) with
      | None => trafficLoad
      | Some minCapacity => Qmin trafficLoad minCapacity
      end
  end.

(** The loop of computeLatency: base latencies of the catalogued nodes. *)
Definition baseLatencyOn (nodes : list Node) (path : list string) : Q :=
  fold_left
    (fun (totalLatency : Q) nid =>
       match findNode nodes nid with
       | None => totalLatency
       | Some node =>
           match defOf COMPONENT_MAP node with
           | None => totalLatency
           | Some d => (totalLatency + baseLatency d)%Q
           end
       end)
    path 0%Q.

(** Latency = sum of base latencies on the critical path + hop overhead. *)
Definition computeLatency (nodes : list Node) (topology : TopologyAnalysis)
  : Q * Q * Q :=
  match criticalPath topology with
  | [] => (0, 0, 0)%Q
  | _ :: _ =>
      let totalLatency :=
        (baseLatencyOn nodes (criticalPath topology)
         + Js.ofNat (networkHops topology) * 2)%Q in
      let totalLatency :=
        if hasTypeIn cacheTypes nodes then (totalLatency * 0.6)%Q
        else totalLatency in
      (inject_Z (Js.round totalLatency),
       inject_Z (Js.round (totalLatency * 1.4)),
       inject_Z (Js.round (totalLatency * 2.1)))
  end.

(** The loop of computeAvailability. *)
Definition unavailabilityOf (nodes : list Node) (spofs : list string) : Q :=
  fold_left
    (fun (unavailability : Q) spofId =>
       match findNode nodes spofId with
       | None => unavailability
       | Some node =>
           match defOf COMPONENT_MAP node with
           | None => unavailability
           | Some d => (unavailability * (1 - availabilitySLA d))%Q
           end
       end)
    spofs 1%Q.

(** Availability = 1 - product of unavailability for each SPOF. *)
Definition computeAvailability (nodes : list Node) (topology : TopologyAnalysis)
  : Q :=
  match nodes with
  | [] => 0
  | _ :: _ =>
      match spofNodeIds topology with
      | [] => 0.99999
      | _ :: _ => Qmin 0.99999 (1 - unavailabilityOf nodes (spofNodeIds topology))
      end
  end.

(** The loop of computeErrorRate. *)
Definition maxErrorRateOn (nodes : list Node) (path : list string)
    (trafficLoad : Q) : Q :=
  fold_left
    (fun (maxErrorRate : Q) nid =>
       match findNode nodes nid with
       | None => maxErrorRate
       | Some node =>
           match defOf COMPONENT_MAP node with
           | None => maxErrorRate
           | Some d =>
               if bool_decide (category d = clients) then maxErrorRate
               else
                 let errorRate :=
                   errorTerm (failureRateAtCapacity d) trafficLoad
                             (capacityOf d node) in
                 if Js.ltb maxErrorRate errorRate then errorRate
                 else maxErrorRate
           end
       end)
    path 0%Q.

(** [criticalPath.some((nid) => nodes.find(...)?.data.isFailed)] *)
Definition failedOnPath (nodes : list Node) (path : list string) : bool :=
  existsb
    (fun nid => match findNode nodes nid with
                | Some node => isFailed (data node)
                | None => false
                end)
    path.

(** Error rate under load. *)
Definition computeErrorRate (nodes : list Node) (topology : TopologyAnalysis)
    (trafficLoad : Q) : Q :=
  match criticalPath topology with
  | [] => 0
  | _ :: _ =>
      let maxErrorRate :=
        maxErrorRateOn nodes (criticalPath topology) trafficLoad in
      if failedOnPath nodes (criticalPath topology) then 1
      else (inject_Z (Js.round (maxErrorRate * 10000)) / 10000)%Q
  end.

Definition storageNodes (nodes : list Node) : list Node :=
  List.filter
    (fun n => match defOf COMPONENT_MAP n with
              | Some d => bool_decide (category d = storage)
              | None => false
              end)
    nodes.

(** Consistency = most relaxed model among the storage nodes. *)
Definition computeConsistency (nodes : list Node) : string :=
  match storageNodes nodes with
  | [] => "N/A"
  | sn =>
      let models :=
        map (fun n => match defOf COMPONENT_MAP n with
                      | Some d => consistencyModel d
                      | None => eventual
                      end) sn in
      if existsb (fun m => match m with eventual => true | _ => false end) models
      then "Eventual"
      else if existsb (fun m => match m with causal => true | _ => false end) models
      then "Causal"
      else "Strong"
  end.

(** CAP state derived from the storage nodes. *)
Definition computeCAPState (nodes : list Node) : string :=
  match storageNodes nodes with
  | [] => "N/A"
  | sn =>
      let alignments :=
        dedupFirst []
          (map (fun n => match defOf COMPONENT_MAP n with
                         | Some d => capLabel (capAlignment d)
                         | None => "AP"
                         end) sn) in
      match alignments with
      | [a] => a
      | _ =>
          if bool_decide ("CP" ∈ alignments) && bool_decide ("AP" ∈ alignments)
          then "CP + AP (mixed)"
          else joinPlus alignments
      end
  end.

(** Cache hit rate (simulated). *)
Definition computeCacheHitRate (nodes : list Node) (topology : TopologyAnalysis)
  : option Q :=
  if hasCaches topology then
    let cacheNodes :=
      List.filter (fun n => bool_decide (componentType (data n) ∈ cacheTypes))
                  nodes in
    let totalReplicas :=
      fold_left (fun sum n => (sum + replicasOr1 n)%Q) cacheNodes 0%Q in
    Some (Qmin 0.95 (0.8 + totalReplicas * 0.02))
  else None.

(** DB read/write ratio. *)
Definition computeDBReadWriteRatio (nodes : list Node) : option Q :=
  let hasDB :=
    existsb
      (fun n =>
         match defOf COMPONENT_MAP n with
         | Some d =>
             bool_decide (category d = storage)
             && negb (bool_decide (componentType (data n)
                                     ∈ ["redis-cache"; "memcached"; "object-storage"]))
         | None => false
         end)
      nodes in
  if hasDB then Some 0.8%Q else None.

(** Scalability score 0-100. *)
Definition computeScalabilityScore (nodes : list Node)
    (topology : TopologyAnalysis) : Q :=
  match nodes with
  | [] => 0
  | _ :: _ =>
      let nonClientNodes :=
        List.filter
          (fun n => match defOf COMPONENT_MAP n with
                    | Some d => negb (bool_decide (category d = clients))
                    | None => false
                    end)
          nodes in
      match nonClientNodes with
      | [] => 0
      | _ :: _ =>
          let scalableRatio :=
            (Js.ofNat
               (length
                  (List.filter
                     (fun n => match defOf COMPONENT_MAP n with
                               | Some d => isHorizontallyScalable d
                               | None => false
                               end)
                     nonClientNodes))
             / Js.ofNat (length nonClientNodes))%Q in
          let score := (50 + scalableRatio * 20)%Q in
          let score :=
            if hasTypeIn ["load-balancer"] nodes then (score + 10)%Q else score in
          let score := if hasCaches topology then (score + 10)%Q else score in
          let score :=
            (score - Js.ofNat (length (spofNodeIds topology)) * 5)%Q in
          let avgReplicas :=
            (fold_left (fun s n => (s + replicasOr1 n)%Q) nonClientNodes 0%Q
             / Js.ofNat (length nonClientNodes))%Q in
          let score :=
            if Js.ltb 1 avgReplicas
            then (score + Qmin 10 ((avgReplicas - 1) * 5))%Q else score in
          Qmax 0 (Qmin 100 (inject_Z (Js.round score)))
      end
  end.

(** Monthly cost. *)
Definition computeMonthlyCost (nodes : list Node) : Q :=
  fold_left
    (fun (total : Q) node =>
       match defOf COMPONENT_MAP node with
       | None => total
       | Some d => (total + costPerInstancePerMonth d * replicasOr1 node)%Q
       end)
    nodes 0%Q.

(** Queue depth (simulated). *)
Definition computeQueueDepth (topology : TopologyAnalysis)
    (trafficLoad throughput : Q) : option Q :=
  if hasQueues topology then
    let overflow := Qmax 0 (trafficLoad - throughput) in
    Some (inject_Z (Js.round (overflow * 0.1)))
  else None.

(** Compute all system metrics from the topology and the traffic load. *)
Definition computeMetrics (nodes : list Node) (edges : list Edge)
    (trafficLoad : Q) : option MetricSnapshot :=
  match analyzeTopology COMPONENT_MAP nodes edges with
  | None => None
  | Some topology =>
      let throughput := computeThroughput nodes topology trafficLoad in
      let '(p50, p95, p99) := computeLatency nodes topology in
      Some {| throughput := throughput;
              latencyP50 := p50;
              latencyP95 := p95;
              latencyP99 := p99;
              availability := computeAvailability nodes topology;
              errorRate := computeErrorRate nodes topology trafficLoad;
              metricsNetworkHops := networkHops topology;
              metricsConsistencyModel := computeConsistency nodes;
              cacheHitRate := computeCacheHitRate nodes topology;
              dbReadWriteRatio := computeDBReadWriteRatio nodes;
              scalabilityScore := computeScalabilityScore nodes topology;
              monthlyCost := computeMonthlyCost nodes;
              queueDepth := computeQueueDepth topology trafficLoad throughput;
              capState := computeCAPState nodes |}
  end.

End MetricsCalculator.

(** ** ValidationContext.ts *)

Inductive ScaleTier := prototype | startup | growth | scale | enterprise.

#[global] Instance scale_tier_eq_dec : EqDecision ScaleTier.
Proof. solve_decision. Defined.

Record ScaleTierSignals := {
  trafficTier : ScaleTier;
  complexityTier : ScaleTier;
  componentTier : ScaleTier;
  scenarioTier : option ScaleTier;
  resolvedTier : ScaleTier
}.

Record ContextThresholds := {
  maxAcceptableP99Ms : Q;
  minAcceptableAvailability : Q;
  replicasRequiredForHA : Q;
  requiresLoadBalancer : bool;
  requiresCache : bool;
  requiresObservability : bool;
  requiresGuardrails : bool
}.

Inductive ContextMode := learning | scenarioMode | freeform.

Record ValidationContext := {
  currentRPS : Q;
  trafficPattern : string;
  scaleTier : ScaleTier;
  scaleTierLabel : string;
  scaleTierSignals : ScaleTierSignals;
  mode : ContextMode;
  scenarioName : option string;
  componentCount : nat;
  hasAIComponents : bool;
  isMonolith : bool;
  thresholds : ContextThresholds
}.

(** The fields of a scenario that the resolver reads. *)
Record ScenarioTargets := {
  minAvailability : option Q;
  maxLatencyP95 : option Q
}.

Record ScenarioDefinition := {
  scenario_id : string;
  scenario_name : string;
  targets : ScenarioTargets
}.

Definition TIER_LABELS (t : ScaleTier) : string :=
  match t with
  | prototype => "Prototype (≤500 req/s)"
  | startup => "Startup (500–5K req/s)"
  | growth => "Growth (5K–50K req/s)"
  | scale => "At Scale (50K–500K req/s)"
  | enterprise => "Enterprise / Internet Scale (500K+ req/s)"
  end.

Definition TIER_THRESHOLDS (t : ScaleTier) : ContextThresholds :=
  match t with
  | prototype =>
      {| maxAcceptableP99Ms := 2000; minAcceptableAvailability := 0.95;
         replicasRequiredForHA := 1; requiresLoadBalancer := false;
         requiresCache := false; requiresObservability := false;
         requiresGuardrails := false |}
  | startup =>
      {| maxAcceptableP99Ms := 1000; minAcceptableAvailability := 0.99;
         replicasRequiredForHA := 1; requiresLoadBalancer := false;
         requiresCache := false; requiresObservability := false;
         requiresGuardrails := false |}
  | growth =>
      {| maxAcceptableP99Ms := 500; minAcceptableAvailability := 0.999;
         replicasRequiredForHA := 2; requiresLoadBalancer := true;
         requiresCache := true; requiresObservability := false;
         requiresGuardrails := false |}
  | scale =>
      {| maxAcceptableP99Ms := 200; minAcceptableAvailability := 0.9999;
         replicasRequiredForHA := 2; requiresLoadBalancer := true;
         requiresCache := true; requiresObservability := true;
         requiresGuardrails := true |}
  | enterprise =>
      {| maxAcceptableP99Ms := 100; minAcceptableAvailability := 0.99999;
         replicasRequiredForHA := 3; requiresLoadBalancer := true;
         requiresCache := true; requiresObservability := true;
         requiresGuardrails := true |}
  end.

(** Signal 1: traffic. *)
Definition trafficToTier (rps : Q) : ScaleTier :=
  if Js.leb rps 500 then prototype
  else if Js.leb rps 5000 then startup
  else if Js.leb rps 50000 then growth
  else if Js.leb rps 500000 then scale
  else enterprise.

Definition serverTypes : list string :=
  ["api-server"; "web-server"; "microservice"; "serverless-function";
   "container-pod"].

(** [types.filter((t) => list.includes(t)).length] *)
Definition countIn (list types : list string) : nat :=
  length (List.filter (fun t => bool_decide (t ∈ list)) types).

(** [types.some((t) => list.includes(t))] *)
Definition someIn (list types : list string) : bool :=
  existsb (fun t => bool_decide (t ∈ list)) types.

(** Signal 2: architecture complexity. *)
Definition architectureComplexityTier (nodes : list Node) (edges : list Edge)
  : ScaleTier :=
  let nodeCount := length nodes in
  let edgeCount := length edges in
  let types := map (fun n => componentType (data n)) nodes in
  let hasMultipleServices := (3 <=? countIn serverTypes types)%nat in
  let hasServiceMesh := (5 <=? countIn serverTypes types)%nat in
  let dbTypeSet :=
    dedupFirst []
      (List.filter
         (fun t => bool_decide
                     (t ∈ ["postgresql"; "mysql"; "mongodb"; "cassandra"; "dynamodb"]))
         types) in
  let hasMultipleDBTypes := (2 <=? length dbTypeSet)%nat in
  let hasMessageQueue :=
    someIn ["kafka"; "message-queue"; "pub-sub"; "event-stream"] types in
  let hasCDN := bool_decide ("cdn" ∈ types) in
  let regions :=
    List.filter (fun r => negb (String.eqb r ""))
                (map (fun n => region (config (data n))) nodes) in
  let hasMultipleRegions := (2 <=? length (dedupFirst [] regions))%nat in
  let hasMLOps :=
    someIn ["training-cluster"; "model-registry"; "feature-store"; "drift-detector"]
           types in
  let obsCount :=
    countIn ["metrics-collector"; "log-aggregator"; "distributed-tracer"] types in
  let hasObservabilityStack := (2 <=? obsCount)%nat in
  let advancedAICount :=
    countIn ["agent-orchestrator"; "rag-pipeline"; "model-router"; "llm-observability"]
            types in
  let hasAdvancedAI := (2 <=? advancedAICount)%nat in
  let score :=
    ((if (4 <=? nodeCount) then 1 else 0)
     + (if (8 <=? nodeCount) then 1 else 0)
     + (if (14 <=? nodeCount) then 2 else 0)
     + (if (20 <=? nodeCount) then 2 else 0)
     + (if (8 <=? edgeCount) then 1 else 0)
     + (if hasMultipleServices then 2 else 0)
     + (if hasServiceMesh then 2 else 0)
     + (if hasMultipleDBTypes then 1 else 0)
     + (if hasMessageQueue then 2 else 0)
     + (if hasCDN then 2 else 0)
     + (if hasMultipleRegions then 3 else 0)
     + (if hasMLOps then 3 else 0)
     + (if hasObservabilityStack then 2 else 0)
     + (if hasAdvancedAI then 2 else 0))%nat in
  if (12 <=? score)%nat then enterprise
  else if (8 <=? score)%nat then scale
  else if (5 <=? score)%nat then growth
  else if (2 <=? score)%nat then startup
  else prototype.

(** Signal 3: scenario. *)
Definition scenarioToTier (scenarioId : string) : ScaleTier :=
  let map : list (string * ScaleTier) :=
    [("basic-web-app", startup); ("design-twitter", enterprise);
     ("netflix-streaming", enterprise); ("ride-sharing", scale);
     ("url-shortener", growth); ("flash-sale", scale);
     ("distributed-database", scale); ("build-chatgpt", enterprise);
     ("rag-enterprise", scale); ("multi-agent", scale);
     ("fraud-detection", enterprise); ("scale-llm-100m", enterprise)] in
  match List.find (fun p => String.eqb (fst p) scenarioId) map with
  | Some p => snd p
  | None => startup
  end.

(** Signal 4: component mix. *)
Definition componentMixTier (nodes : list Node) : ScaleTier :=
  let types := map (fun n => componentType (data n)) nodes in
  let enterpriseIndicators :=
    ["training-cluster"; "drift-detector"; "ab-test-controller"; "feature-store";
     "data-warehouse"] in
  let scaleIndicators :=
    ["kafka"; "cdn"; "distributed-tracer"; "llm-observability"; "model-registry";
     "agent-orchestrator"] in
  let growthIndicators :=
    ["message-queue"; "api-gateway"; "reverse-proxy"; "metrics-collector";
     "rag-pipeline"; "event-stream"; "pub-sub"] in
  if someIn enterpriseIndicators types then enterprise
  else if someIn scaleIndicators types then scale
  else if someIn growthIndicators types then growth
  else prototype.

(** [TIER_ORDER.indexOf(t)] *)
Definition tierIndex (t : ScaleTier) : nat :=
  match t with
  | prototype => 0 | startup => 1 | growth => 2 | scale => 3 | enterprise => 4
  end.

(** The maximum of the signals; a [null] signal is skipped. *)
Definition maxTier (tiers : list (option ScaleTier)) : ScaleTier :=
  fold_left
    (fun best t =>
       match t with
       | Some t' => if (tierIndex best <? tierIndex t')%nat then t' else best
       | None => best
       end)
    tiers prototype.

Definition dbTypes : list string :=
  ["postgresql"; "mysql"; "mongodb"; "cassandra"; "dynamodb"].

Definition resolveValidationContext (nodes : list Node) (edges : list Edge)
    (_metrics : MetricSnapshot) (trafficLoad : Q) (trafficPattern : string)
    (activeScenario : option ScenarioDefinition) : ValidationContext :=
  let componentCount := length nodes in
  let hasAI := existsb (fun n => isAI (data n)) nodes in
  let serverNodes :=
    List.filter (fun n => bool_decide (componentType (data n) ∈ serverTypes)) nodes in
  let dbNodes :=
    List.filter (fun n => bool_decide (componentType (data n) ∈ dbTypes)) nodes in
  let isMonolith := (length serverNodes <=? 1)%nat && (length dbNodes <=? 1)%nat in
  let trafficTier := trafficToTier trafficLoad in
  let complexityTier := architectureComplexityTier nodes edges in
  let componentTier := componentMixTier nodes in
  let scenTier := option_map (fun s => scenarioToTier (scenario_id s)) activeScenario in
  let scaleTier :=
    maxTier [Some trafficTier; Some complexityTier; Some componentTier; scenTier] in
  let signals :=
    {| trafficTier := trafficTier; complexityTier := complexityTier;
       componentTier := componentTier; scenarioTier := scenTier;
       resolvedTier := scaleTier |} in
  let defaults := TIER_THRESHOLDS scaleTier in
  let scenarioTargets := option_map targets activeScenario in
  let thresholds :=
    {| maxAcceptableP99Ms :=
         default (maxAcceptableP99Ms defaults)
                 (scenarioTargets ≫= maxLatencyP95);
       minAcceptableAvailability :=
         default (minAcceptableAvailability defaults)
                 (scenarioTargets ≫= minAvailability);
       replicasRequiredForHA := replicasRequiredForHA defaults;
       requiresLoadBalancer := requiresLoadBalancer defaults;
       requiresCache := requiresCache defaults;
       requiresObservability := requiresObservability defaults;
       requiresGuardrails := requiresGuardrails defaults |} in
  {| currentRPS := trafficLoad;
     trafficPattern := trafficPattern;
     scaleTier := scaleTier;
     scaleTierLabel := TIER_LABELS scaleTier;
     scaleTierSignals := signals;
     mode := match activeScenario with Some _ => scenarioMode | None => freeform end;
     scenarioName := option_map scenario_name activeScenario;
     componentCount := componentCount;
     hasAIComponents := hasAI;
     isMonolith := isMonolith;
     thresholds := thresholds |}.

(** ** ArchitectureValidator.ts *)

Inductive CheckOutcome := pass | advisory | fail.
Inductive Severity := critical | warning | info.

#[global] Instance outcome_eq_dec : EqDecision CheckOutcome.
Proof. solve_decision. Defined.
#[global] Instance severity_eq_dec : EqDecision Severity.
Proof. solve_decision. Defined.

(** A check without its explanatory texts ([contextNote], [explanation],
    [fix], [advisoryNote]) and its [scaleTierTrigger] hint, which no
    computation reads. *)
Record ValidationCheck := {
  check_id : string;
  check_name : string;
  outcome : CheckOutcome;
  severity : Severity;
  scoreImpact : Q
}.

(** [score] is the result of [Math.round] or the literal 100: an integer. *)
Record ValidationDimension := {
  dim_id : string;
  dim_name : string;
  score : Z;
  checks : list ValidationCheck
}.

Inductive Grade := gradeA | gradeB | gradeC | gradeD | gradeF.

(** The report without [verdict] (a display text chosen by computeVerdict)
    and [generatedAt] ([Date.now()]). *)
Record ValidationReport := {
  overallScore : Z;
  grade : Grade;
  context : ValidationContext;
  dimensions : list ValidationDimension;
  topIssues : list ValidationCheck;
  strengths : list string
}.

Definition mkCheck (i name : string) (o : CheckOutcome) (s : Severity)
    (impact : Q) : ValidationCheck :=
  {| check_id := i; check_name := name; outcome := o; severity := s;
     scoreImpact := impact |}.

(** A count inside a template literal. *)
Definition natStr (n : nat) : string := NilZero.string_of_uint (Nat.to_uint n).

(** An integer inside a template literal. *)
Definition intStr (z : Z) : string := NilZero.string_of_int (Z.to_int z).

Definition hasType (nodes : list Node) (types : list string) : bool :=
  existsb (fun n => bool_decide (componentType (data n) ∈ types)) nodes.

Definition nodesOfType (nodes : list Node) (types : list string) : list Node :=
  List.filter (fun n => bool_decide (componentType (data n) ∈ types)) nodes.

Definition sumImpact (cs : list ValidationCheck) : Q :=
  fold_left (fun s c => (s + scoreImpact c)%Q) cs 0%Q.

Definition dimScore (checks : list ValidationCheck) : Z :=
  match checks with
  | [] => 100
  | _ :: _ =>
      let total := sumImpact checks in
      if Js.eqb total 0 then 100%Z
      else
        let earned :=
          sumImpact (List.filter (fun c => bool_decide (outcome c = pass)) checks) in
        let advisory :=
          fold_left (fun s c => (s + scoreImpact c * 0.7)%Q)
            (List.filter (fun c => bool_decide (outcome c = advisory)) checks)
            0%Q in
        Js.round ((earned + advisory) / total * 100)
  end.

Definition validatorDbTypes : list string :=
  ["postgresql"; "mongodb"; "mysql"; "cassandra"; "dynamodb"].

Definition clientTypes : list string :=
  ["web-client"; "mobile-client"; "api-consumer"].

Definition isLowTier (ctx : ValidationContext) : bool :=
  bool_decide (scaleTier ctx = prototype) || bool_decide (scaleTier ctx = startup).

(** *** Reliability *)

Definition plural (n : nat) (s : string) : string :=
  if (1 <? n)%nat then s else "".

Definition spofCheck (spofNodeIds : list string) (ctx : ValidationContext)
  : ValidationCheck :=
  let spofCount := length spofNodeIds in
  if (spofCount =? 0)%nat then
    mkCheck "rel-no-spof" "No Single Points of Failure" pass critical 40
  else if isLowTier ctx then
    mkCheck "rel-spof-advisory"
      (natStr spofCount +:+ " Single Point" +:+ plural spofCount "s" +:+ " of Failure")
      advisory warning 10
  else
    mkCheck "rel-spof-fail"
      (natStr spofCount +:+ " Critical SPOF" +:+ plural spofCount "s")
      fail critical 40.

(** The block "Database Replica" of checkReliability; it pushes at most one
    check. *)
Definition dbReplicaCheck (nodes : list Node) (ctx : ValidationContext)
  : list ValidationCheck :=
  let dbNodes := nodesOfType nodes validatorDbTypes in
  let hasDBReplica :=
    (2 <=? length dbNodes)%nat
    || existsb (fun n => Js.leb 2 (replicas (config (data n)))) dbNodes in
  match dbNodes with
  | [] => []
  | _ :: _ =>
      if hasDBReplica then
        [mkCheck "rel-db-replica" "Database Replica Present" pass warning 20]
      else if Js.leb (replicasRequiredForHA (thresholds ctx)) 1 then
        [mkCheck "rel-db-replica-adv" "Database Has No Replica" advisory info 5]
      else
        [mkCheck "rel-db-replica-fail" "Database Lacks Replica" fail critical 25]
  end.

Definition sumReplicas (l : list Node) : Q :=
  fold_left (fun s n => (s + replicas (config (data n)))%Q) l 0%Q.

Definition loadBalancerCheck (nodes : list Node) (ctx : ValidationContext)
  : ValidationCheck :=
  let hasLB := hasType nodes ["load-balancer"; "api-gateway"; "reverse-proxy"] in
  let serverCount := length (nodesOfType nodes serverTypes) in
  let totalServerReplicas := sumReplicas (nodesOfType nodes serverTypes) in
  if hasLB then
    mkCheck "rel-lb" "Load Balancer Present" pass warning 20
  else if (1 <? serverCount)%nat || Js.ltb 1 totalServerReplicas then
    mkCheck "rel-lb-fail" "Multiple Servers Without Load Balancer" fail critical 30
  else if negb (requiresLoadBalancer (thresholds ctx)) then
    mkCheck "rel-lb-adv" "No Load Balancer" advisory info 0
  else
    mkCheck "rel-lb-rec" "No Load Balancer" advisory warning 15.

Definition connectedCheck (nodes : list Node) (edges : list Edge)
  : ValidationCheck :=
  let disconnected :=
    List.filter
      (fun n =>
         negb (existsb
                 (fun e => bool_decide (source e = node_id n)
                           || bool_decide (target e = node_id n))
                 edges))
      nodes in
  mkCheck "rel-connected" "All Components Connected"
    (if (length disconnected =? 0)%nat then pass else fail) warning 15.

Definition checkReliability (nodes : list Node) (edges : list Edge)
    (spofNodeIds : list string) (ctx : ValidationContext) : ValidationDimension :=
  let checks :=
    [spofCheck spofNodeIds ctx] ++ dbReplicaCheck nodes ctx
    ++ [loadBalancerCheck nodes ctx] ++ [connectedCheck nodes edges] in
  {| dim_id := "reliability"; dim_name := "Reliability & Availability";
     score := dimScore checks; checks := checks |}.

(** *** Performance *)

Definition checkPerformance (nodes : list Node) (metrics : MetricSnapshot)
    (ctx : ValidationContext) : ValidationDimension :=
  let p99 := latencyP99 metrics in
  let threshold := maxAcceptableP99Ms (thresholds ctx) in
  let latency :=
    if Js.leb p99 (threshold * 0.5) then
      mkCheck "perf-latency" "Latency Excellent" pass info 30
    else if Js.leb p99 threshold then
      mkCheck "perf-latency" "Latency Within Target" pass info 20
    else
      mkCheck "perf-latency" "P99 Latency Exceeds Target" fail
        (if Js.ltb (threshold * 2) p99 then critical else warning) 30 in
  let errorRate := errorRate metrics in
  let errors :=
    if Js.ltb errorRate 0.001 then
      mkCheck "perf-errors" "Error Rate Excellent" pass info 25
    else if Js.ltb errorRate 0.01 then
      mkCheck "perf-errors" "Error Rate Acceptable" pass info 15
    else
      mkCheck "perf-errors" "High Error Rate" fail
        (if Js.ltb 0.05 errorRate then critical else warning) 25 in
  let hasCache := hasType nodes ["redis-cache"; "memcached"; "prompt-cache"] in
  let hasDB := hasType nodes validatorDbTypes in
  let dbReadRatio := default 0.5%Q (dbReadWriteRatio metrics) in
  let cache :=
    if hasCache then
      mkCheck "perf-cache" "Cache Layer Present" pass info 15
    else if negb (requiresCache (thresholds ctx)) || negb hasDB then
      mkCheck "perf-cache" "No Cache Layer" advisory info 0
    else
      mkCheck "perf-cache"
        ("No Cache Layer — " +:+ intStr (Js.round (dbReadRatio * 100))
         +:+ "% DB reads")
        fail warning 15 in
  let cdn :=
    if hasType nodes ["cdn"] then
      mkCheck "perf-cdn" "CDN for Edge Caching" pass info 10
    else if isLowTier ctx then
      mkCheck "perf-cdn" "No CDN" advisory info 0
    else
      mkCheck "perf-cdn" "No CDN" advisory warning 10 in
  let checks := [latency; errors; cache; cdn] in
  {| dim_id := "performance"; dim_name := "Performance & Scalability";
     score := dimScore checks; checks := checks |}.

(** *** Data integrity *)

(** [edges.some((e) => clientIds.has(e.source) && dbIds.has(e.target))] *)
Definition directClientToDB (nodes : list Node) (edges : list Edge) : bool :=
  let clientIds := map node_id (nodesOfType nodes clientTypes) in
  let dbIds := map node_id (nodesOfType nodes validatorDbTypes) in
  existsb
    (fun e => bool_decide (source e ∈ clientIds) && bool_decide (target e ∈ dbIds))
    edges.

Definition checkDataIntegrity (nodes : list Node) (edges : list Edge)
    (ctx : ValidationContext) : ValidationDimension :=
  let dbNodes := nodesOfType nodes validatorDbTypes in
  let store :=
    mkCheck "data-store" "Data Store Present"
      (if (0 <? length dbNodes)%nat then pass else fail) critical 30 in
  let directDB := directClientToDB nodes edges in
  let noDirect :=
    mkCheck "data-no-direct" "No Direct Client-to-DB Connection"
      (if directDB then fail else pass) critical 25 in
  let hasObjStore := hasType nodes ["object-storage"] in
  let backup :=
    if hasObjStore || (2 <=? length dbNodes)%nat then
      mkCheck "data-backup" "Backup Path Exists" pass warning 20
    else if isLowTier ctx then
      mkCheck "data-backup" "No Backup Storage" advisory info 5
    else
      mkCheck "data-backup" "No Backup Storage" fail warning 20 in
  let checks := [store; noDirect; backup] in
  {| dim_id := "dataIntegrity"; dim_name := "Data Integrity & Consistency";
     score := dimScore checks; checks := checks |}.

(** *** Security *)

Definition checkSecurity (nodes : list Node) (edges : list Edge)
    (ctx : ValidationContext) : ValidationDimension :=
  let gw :=
    if hasType nodes ["api-gateway"] then
      mkCheck "sec-gw" "API Gateway Present" pass warning 30
    else if bool_decide (scaleTier ctx = prototype) then
      mkCheck "sec-gw" "No API Gateway" advisory info 0
    else
      mkCheck "sec-gw" "No API Gateway" advisory warning 15 in
  let waf :=
    if hasType nodes ["firewall-waf"] then
      mkCheck "sec-waf" "WAF / Firewall Present" pass warning 25
    else if isLowTier ctx then
      mkCheck "sec-waf" "No WAF/Firewall" advisory info 0
    else
      mkCheck "sec-waf" "No WAF/Firewall" advisory warning 15 in
  let directDB := directClientToDB nodes edges in
  let exposure :=
    if negb directDB then
      mkCheck "sec-no-direct-db" "No Direct DB Exposure" pass critical 25
    else
      mkCheck "sec-no-direct-db" "Database Directly Exposed" fail critical 25 in
  let hasTLS :=
    hasType nodes ["cdn"; "api-gateway"; "reverse-proxy"; "load-balancer"] in
  let tls :=
    mkCheck "sec-tls" "TLS Termination"
      (if hasTLS then pass
       else if bool_decide (scaleTier ctx = prototype) then advisory else advisory)
      info (if hasTLS then 10 else 5) in
  let checks := [gw; waf; exposure; tls] in
  {| dim_id := "security"; dim_name := "Security & Compliance";
     score := dimScore checks; checks := checks |}.

(** *** Observability *)

Definition checkObservability (nodes : list Node) (ctx : ValidationContext)
  : ValidationDimension :=
  let metricsCheck :=
    if hasType nodes ["metrics-collector"] then
      mkCheck "obs-metrics" "Metrics Collection" pass warning 40
    else if negb (requiresObservability (thresholds ctx)) then
      mkCheck "obs-metrics" "No Metrics Collection" advisory info 0
    else
      mkCheck "obs-metrics" "No Metrics Collection" fail warning 40 in
  let tracing :=
    if hasType nodes ["distributed-tracer"] then
      mkCheck "obs-tracing" "Distributed Tracing" pass info 30
    else
      mkCheck "obs-tracing" "No Distributed Tracing" advisory info 0 in
  let logs :=
    if hasType nodes ["log-aggregator"] then
      mkCheck "obs-logs" "Log Aggregation" pass info 30
    else
      mkCheck "obs-logs" "No Log Aggregation" advisory info 0 in
  let checks := [metricsCheck; tracing; logs] in
  {| dim_id := "observability"; dim_name := "Observability";
     score := dimScore checks; checks := checks |}.

(** *** AI best practices *)

Definition checkAIBestPractices (nodes : list Node) (ctx : ValidationContext)
  : ValidationDimension :=
  let llmNodes := nodesOfType nodes ["llm-inference"] in
  let hasGuardrails := hasType nodes ["guardrails"] in
  let hasRAG := hasType nodes ["rag-pipeline"] in
  let hasVectorDB := hasType nodes ["vector-database"] in
  let hasAIGW := hasType nodes ["ai-gateway"] in
  let hasPromptCache := hasType nodes ["prompt-cache"] in
  let hasLLMObs := hasType nodes ["llm-observability"] in
  let hasDrift := hasType nodes ["drift-detector"] in
  let hasTraining := hasType nodes ["training-cluster"] in
  match llmNodes with
  | [] =>
      {| dim_id := "ai"; dim_name := "AI Best Practices"; score := 100;
         checks := [mkCheck "ai-none" "No AI Components" pass info 100] |}
  | _ :: _ =>
      let guardrails :=
        if hasGuardrails then
          mkCheck "ai-guardrails" "Guardrails on LLM Output" pass critical 20
        else if bool_decide (scaleTier ctx = prototype) then
          mkCheck "ai-guardrails" "No Guardrails on LLM" advisory warning 5
        else
          mkCheck "ai-guardrails" "No Guardrails on LLM" fail critical 20 in
      let grounded := hasRAG || hasVectorDB in
      let rag :=
        mkCheck "ai-rag" "RAG Grounding"
          (if grounded then pass else advisory)
          (if grounded then info else warning)
          (if grounded then 15 else 5) in
      let aigw :=
        mkCheck "ai-gw" "AI Gateway"
          (if hasAIGW then pass else advisory)
          (if hasAIGW then info else warning)
          (if hasAIGW then 15 else 5) in
      let cache :=
        mkCheck "ai-cache" "Prompt Caching"
          (if hasPromptCache then pass else advisory) info
          (if hasPromptCache then 10 else 0) in
      let obs :=
        mkCheck "ai-obs" "LLM Observability"
          (if hasLLMObs then pass else advisory) info
          (if hasLLMObs then 10 else 0) in
      let llmReplicas := sumReplicas llmNodes in
      let hasModelRouter := hasType nodes ["model-router"] in
      let spof :=
        if Js.leb 2 llmReplicas || hasModelRouter then
          mkCheck "ai-spof" "LLM Redundancy" pass critical 15
        else if isLowTier ctx then
          mkCheck "ai-spof" "Single LLM Instance" advisory warning 5
        else
          mkCheck "ai-spof" "Single LLM Instance — SPOF" fail critical 15 in
      let drift :=
        if hasTraining then
          [mkCheck "ai-drift" "Model Drift Detection"
             (if hasDrift then pass else advisory)
             (if hasDrift then info else warning)
             (if hasDrift then 10 else 5)]
        else [] in
      let checks := [guardrails; rag; aigw; cache; obs; spof] ++ drift in
      {| dim_id := "ai"; dim_name := "AI Best Practices";
         score := dimScore checks; checks := checks |}
  end.

(** *** Main validator *)

Definition AI_COMPONENT_TYPES : list string :=
  ["llm-inference"; "vector-database"; "embedding-service"; "ai-gateway";
   "agent-orchestrator"; "rag-pipeline"; "guardrails"; "prompt-cache";
   "model-registry"; "feature-store"; "tool-executor"; "memory-store";
   "model-router"; "training-cluster"; "drift-detector"; "llm-observability"].

Definition isAIComponentType (type : string) : bool :=
  bool_decide (type ∈ AI_COMPONENT_TYPES).

(** [weights[d.id] ?? 0] *)
Definition weightOf (dimId : string) : Z :=
  let weights : list (string * Z) :=
    [("reliability", 25); ("performance", 20); ("dataIntegrity", 15);
     ("security", 15); ("observability", 10); ("ai", 15)]%Z in
  match List.find (fun p => String.eqb (fst p) dimId) weights with
  | Some p => snd p
  | None => 0
  end.

Definition gradeOf (overallScore : Z) : Grade :=
  if (90 <=? overallScore)%Z then gradeA
  else if (80 <=? overallScore)%Z then gradeB
  else if (70 <=? overallScore)%Z then gradeC
  else if (60 <=? overallScore)%Z then gradeD
  else gradeF.

Definition validate (nodes : list Node) (edges : list Edge)
    (spofNodeIds : list string) (metrics : MetricSnapshot) (trafficLoad : Q)
    (trafficPattern : string) (activeScenario : option ScenarioDefinition)
  : ValidationReport :=
  let ctx :=
    resolveValidationContext nodes edges metrics trafficLoad trafficPattern
                             activeScenario in
  let hasAI :=
    existsb (fun n => isAI (data n) || isAIComponentType (componentType (data n)))
            nodes in
  let dimensions :=
    [checkReliability nodes edges spofNodeIds ctx;
     checkPerformance nodes metrics ctx;
     checkDataIntegrity nodes edges ctx;
     checkSecurity nodes edges ctx;
     checkObservability nodes ctx]
    ++ (if hasAI then [checkAIBestPractices nodes ctx] else []) in
  let totalWeight := if hasAI then 100%Z else 85%Z in
  let overallScore :=
    Js.round
      (inject_Z (fold_left (fun acc d => (acc + score d * weightOf (dim_id d))%Z)
                           dimensions 0%Z)
       / inject_Z totalWeight) in
  let allChecks := flat_map checks dimensions in
  let failed := List.filter (fun c => bool_decide (outcome c = fail)) allChecks in
  {| overallScore := overallScore;
     grade := gradeOf overallScore;
     context := ctx;
     dimensions := dimensions;
     topIssues :=
       firstn 3
         (List.filter (fun c => bool_decide (severity c = critical)) failed
          ++ List.filter (fun c => bool_decide (severity c = warning)) failed
          ++ List.filter (fun c => bool_decide (severity c = info)) failed);
     strengths :=
       map check_name
         (firstn 4
            (List.filter
               (fun c => bool_decide (outcome c = pass)
                         && negb (bool_decide (severity c = info)))
               allChecks)) |}.

(** ** ValidationContext.ts: computeVerdict *)

(** The verdict without its [detail] text, which formats the load with
    [toLocaleString]; [advisoryCount] is read by that text only. *)
Record ContextualVerdict := {
  badge : string;
  badgeColor : string;
  headline : string;
  isPositive : bool
}.

Definition computeVerdict (overallScore : Q) (failedCriticalCount : nat)
    (advisoryCount : nat) (ctx : ValidationContext) : ContextualVerdict :=
  if (failedCriticalCount =? 0)%nat && Js.leb 85 overallScore then
    {| badge := if bool_decide (scaleTier ctx = enterprise)
                then "✅ Production Ready" else "✅ Sound Architecture";
       badgeColor := "#00ff88";
       headline := "Well-designed for " +:+ scaleTierLabel ctx +:+ ".";
       isPositive := true |}
  else if (failedCriticalCount =? 0)%nat && Js.leb 65 overallScore then
    {| badge := "⚠️ Functional — Gaps to Address";
       badgeColor := "#ffb800";
       headline := "Functionally correct at " +:+ scaleTierLabel ctx
                   +:+ ", with gaps to address before scaling.";
       isPositive := true |}
  else if (failedCriticalCount =? 0)%nat
          && bool_decide (scaleTier ctx = prototype)
          && Js.leb 50 overallScore then
    {| badge := "✅ Appropriate for Scale";
       badgeColor := "#00f5ff";
       headline := "Reasonable prototype architecture at "
                   +:+ scaleTierLabel ctx +:+ ".";
       isPositive := true |}
  else
    {| badge := "❌ " +:+ natStr failedCriticalCount +:+ " Critical Issue"
                +:+ plural failedCriticalCount "s";
       badgeColor := "#ff3860";
       headline := natStr failedCriticalCount +:+ " critical issue"
                   +:+ plural failedCriticalCount "s"
                   +:+ " require attention.";
       isPositive := false |}.

(** The [verdict] field of the report of [validate]: computeVerdict on the
    overall score, the number of failed critical checks and the number of
    advisories. *)
Definition validateVerdict (nodes : list Node) (edges : list Edge)
    (spofNodeIds : list string) (metrics : MetricSnapshot) (trafficLoad : Q)
    (trafficPattern : string) (activeScenario : option ScenarioDefinition)
  : ContextualVerdict :=
  let r := validate nodes edges spofNodeIds metrics trafficLoad trafficPattern
                    activeScenario in
  let allChecks := flat_map checks (dimensions r) in
  let failedCritical :=
    List.filter (fun c => bool_decide (outcome c = fail)
                          && bool_decide (severity c = critical)) allChecks in
  let advisories :=
    List.filter (fun c => bool_decide (outcome c = advisory)) allChecks in
  computeVerdict (inject_Z (overallScore r)) (length failedCritical)
                 (length advisories) (context r).

(** ** SimulationEngine.ts: simulationTick *)

Inductive NodeStatus :=
  | status_healthy | status_warning | status_critical | status_failed.

Inductive AlertType := alert_info | alert_warning | alert_error | alert_success.

(** An alert without its [timestamp] ([Date.now()]). *)
Record SystemAlert := {
  alert_id : string;
  alert_type : AlertType;
  message : string;
  alert_nodeId : option string;
  dismissed : bool
}.

Record NodeUpdate := {
  currentLoad : Q;
  update_currentRPS : Q;
  update_errorRate : Q;
  status : NodeStatus;
  isBottleneck : bool;
  isSPOF : bool
}.

Record SimulationResult := {
  result_metrics : MetricSnapshot;
  nodeUpdates : gmap string NodeUpdate;
  alerts : list SystemAlert;
  bottleneckNodeIds : list string;
  result_spofNodeIds : list string
}.

(** [makeAlert]: the module counter [alertIdCounter] is passed in and
    returned. *)
Definition makeAlert (alertIdCounter : nat) (type : AlertType)
    (msg : string) (nodeId : option string) : nat * SystemAlert :=
  let alertIdCounter := S alertIdCounter in
  (alertIdCounter,
   {| alert_id := "alert-" +:+ natStr alertIdCounter;
      alert_type := type; message := msg; alert_nodeId := nodeId;
      dismissed := false |}).

Definition spofMessage (node : Node) : string :=
  "⚠️ " +:+ label (config (data node)) +:+ " is a single point of failure".

Definition loadMessage (node : Node) (loadPercent : Q) : string :=
  "🔥 " +:+ label (config (data node)) +:+ " at "
  +:+ intStr (Js.round (loadPercent * 100))
  +:+ "% capacity — consider scaling".

(** What the loop over the nodes carries: the updates, the new alerts and
    the alert counter. *)
Record TickState := {
  tick_updates : gmap string NodeUpdate;
  tick_alerts : list SystemAlert;
  tick_counter : nat
}.

Section SimulationTick.
Variable COMPONENT_MAP : gmap string ComponentDefinition.

(** [capacity > 0 ? incomingRPS / capacity : 0] *)
Definition loadPercentOf (incomingRPS capacity : Q) : Q :=
  if Js.ltb 0 capacity then (incomingRPS / capacity)%Q else 0%Q.

(** Status and error rate of a node at [loadPercent]. *)
Definition statusOf (d : ComponentDefinition) (node : Node) (loadPercent : Q)
  : NodeStatus * Q :=
  if isFailed (data node) then (status_failed, 1%Q)
  else if Js.ltb 1 loadPercent then
    (status_critical,
     Qmin 1 (failureRateAtCapacity d + (loadPercent - 1) * 0.5))
  else if Js.ltb 0.8 loadPercent then
    (status_warning,
     (failureRateAtCapacity d * ((loadPercent - 0.8) / 0.2))%Q)
  else (status_healthy, 0%Q).

(** One iteration of [for (const node of nodes)]. *)
Definition tickNode (topology : TopologyAnalysis) (loadMap : gmap string Q)
    (existingMessages : gset string) (st : TickState) (node : Node)
  : TickState :=
  match defOf COMPONENT_MAP node with
  | None => st
  | Some d =>
      let incomingRPS := Js.getOr0 loadMap (node_id node) in
      let capacity := capacityOf d node in
      let loadPercent := loadPercentOf incomingRPS capacity in
      let '(status, errorRate) := statusOf d node loadPercent in
      let isBottleneck :=
        bool_decide (bottleneckNodeId topology = Some (node_id node)) in
      let isSPOF := bool_decide (node_id node ∈ spofNodeIds topology) in
      let updates :=
        <[node_id node :=
            {| currentLoad := loadPercent; update_currentRPS := incomingRPS;
               update_errorRate := errorRate; status := status;
               isBottleneck := isBottleneck; isSPOF := isSPOF |}]>
          (tick_updates st) in
      let '(counter, newAlerts) :=
        if isSPOF && negb (bool_decide (spofMessage node ∈ existingMessages))
        then
          let '(c, a) := makeAlert (tick_counter st) alert_warning
                           (spofMessage node) (Some (node_id node)) in
          (c, tick_alerts st ++ [a])
        else (tick_counter st, tick_alerts st) in
      let '(counter, newAlerts) :=
        if Js.ltb 0.9 loadPercent
           && negb (bool_decide (loadMessage node loadPercent
                                   ∈ existingMessages))
        then
          let '(c, a) := makeAlert counter alert_error
                           (loadMessage node loadPercent)
                           (Some (node_id node)) in
          (c, newAlerts ++ [a])
        else (counter, newAlerts) in
      {| tick_updates := updates; tick_alerts := newAlerts;
         tick_counter := counter |}
  end.

(** Run a single simulation tick. The result comes with the new value of
    the alert counter. An empty string as bottleneck id is falsy and gives
    no bottleneck. *)
Definition simulationTick (alertIdCounter : nat) (nodes : list Node)
    (edges : list Edge) (trafficLoad : Q) (previousAlerts : list SystemAlert)
  : option (nat * SimulationResult) :=
  topology ← analyzeTopology COMPONENT_MAP nodes edges;
  loadMap ← Propagation.propagateLoad nodes edges trafficLoad;
  let existingMessages : gset string :=
    list_to_set (map message previousAlerts) in
  let st :=
    fold_left (tickNode topology loadMap existingMessages) nodes
      {| tick_updates := ∅; tick_alerts := [];
         tick_counter := alertIdCounter |} in
  metrics ← computeMetrics COMPONENT_MAP nodes edges trafficLoad;
  Some (tick_counter st,
        {| result_metrics := metrics;
           nodeUpdates := tick_updates st;
           alerts := tick_alerts st;
           bottleneckNodeIds :=
             match bottleneckNodeId topology with
             | Some b => if String.eqb b "" then [] else [b]
             | None => []
             end;
           result_spofNodeIds := spofNodeIds topology |}).

End SimulationTick.

(** ** scenarios: computeScenarioProgress *)

(** [ScenarioTargets] with all its fields; an absent field is [None]. The
    function reads nothing else of its scenario. *)
Record ProgressTargets := {
  target_minAvailability : option Q;
  target_maxLatencyP95 : option Q;
  target_minThroughput : option Q;
  target_maxCost : option Q;
  target_maxSPOFs : option Q;
  target_requiredComponents : option (list string)
}.

(** The three variables of the function: [targetsMet], [metCount] and
    [totalTargets]. *)
Record ProgressState := {
  progress_targetsMet : gmap string bool;
  metCount : nat;
  totalTargets : nat
}.

(** [totalTargets++; targetsMet[key] = met; if (met) metCount++;] *)
Definition recordTarget (key : string) (met : bool) (st : ProgressState)
  : ProgressState :=
  {| progress_targetsMet := <[key := met]> (progress_targetsMet st);
     metCount := if met then S (metCount st) else metCount st;
     totalTargets := S (totalTargets st) |}.

Record ScenarioScore := {
  progress_score : Z;
  targetsMet : gmap string bool
}.

Definition computeScenarioProgress (targets : ProgressTargets)
    (metrics : MetricSnapshot) (nodeTypes : list string) : ScenarioScore :=
  let st := {| progress_targetsMet := ∅; metCount := 0; totalTargets := 0 |} in
  let st :=
    match target_minAvailability targets with
    | Some t => recordTarget "availability" (Js.leb t (availability metrics)) st
    | None => st
    end in
  let st :=
    match target_maxLatencyP95 targets with
    | Some t => recordTarget "latencyP95" (Js.leb (latencyP95 metrics) t) st
    | None => st
    end in
  let st :=
    match target_minThroughput targets with
    | Some t => recordTarget "throughput" (Js.leb t (throughput metrics)) st
    | None => st
    end in
  let st :=
    match target_maxCost targets with
    | Some t => recordTarget "cost" (Js.leb (monthlyCost metrics) t) st
    | None => st
    end in
  let st :=
    match target_maxSPOFs targets with
    | Some _ => recordTarget "spofs" (Js.leb 60 (scalabilityScore metrics)) st
    | None => st
    end in
  let st :=
    match target_requiredComponents targets with
    | Some reqs =>
        fold_left
          (fun st req =>
             recordTarget ("component:" +:+ req) (bool_decide (req ∈ nodeTypes))
                          st)
          reqs st
    | None => st
    end in
  {| progress_score :=
       if (0 <? totalTargets st)%nat then
         Js.round (Js.ofNat (metCount st) / Js.ofNat (totalTargets st) * 100)
       else 0%Z;
     targetsMet := progress_targetsMet st |}.
(** * Part II: properties *)

(** ** JavaScript number helpers *)

Lemma Js_ltb_lt a b : Js.ltb a b = true <-> (a < b)%Q.
Proof.
  unfold Js.ltb. rewrite negb_true_iff. split.
  - intros H. apply Qnot_le_lt. intros Hle.
    apply Qle_bool_iff in Hle. congruence.
  - intros H. destruct (Qle_bool b a) eqn:E; [|reflexivity].
    apply Qle_bool_iff in E. exfalso. exact (Qlt_not_le _ _ H E).
Qed.

Lemma Js_ltb_ge a b : Js.ltb a b = false <-> (b <= a)%Q.
Proof.
  unfold Js.ltb. rewrite negb_false_iff. apply Qle_bool_iff.
Qed.

Lemma Js_leb_le a b : Js.leb a b = true <-> (a <= b)%Q.
Proof. apply Qle_bool_iff. Qed.

Lemma Js_orElse_eq x : (Js.orElse x 0 == x)%Q.
Proof.
  unfold Js.orElse. destruct (Qeq_bool x 0) eqn:E; [|reflexivity].
  apply Qeq_bool_iff in E. symmetry. exact E.
Qed.



(** ** Small graphs used in examples *)

Definition mkNode (i ty : string) (r : Q) : Node :=
  {| node_id := i;
     data := {| componentType := ty;
                config := {| label := i; replicas := r; region := "" |};
                isFailed := false; isAI := false |} |}.

Definition mkEdge (s t : string) : Edge := {| source := s; target := t |}.

(** [m.get(k)] is present and equal, as a number, to [v]. *)
Definition holds (m : gmap string Q) (k : string) (v : Q) : Prop :=
  match m !! k with
  | Some x => (x == v)%Q
  | None => False
  end.

(** ** Facts about the adjacency and in-degree tables of propagateLoad *)

Section PropagationTables.
Import Propagation.

(** Targets of the edges leaving [v], in edge order. *)
Definition outTargets (edges : list Edge) (v : string) : list string :=
  map target (List.filter (fun e => bool_decide (source e = v)) edges).

(** Number of edges entering [v]. *)
Definition inCount (edges : list Edge) (v : string) : nat :=
  length (List.filter (fun e => bool_decide (target e = v)) edges).

(** A node with no incoming edge. *)
Definition noIncoming (edges : list Edge) (n : Node) : bool :=
  forallb (fun e => negb (bool_decide (target e = node_id n))) edges.

Lemma initTables_adj nodes v :
  fst (initTables nodes) !! v =
    if bool_decide (v ∈ map node_id nodes) then Some [] else None.
Proof.
  unfold initTables.
  assert (G : forall t : gmap string (list string) * gmap string nat,
    fst (fold_left
      (fun t n => (<[node_id n := []]> (fst t), <[node_id n := 0%nat]> (snd t)))
      nodes t) !! v =
    if bool_decide (v ∈ map node_id nodes) then Some [] else fst t !! v).
  { induction nodes as [|n nodes IH]; intros t; simpl; [done|].
    - rewrite IH. simpl. destruct (decide (v ∈ map node_id nodes)) as [Hin|Hin].
      + rewrite !bool_decide_eq_true_2; [done| |done]. by right.
      + rewrite (bool_decide_eq_false_2 _ Hin).
        destruct (decide (node_id n = v)) as [->|Hne].
        * rewrite lookup_insert_eq. rewrite bool_decide_eq_true_2; [done|]. by left.
        * rewrite lookup_insert_ne by done.
          rewrite bool_decide_eq_false_2; [done|].
          intros [?|?]%elem_of_cons; congruence. }
  rewrite G. simpl. rewrite lookup_empty. by destruct (bool_decide _).
Qed.

Lemma initTables_inDegree nodes v :
  default 0%nat (snd (initTables nodes) !! v) = 0%nat.
Proof.
  unfold initTables.
  assert (G : forall t : gmap string (list string) * gmap string nat,
    default 0%nat (snd t !! v) = 0%nat ->
    default 0%nat (snd (fold_left
      (fun t n => (<[node_id n := []]> (fst t), <[node_id n := 0%nat]> (snd t)))
      nodes t) !! v) = 0%nat).
  { induction nodes as [|n nodes IH]; intros t Ht; simpl; [done|].
    apply IH. simpl. destruct (decide (node_id n = v)) as [->|Hne].
    - by rewrite lookup_insert_eq.
    - by rewrite lookup_insert_ne. }
  apply G. simpl. by rewrite lookup_empty.
Qed.

Lemma addEdges_adj edges : forall t v,
  fst (fold_left addEdge edges t) !! v =
    (fun l => l ++ outTargets edges v) <$> (fst t !! v).
Proof.
  induction edges as [|e edges IH]; intros t v; simpl.
  - unfold outTargets. simpl. destruct (fst t !! v); simpl; [|done].
    by rewrite app_nil_r.
  - rewrite IH. unfold addEdge at 1. simpl. unfold outTargets. simpl.
    destruct (decide (source e = v)) as [->|Hne].
    + rewrite bool_decide_eq_true_2 by done. simpl.
      destruct (fst t !! v) as [l|] eqn:E; simpl.
      * rewrite lookup_insert_eq. simpl. by rewrite <- app_assoc.
      * by rewrite E.
    + rewrite bool_decide_eq_false_2 by done.
      destruct (fst t !! source e) as [l|] eqn:E; simpl; [|done].
      by rewrite lookup_insert_ne.
Qed.

Lemma addEdges_inDegree edges : forall t v,
  default 0%nat (snd (fold_left addEdge edges t) !! v) =
    (default 0%nat (snd t !! v) + inCount edges v)%nat.
Proof.
  induction edges as [|e edges IH]; intros t v; simpl.
  - unfold inCount. simpl. lia.
  - rewrite IH. unfold addEdge at 1. simpl. unfold inCount. simpl.
    destruct (decide (target e = v)) as [->|Hne].
    + rewrite bool_decide_eq_true_2 by done. rewrite lookup_insert_eq. simpl. lia.
    + rewrite bool_decide_eq_false_2 by done. by rewrite lookup_insert_ne.
Qed.

(** The adjacency table has exactly the node ids as keys, and lists for
    each of them the targets of its outgoing edges. *)
Lemma buildTables_adj nodes edges v :
  fst (buildTables nodes edges) !! v =
    if bool_decide (v ∈ map node_id nodes)
    then Some (outTargets edges v) else None.
Proof.
  unfold buildTables. rewrite addEdges_adj, initTables_adj.
  by destruct (bool_decide _).
Qed.

Lemma inCount_noIncoming edges n :
  Nat.eqb (inCount edges (node_id n)) 0 = noIncoming edges n.
Proof.
  unfold inCount, noIncoming. induction edges as [|e edges IH]; simpl; [done|].
  destruct (bool_decide (target e = node_id n)); simpl; [done|exact IH].
Qed.

Lemma isSource_noIncoming nodes edges n :
  isSource (snd (buildTables nodes edges)) n = noIncoming edges n.
Proof.
  unfold isSource, buildTables.
  rewrite addEdges_inDegree, initTables_inDegree. simpl.
  apply inCount_noIncoming.
Qed.

(** The sources are the nodes without an incoming edge. *)
Lemma sourcesOf_noIncoming nodes edges :
  sourcesOf nodes edges = List.filter (noIncoming edges) nodes.
Proof.
  unfold sourcesOf. apply filter_ext. intros n. apply isSource_noIncoming.
Qed.

Lemma noIncoming_spec edges n :
  noIncoming edges n = true <-> forall e, e ∈ edges -> target e ≠ node_id n.
Proof.
  unfold noIncoming. rewrite forallb_forall. split.
  - intros H e He%list_elem_of_In. specialize (H e He).
    apply negb_true_iff, bool_decide_eq_false in H. exact H.
  - intros H e He%list_elem_of_In. apply negb_true_iff, bool_decide_eq_false. auto.
Qed.

Lemma outTargets_length edges v : length (outTargets edges v) <= length edges.
Proof.
  unfold outTargets. rewrite length_map. apply filter_length_le.
Qed.

Lemma outTargets_elem edges v t :
  t ∈ outTargets edges v <-> exists e, e ∈ edges /\ source e = v /\ target e = t.
Proof.
  unfold outTargets. rewrite list_elem_of_In, in_map_iff. split.
  - intros (e & Ht & He). apply filter_In in He as [He Hs].
    apply bool_decide_eq_true in Hs. exists e. by rewrite list_elem_of_In.
  - intros (e & He & Hs & Ht). exists e. split; [done|].
    apply filter_In. split; [by apply list_elem_of_In|].
    by apply bool_decide_eq_true.
Qed.

End PropagationTables.

(** ** propagateLoad: termination and loop invariants *)

Section PropagationLoop.
Import Propagation.

Lemma distribute_queue p ns : forall lm q,
  snd (distribute p ns lm q) = q ++ ns.
Proof.
  unfold distribute. induction ns as [|x ns IH]; intros lm q; simpl.
  - by rewrite app_nil_r.
  - rewrite IH. simpl. by rewrite <- app_assoc.
Qed.

Lemma distribute_other p ns k : k ∉ ns -> forall lm q,
  fst (distribute p ns lm q) !! k = lm !! k.
Proof.
  unfold distribute. induction ns as [|x ns IH]; intros Hk lm q; simpl; [done|].
  apply not_elem_of_cons in Hk as [Hne Hk].
  rewrite IH by done. simpl. by rewrite lookup_insert_ne.
Qed.

Lemma distribute_keys p ns k : forall lm q,
  is_Some (fst (distribute p ns lm q) !! k) -> is_Some (lm !! k) \/ k ∈ ns.
Proof.
  intros lm q H. destruct (decide (k ∈ ns)) as [Hin|Hin]; [by right|].
  left. by rewrite distribute_other in H.
Qed.

(** Closed form of the forwarding loop: every occurrence of [k] among the
    neighbours adds [perNeighbor] to its entry. *)
Lemma distribute_load p ns k : forall lm q,
  (Js.getOr0 (fst (distribute p ns lm q)) k ==
     Js.getOr0 lm k + Js.ofNat (count_occ string_dec ns k) * p)%Q.
Proof.
  unfold distribute. induction ns as [|x ns IH]; intros lm q; simpl.
  - unfold Js.ofNat. simpl. ring.
  - rewrite IH. simpl. destruct (string_dec x k) as [->|Hne].
    + unfold Js.getOr0 at 1. rewrite lookup_insert_eq.
      rewrite Js_orElse_eq. unfold Js.ofNat.
      rewrite Nat2Z.inj_succ, <- Z.add_1_r, inject_Z_plus. ring.
    + unfold Js.getOr0 at 1. rewrite lookup_insert_ne by done.
      fold (Js.getOr0 lm k). reflexivity.
Qed.

Variable adj : gmap string (list string).

(** Preservation by every iteration gives the property of the final
    state, in which the queue is empty. *)
Lemma loop_invariant (P : LoopState -> Prop) :
  (forall st nodeId rest,
      queue st = nodeId :: rest -> P st -> P (step adj nodeId rest st)) ->
  forall fuel st st', P st -> loop fuel adj st = Some st' ->
                      P st' /\ queue st' = [].
Proof.
  intros Hstep. induction fuel as [|fuel IH]; intros st st' HP Hrun; simpl in Hrun.
  - destruct (queue st) eqn:E; [|done]. by injection Hrun as <-.
  - destruct (queue st) as [|nodeId rest] eqn:E.
    + by injection Hrun as <-.
    + eapply IH; [|exact Hrun]. by apply Hstep.
Qed.

(** Each id is logged at most once, and only ids marked visited are. *)
Definition forwardedOnce (st : LoopState) : Prop :=
  NoDup (map fst (forwarded st)) /\
  forall x, x ∈ map fst (forwarded st) -> x ∈ visited st.

Lemma step_forwardedOnce st nodeId rest :
  queue st = nodeId :: rest ->
  forwardedOnce st -> forwardedOnce (step adj nodeId rest st).
Proof.
  intros _ [Hnd Hsub]. unfold step.
  case_bool_decide as Hvis; [by split|].
  destruct (match default [] (adj !! nodeId) with [] => _ | _ :: _ => _ end)
    as [lm q].
  split; simpl.
  - rewrite map_app. simpl. apply NoDup_app. split; [done|]. split.
    + intros x Hx [->|[]%not_elem_of_nil]%elem_of_cons. by apply Hvis, Hsub.
    + apply NoDup_singleton.
  - intros x. rewrite map_app. simpl.
    intros [Hx|[->|[]%not_elem_of_nil]%elem_of_cons]%elem_of_app; set_solver.
Qed.

(** What the log entry [(v, load)] adds to the entry of [k]: the load of
    [v], divided by the number of its neighbours, once per edge to [k]. *)
Definition forwardedShare (k : string) (entry : string * Q) : Q :=
  let ns := default [] (adj !! fst entry) in
  (Js.ofNat (count_occ string_dec ns k) * (snd entry / Js.ofNat (length ns)))%Q.

Definition forwardedTotal (k : string) (log : list (string * Q)) : Q :=
  fold_right (fun entry acc => (forwardedShare k entry + acc)%Q) 0%Q log.

(** Every entry of the load map is its initial value plus the shares of the
    nodes processed so far. *)
Definition accounted (init : gmap string Q) (st : LoopState) : Prop :=
  forall k, (Js.getOr0 (loadMap st) k ==
             Js.getOr0 init k + forwardedTotal k (forwarded st))%Q.

Lemma forwardedTotal_snoc k log entry :
  (forwardedTotal k (log ++ [entry]) ==
   forwardedTotal k log + forwardedShare k entry)%Q.
Proof.
  induction log as [|e log IH]; simpl; [ring|]. rewrite IH. ring.
Qed.

Lemma step_accounted init st nodeId rest :
  queue st = nodeId :: rest ->
  accounted init st -> accounted init (step adj nodeId rest st).
Proof.
  intros _ Hacc k. specialize (Hacc k). unfold step.
  case_bool_decide as Hvis; [done|].
  destruct (default [] (adj !! nodeId)) as [|n ns] eqn:Hns.
  - cbn [loadMap forwarded]. rewrite forwardedTotal_snoc, Hacc.
    unfold forwardedShare. cbn [fst snd]. rewrite Hns.
    unfold Js.ofNat. simpl. ring.
  - destruct (distribute _ _ _ _) as [lm q] eqn:Hd. cbn [loadMap forwarded].
    change lm with (fst (lm, q)). rewrite <- Hd, distribute_load.
    rewrite forwardedTotal_snoc, Hacc.
    unfold forwardedShare. cbn [fst snd]. rewrite Hns. ring.
Qed.

Variable bound : nat.
Hypothesis adj_bound : forall v ns, adj !! v = Some ns -> length ns <= bound.

(** Iterations still to run: the queue, plus [bound] for every key of the
    adjacency table that has not been visited. *)
Definition potential (st : LoopState) : nat :=
  length (queue st) + bound * size (dom adj ∖ visited st).

Lemma size_unvisited_step (v : string) (V : gset string) :
  v ∈ dom adj -> v ∉ V ->
  size (dom adj ∖ V) = S (size (dom adj ∖ ({[v]} ∪ V))).
Proof.
  intros Hv HV.
  assert (E : dom adj ∖ V = {[v]} ∪ dom adj ∖ ({[v]} ∪ V)).
  { apply set_eq. intros x. rewrite elem_of_union, !elem_of_difference,
      elem_of_union, elem_of_singleton.
    destruct (decide (x = v)) as [->|Hne]; naive_solver. }
  rewrite E at 1. rewrite size_union by set_solver. by rewrite size_singleton.
Qed.

Lemma step_potential st nodeId rest :
  queue st = nodeId :: rest ->
  S (potential (step adj nodeId rest st)) <= potential st.
Proof.
  intros Hq. unfold potential, step. rewrite Hq. simpl.
  case_bool_decide as Hvis; simpl; [lia|].
  destruct (adj !! nodeId) as [ns|] eqn:Hadj; simpl.
  - assert (Hdom : nodeId ∈ dom adj) by (apply elem_of_dom; eauto).
    rewrite (size_unvisited_step nodeId (visited st) Hdom Hvis).
    pose proof (adj_bound _ _ Hadj) as Hb.
    destruct ns as [|n ns]; simpl; [lia|].
    destruct (distribute _ _ _ _) as [lm q] eqn:Hd.
    assert (Hq' : q = rest ++ n :: ns).
    { change q with (snd (lm, q)). rewrite <- Hd. apply distribute_queue. }
    simpl. rewrite Hq', length_app. simpl in *. nia.
  - assert (Hdom : nodeId ∉ dom adj) by (rewrite elem_of_dom, Hadj; by intros [? ?]).
    replace (dom adj ∖ ({[nodeId]} ∪ visited st)) with (dom adj ∖ visited st)
      by set_solver.
    lia.
Qed.

(** The loop ends whenever its fuel covers the potential. *)
Lemma loop_terminates : forall fuel st,
  potential st <= fuel -> is_Some (loop fuel adj st).
Proof.
  induction fuel as [|fuel IH]; intros st Hpot; simpl.
  - destruct (queue st) eqn:E; [eauto|]. unfold potential in Hpot.
    rewrite E in Hpot. simpl in Hpot. lia.
  - destruct (queue st) as [|nodeId rest] eqn:E; [eauto|].
    apply IH. pose proof (step_potential st nodeId rest E). lia.
Qed.

End PropagationLoop.

(** ** propagateLoad on a whole graph *)

Section PropagationGraph.
Import Propagation.

Variables (nodes : list Node) (edges : list Edge) (trafficLoad : Q).

Let adj := fst (buildTables nodes edges).

Lemma adj_lookup_node v ns :
  adj !! v = Some ns -> v ∈ map node_id nodes /\ ns = outTargets edges v.
Proof.
  unfold adj. rewrite buildTables_adj. case_bool_decide; [|done].
  intros [= <-]. done.
Qed.

Lemma adj_bounded v ns : adj !! v = Some ns -> length ns <= length edges.
Proof. intros [_ ->]%adj_lookup_node. apply outTargets_length. Qed.

Lemma adj_dom_size : size (dom adj) <= length nodes.
Proof.
  assert (Hsub : dom adj ⊆ list_to_set (map node_id nodes)).
  { intros v [ns Hv]%elem_of_dom. apply adj_lookup_node in Hv as [Hv _].
    by apply elem_of_list_to_set. }
  apply subseteq_size in Hsub. etrans; [exact Hsub|].
  clear. induction nodes as [|n l IH].
  - change (size (∅ : gset string) <= 0). by rewrite size_empty.
  - cbn [map length]. rewrite list_to_set_cons.
    rewrite size_union_alt.
    rewrite size_singleton.
    assert (size (list_to_set (map node_id l) ∖ {[node_id n]} : gset string)
            <= size (list_to_set (map node_id l) : gset string)).
    { apply subseteq_size. set_solver. }
    lia.
Qed.

Lemma initState_potential :
  potential adj (length edges) (initState nodes edges trafficLoad)
    <= fuelFor nodes edges.
Proof.
  unfold potential, initState, fuelFor. simpl.
  rewrite length_map.
  assert (length (sourcesOf nodes edges) <= length nodes)
    by apply filter_length_le.
  assert (size (dom adj ∖ ∅) <= size (dom adj)) by (apply subseteq_size; set_solver).
  pose proof adj_dom_size. fold adj. nia.
Qed.

(** The loop of propagateLoad always ends within the fuel it is given. *)
Lemma run_total : is_Some (run nodes edges trafficLoad).
Proof.
  unfold run. fold adj.
  apply (loop_terminates adj (length edges) adj_bounded).
  apply initState_potential.
Qed.

Lemma run_forwardedOnce st :
  run nodes edges trafficLoad = Some st -> forwardedOnce st.
Proof.
  intros Hrun. unfold run in Hrun. fold adj in Hrun.
  eapply (loop_invariant adj forwardedOnce); [|  |exact Hrun].
  - apply step_forwardedOnce.
  - split; simpl; [constructor|]. intros x Hx. by apply elem_of_nil in Hx.
Qed.

(** Reachability from the sources along edges that leave a node. *)
Inductive reached : string -> Prop :=
| reached_source n :
    n ∈ nodes -> noIncoming edges n = true -> reached (node_id n)
| reached_edge e :
    e ∈ edges -> source e ∈ map node_id nodes ->
    reached (source e) -> reached (target e).

Definition onlyReached (st : LoopState) : Prop :=
  (forall k, is_Some (loadMap st !! k) -> reached k) /\
  (forall k, k ∈ queue st -> reached k).

Lemma step_onlyReached st nodeId rest :
  queue st = nodeId :: rest ->
  onlyReached st -> onlyReached (step adj nodeId rest st).
Proof.
  intros Hq [Hmap Hqueue]. unfold step.
  assert (Hrest : forall k, k ∈ rest -> reached k).
  { intros k Hk. apply Hqueue. rewrite Hq. by right. }
  assert (Hnode : reached nodeId) by (apply Hqueue; rewrite Hq; by left).
  case_bool_decide as Hvis; [by split|].
  destruct (adj !! nodeId) as [ns|] eqn:Hadj; simpl; [|by split].
  apply adj_lookup_node in Hadj as [Hin ->].
  assert (Hns : forall k, k ∈ outTargets edges nodeId -> reached k).
  { intros k (e & He & <- & <-)%outTargets_elem. by apply reached_edge. }
  destruct (outTargets edges nodeId) as [|n ns] eqn:Hout; [by split|].
  destruct (distribute _ _ _ _) as [lm q] eqn:Hd.
  assert (Hq' : q = rest ++ n :: ns).
  { change q with (snd (lm, q)). rewrite <- Hd. apply distribute_queue. }
  split; simpl.
  - intros k Hk. change lm with (fst (lm, q)) in Hk. rewrite <- Hd in Hk.
    apply distribute_keys in Hk as [Hk|Hk]; auto.
  - intros k. rewrite Hq'. intros [Hk|Hk]%elem_of_app; auto.
Qed.

Lemma sources_lookup (c : Q) (l : list Node) : forall (m : gmap string Q) k,
  fold_left (fun m s => <[node_id s := c]> m) l m !! k =
    if bool_decide (k ∈ map node_id l) then Some c else m !! k.
Proof.
  induction l as [|n l IH]; intros m k; simpl; [done|].
  rewrite IH. destruct (decide (k ∈ map node_id l)) as [Hin|Hin].
  - rewrite !bool_decide_eq_true_2; [done| |done]. by right.
  - rewrite (bool_decide_eq_false_2 _ Hin).
    destruct (decide (node_id n = k)) as [->|Hne].
    + rewrite lookup_insert_eq. rewrite bool_decide_eq_true_2; [done|]. by left.
    + rewrite lookup_insert_ne by done.
      rewrite bool_decide_eq_false_2; [done|].
      intros [?|?]%elem_of_cons; congruence.
Qed.

Lemma sourcesOf_elem n :
  n ∈ sourcesOf nodes edges <-> n ∈ nodes /\ noIncoming edges n = true.
Proof.
  rewrite sourcesOf_noIncoming, !list_elem_of_In, filter_In. done.
Qed.

Lemma initState_onlyReached : onlyReached (initState nodes edges trafficLoad).
Proof.
  unfold initState. split; simpl.
  - intros k. rewrite sources_lookup. case_bool_decide as Hk.
    + intros _. apply list_elem_of_In, in_map_iff in Hk as (n & <- & Hn).
      apply list_elem_of_In, sourcesOf_elem in Hn as [? ?].
      by apply reached_source.
    + rewrite lookup_empty. by intros [? ?].
  - intros k Hk. apply list_elem_of_In, in_map_iff in Hk as (n & <- & Hn).
    apply list_elem_of_In, sourcesOf_elem in Hn as [? ?].
    by apply reached_source.
Qed.

Lemma run_onlyReached st :
  run nodes edges trafficLoad = Some st -> onlyReached st.
Proof.
  intros Hrun. unfold run in Hrun. fold adj in Hrun.
  eapply (loop_invariant adj onlyReached); [| |exact Hrun].
  - apply step_onlyReached.
  - apply initState_onlyReached.
Qed.

(** The entry of a source keeps the share it was given at the start. *)
Definition sourcesKeep (st : LoopState) : Prop :=
  forall n, n ∈ sourcesOf nodes edges ->
    loadMap st !! node_id n =
      Some (perSourceOf (sourcesOf nodes edges) trafficLoad).

Lemma step_sourcesKeep st nodeId rest :
  queue st = nodeId :: rest ->
  sourcesKeep st -> sourcesKeep (step adj nodeId rest st).
Proof.
  intros _ Hkeep n Hn. specialize (Hkeep n Hn). unfold step.
  case_bool_decide as Hvis; [done|].
  destruct (adj !! nodeId) as [ns|] eqn:Hadj; simpl; [|done].
  apply adj_lookup_node in Hadj as [Hin ->].
  destruct (outTargets edges nodeId) as [|x ns] eqn:Hout; [done|].
  destruct (distribute _ _ _ _) as [lm q] eqn:Hd. simpl.
  change lm with (fst (lm, q)). rewrite <- Hd.
  rewrite distribute_other; [done|].
  rewrite <- Hout. intros (e & He & _ & Ht)%outTargets_elem.
  apply sourcesOf_elem in Hn as [_ Hn].
  rewrite noIncoming_spec in Hn. by apply (Hn e).
Qed.

Lemma run_sourcesKeep st :
  run nodes edges trafficLoad = Some st -> sourcesKeep st.
Proof.
  intros Hrun. unfold run in Hrun. fold adj in Hrun.
  eapply (loop_invariant adj sourcesKeep); [| |exact Hrun].
  - apply step_sourcesKeep.
  - intros n Hn. unfold initState. simpl. rewrite sources_lookup.
    rewrite bool_decide_eq_true_2; [done|].
    apply list_elem_of_In, in_map. by apply list_elem_of_In.
Qed.

Lemma fillUnreached_lookup (l : list Node) : forall (lm : gmap string Q) k,
  fillUnreached l lm !! k =
    match lm !! k with
    | Some v => Some v
    | None => if bool_decide (k ∈ map node_id l) then Some 0%Q else None
    end.
Proof.
  unfold fillUnreached. induction l as [|n l IH]; intros lm k; simpl.
  - by destruct (lm !! k).
  - rewrite IH. destruct (lm !! node_id n) as [v|] eqn:E.
    + destruct (lm !! k) as [w|] eqn:Ek; [done|].
      destruct (decide (k = node_id n)) as [->|Hne]; [congruence|].
      destruct (decide (k ∈ map node_id l)) as [Hin|Hin].
      * rewrite !bool_decide_eq_true_2; [done| |done]. by right.
      * rewrite !bool_decide_eq_false_2; [done| |done].
        intros [?|?]%elem_of_cons; congruence.
    + destruct (decide (k = node_id n)) as [->|Hne].
      * rewrite lookup_insert_eq, E.
        rewrite (bool_decide_eq_true_2 (_ ∈ _ :: _)); [done|]. by left.
      * rewrite lookup_insert_ne by done.
        destruct (lm !! k) as [w|] eqn:Ek; [done|].
        destruct (decide (k ∈ map node_id l)) as [Hin|Hin].
        -- rewrite !bool_decide_eq_true_2; [done| |done]. by right.
        -- rewrite !bool_decide_eq_false_2; [done| |done].
           intros [?|?]%elem_of_cons; congruence.
Qed.

(** The neighbours that the loop reads for [v]: the targets of its outgoing
    edges when [v] is a node, none otherwise. *)
Lemma adj_neighbours v :
  default [] (adj !! v) =
    if bool_decide (v ∈ map node_id nodes) then outTargets edges v else [].
Proof.
  unfold adj. rewrite buildTables_adj. by case_bool_decide.
Qed.

Lemma run_accounted st :
  run nodes edges trafficLoad = Some st ->
  accounted adj (loadMap (initState nodes edges trafficLoad)) st.
Proof.
  intros Hrun. unfold run in Hrun. fold adj in Hrun.
  eapply (loop_invariant adj (accounted adj _)); [| |exact Hrun].
  - apply step_accounted.
  - intros k. simpl. ring.
Qed.

Lemma initState_load k :
  Js.getOr0 (loadMap (initState nodes edges trafficLoad)) k =
    if bool_decide (k ∈ map node_id (sourcesOf nodes edges))
    then Js.orElse (perSourceOf (sourcesOf nodes edges) trafficLoad) 0
    else 0%Q.
Proof.
  unfold initState, Js.getOr0. cbn [loadMap]. rewrite sources_lookup.
  case_bool_decide; [done|]. by rewrite lookup_empty.
Qed.

Lemma fillUnreached_getOr0 (l : list Node) (lm : gmap string Q) k :
  Js.getOr0 (fillUnreached l lm) k = Js.getOr0 lm k.
Proof.
  unfold Js.getOr0. rewrite fillUnreached_lookup.
  destruct (lm !! k); [done|]. by destruct (bool_decide _).
Qed.

End PropagationGraph.

(** ** propagateLoad is homogeneous in the traffic load *)

Section PropagationScaling.
Import Propagation.

Variable c : Q.

(** Two loop states that differ only by the factor [c] on every load. *)
Definition scaled (st1 st2 : LoopState) : Prop :=
  queue st1 = queue st2 /\
  visited st1 = visited st2 /\
  (forall k, is_Some (loadMap st1 !! k) <-> is_Some (loadMap st2 !! k)) /\
  (forall k, Js.getOr0 (loadMap st2) k == c * Js.getOr0 (loadMap st1) k)%Q.

Lemma distribute_dom p ns k : forall lm q,
  is_Some (fst (distribute p ns lm q) !! k) <-> is_Some (lm !! k) \/ k ∈ ns.
Proof.
  unfold distribute. induction ns as [|x ns IH]; intros lm q; simpl.
  - split; [by left|]. intros [H|H]; [done|]. by apply elem_of_nil in H.
  - rewrite IH. simpl. rewrite elem_of_cons.
    destruct (decide (x = k)) as [->|Hne].
    + rewrite lookup_insert_eq. split; [|eauto]. intros _. right. by left.
    + rewrite lookup_insert_ne by done. naive_solver.
Qed.

Lemma step_scaled adj nodeId rest st1 st2 :
  scaled st1 st2 ->
  scaled (step adj nodeId rest st1) (step adj nodeId rest st2).
Proof.
  intros (Hq & Hv & Hdom & Hload). unfold step. rewrite <- Hv.
  case_bool_decide as Hvis; [by unfold scaled|].
  destruct (default [] (adj !! nodeId)) as [|n ns] eqn:Hns.
  - unfold scaled; simpl. by rewrite Hv.
  - destruct (distribute _ _ (loadMap st1) _) as [lm1 q1] eqn:Hd1.
    destruct (distribute _ _ (loadMap st2) _) as [lm2 q2] eqn:Hd2.
    assert (Hq1 : q1 = rest ++ n :: ns).
    { change q1 with (snd (lm1, q1)). rewrite <- Hd1. apply distribute_queue. }
    assert (Hq2 : q2 = rest ++ n :: ns).
    { change q2 with (snd (lm2, q2)). rewrite <- Hd2. apply distribute_queue. }
    unfold scaled; simpl. split_and!; try congruence; intros k; [split|].
    + change lm1 with (fst (lm1, q1)). rewrite <- Hd1. rewrite distribute_dom.
      intros [H|H]; change lm2 with (fst (lm2, q2)); rewrite <- Hd2;
        apply distribute_dom; [left; by apply Hdom|by right].
    + change lm2 with (fst (lm2, q2)). rewrite <- Hd2. rewrite distribute_dom.
      intros [H|H]; change lm1 with (fst (lm1, q1)); rewrite <- Hd1;
        apply distribute_dom; [left; by apply Hdom|by right].
    + change lm1 with (fst (lm1, q1)). change lm2 with (fst (lm2, q2)).
      rewrite <- Hd1, <- Hd2. rewrite !distribute_load.
      rewrite (Hload k), (Hload nodeId). unfold Qdiv. ring.
Qed.

Lemma loop_scaled adj : forall fuel st1 st2 st1',
  scaled st1 st2 -> loop fuel adj st1 = Some st1' ->
  exists st2', loop fuel adj st2 = Some st2' /\ scaled st1' st2'.
Proof.
  induction fuel as [|fuel IH]; intros st1 st2 st1' HR Hrun; simpl in *.
  - destruct HR as (Hq & HR). rewrite <- Hq.
    destruct (queue st1) eqn:E; [|done]. injection Hrun as <-.
    exists st2. split; [done|]. by split; [congruence|].
  - pose proof HR as (Hq & _). rewrite <- Hq.
    destruct (queue st1) as [|nodeId rest] eqn:E.
    + injection Hrun as <-. by exists st2.
    + eapply IH; [|exact Hrun]. by apply step_scaled.
Qed.

Variables (nodes : list Node) (edges : list Edge) (load1 load2 : Q).
Hypothesis load_scaled : (load2 == c * load1)%Q.

Lemma perSourceOf_scaled l :
  (perSourceOf l load2 == c * perSourceOf l load1)%Q.
Proof.
  unfold perSourceOf. destruct (0 <? length l)%nat.
  - rewrite load_scaled. unfold Qdiv. ring.
  - ring.
Qed.

Lemma initState_scaled :
  scaled (initState nodes edges load1) (initState nodes edges load2).
Proof.
  unfold initState. repeat split; simpl.
  - rewrite !sources_lookup. by destruct (bool_decide _).
  - rewrite !sources_lookup. by destruct (bool_decide _).
  - intros k. unfold Js.getOr0. rewrite !sources_lookup.
    destruct (bool_decide _).
    + rewrite !Js_orElse_eq. apply perSourceOf_scaled.
    + rewrite lookup_empty. ring.
Qed.

(** Multiplying the traffic load by [c] multiplies every entry of the
    result by [c]. *)
Lemma propagateLoad_scaled m1 :
  propagateLoad nodes edges load1 = Some m1 ->
  exists m2, propagateLoad nodes edges load2 = Some m2 /\
    forall k v, holds m1 k v -> holds m2 k (c * v).
Proof.
  unfold propagateLoad, run. intros H.
  destruct (loop _ _ (initState nodes edges load1)) as [st1|] eqn:E1; [|done].
  simpl in H. injection H as <-.
  destruct (loop_scaled _ _ _ _ _ initState_scaled E1)
    as (st2 & -> & (_ & _ & Hdom & Hload)).
  simpl. eexists. split; [done|].
  intros k v. unfold holds. rewrite !fillUnreached_lookup.
  specialize (Hdom k). specialize (Hload k). unfold Js.getOr0 in Hload.
  destruct (loadMap st1 !! k) as [v1|] eqn:Ek1;
    destruct (loadMap st2 !! k) as [v2|] eqn:Ek2.
  - intros Hv. rewrite !Js_orElse_eq in Hload. by rewrite Hload, Hv.
  - destruct Hdom as [Hd _]. destruct Hd; eauto; done.
  - destruct Hdom as [_ Hd]. destruct Hd; eauto; done.
  - destruct (bool_decide _); [|done]. intros <-. ring.
Qed.

End PropagationScaling.

(** ** Properties of propagateLoad *)

Definition chainNodes : list Node :=
  [mkNode "A" "web-client" 1; mkNode "B" "web-server" 1; mkNode "C" "postgresql" 1].
Definition chainEdges : list Edge := [mkEdge "A" "B"; mkEdge "B" "C"].

Definition fanNodes : list Node :=
  [mkNode "S" "web-client" 1; mkNode "L1" "web-server" 1; mkNode "L2" "web-server" 1].
Definition fanEdges : list Edge := [mkEdge "S" "L1"; mkEdge "S" "L2"].

Definition mergeNodes : list Node :=
  [mkNode "A" "web-client" 1; mkNode "B1" "web-server" 1;
   mkNode "B2" "web-server" 1; mkNode "C" "web-server" 1;
   mkNode "E" "postgresql" 1].
Definition mergeEdges : list Edge :=
  [mkEdge "A" "C"; mkEdge "A" "B1"; mkEdge "B1" "B2"; mkEdge "B2" "C";
   mkEdge "C" "E"].

Definition cycleNodes : list Node :=
  [mkNode "A" "web-client" 1; mkNode "B" "web-server" 1; mkNode "C" "web-server" 1].
Definition cycleEdges : list Edge :=
  [mkEdge "A" "B"; mkEdge "B" "C"; mkEdge "C" "B"].

Lemma chain_unit_load :
  exists m, Propagation.propagateLoad chainNodes chainEdges 1 = Some m /\
    holds m "A" 1 /\ holds m "B" 1 /\ holds m "C" 1.
Proof. eexists. split; [vm_compute; reflexivity|]. by vm_compute. Qed.

(** On the chain A -> B -> C every node receives the whole traffic load. *)
Lemma chain_loads (trafficLoad : Q) :
  exists m, Propagation.propagateLoad chainNodes chainEdges trafficLoad = Some m /\
    holds m "A" trafficLoad /\ holds m "B" trafficLoad /\ holds m "C" trafficLoad.
Proof.
  destruct chain_unit_load as (m1 & Hm1 & HA & HB & HC).
  assert (Hs : (trafficLoad == trafficLoad * 1)%Q) by ring.
  destruct (propagateLoad_scaled trafficLoad chainNodes chainEdges 1 trafficLoad
              Hs m1 Hm1) as (m & Hm & Hscale).
  exists m. split; [exact Hm|].
  assert (G : forall k, holds m1 k 1 -> holds m k trafficLoad).
  { intros k Hk. apply Hscale in Hk. unfold holds in *.
    destruct (m !! k); [|done]. rewrite Hk. ring. }
  auto.
Qed.

(** One source with load 1000 and two leaves: each leaf receives 500. *)
Lemma fan_out_loads :
  exists m, Propagation.propagateLoad fanNodes fanEdges 1000 = Some m /\
    holds m "S" 1000 /\ holds m "L1" 500 /\ holds m "L2" 500.
Proof. eexists. split; [vm_compute; reflexivity|]. by vm_compute. Qed.

(** The forwarding step in closed form: the node at the head of the queue,
    when not yet visited, adds its load divided by the number of its
    outgoing edges to the entry of each edge's target, once per edge. *)
Lemma step_even_split nodes edges st nodeId rest k :
  nodeId ∈ map node_id nodes ->
  nodeId ∉ Propagation.visited st ->
  outTargets edges nodeId <> [] ->
  let st' := Propagation.step (fst (Propagation.buildTables nodes edges))
                              nodeId rest st in
  (Js.getOr0 (Propagation.loadMap st') k ==
     Js.getOr0 (Propagation.loadMap st) k +
     Js.ofNat (count_occ string_dec (outTargets edges nodeId) k) *
       (Js.getOr0 (Propagation.loadMap st) nodeId /
        Js.ofNat (length (outTargets edges nodeId))))%Q /\
  Propagation.queue st' = rest ++ outTargets edges nodeId.
Proof.
  intros Hin Hvis Hout. unfold Propagation.step.
  rewrite bool_decide_eq_false_2 by done.
  rewrite buildTables_adj, bool_decide_eq_true_2 by done. simpl.
  destruct (outTargets edges nodeId) as [|t ts] eqn:E; [done|].
  destruct (Propagation.distribute _ _ _ _) as [lm q] eqn:Hd. simpl.
  split.
  - change lm with (fst (lm, q)). rewrite <- Hd. apply distribute_load.
  - change q with (snd (lm, q)). rewrite <- Hd. apply distribute_queue.
Qed.

(** The share of a processed node [v] for [k]: its logged load divided by
    the number of its outgoing edges, once per edge from [v] to [k]. *)
Lemma forwardedShare_node nodes edges v load k :
  v ∈ map node_id nodes ->
  forwardedShare (fst (Propagation.buildTables nodes edges)) k (v, load) =
    (Js.ofNat (count_occ string_dec (outTargets edges v) k)
     * (load / Js.ofNat (length (outTargets edges v))))%Q.
Proof.
  intros Hv. unfold forwardedShare. cbn [fst snd].
  by rewrite adj_neighbours, bool_decide_eq_true_2.
Qed.

(** The load of every id when the loop ends: the share of a source, plus
    what the processed nodes forwarded to it. *)
Lemma run_load_accounting nodes edges trafficLoad st k :
  Propagation.run nodes edges trafficLoad = Some st ->
  (Js.getOr0 (Propagation.fillUnreached nodes (Propagation.loadMap st)) k ==
   (if bool_decide (k ∈ map node_id (List.filter (noIncoming edges) nodes))
    then trafficLoad / Js.ofNat (length (List.filter (noIncoming edges) nodes))
    else 0)
   + forwardedTotal (fst (Propagation.buildTables nodes edges)) k
                    (Propagation.forwarded st))%Q.
Proof.
  intros Hrun. rewrite fillUnreached_getOr0.
  rewrite (run_accounted _ _ _ _ Hrun k), initState_load.
  rewrite <- sourcesOf_noIncoming.
  case_bool_decide as Hk; [|reflexivity].
  rewrite Js_orElse_eq. unfold Propagation.perSourceOf.
  destruct (Propagation.sourcesOf nodes edges) as [|s l]; [|reflexivity].
  by apply elem_of_nil in Hk.
Qed.

(** C8: propagateLoad gives every source (a node with no incoming edge) the
    traffic load divided by the number of sources; a processed node adds its
    accumulated load divided by the number of its outgoing edges to the target
    of each of them; a node the traversal never reaches (it has no entry when
    the loop ends, as is the case for every node not reachable from a source)
    gets 0; on the chain A -> B -> C every node receives the whole load, and
    a source with load 1000 and two leaves gives each leaf 500. In closed
    form, the load of every id in the result is its share as a source plus,
    for each processed node, that node's load at the time divided by the
    number of its outgoing edges, once per edge. *)
Theorem propagateLoad_even_split :
  (forall nodes edges trafficLoad,
     exists st m,
       Propagation.run nodes edges trafficLoad = Some st /\
       Propagation.propagateLoad nodes edges trafficLoad = Some m /\
       (forall n, n ∈ nodes -> noIncoming edges n = true ->
          m !! node_id n =
            Some (trafficLoad /
                  Js.ofNat (length (List.filter (noIncoming edges) nodes)))%Q) /\
       (forall n, n ∈ nodes ->
          Propagation.loadMap st !! node_id n = None \/
          ~ reached nodes edges (node_id n) ->
          m !! node_id n = Some 0%Q) /\
       (forall k,
          (Js.getOr0 m k ==
           (if bool_decide
                 (k ∈ map node_id (List.filter (noIncoming edges) nodes))
            then trafficLoad
                 / Js.ofNat (length (List.filter (noIncoming edges) nodes))
            else 0)
           + forwardedTotal (fst (Propagation.buildTables nodes edges)) k
                            (Propagation.forwarded st))%Q) /\
       (forall v load k, v ∈ map node_id nodes ->
          forwardedShare (fst (Propagation.buildTables nodes edges)) k (v, load) =
            (Js.ofNat (count_occ string_dec (outTargets edges v) k)
             * (load / Js.ofNat (length (outTargets edges v))))%Q)) /\
  (forall nodes edges st nodeId rest k,
     nodeId ∈ map node_id nodes ->
     nodeId ∉ Propagation.visited st ->
     outTargets edges nodeId <> [] ->
     let st' := Propagation.step (fst (Propagation.buildTables nodes edges))
                                 nodeId rest st in
     (Js.getOr0 (Propagation.loadMap st') k ==
        Js.getOr0 (Propagation.loadMap st) k +
        Js.ofNat (count_occ string_dec (outTargets edges nodeId) k) *
          (Js.getOr0 (Propagation.loadMap st) nodeId /
           Js.ofNat (length (outTargets edges nodeId))))%Q) /\
  (forall trafficLoad,
     exists m,
       Propagation.propagateLoad chainNodes chainEdges trafficLoad = Some m /\
       holds m "A" trafficLoad /\ holds m "B" trafficLoad /\
       holds m "C" trafficLoad) /\
  (exists m,
     Propagation.propagateLoad fanNodes fanEdges 1000 = Some m /\
     holds m "S" 1000 /\ holds m "L1" 500 /\ holds m "L2" 500).
Proof.
  split_and!.
  - intros nodes edges trafficLoad.
    destruct (run_total nodes edges trafficLoad) as [st Hrun].
    exists st, (Propagation.fillUnreached nodes (Propagation.loadMap st)).
    split; [exact Hrun|]. split.
    { unfold Propagation.propagateLoad. by rewrite Hrun. }
    split.
    + intros n Hn Hsrc.
      assert (Hin : n ∈ Propagation.sourcesOf nodes edges)
        by by apply sourcesOf_elem.
      pose proof (run_sourcesKeep _ _ _ _ Hrun n Hin) as Hkeep.
      rewrite fillUnreached_lookup, Hkeep.
      unfold Propagation.perSourceOf. rewrite <- sourcesOf_noIncoming.
      destruct (Propagation.sourcesOf nodes edges) as [|s l] eqn:E; [|done].
      by apply elem_of_nil in Hin.
    + split; [|split].
      2:{ intros k. by apply run_load_accounting. }
      2:{ intros v load k Hv. by apply forwardedShare_node. }
      intros n Hn Hno.
      assert (Hnone : Propagation.loadMap st !! node_id n = None).
      { destruct Hno as [H|H]; [exact H|].
        destruct (Propagation.loadMap st !! node_id n) eqn:E; [|done].
        exfalso. apply H.
        destruct (run_onlyReached _ _ _ _ Hrun) as [Hkeys _].
        apply Hkeys. by rewrite E. }
      rewrite fillUnreached_lookup, Hnone.
      rewrite bool_decide_eq_true_2; [done|].
      apply list_elem_of_In, in_map. by apply list_elem_of_In.
  - intros nodes edges st nodeId rest k Hin Hvis Hout.
    apply (step_even_split nodes edges st nodeId rest k Hin Hvis Hout).
  - apply chain_loads.
  - apply fan_out_loads.
Qed.

(** C9: on every finite graph, cyclic or not, the loop of propagateLoad ends
    (within the iterations it is granted) with an empty queue, and load is
    forwarded out of each node at most once: no id is logged twice among the
    processed nodes, and an iteration whose node is already visited changes
    neither the load map nor the log. *)
Theorem propagateLoad_terminates_once :
  (forall nodes edges trafficLoad,
     exists st m,
       Propagation.run nodes edges trafficLoad = Some st /\
       Propagation.propagateLoad nodes edges trafficLoad = Some m /\
       Propagation.queue st = [] /\
       NoDup (map fst (Propagation.forwarded st))) /\
  (forall adj st nodeId rest,
     nodeId ∈ Propagation.visited st ->
     let st' := Propagation.step adj nodeId rest st in
     Propagation.loadMap st' = Propagation.loadMap st /\
     Propagation.forwarded st' = Propagation.forwarded st /\
     Propagation.visited st' = Propagation.visited st /\
     Propagation.queue st' = rest).
Proof.
  split.
  - intros nodes edges trafficLoad.
    destruct (run_total nodes edges trafficLoad) as [st Hrun].
    exists st, (Propagation.fillUnreached nodes (Propagation.loadMap st)).
    split; [exact Hrun|]. split.
    { unfold Propagation.propagateLoad. by rewrite Hrun. }
    split.
    + unfold Propagation.run in Hrun.
      by apply (loop_invariant _ (fun _ => True)) in Hrun as [_ ?].
    + by apply (run_forwardedOnce _ _ _ _ Hrun).
  - intros adj st nodeId rest Hvis. unfold Propagation.step.
    by rewrite bool_decide_eq_true_2.
Qed.

(** A graph with the cycle B -> C -> B: the loop ends and each node is
    processed once. *)
Example cycle_run :
  exists st, Propagation.run cycleNodes cycleEdges 900 = Some st /\
    map fst (Propagation.forwarded st) = ["A"; "B"; "C"].
Proof. eexists. split; [vm_compute; reflexivity|]. reflexivity. Qed.

(** Ranks that strictly increase along every edge: the merge graph is acyclic. *)
Definition mergeRank (v : string) : nat :=
  if String.eqb v "A" then 0 else
  if String.eqb v "B1" then 1 else
  if String.eqb v "B2" then 2 else
  if String.eqb v "C" then 3 else 4.

(** C10: on the acyclic graph A->C, A->B1, B1->B2, B2->C, C->E with traffic
    load 1000, C is processed once, when its entry holds 500, and forwards 500
    to E; the 500 that arrive from B2 afterwards are added to C's entry (1000
    in the result) but are not forwarded, so E ends with 500. *)
Theorem late_load_not_forwarded :
  (forall e, e ∈ mergeEdges -> mergeRank (source e) < mergeRank (target e)) /\
  exists st m,
    Propagation.run mergeNodes mergeEdges 1000 = Some st /\
    Propagation.propagateLoad mergeNodes mergeEdges 1000 = Some m /\
    map fst (Propagation.forwarded st) = ["A"; "C"; "B1"; "E"; "B2"] /\
    Forall2 (fun x v => (snd x == v)%Q) (Propagation.forwarded st)
            [1000; 500; 500; 500; 500]%Q /\
    holds m "A" 1000 /\ holds m "B1" 500 /\ holds m "B2" 500 /\
    holds m "C" 1000 /\ holds m "E" 500.
Proof.
  split.
  - intros e He. unfold mergeEdges in He.
    repeat (apply elem_of_cons in He as [->|He]; [vm_compute; lia|]).
    by apply elem_of_nil in He.
  - eexists _, _. split; [vm_compute; reflexivity|].
    split; [vm_compute; reflexivity|].
    split; [reflexivity|].
    split; [repeat (constructor; [by vm_compute|]); constructor|by vm_compute].
Qed.

(** ** GraphTraversal: the searches end within their fuel *)

Section SearchTermination.

Lemma size_list_to_set_le (l : list string) :
  size (list_to_set l : gset string) <= length l.
Proof.
  induction l as [|x l IH].
  - change (size (∅ : gset string) <= 0). by rewrite size_empty.
  - cbn [length]. rewrite list_to_set_cons, size_union_alt, size_singleton.
    assert (size (list_to_set l ∖ {[x]} : gset string)
            <= size (list_to_set l : gset string))
      by (apply subseteq_size; set_solver).
    lia.
Qed.

Lemma existsM_total {A : Type} (f : A -> option bool) (l : list A) :
  (forall x, x ∈ l -> is_Some (f x)) -> is_Some (existsM f l).
Proof.
  induction l as [|x l IH]; intros H; simpl; [eauto|].
  destruct (H x) as [b Hb]; [by left|]. rewrite Hb.
  destruct b; [eauto|]. apply IH. intros y Hy. apply H. by right.
Qed.

(** The adjacency list built from the edges. *)
Lemma buildAdjacencyList_lookup edges v :
  buildAdjacencyList edges !! v =
    match outTargets edges v with
    | [] => None
    | ts => Some ts
    end.
Proof.
  unfold buildAdjacencyList.
  assert (G : forall m : gmap string (list string),
    fold_left
      (fun adj e => <[source e := default [] (adj !! source e) ++ [target e]]> adj)
      edges m !! v =
    match outTargets edges v with
    | [] => m !! v
    | ts => Some (default [] (m !! v) ++ ts)
    end).
  { induction edges as [|e edges IH]; intros m; [done|].
    cbn [fold_left]. rewrite IH. unfold outTargets. cbn [List.filter].
    destruct (decide (source e = v)) as [->|Hne].
    - rewrite bool_decide_eq_true_2 by done. cbn [map].
      rewrite lookup_insert_eq. cbn [default].
      destruct (map target _) as [|t ts]; [done|].
      unfold id. by rewrite <- app_assoc.
    - rewrite bool_decide_eq_false_2 by done.
      by rewrite lookup_insert_ne. }
  rewrite G, lookup_empty. by destruct (outTargets edges v).
Qed.

Lemma buildAdjacencyList_bound edges v ns :
  buildAdjacencyList edges !! v = Some ns -> length ns <= length edges.
Proof.
  rewrite buildAdjacencyList_lookup. pose proof (outTargets_length edges v).
  destruct (outTargets edges v); [done|]. by intros [= <-].
Qed.

Lemma buildAdjacencyList_dom_size edges :
  size (dom (buildAdjacencyList edges)) <= length edges.
Proof.
  assert (Hsub : dom (buildAdjacencyList edges) ⊆ list_to_set (map source edges)).
  { intros v [ns Hv]%elem_of_dom. rewrite buildAdjacencyList_lookup in Hv.
    destruct (outTargets edges v) as [|t ts] eqn:E; [done|].
    assert (Ht : t ∈ outTargets edges v) by (rewrite E; by left).
    apply outTargets_elem in Ht as (e & He & <- & _).
    apply elem_of_list_to_set, list_elem_of_In, in_map. by apply list_elem_of_In. }
  apply subseteq_size in Hsub. etrans; [exact Hsub|].
  etrans; [apply size_list_to_set_le|]. by rewrite length_map.
Qed.

Lemma remainingAdjOf_bound edges nodeId v ns :
  remainingAdjOf (buildAdjacencyList edges) nodeId !! v = Some ns ->
  length ns <= length edges.
Proof.
  unfold remainingAdjOf. rewrite lookup_fmap.
  destruct (delete nodeId (buildAdjacencyList edges) !! v) as [l|] eqn:E; [|done].
  simpl. intros [= <-].
  assert (Hl : buildAdjacencyList edges !! v = Some l).
  { destruct (decide (nodeId = v)) as [->|Hne].
    - by rewrite lookup_delete_eq in E.
    - by rewrite lookup_delete_ne in E. }
  apply buildAdjacencyList_bound in Hl.
  etrans; [apply filter_length_le|done].
Qed.

Lemma remainingAdjOf_dom_size edges nodeId :
  size (dom (remainingAdjOf (buildAdjacencyList edges) nodeId)) <= length edges.
Proof.
  etrans; [|apply buildAdjacencyList_dom_size].
  apply subseteq_size. unfold remainingAdjOf.
  rewrite dom_fmap_L, dom_delete_L. set_solver.
Qed.

Variable adj : gmap string (list string).
Variable bound : nat.
Hypothesis adj_bound : forall v ns, adj !! v = Some ns -> length ns <= bound.

Lemma bfs_terminates : forall fuel queue (reachable : gset string),
  length queue + bound * size (dom adj ∖ reachable) <= fuel ->
  is_Some (bfs fuel adj queue reachable).
Proof.
  induction fuel as [|fuel IH]; intros queue reachable Hpot.
  - destruct queue; simpl in *; [eauto|lia].
  - destruct queue as [|cur rest]; simpl in *; [eauto|].
    case_bool_decide as Hvis; [apply IH; lia|].
    apply IH. rewrite length_app.
    destruct (adj !! cur) as [ns|] eqn:Hadj; simpl.
    + assert (Hdom : cur ∈ dom adj) by (apply elem_of_dom; eauto).
      assert (E : dom adj ∖ reachable = {[cur]} ∪ dom adj ∖ ({[cur]} ∪ reachable)).
      { apply set_eq. intros x. rewrite elem_of_union, !elem_of_difference,
          elem_of_union, elem_of_singleton.
        destruct (decide (x = cur)) as [->|Hne]; naive_solver. }
      rewrite E in Hpot. rewrite size_union in Hpot by set_solver.
      rewrite size_singleton in Hpot.
      pose proof (adj_bound _ _ Hadj).
      pose proof (filter_length_le
        (fun next => negb (bool_decide (next ∈ {[cur]} ∪ reachable))) ns).
      nia.
    + assert (Hdom : cur ∉ dom adj) by (rewrite elem_of_dom, Hadj; by intros [? ?]).
      replace (dom adj ∖ ({[cur]} ∪ reachable)) with (dom adj ∖ reachable)
        by set_solver.
      lia.
Qed.

End SearchTermination.

Lemma bfs_total_adj edges src :
  is_Some (bfs (bfsFuel edges) (buildAdjacencyList edges) [src] ∅).
Proof.
  apply (bfs_terminates _ (length edges) (buildAdjacencyList_bound edges)).
  unfold bfsFuel. simpl.
  pose proof (buildAdjacencyList_dom_size edges).
  assert (size (dom (buildAdjacencyList edges) ∖ (∅ : gset string))
          <= size (dom (buildAdjacencyList edges)))
    by (apply subseteq_size; set_solver).
  nia.
Qed.

Lemma bfs_total_remaining edges nodeId src :
  is_Some (bfs (bfsFuel edges)
               (remainingAdjOf (buildAdjacencyList edges) nodeId) [src] ∅).
Proof.
  apply (bfs_terminates _ (length edges) (remainingAdjOf_bound edges nodeId)).
  unfold bfsFuel. simpl.
  pose proof (remainingAdjOf_dom_size edges nodeId).
  assert (size (dom (remainingAdjOf (buildAdjacencyList edges) nodeId)
                ∖ (∅ : gset string))
          <= size (dom (remainingAdjOf (buildAdjacencyList edges) nodeId)))
    by (apply subseteq_size; set_solver).
  nia.
Qed.

Lemma disconnectsGraph_total edges sources sinks nodeId :
  is_Some (disconnectsGraph edges (buildAdjacencyList edges) sources sinks nodeId).
Proof.
  unfold disconnectsGraph. apply existsM_total. intros src _.
  case_bool_decide; [eauto|].
  destruct (bfs_total_remaining edges nodeId src) as [r ->].
  apply existsM_total. intros sink _.
  case_bool_decide; [eauto|]. case_bool_decide; [eauto|].
  destruct (bfs_total_adj edges src) as [r' ->]. eauto.
Qed.

Section CriticalPath.
Variable COMPONENT_MAP : gmap string ComponentDefinition.

Lemma fold_option_total {A B : Type} (g : B -> A -> option B) (l : list A) :
  (forall x b, x ∈ l -> is_Some (g b x)) ->
  forall b, is_Some (fold_left
                       (fun acc x => match acc with
                                     | None => None
                                     | Some b => g b x
                                     end) l (Some b)).
Proof.
  induction l as [|x l IH]; intros H b; simpl; [eauto|].
  destruct (H x b) as [b' ->]; [by left|].
  apply IH. intros y c Hy. apply H. by right.
Qed.

Lemma size_difference_step (X V : gset string) (v : string) :
  v ∈ X -> v ∉ V -> size (X ∖ V) = S (size (X ∖ ({[v]} ∪ V))).
Proof.
  intros Hv HV.
  assert (E : X ∖ V = {[v]} ∪ X ∖ ({[v]} ∪ V)).
  { apply set_eq. intros x. rewrite elem_of_union, !elem_of_difference,
      elem_of_union, elem_of_singleton.
    destruct (decide (x = v)) as [->|Hne]; naive_solver. }
  rewrite E at 1. rewrite size_union by set_solver. by rewrite size_singleton.
Qed.

(** The depth of the search is bounded by the nodes not yet on the path. *)
Lemma dfs_terminates (nodeMap : gmap string Node) adj :
  forall fuel nodeId path totalLatency (visited : gset string) best,
    (nodeMap !! nodeId = None /\ 1 <= fuel)
    \/ size (dom nodeMap ∖ visited) + 2 <= fuel ->
    is_Some (dfs COMPONENT_MAP fuel nodeMap adj nodeId path totalLatency
                 visited best).
Proof.
  induction fuel as [|fuel IH]; intros nodeId path totalLatency visited best H.
  - destruct H as [[_ H]|H]; lia.
  - cbn [dfs]. destruct (nodeMap !! nodeId) as [node|] eqn:Hnode; [|eauto].
    destruct H as [[? _]|H]; [done|].
    destruct (List.filter _ _) as [|u us] eqn:Hun.
    { destruct (Js.ltb _ _); eauto. }
    rewrite <- Hun. apply fold_option_total. intros next b Hnext.
    apply list_elem_of_In, filter_In in Hnext as [_ Hnext].
    apply negb_true_iff, bool_decide_eq_false in Hnext.
    apply IH. destruct (nodeMap !! next) as [n'|] eqn:Hn'.
    + right.
      assert (Hdom : next ∈ dom nodeMap) by (apply elem_of_dom; eauto).
      pose proof (size_difference_step _ _ _ Hdom Hnext). lia.
    + left. split; [done|lia].
Qed.

Lemma nodeMapOf_lookup (nodes : list Node) k :
  is_Some (nodeMapOf nodes !! k) <-> k ∈ map node_id nodes.
Proof.
  unfold nodeMapOf.
  assert (G : forall m : gmap string Node,
    is_Some (fold_left (fun m n => <[node_id n := n]> m) nodes m !! k) <->
    k ∈ map node_id nodes \/ is_Some (m !! k)).
  { induction nodes as [|n nodes IH]; intros m; cbn [fold_left map].
    - split; [by right|]. intros [H|H]; [|done]. by apply elem_of_nil in H.
    - rewrite IH, elem_of_cons. destruct (decide (node_id n = k)) as [->|Hne].
      + rewrite lookup_insert_eq. naive_solver.
      + rewrite lookup_insert_ne by done. naive_solver. }
  rewrite G, lookup_empty. split; [|by left]. intros [H|[? H]]; done.
Qed.

Lemma nodeMapOf_dom_size (nodes : list Node) :
  size (dom (nodeMapOf nodes)) <= length nodes.
Proof.
  assert (Hsub : dom (nodeMapOf nodes) ⊆ list_to_set (map node_id nodes)).
  { intros v Hv%elem_of_dom%nodeMapOf_lookup. by apply elem_of_list_to_set. }
  apply subseteq_size in Hsub. etrans; [exact Hsub|].
  etrans; [apply size_list_to_set_le|]. by rewrite length_map.
Qed.

Lemma findSourceNodes_elem nodes edges src :
  src ∈ findSourceNodes nodes edges -> src ∈ map node_id nodes.
Proof.
  unfold findSourceNodes. rewrite !list_elem_of_In, !in_map_iff.
  intros (n & <- & Hn). apply filter_In in Hn as [Hn _]. eauto.
Qed.

(** findCriticalPath always returns. *)
Lemma findCriticalPath_total nodes edges :
  is_Some (findCriticalPath COMPONENT_MAP nodes edges).
Proof.
  unfold findCriticalPath.
  assert (Hfold : is_Some
    (fold_left
       (fun acc src =>
          match acc with
          | None => None
          | Some b =>
              dfs COMPONENT_MAP (S (length nodes)) (nodeMapOf nodes)
                  (buildAdjacencyList edges) src [] 0 {[src]} b
          end)
       (findSourceNodes nodes edges) (Some ([], 0%Q)))).
  { apply fold_option_total. intros src b Hsrc.
    apply dfs_terminates. right.
    apply findSourceNodes_elem, nodeMapOf_lookup, elem_of_dom in Hsrc.
    pose proof (size_difference_step (dom (nodeMapOf nodes)) ∅ src Hsrc) as Hs.
    rewrite union_empty_r_L in Hs.
    assert (size (dom (nodeMapOf nodes) ∖ (∅ : gset string))
            <= size (dom (nodeMapOf nodes))) by (apply subseteq_size; set_solver).
    pose proof (nodeMapOf_dom_size nodes).
    specialize (Hs ltac:(set_solver)). lia. }
  destruct Hfold as [[bestPath bestLatency] ->].
  destruct (findSourceNodes nodes edges), nodes, bestPath; eauto.
Qed.

Lemma cutVertexSPOFs_total edges sources sinks candidates : forall spofs,
  is_Some (cutVertexSPOFs COMPONENT_MAP edges (buildAdjacencyList edges)
                          sources sinks candidates spofs).
Proof.
  induction candidates as [|node rest IH]; intros spofs; simpl; [eauto|].
  destruct (isClientOrObservability _ _); [apply IH|].
  destruct (Js.ltb _ _); [apply IH|].
  destruct (disconnectsGraph_total edges sources sinks (node_id node)) as [b ->].
  destruct b; apply IH.
Qed.

(** findSPOFs always returns. *)
Lemma findSPOFs_total nodes edges :
  is_Some (findSPOFs COMPONENT_MAP nodes edges).
Proof.
  unfold findSPOFs. destruct (length nodes <=? 1)%nat; [eauto|].
  destruct (cutVertexSPOFs_total edges (findSourceNodes nodes edges)
              (findSinkNodes nodes edges) nodes []) as [spofs ->].
  destruct (findCriticalPath_total nodes edges) as [[p l] ->]. eauto.
Qed.

(** analyzeTopology always returns. *)
Lemma analyzeTopology_total nodes edges :
  is_Some (analyzeTopology COMPONENT_MAP nodes edges).
Proof.
  unfold analyzeTopology. destruct nodes as [|n nodes]; [eauto|].
  destruct (findCriticalPath_total (n :: nodes) edges) as [[p l] ->].
  destruct (findSPOFs_total (n :: nodes) edges) as [spofs ->]. eauto.
Qed.

(** computeMetrics always returns, and its fields are those computed from
    the topology analysis. *)
Lemma computeMetrics_total nodes edges trafficLoad :
  exists t m,
    analyzeTopology COMPONENT_MAP nodes edges = Some t /\
    computeMetrics COMPONENT_MAP nodes edges trafficLoad = Some m /\
    throughput m = computeThroughput COMPONENT_MAP nodes t trafficLoad /\
    latencyP50 m = fst (fst (computeLatency COMPONENT_MAP nodes t)) /\
    availability m = computeAvailability COMPONENT_MAP nodes t /\
    errorRate m = computeErrorRate COMPONENT_MAP nodes t trafficLoad /\
    monthlyCost m = computeMonthlyCost COMPONENT_MAP nodes.
Proof.
  destruct (analyzeTopology_total nodes edges) as [t Ht].
  exists t. unfold computeMetrics. rewrite Ht.
  destruct (computeLatency COMPONENT_MAP nodes t) as [[p50 p95] p99] eqn:E.
  eexists. split; [done|]. split; [done|]. done.
Qed.

End CriticalPath.

(** ** A catalog for the examples

    The repository's table (constants/componentDefinitions) is not among the
    sources; the entries below are stand-ins with the categories that the
    engine's own type lists give these kinds. *)

Definition mkDef (c : ComponentCategory) (tput lat fail : Q) (hs : bool)
    (sla : Q) (cm : ConsistencyModel) (cap : CAPAlignment) (cost : Q)
  : ComponentDefinition :=
  {| category := c; maxThroughput := tput; baseLatency := lat;
     failureRateAtCapacity := fail; isHorizontallyScalable := hs;
     availabilitySLA := sla; consistencyModel := cm; capAlignment := cap;
     costPerInstancePerMonth := cost |}.

Definition sampleCatalog : gmap string ComponentDefinition :=
  list_to_map
    [("web-client", mkDef clients 100000 5 0.01 true 0.999 eventual AP 0);
     ("load-balancer", mkDef loadbalancing 50000 2 0.01 true 0.9999 strong AP 25);
     ("web-server", mkDef compute 1000 20 0.05 true 0.999 strong AP 50);
     ("postgresql", mkDef storage 5000 10 0.1 false 0.9995 strong CP 200);
     ("redis-cache", mkDef storage 100000 1 0.01 true 0.999 eventual AP 80);
     ("metrics-collector", mkDef observability 20000 5 0.01 true 0.999 eventual AP 30)].

(** ** findSPOFs: which ids can be listed *)

Section SpofFacts.
Variable COMPONENT_MAP : gmap string ComponentDefinition.

(** A node that both rules accept: not a client, not observability, and
    with at most one replica. *)
Definition spofCandidate (n : Node) : Prop :=
  isClientOrObservability COMPONENT_MAP n = false /\
  (replicas (config (data n)) <= 1)%Q.

Lemma findNode_Some nodes nid n :
  findNode nodes nid = Some n -> n ∈ nodes /\ node_id n = nid.
Proof.
  unfold findNode. intros H. apply find_some in H as [Hin Hid].
  split; [by apply list_elem_of_In|]. by apply bool_decide_eq_true in Hid.
Qed.

Lemma dedupFirst_elem xs : forall seen x, x ∈ dedupFirst seen xs -> x ∈ xs.
Proof.
  induction xs as [|y xs IH]; intros seen x; simpl; [done|].
  case_bool_decide.
  - intros H'. right. by eapply IH.
  - intros [->|H']%elem_of_cons; [by left|]. right. by eapply IH.
Qed.

Lemma cutVertexSPOFs_elem edges adj sources sinks candidates :
  forall spofs result x,
    cutVertexSPOFs COMPONENT_MAP edges adj sources sinks candidates spofs
      = Some result ->
    x ∈ result ->
    x ∈ spofs \/ exists n, n ∈ candidates /\ node_id n = x /\ spofCandidate n.
Proof.
  induction candidates as [|node rest IH]; intros spofs result x Hrun Hx;
    simpl in Hrun.
  - injection Hrun as <-. by left.
  - assert (Hrest : forall s, cutVertexSPOFs COMPONENT_MAP edges adj sources
                                sinks rest s = Some result ->
              x ∈ s \/ exists n, n ∈ node :: rest /\ node_id n = x /\ spofCandidate n).
    { intros s Hs. destruct (IH s result x Hs Hx) as [?|(n & ? & ? & ?)]; [by left|].
      right. exists n. split; [by right|done]. }
    destruct (isClientOrObservability COMPONENT_MAP node) eqn:Hcat; [by apply Hrest|].
    destruct (Js.ltb 1 (replicas (config (data node)))) eqn:Hrep; [by apply Hrest|].
    destruct (disconnectsGraph _ _ _ _ _) as [[|]|]; [|by apply Hrest|done].
    destruct (Hrest _ Hrun) as [[Hin|Hin]%elem_of_app|Hex]; [by left| |by right].
    apply list_elem_of_singleton in Hin as ->. right. exists node.
    split; [by left|]. split; [done|]. split; [done|]. by apply Js_ltb_ge.
Qed.

Lemma criticalPathSPOFs_elem nodes critPath : forall spofs x,
  x ∈ criticalPathSPOFs COMPONENT_MAP nodes critPath spofs ->
  x ∈ spofs \/ exists n, n ∈ nodes /\ node_id n = x /\ spofCandidate n.
Proof.
  unfold criticalPathSPOFs.
  induction critPath as [|nid critPath IH]; intros spofs x Hx; simpl in Hx;
    [by left|].
  apply IH in Hx as [Hx|Hx]; [|by right].
  destruct (findNode nodes nid) as [node|] eqn:Hfind; [|by left].
  destruct (isClientOrObservability COMPONENT_MAP node) eqn:Hcat; [by left|].
  destruct (Js.leb (replicas (config (data node))) 1) eqn:Hrep; simpl in Hx;
    [|by left].
  destruct (negb _); [|by left].
  apply elem_of_app in Hx as [Hx|Hx]; [by left|].
  apply list_elem_of_singleton in Hx as ->. right.
  apply findNode_Some in Hfind as [Hin Hid]. exists node.
  split; [done|]. split; [done|]. split; [done|]. by apply Js_leb_le.
Qed.

(** On a graph with at least two nodes, every listed id belongs to a node
    that is neither a client nor observability and has at most one replica. *)
Lemma findSPOFs_candidates nodes edges spofs x :
  2 <= length nodes ->
  findSPOFs COMPONENT_MAP nodes edges = Some spofs ->
  x ∈ spofs ->
  exists n, n ∈ nodes /\ node_id n = x /\ spofCandidate n.
Proof.
  intros Hlen. unfold findSPOFs.
  destruct (length nodes <=? 1)%nat eqn:E; [apply Nat.leb_le in E; lia|].
  destruct (cutVertexSPOFs _ _ _ _ _ _ _) as [cut|] eqn:Hcut; [|done].
  destruct (findCriticalPath _ _ _) as [[critPath lat]|]; [|done].
  intros [= <-] Hx. apply dedupFirst_elem, criticalPathSPOFs_elem in Hx
    as [Hx|Hx]; [|done].
  eapply cutVertexSPOFs_elem in Hx as [Hx|Hx]; [|done|exact Hcut].
  by apply elem_of_nil in Hx.
Qed.

Lemma analyzeTopology_spofs n nodes edges t :
  analyzeTopology COMPONENT_MAP (n :: nodes) edges = Some t ->
  findSPOFs COMPONENT_MAP (n :: nodes) edges = Some (spofNodeIds t).
Proof.
  unfold analyzeTopology.
  destruct (findCriticalPath _ _ _) as [[p l]|]; [|done].
  destruct (findSPOFs _ _ _) as [spofs|]; [|done].
  by intros [= <-].
Qed.

(** A graph of one node lists that node, whatever its kind and replicas. *)
Lemma analyzeTopology_single n edges :
  exists t, analyzeTopology COMPONENT_MAP [n] edges = Some t /\
            spofNodeIds t = [node_id n].
Proof.
  destruct (analyzeTopology_total COMPONENT_MAP [n] edges) as [t Ht].
  exists t. split; [done|].
  apply analyzeTopology_spofs in Ht. by injection Ht as <-.
Qed.

End SpofFacts.

(** The node list in which every node with id [x] has [r] replicas. *)
Definition withReplicas (x : string) (r : Q) (n : Node) : Node :=
  if bool_decide (node_id n = x) then
    {| node_id := node_id n;
       data := {| componentType := componentType (data n);
                  config := {| label := label (config (data n));
                               replicas := r;
                               region := region (config (data n)) |};
                  isFailed := isFailed (data n);
                  isAI := isAI (data n) |} |}
  else n.

(** On a graph with at least two nodes, a node raised to two replicas is not
    listed by the next analysis. *)
Lemma replica_removes_spof COMPONENT_MAP nodes edges x t :
  2 <= length nodes ->
  analyzeTopology COMPONENT_MAP (map (withReplicas x 2) nodes) edges = Some t ->
  x ∉ spofNodeIds t.
Proof.
  intros Hlen Ht Hx.
  destruct nodes as [|n0 nodes]; [simpl in Hlen; lia|].
  cbn [map] in Ht. apply analyzeTopology_spofs in Ht.
  change (withReplicas x 2 n0 :: map (withReplicas x 2) nodes)
    with (map (withReplicas x 2) (n0 :: nodes)) in Ht.
  eapply findSPOFs_candidates in Ht as (n & Hn & Hid & _ & Hrep); [| |exact Hx].
  - apply list_elem_of_In, in_map_iff in Hn as (n' & <- & _).
    unfold withReplicas in Hid, Hrep. case_bool_decide as Hd; simpl in *.
    + revert Hrep. by vm_compute.
    + done.
  - by rewrite length_map.
Qed.

(** On a graph with at least two nodes and unique ids, no listed node is a
    client or an observability component. *)
Lemma spofs_exclude_clients COMPONENT_MAP nodes edges t n :
  2 <= length nodes ->
  NoDup (map node_id nodes) ->
  analyzeTopology COMPONENT_MAP nodes edges = Some t ->
  n ∈ nodes -> node_id n ∈ spofNodeIds t ->
  isClientOrObservability COMPONENT_MAP n = false.
Proof.
  intros Hlen Hnd Ht Hn Hx.
  destruct nodes as [|n0 nodes]; [simpl in Hlen; lia|].
  apply analyzeTopology_spofs in Ht.
  eapply findSPOFs_candidates in Ht as (n' & Hn' & Hid & Hcat & _); [|done|exact Hx].
  assert (n' = n) as ->; [|done].
  apply list_elem_of_In, In_nth_error in Hn as [i Hi].
  apply list_elem_of_In, In_nth_error in Hn' as [j Hj].
  assert (i = j) as ->; [|congruence].
  apply (NoDup_nth_error (map node_id (n0 :: nodes))).
  - by apply NoDup_ListNoDup.
  - rewrite length_map. apply nth_error_Some. congruence.
  - rewrite !nth_error_map, Hi, Hj. simpl. by rewrite Hid.
Qed.

(** C3: raising a listed node to two replicas does not remove it when it is
    the only node of the graph: findSPOFs returns the ids of a graph of at
    most one node before it looks at replicas. The analysis lists the node
    with one replica and still lists it with two. *)
Theorem single_node_spof_ignores_replicas :
  forall COMPONENT_MAP n edges,
    exists t t',
      analyzeTopology COMPONENT_MAP [n] edges = Some t /\
      node_id n ∈ spofNodeIds t /\
      analyzeTopology COMPONENT_MAP (map (withReplicas (node_id n) 2) [n]) edges
        = Some t' /\
      node_id n ∈ spofNodeIds t' /\
      exists n', map (withReplicas (node_id n) 2) [n] = [n'] /\
                 (replicas (config (data n')) == 2)%Q.
Proof.
  intros cat n edges.
  destruct (analyzeTopology_single cat n edges) as (t & Ht & Hs).
  destruct (analyzeTopology_single cat (withReplicas (node_id n) 2 n) edges)
    as (t' & Ht' & Hs').
  exists t, t'. split; [done|]. split; [rewrite Hs; by left|].
  split; [done|].
  assert (Hid : node_id (withReplicas (node_id n) 2 n) = node_id n).
  { unfold withReplicas. by case_bool_decide. }
  split; [rewrite Hs', Hid; by left|].
  eexists. split; [done|]. unfold withReplicas.
  by rewrite bool_decide_eq_true_2.
Qed.

(** C4: a graph that consists of one client node lists that client as a
    single point of failure: the early return of findSPOFs for graphs of at
    most one node comes before the test that skips clients and observability
    nodes. *)
Theorem single_client_node_listed :
  forall COMPONENT_MAP n edges d,
    COMPONENT_MAP !! componentType (data n) = Some d ->
    category d = clients \/ category d = observability ->
    exists t,
      analyzeTopology COMPONENT_MAP [n] edges = Some t /\
      node_id n ∈ spofNodeIds t /\
      isClientOrObservability COMPONENT_MAP n = true.
Proof.
  intros cat n edges d Hd Hcat.
  destruct (analyzeTopology_single cat n edges) as (t & Ht & Hs).
  exists t. split; [done|]. split; [rewrite Hs; by left|].
  unfold isClientOrObservability, defOf. rewrite Hd.
  destruct Hcat as [-> | ->]; done.
Qed.

Lemma single_client_node_listed_witness :
  exists t,
    analyzeTopology sampleCatalog [mkNode "c1" "web-client" 1] [] = Some t /\
    "c1" ∈ spofNodeIds t /\
    isClientOrObservability sampleCatalog (mkNode "c1" "web-client" 1) = true.
Proof.
  apply (single_client_node_listed sampleCatalog (mkNode "c1" "web-client" 1) []
           (mkDef clients 100000 5 0.01 true 0.999 eventual AP 0)).
  - reflexivity.
  - left. reflexivity.
Defined.

Definition diamondNodes : list Node :=
  [mkNode "client" "web-client" 1; mkNode "lb" "load-balancer" 1;
   mkNode "s1" "web-server" 1; mkNode "s2" "web-server" 1;
   mkNode "db" "postgresql" 1].
Definition diamondEdges : list Edge :=
  [mkEdge "client" "lb"; mkEdge "lb" "s1"; mkEdge "lb" "s2";
   mkEdge "s1" "db"; mkEdge "s2" "db"].

(** Two servers behind a load balancer: the critical path runs through the
    first server, which is listed although the second one offers another
    path; a second replica on it removes it from the list. *)
Example diamond_spofs :
  exists t t',
    analyzeTopology sampleCatalog diamondNodes diamondEdges = Some t /\
    criticalPath t = ["client"; "lb"; "s1"; "db"] /\
    spofNodeIds t = ["lb"; "s1"; "db"] /\
    analyzeTopology sampleCatalog (map (withReplicas "s1" 2) diamondNodes)
                    diamondEdges = Some t' /\
    spofNodeIds t' = ["lb"; "db"].
Proof.
  eexists _, _. split; [vm_compute; reflexivity|].
  split; [reflexivity|]. split; [reflexivity|].
  split; [vm_compute; reflexivity|]. reflexivity.
Qed.

(** ** computeAvailability *)

(** The [availabilitySLA] of each listed id whose node has a catalog entry. *)
Definition spofSLAs (COMPONENT_MAP : gmap string ComponentDefinition)
    (nodes : list Node) (spofs : list string) : list Q :=
  omap (fun spofId =>
          match findNode nodes spofId with
          | Some node => option_map availabilitySLA (defOf COMPONENT_MAP node)
          | None => None
          end)
       spofs.

(** The product of (1 - sla) over a list of SLAs. *)
Definition unavailabilityProduct (slas : list Q) : Q :=
  fold_right (fun sla p => ((1 - sla) * p)%Q) 1%Q slas.

(** Every entry of the catalog has an [availabilitySLA] in [0, 1]. *)
Definition slaInUnitInterval (COMPONENT_MAP : gmap string ComponentDefinition)
  : Prop :=
  forall k d, COMPONENT_MAP !! k = Some d ->
              (0 <= availabilitySLA d)%Q /\ (availabilitySLA d <= 1)%Q.

Section Availability.
Variable COMPONENT_MAP : gmap string ComponentDefinition.

Lemma unavailabilityOf_product nodes spofs :
  (unavailabilityOf COMPONENT_MAP nodes spofs ==
   unavailabilityProduct (spofSLAs COMPONENT_MAP nodes spofs))%Q.
Proof.
  unfold unavailabilityOf.
  assert (G : forall acc : Q,
    (fold_left
       (fun (unavailability : Q) spofId =>
          match findNode nodes spofId with
          | None => unavailability
          | Some node =>
              match defOf COMPONENT_MAP node with
              | None => unavailability
              | Some d => (unavailability * (1 - availabilitySLA d))%Q
              end
          end) spofs acc ==
     acc * unavailabilityProduct (spofSLAs COMPONENT_MAP nodes spofs))%Q).
  { induction spofs as [|s spofs IH]; intros acc; simpl; [ring|].
    rewrite IH. destruct (findNode nodes s) as [node|]; simpl; [|reflexivity].
    destruct (defOf COMPONENT_MAP node) as [d|]; simpl; [ring|reflexivity]. }
  rewrite G. ring.
Qed.

Hypothesis sla_ok : slaInUnitInterval COMPONENT_MAP.

Lemma unavailabilityOf_range nodes spofs :
  (0 <= unavailabilityOf COMPONENT_MAP nodes spofs)%Q /\
  (unavailabilityOf COMPONENT_MAP nodes spofs <= 1)%Q.
Proof.
  unfold unavailabilityOf.
  assert (G : forall acc : Q, (0 <= acc)%Q /\ (acc <= 1)%Q ->
    let r := fold_left
       (fun (unavailability : Q) spofId =>
          match findNode nodes spofId with
          | None => unavailability
          | Some node =>
              match defOf COMPONENT_MAP node with
              | None => unavailability
              | Some d => (unavailability * (1 - availabilitySLA d))%Q
              end
          end) spofs acc in
    (0 <= r)%Q /\ (r <= 1)%Q).
  { induction spofs as [|s spofs IH]; intros acc Hacc; simpl; [done|].
    apply IH. destruct (findNode nodes s) as [node|]; [|done].
    destruct (defOf COMPONENT_MAP node) as [d|] eqn:Hd; [|done].
    destruct (sla_ok _ _ Hd) as [H0 H1]. destruct Hacc as [Ha0 Ha1].
    split; nra. }
  apply G. split; [by vm_compute|apply Qle_refl].
Qed.

Lemma computeAvailability_range nodes t :
  (0 <= computeAvailability COMPONENT_MAP nodes t)%Q /\
  (computeAvailability COMPONENT_MAP nodes t <= 0.99999)%Q.
Proof.
  unfold computeAvailability. destruct nodes as [|n nodes].
  - split; by vm_compute.
  - destruct (spofNodeIds t) as [|s spofs].
    + split; [by vm_compute|apply Qle_refl].
    + destruct (unavailabilityOf_range (n :: nodes) (s :: spofs)) as [H0 H1].
      split.
      * apply Q.min_glb; [by vm_compute|lra].
      * apply Q.le_min_l.
Qed.

End Availability.

Lemma sampleCatalog_sla : slaInUnitInterval sampleCatalog.
Proof.
  intros k d Hd. unfold sampleCatalog in Hd.
  apply elem_of_list_to_map_2 in Hd.
  repeat (apply elem_of_cons in Hd as [[= -> ->]|Hd]; [split; by vm_compute|]).
  by apply elem_of_nil in Hd.
Qed.

Definition webAppNodes : list Node :=
  [mkNode "client" "web-client" 1; mkNode "server" "web-server" 1;
   mkNode "db" "postgresql" 1].
Definition webAppEdges : list Edge :=
  [mkEdge "client" "server"; mkEdge "server" "db"].

(** C5, as amended: with catalog SLAs in [0, 1], the availability of
    computeMetrics lies in [0, 0.99999]; it is 0 for the empty graph; for a
    non-empty graph it is exactly 0.99999 when the analysis lists no SPOF, and
    otherwise 1 minus the product of (1 - availabilitySLA) over the listed
    nodes that have a catalog entry, capped at 0.99999. *)
Theorem availability_bounds :
  forall COMPONENT_MAP nodes edges trafficLoad,
    slaInUnitInterval COMPONENT_MAP ->
    exists t m,
      analyzeTopology COMPONENT_MAP nodes edges = Some t /\
      computeMetrics COMPONENT_MAP nodes edges trafficLoad = Some m /\
      (0 <= availability m)%Q /\ (availability m <= 0.99999)%Q /\
      (nodes = [] -> (availability m == 0)%Q) /\
      (nodes <> [] -> spofNodeIds t = [] -> (availability m == 0.99999)%Q) /\
      (nodes <> [] -> spofNodeIds t <> [] ->
       (availability m ==
        Qmin 0.99999
             (1 - unavailabilityProduct
                    (spofSLAs COMPONENT_MAP nodes (spofNodeIds t))))%Q).
Proof.
  intros cat nodes edges trafficLoad Hsla.
  destruct (computeMetrics_total cat nodes edges trafficLoad)
    as (t & m & Ht & Hm & _ & _ & Hav & _).
  exists t, m. split; [done|]. split; [done|]. rewrite Hav.
  destruct (computeAvailability_range cat Hsla nodes t) as [H0 H1].
  split; [done|]. split; [done|].
  unfold computeAvailability. split_and!.
  - by intros ->.
  - intros Hn Hs. destruct nodes; [done|]. by rewrite Hs.
  - intros Hn Hs. destruct nodes; [done|].
    destruct (spofNodeIds t) as [|s spofs] eqn:E; [done|].
    by rewrite unavailabilityOf_product.
Qed.

Lemma availability_bounds_witness :
  exists t m,
    analyzeTopology sampleCatalog webAppNodes webAppEdges = Some t /\
    computeMetrics sampleCatalog webAppNodes webAppEdges 1000 = Some m /\
    (0 <= availability m)%Q /\ (availability m <= 0.99999)%Q /\
    (webAppNodes = [] -> (availability m == 0)%Q) /\
    (webAppNodes <> [] -> spofNodeIds t = [] -> (availability m == 0.99999)%Q) /\
    (webAppNodes <> [] -> spofNodeIds t <> [] ->
     (availability m ==
      Qmin 0.99999
           (1 - unavailabilityProduct
                  (spofSLAs sampleCatalog webAppNodes (spofNodeIds t))))%Q).
Proof.
  apply (availability_bounds sampleCatalog webAppNodes webAppEdges 1000).
  exact sampleCatalog_sla.
Defined.

(** The empty graph has no SPOF and availability 0, not 0.99999. *)
Lemma availability_empty_graph :
  exists t m,
    analyzeTopology sampleCatalog [] [] = Some t /\
    spofNodeIds t = [] /\
    computeMetrics sampleCatalog [] [] 1000 = Some m /\
    ~ (availability m == 0.99999)%Q.
Proof.
  eexists _, _. split; [reflexivity|]. split; [reflexivity|].
  split; [reflexivity|]. by vm_compute.
Qed.

(** The web application client -> server -> db lists server and db; the
    product of their two unavailabilities is below 0.00001, so the cap
    applies. *)
Example webApp_analysis :
  exists t m,
    analyzeTopology sampleCatalog webAppNodes webAppEdges = Some t /\
    computeMetrics sampleCatalog webAppNodes webAppEdges 1000 = Some m /\
    criticalPath t = ["client"; "server"; "db"] /\
    spofNodeIds t = ["server"; "db"] /\
    (availability m == 0.99999)%Q.
Proof.
  eexists _, _. split; [vm_compute; reflexivity|].
  split; [vm_compute; reflexivity|]. by vm_compute.
Qed.

(** ** Nodes whose component kind has no catalog entry *)

(** The id [nid] names a node without catalog entry. *)
Definition unknownKind (COMPONENT_MAP : gmap string ComponentDefinition)
    (nodes : list Node) (nid : string) : bool :=
  match findNode nodes nid with
  | Some n => match defOf COMPONENT_MAP n with
              | Some _ => false
              | None => true
              end
  | None => false
  end.

(** The path without the ids of nodes that have no catalog entry. *)
Definition knownPath (COMPONENT_MAP : gmap string ComponentDefinition)
    (nodes : list Node) (path : list string) : list string :=
  List.filter (fun nid => negb (unknownKind COMPONENT_MAP nodes nid)) path.

(** The nodes that have a catalog entry. *)
Definition knownNodes (COMPONENT_MAP : gmap string ComponentDefinition)
    (nodes : list Node) : list Node :=
  List.filter (fun n => match defOf COMPONENT_MAP n with
                        | Some _ => true
                        | None => false
                        end) nodes.

(** Number of ids on the path that name a node without catalog entry. *)
Definition unknownCount (COMPONENT_MAP : gmap string ComponentDefinition)
    (nodes : list Node) (path : list string) : nat :=
  length (List.filter (unknownKind COMPONENT_MAP nodes) path).

Section UnknownKinds.
Variable COMPONENT_MAP : gmap string ComponentDefinition.

Lemma fold_left_skip {A B : Type} (f : A -> B -> A) (keep : B -> bool)
    (l : list B) :
  (forall a x, keep x = false -> f a x = a) ->
  forall a, fold_left f l a = fold_left f (List.filter keep l) a.
Proof.
  intros Hskip. induction l as [|x l IH]; intros a; simpl; [done|].
  destruct (keep x) eqn:E; simpl; [apply IH|].
  rewrite Hskip by done. apply IH.
Qed.

(** The capacity minimum skips nodes without catalog entry. *)
Lemma minCapacityOn_known nodes path :
  minCapacityOn COMPONENT_MAP nodes path =
  minCapacityOn COMPONENT_MAP nodes (knownPath COMPONENT_MAP nodes path).
Proof.
  unfold minCapacityOn, knownPath. apply fold_left_skip.
  intros a nid Hk. apply negb_false_iff in Hk. unfold unknownKind in Hk.
  destruct (findNode nodes nid) as [n|]; [|done].
  by destruct (defOf COMPONENT_MAP n).
Qed.

(** The base-latency sum skips nodes without catalog entry. *)
Lemma baseLatencyOn_known nodes path :
  baseLatencyOn COMPONENT_MAP nodes path =
  baseLatencyOn COMPONENT_MAP nodes (knownPath COMPONENT_MAP nodes path).
Proof.
  unfold baseLatencyOn, knownPath. apply fold_left_skip.
  intros a nid Hk. apply negb_false_iff in Hk. unfold unknownKind in Hk.
  destruct (findNode nodes nid) as [n|]; [|done].
  by destruct (defOf COMPONENT_MAP n).
Qed.

(** The cost sum skips nodes without catalog entry. *)
Lemma computeMonthlyCost_known nodes :
  computeMonthlyCost COMPONENT_MAP nodes =
  computeMonthlyCost COMPONENT_MAP (knownNodes COMPONENT_MAP nodes).
Proof.
  unfold computeMonthlyCost, knownNodes. apply fold_left_skip.
  intros a n Hk. by destruct (defOf COMPONENT_MAP n).
Qed.

(** Latency that the search of findCriticalPath charges for an id. *)
Definition chargedLatency (nodeMap : gmap string Node) (nid : string) : Q :=
  match nodeMap !! nid with
  | Some n => getNodeLatency COMPONENT_MAP n
  | None => 0
  end.

Definition pathLatency (nodeMap : gmap string Node) (path : list string) : Q :=
  fold_right (fun nid acc => (chargedLatency nodeMap nid + acc)%Q) 0%Q path.

Lemma pathLatency_snoc nodeMap path nid :
  (pathLatency nodeMap (path ++ [nid]) ==
   pathLatency nodeMap path + chargedLatency nodeMap nid)%Q.
Proof.
  induction path as [|x path IH]; simpl; [ring|]. rewrite IH. ring.
Qed.

(** A pair (path, latency) whose latency is the sum charged along the path. *)
Definition latencyOfPath (nodeMap : gmap string Node) (b : list string * Q)
  : Prop :=
  (snd b == pathLatency nodeMap (fst b))%Q.

Lemma dfs_latencyOfPath nodeMap adj :
  forall fuel nodeId path totalLatency visited best result,
    (totalLatency == pathLatency nodeMap path)%Q ->
    latencyOfPath nodeMap best ->
    dfs COMPONENT_MAP fuel nodeMap adj nodeId path totalLatency visited best
      = Some result ->
    latencyOfPath nodeMap result.
Proof.
  induction fuel as [|fuel IH];
    intros nodeId path totalLatency visited best result Htot Hbest Hrun;
    [done|].
  cbn [dfs] in Hrun.
  destruct (nodeMap !! nodeId) as [node|] eqn:Hnode; [|by injection Hrun as <-].
  assert (Hlat : (totalLatency + getNodeLatency COMPONENT_MAP node ==
                  pathLatency nodeMap (path ++ [nodeId]))%Q).
  { rewrite pathLatency_snoc, Htot. unfold chargedLatency. by rewrite Hnode. }
  destruct (List.filter _ _) as [|u us] eqn:Hun.
  - destruct (Js.ltb _ _); injection Hrun as <-; [exact Hlat|exact Hbest].
  - clear Hun. revert best Hbest Hrun. generalize (u :: us) as l.
    induction l as [|next l IHl]; intros best Hbest Hrun; simpl in Hrun.
    + by injection Hrun as <-.
    + destruct (dfs COMPONENT_MAP fuel nodeMap adj next (path ++ [nodeId])
                    (totalLatency + getNodeLatency COMPONENT_MAP node)
                    ({[next]} ∪ visited) best) as [b|] eqn:Hb.
      * apply (IHl b); [|exact Hrun]. exact (IH _ _ _ _ _ _ Hlat Hbest Hb).
      * exfalso. clear -Hrun. induction l as [|x l IHl']; simpl in Hrun; [done|].
        by apply IHl'.
Qed.

Lemma nodeMapOf_findNode nodes k :
  NoDup (map node_id nodes) -> nodeMapOf nodes !! k = findNode nodes k.
Proof.
  unfold nodeMapOf, findNode.
  assert (G : forall m : gmap string Node,
    NoDup (map node_id nodes) ->
    fold_left (fun m n => <[node_id n := n]> m) nodes m !! k =
    match List.find (fun n => bool_decide (node_id n = k)) nodes with
    | Some n => Some n
    | None => m !! k
    end).
  { induction nodes as [|n nodes IH]; intros m Hnd; cbn [fold_left List.find map];
      [done|].
    apply NoDup_cons in Hnd as [Hn Hnd]. rewrite IH by done.
    case_bool_decide as Hk.
    - subst k. destruct (List.find _ nodes) as [n'|] eqn:Hfind.
      + exfalso. apply find_some in Hfind as [Hin Hid].
        apply bool_decide_eq_true in Hid. apply Hn. rewrite <- Hid.
        apply list_elem_of_In, in_map. exact Hin.
      + by rewrite lookup_insert_eq.
    - destruct (List.find _ nodes); [done|]. by rewrite lookup_insert_ne. }
  intros Hnd. rewrite G by done. rewrite lookup_empty.
  by destruct (List.find _ nodes).
Qed.

(** Under unique ids the charged sum is the base-latency sum of the
    catalogued nodes plus 10 for every node without catalog entry. *)
Lemma pathLatency_split nodes path :
  NoDup (map node_id nodes) ->
  (pathLatency (nodeMapOf nodes) path ==
   baseLatencyOn COMPONENT_MAP nodes path
   + 10 * Js.ofNat (unknownCount COMPONENT_MAP nodes path))%Q.
Proof.
  intros Hnd. unfold baseLatencyOn, unknownCount.
  assert (G : forall acc : Q,
    (fold_left
       (fun (totalLatency : Q) nid =>
          match findNode nodes nid with
          | None => totalLatency
          | Some node =>
              match defOf COMPONENT_MAP node with
              | None => totalLatency
              | Some d => (totalLatency + baseLatency d)%Q
              end
          end) path acc
     + 10 * Js.ofNat (length (List.filter (unknownKind COMPONENT_MAP nodes) path))
     == acc + pathLatency (nodeMapOf nodes) path)%Q).
  { induction path as [|nid path IH]; intros acc; simpl.
    - unfold Js.ofNat. simpl. ring.
    - unfold chargedLatency at 1, unknownKind at 1, getNodeLatency.
      rewrite nodeMapOf_findNode by done.
      destruct (findNode nodes nid) as [n|]; simpl.
      + destruct (defOf COMPONENT_MAP n) as [d|]; simpl.
        * rewrite IH. ring.
        * unfold Js.ofNat in *. rewrite Nat2Z.inj_succ, <- Z.add_1_r, inject_Z_plus.
          specialize (IH acc). change (inject_Z 1) with 1%Q.
          set (F := fold_left _ _ _) in *.
          set (N := inject_Z (Z.of_nat _)) in *.
          set (P := pathLatency _ _) in *. lra.
      + rewrite IH. ring. }
  specialize (G 0%Q). lra.
Qed.

Lemma findCriticalPath_latency nodes edges path latency :
  NoDup (map node_id nodes) ->
  findCriticalPath COMPONENT_MAP nodes edges = Some (path, latency) ->
  latencyOfPath (nodeMapOf nodes) (path, latency).
Proof.
  intros Hnd. unfold findCriticalPath.
  assert (Hfirst : forall n0 rest, nodes = n0 :: rest ->
            latencyOfPath (nodeMapOf nodes) ([node_id n0], getNodeLatency COMPONENT_MAP n0)).
  { intros n0 rest ->. unfold latencyOfPath, pathLatency, chargedLatency. simpl.
    rewrite nodeMapOf_findNode by done. unfold findNode. simpl.
    rewrite bool_decide_eq_true_2 by done. ring. }
  assert (Hfold : forall srcs best r,
    latencyOfPath (nodeMapOf nodes) best ->
    fold_left
      (fun acc src =>
         match acc with
         | None => None
         | Some b =>
             dfs COMPONENT_MAP (S (length nodes)) (nodeMapOf nodes)
                 (buildAdjacencyList edges) src [] 0 {[src]} b
         end) srcs (Some best) = Some r ->
    latencyOfPath (nodeMapOf nodes) r).
  { induction srcs as [|src srcs IH]; intros best r Hbest Hrun;
      cbn [fold_left] in Hrun.
    - by injection Hrun as <-.
    - destruct (dfs COMPONENT_MAP (S (length nodes)) (nodeMapOf nodes)
                    (buildAdjacencyList edges) src [] 0 {[src]} best)
        as [b|] eqn:Hb.
      + apply (IH b); [|exact Hrun].
        apply (dfs_latencyOfPath _ _ _ _ _ _ _ _ _ (Qeq_refl _) Hbest Hb).
      + exfalso. clear -Hrun.
        induction srcs as [|x l IHl]; cbn [fold_left] in Hrun; [done|].
        by apply IHl. }
  destruct (findSourceNodes nodes edges) as [|s srcs] eqn:Hs.
  - destruct nodes as [|n0 rest] eqn:Hn.
    + simpl. intros [= <- <-]. unfold latencyOfPath. simpl. reflexivity.
    + intros [= <- <-]. by eapply Hfirst.
  - destruct (fold_left _ (s :: srcs) _) as [[bp bl]|] eqn:Hrun; [|done].
    apply Hfold in Hrun; [|unfold latencyOfPath; simpl; reflexivity].
    destruct bp as [|b bp].
    + destruct nodes as [|n0 rest] eqn:Hn.
      * by intros [= <- <-].
      * intros [= <- <-]. by eapply Hfirst.
    + by intros [= <- <-].
Qed.

End UnknownKinds.

Lemma analyzeTopology_path COMPONENT_MAP nodes edges t :
  analyzeTopology COMPONENT_MAP nodes edges = Some t ->
  nodes = [] /\ criticalPath t = [] /\ (criticalPathLatency t == 0)%Q
  \/ findCriticalPath COMPONENT_MAP nodes edges
       = Some (criticalPath t, criticalPathLatency t) /\
     networkHops t = length (criticalPath t) - 1.
Proof.
  unfold analyzeTopology. destruct nodes as [|n nodes].
  - intros [= <-]. left. by simpl.
  - destruct (findCriticalPath _ _ _) as [[p l]|]; [|done].
    destruct (findSPOFs _ _ _) as [spofs|]; [|done].
    intros [= <-]. by right.
Qed.

Definition mysteryNodes : list Node := [mkNode "u" "mystery-box" 1].

(** C6, as amended: a node whose component kind has no catalog entry never
    makes the computation fail, and it adds nothing to the capacity minimum
    behind throughput, to the base-latency sum behind latencyP50 or to
    monthlyCost: each is what the same computation gives on the critical
    path (or node list) without such nodes. criticalPathLatency is different:
    findCriticalPath charges a default latency of 10 for such a node, so with
    unique node ids it is the base-latency sum of the catalogued nodes on the
    path plus 10 for every uncatalogued one. *)
Theorem unknown_kind_skipped :
  forall COMPONENT_MAP nodes edges trafficLoad,
    exists t m,
      analyzeTopology COMPONENT_MAP nodes edges = Some t /\
      computeMetrics COMPONENT_MAP nodes edges trafficLoad = Some m /\
      throughput m =
        match criticalPath t with
        | [] => 0%Q
        | _ :: _ =>
            match minCapacityOn COMPONENT_MAP nodes
                    (knownPath COMPONENT_MAP nodes (criticalPath t)) with
            | None => trafficLoad
            | Some minCapacity => Qmin trafficLoad minCapacity
            end
        end /\
      latencyP50 m =
        match criticalPath t with
        | [] => 0%Q
        | _ :: _ =>
            let total :=
              (baseLatencyOn COMPONENT_MAP nodes
                 (knownPath COMPONENT_MAP nodes (criticalPath t))
               + Js.ofNat (networkHops t) * 2)%Q in
            inject_Z (Js.round (if hasTypeIn cacheTypes nodes
                                then (total * 0.6)%Q else total))
        end /\
      monthlyCost m =
        computeMonthlyCost COMPONENT_MAP (knownNodes COMPONENT_MAP nodes) /\
      (NoDup (map node_id nodes) ->
       (criticalPathLatency t ==
        baseLatencyOn COMPONENT_MAP nodes
          (knownPath COMPONENT_MAP nodes (criticalPath t))
        + 10 * Js.ofNat (unknownCount COMPONENT_MAP nodes (criticalPath t)))%Q).
Proof.
  intros cat nodes edges trafficLoad.
  destruct (computeMetrics_total cat nodes edges trafficLoad)
    as (t & m & Ht & Hm & Htp & Hp50 & _ & _ & Hcost).
  exists t, m. split; [done|]. split; [done|]. split_and!.
  - rewrite Htp. unfold computeThroughput.
    by rewrite <- minCapacityOn_known.
  - rewrite Hp50. unfold computeLatency.
    rewrite <- baseLatencyOn_known.
    destruct (criticalPath t); [done|]. by destruct (hasTypeIn _ _).
  - rewrite Hcost. apply computeMonthlyCost_known.
  - intros Hnd. rewrite <- baseLatencyOn_known.
    apply analyzeTopology_path in Ht as [(-> & Hp & Hl)|[Hcp _]].
    + rewrite Hp, Hl. by vm_compute.
    + apply findCriticalPath_latency in Hcp; [|done].
      unfold latencyOfPath in Hcp. simpl in Hcp. rewrite Hcp.
      by apply pathLatency_split.
Qed.

(** A graph of one node of a kind that the catalog lacks: the critical-path
    latency is 10, although the base-latency sum without that node, and the
    latency of the graph without it, are 0. *)
Lemma unknown_kind_charged_latency :
  exists t t0,
    sampleCatalog !! "mystery-box" = None /\
    analyzeTopology sampleCatalog mysteryNodes [] = Some t /\
    criticalPath t = ["u"] /\
    knownPath sampleCatalog mysteryNodes (criticalPath t) = [] /\
    (criticalPathLatency t == 10)%Q /\
    ~ (criticalPathLatency t ==
       baseLatencyOn sampleCatalog mysteryNodes
         (knownPath sampleCatalog mysteryNodes (criticalPath t)))%Q /\
    analyzeTopology sampleCatalog [] [] = Some t0 /\
    ~ (criticalPathLatency t == criticalPathLatency t0)%Q.
Proof.
  eexists _, _. split; [reflexivity|].
  split; [vm_compute; reflexivity|].
  split; [reflexivity|]. split; [reflexivity|].
  split; [by vm_compute|]. split; [by vm_compute|].
  split; [reflexivity|]. by vm_compute.
Qed.

(** ** computeErrorRate *)


(** [node], with catalog entry [d], is a non-client node on the path. *)
Definition onPathNonClient (COMPONENT_MAP : gmap string ComponentDefinition)
    (nodes : list Node) (path : list string) (node : Node)
    (d : ComponentDefinition) : Prop :=
  exists nid, nid ∈ path /\ findNode nodes nid = Some node /\
              defOf COMPONENT_MAP node = Some d /\ category d <> clients.




Section ErrorRate.
Variable COMPONENT_MAP : gmap string ComponentDefinition.




(** The loop of computeErrorRate returns the largest error term of the
    non-client nodes on the path, or 0 when none is positive. *)
Lemma maxErrorRateOn_max nodes path trafficLoad :
  let M := maxErrorRateOn COMPONENT_MAP nodes path trafficLoad in
  (0 <= M)%Q /\
  (forall node d, onPathNonClient COMPONENT_MAP nodes path node d ->
     (errorTerm (failureRateAtCapacity d) trafficLoad (capacityOf d node) <= M)%Q) /\
  (M = 0%Q \/
   exists node d, onPathNonClient COMPONENT_MAP nodes path node d /\
     M = errorTerm (failureRateAtCapacity d) trafficLoad (capacityOf d node)).
Proof.
  unfold maxErrorRateOn.
  assert (G : forall acc : Q,
    let R := fold_left
      (fun (maxErrorRate : Q) nid =>
         match findNode nodes nid with
         | None => maxErrorRate
         | Some node =>
             match defOf COMPONENT_MAP node with
             | None => maxErrorRate
             | Some d =>
                 if bool_decide (category d = clients) then maxErrorRate
                 else
                   let errorRate :=
                     errorTerm (failureRateAtCapacity d) trafficLoad
                               (capacityOf d node) in
                   if Js.ltb maxErrorRate errorRate then errorRate
                   else maxErrorRate
             end
         end) path acc in
    (acc <= R)%Q /\
    (forall node d, onPathNonClient COMPONENT_MAP nodes path node d ->
       (errorTerm (failureRateAtCapacity d) trafficLoad (capacityOf d node) <= R)%Q) /\
    (R = acc \/
     exists node d, onPathNonClient COMPONENT_MAP nodes path node d /\
       R = errorTerm (failureRateAtCapacity d) trafficLoad (capacityOf d node))).
  { induction path as [|nid path IH]; intros acc; cbn [fold_left].
    - split; [apply Qle_refl|]. split; [|by left].
      intros node d (x & Hx & _). by apply elem_of_nil in Hx.
    - match goal with
      | |- context [fold_left _ path ?a] => remember a as acc' eqn:Eacc
      end.
      destruct (IH acc') as (Hle & Hub & Hwit). clear IH.
      set (R := fold_left _ path acc') in *.
      assert (Hlift : forall node d,
        onPathNonClient COMPONENT_MAP nodes path node d ->
        onPathNonClient COMPONENT_MAP nodes (nid :: path) node d).
      { intros node d (x & Hx & H). exists x. split; [by right|done]. }
      assert (Hacc : (acc <= acc')%Q /\
        (forall node d, findNode nodes nid = Some node ->
           defOf COMPONENT_MAP node = Some d -> category d <> clients ->
           (errorTerm (failureRateAtCapacity d) trafficLoad (capacityOf d node)
            <= acc')%Q) /\
        (acc' = acc \/
         exists node d, findNode nodes nid = Some node /\
           defOf COMPONENT_MAP node = Some d /\ category d <> clients /\
           acc' = errorTerm (failureRateAtCapacity d) trafficLoad
                            (capacityOf d node))).
      { rewrite Eacc. clear. destruct (findNode nodes nid) as [node|] eqn:Hf.
        2:{ split; [apply Qle_refl|]. split; [done|by left]. }
        destruct (defOf COMPONENT_MAP node) as [d|] eqn:Hd.
        2:{ split; [apply Qle_refl|]. split; [|by left].
            intros ? ? [= <-] ?. congruence. }
        case_bool_decide as Hcat.
        { split; [apply Qle_refl|]. split; [|by left].
          intros ? ? [= <-] ? ?. congruence. }
        destruct (Js.ltb acc _) eqn:Hlt.
        - apply Js_ltb_lt in Hlt. split; [by apply Qlt_le_weak|]. split.
          + intros ? d' [= <-] Hd' _.
            assert (d' = d) as -> by congruence. apply Qle_refl.
          + right. by exists node, d.
        - apply Js_ltb_ge in Hlt. split; [apply Qle_refl|]. split; [|by left].
          intros ? d' [= <-] Hd' _.
          assert (d' = d) as -> by congruence. done. }
      destruct Hacc as (Hacc1 & Hacc2 & Hacc3).
      split; [by eapply Qle_trans|]. split.
      + intros node d (x & [->|Hx]%elem_of_cons & Hf & Hd & Hcat).
        * eapply Qle_trans; [|exact Hle]. by apply Hacc2.
        * apply Hub. by exists x.
      + destruct Hwit as [->|(node & d & Hon & ->)].
        * destruct Hacc3 as [->|(node & d & Hf & Hd & Hcat & ->)]; [by left|].
          right. exists node, d. split; [|done]. exists nid. split; [by left|done].
        * right. exists node, d. split; [by apply Hlift|done]. }
  apply G.
Qed.

End ErrorRate.





(** ** The validator *)

(** The checks of the report's reliability dimension. *)
Definition reliabilityChecks (r : ValidationReport) : list ValidationCheck :=
  flat_map checks
    (List.filter (fun d => String.eqb (dim_id d) "reliability") (dimensions r)).

Lemma checkAIBestPractices_id nodes ctx :
  dim_id (checkAIBestPractices nodes ctx) = "ai".
Proof.
  unfold checkAIBestPractices. by destruct (nodesOfType nodes ["llm-inference"]).
Qed.

Lemma reliabilityChecks_validate nodes edges spofs metrics load pattern scen :
  reliabilityChecks (validate nodes edges spofs metrics load pattern scen) =
  checks (checkReliability nodes edges spofs
            (resolveValidationContext nodes edges metrics load pattern scen)).
Proof.
  unfold reliabilityChecks, validate. cbn [dimensions].
  rewrite List.filter_app. cbn [List.filter checkReliability checkPerformance
    checkDataIntegrity checkSecurity checkObservability dim_id].
  assert (Hai : List.filter (fun d => String.eqb (dim_id d) "reliability")
            (if existsb (fun n => isAI (data n)
                                  || isAIComponentType (componentType (data n)))
                        nodes
             then [checkAIBestPractices nodes
                     (resolveValidationContext nodes edges metrics load pattern scen)]
             else []) = []).
  { destruct (existsb _ nodes); [|done]. cbn [List.filter].
    by rewrite checkAIBestPractices_id. }
  rewrite Hai. cbn. by rewrite app_nil_r.
Qed.

Lemma dbReplicaCheck_in_reliability nodes edges spofs ctx c :
  c ∈ dbReplicaCheck nodes ctx ->
  c ∈ checks (checkReliability nodes edges spofs ctx).
Proof.
  intros Hc. unfold checkReliability. cbn [checks].
  apply elem_of_app. right. apply elem_of_app. by left.
Qed.

Lemma maxTier_ge_first t rest :
  tierIndex t <= tierIndex (maxTier (Some t :: rest)).
Proof.
  unfold maxTier. cbn [fold_left].
  assert (G : forall l best, tierIndex best <=
    tierIndex (fold_left
      (fun best t => match t with
                     | Some t' => if (tierIndex best <? tierIndex t')%nat
                                  then t' else best
                     | None => best
                     end) l best)).
  { induction l as [|o l IH]; intros best; cbn [fold_left]; [done|].
    etrans; [|apply IH]. destruct o as [t'|]; [|done].
    destruct (tierIndex best <? tierIndex t')%nat eqn:E; [|done].
    apply Nat.ltb_lt in E. lia. }
  etrans; [|apply G]. by destruct t.
Qed.

(** At a traffic load of 100,000 the context is at least at the scale tier,
    whatever the graph and the scenario. *)
Lemma context_100000_at_least_scale nodes edges metrics pattern scen :
  3 <= tierIndex (scaleTier
         (resolveValidationContext nodes edges metrics 100000 pattern scen)).
Proof.
  unfold resolveValidationContext. cbn [scaleTier].
  etrans; [|apply maxTier_ge_first]. by vm_compute.
Qed.

(** A graph that consists of one database node resolves to the prototype
    tier at load 100 and to the scale tier at load 100,000. *)
Lemma single_db_tiers db edges metrics pattern :
  componentType (data db) ∈ validatorDbTypes ->
  scaleTier (resolveValidationContext [db] edges metrics 100 pattern None)
    = prototype /\
  scaleTier (resolveValidationContext [db] edges metrics 100000 pattern None)
    = scale.
Proof.
  intros Hty. destruct db as [i [ty [lbl r reg] failed aiFlag]]. simpl in Hty.
  unfold resolveValidationContext, architectureComplexityTier, componentMixTier.
  cbn [scaleTier map data componentType config region length].
  assert (Hreg : (2 <=? length (dedupFirst []
                    (List.filter (fun r => negb (String.eqb r "")) [reg])))%nat
                 = false).
  { cbn [List.filter]. by destruct (negb (String.eqb reg "")). }
  rewrite Hreg. clear Hreg.
  unfold validatorDbTypes in Hty.
  repeat (apply elem_of_cons in Hty as [->|Hty];
          [by destruct (8 <=? length edges)%nat|]).
  by apply elem_of_nil in Hty.
Qed.

(** With exactly one database node, and fewer than two replicas on it, the
    block pushes the advisory check when the tier asks for at most one
    replica, and the failing check otherwise. *)
Lemma dbReplicaCheck_single_db nodes db ctx :
  nodesOfType nodes validatorDbTypes = [db] ->
  (replicas (config (data db)) < 2)%Q ->
  dbReplicaCheck nodes ctx =
    if Js.leb (replicasRequiredForHA (thresholds ctx)) 1
    then [mkCheck "rel-db-replica-adv" "Database Has No Replica" advisory info 5]
    else [mkCheck "rel-db-replica-fail" "Database Lacks Replica" fail critical 25].
Proof.
  intros Hdb Hrep.
  assert (Hno : existsb (fun n => Js.leb 2 (replicas (config (data n)))) [db]
                = false).
  { cbn [existsb]. destruct (Js.leb 2 _) eqn:E; [|done].
    apply Js_leb_le in E. lra. }
  unfold dbReplicaCheck. by rewrite Hdb, Hno.
Qed.

(** The replica requirement of the context is that of its resolved tier. *)
Lemma context_replicas_required nodes edges metrics load pattern scen :
  replicasRequiredForHA
    (thresholds (resolveValidationContext nodes edges metrics load pattern scen))
  = replicasRequiredForHA
      (TIER_THRESHOLDS
         (scaleTier (resolveValidationContext nodes edges metrics load pattern scen))).
Proof. reflexivity. Qed.

(** C2: for a graph whose only database node has a single instance, the
    database-replica check of the reliability dimension is the advisory
    "Database Has No Replica" at trafficLoad 100 when the context resolves to
    the prototype tier, and the failing "Database Lacks Replica" at
    trafficLoad 100,000 when the context resolves to the scale tier. *)
Theorem db_replica_check_depends_on_tier :
  forall nodes edges spofNodeIds metrics trafficPattern activeScenario db,
    nodesOfType nodes validatorDbTypes = [db] ->
    (replicas (config (data db)) < 2)%Q ->
    scaleTier (context (validate nodes edges spofNodeIds metrics 100
                                 trafficPattern activeScenario)) = prototype ->
    scaleTier (context (validate nodes edges spofNodeIds metrics 100000
                                 trafficPattern activeScenario)) = scale ->
    exists low high,
      dbReplicaCheck nodes
        (context (validate nodes edges spofNodeIds metrics 100
                           trafficPattern activeScenario)) = [low] /\
      low ∈ reliabilityChecks (validate nodes edges spofNodeIds metrics 100
                                        trafficPattern activeScenario) /\
      outcome low = advisory /\
      check_name low = "Database Has No Replica" /\
      dbReplicaCheck nodes
        (context (validate nodes edges spofNodeIds metrics 100000
                           trafficPattern activeScenario)) = [high] /\
      high ∈ reliabilityChecks (validate nodes edges spofNodeIds metrics 100000
                                         trafficPattern activeScenario) /\
      outcome high = fail /\
      check_name high = "Database Lacks Replica".
Proof.
  intros nodes edges spofs metrics pattern scen db Hdb Hrep Hlow Hhigh.
  rewrite !reliabilityChecks_validate.
  cbn [context validate] in *.
  set (ctxLow := resolveValidationContext nodes edges metrics 100 pattern scen) in *.
  set (ctxHigh := resolveValidationContext nodes edges metrics 100000 pattern scen) in *.
  assert (HL : dbReplicaCheck nodes ctxLow =
    [mkCheck "rel-db-replica-adv" "Database Has No Replica" advisory info 5]).
  { rewrite (dbReplicaCheck_single_db nodes db ctxLow Hdb Hrep).
    change (replicasRequiredForHA (thresholds ctxLow))
      with (replicasRequiredForHA (TIER_THRESHOLDS (scaleTier ctxLow))).
    by rewrite Hlow. }
  assert (HH : dbReplicaCheck nodes ctxHigh =
    [mkCheck "rel-db-replica-fail" "Database Lacks Replica" fail critical 25]).
  { rewrite (dbReplicaCheck_single_db nodes db ctxHigh Hdb Hrep).
    change (replicasRequiredForHA (thresholds ctxHigh))
      with (replicasRequiredForHA (TIER_THRESHOLDS (scaleTier ctxHigh))).
    by rewrite Hhigh. }
  eexists _, _. split_and!.
  - exact HL.
  - apply dbReplicaCheck_in_reliability. rewrite HL. by left.
  - done.
  - done.
  - exact HH.
  - apply dbReplicaCheck_in_reliability. rewrite HH. by left.
  - done.
  - done.
Qed.

Definition zeroMetrics : MetricSnapshot :=
  {| throughput := 0; latencyP50 := 0; latencyP95 := 0; latencyP99 := 0;
     availability := 0; errorRate := 0; metricsNetworkHops := 0;
     metricsConsistencyModel := "N/A"; cacheHitRate := None;
     dbReadWriteRatio := None; scalabilityScore := 0; monthlyCost := 0;
     queueDepth := None; capState := "N/A" |}.

Definition singleDbNodes : list Node := [mkNode "db" "postgresql" 1].

Lemma db_replica_check_depends_on_tier_witness :
  exists low high,
    dbReplicaCheck singleDbNodes
      (context (validate singleDbNodes [] ["db"] zeroMetrics 100 "steady" None))
      = [low] /\
    low ∈ reliabilityChecks
            (validate singleDbNodes [] ["db"] zeroMetrics 100 "steady" None) /\
    outcome low = advisory /\
    check_name low = "Database Has No Replica" /\
    dbReplicaCheck singleDbNodes
      (context (validate singleDbNodes [] ["db"] zeroMetrics 100000 "steady" None))
      = [high] /\
    high ∈ reliabilityChecks
             (validate singleDbNodes [] ["db"] zeroMetrics 100000 "steady" None) /\
    outcome high = fail /\
    check_name high = "Database Lacks Replica".
Proof.
  apply (db_replica_check_depends_on_tier singleDbNodes [] ["db"] zeroMetrics
           "steady" None (mkNode "db" "postgresql" 1)).
  - reflexivity.
  - reflexivity.
  - reflexivity.
  - reflexivity.
Defined.

(** The same outcomes for every graph that consists of one database node
    with a single instance, whatever its edges. *)
Lemma single_db_graph_check db edges spofNodeIds metrics trafficPattern :
  componentType (data db) ∈ validatorDbTypes ->
  (replicas (config (data db)) < 2)%Q ->
  map outcome
    (dbReplicaCheck [db]
       (context (validate [db] edges spofNodeIds metrics 100 trafficPattern None)))
    = [advisory] /\
  map outcome
    (dbReplicaCheck [db]
       (context (validate [db] edges spofNodeIds metrics 100000 trafficPattern None)))
    = [fail].
Proof.
  intros Hty Hrep.
  destruct (single_db_tiers db edges metrics trafficPattern Hty) as [Hlow Hhigh].
  assert (Hdb : nodesOfType [db] validatorDbTypes = [db]).
  { unfold nodesOfType. cbn [List.filter]. by rewrite bool_decide_eq_true_2. }
  cbn [context validate].
  rewrite !(dbReplicaCheck_single_db [db] db _ Hdb Hrep).
  rewrite !context_replicas_required, Hlow, Hhigh. done.
Qed.

(** ** Overall score and grade *)

(** Whether validate adds the AI dimension. *)
Definition graphHasAI (nodes : list Node) : bool :=
  existsb (fun n => isAI (data n) || isAIComponentType (componentType (data n)))
          nodes.

(** The weighted average that the specification describes, without
    rounding: weights 25, 20, 15, 15, 10 and 15 by dimension, over 100 with
    the AI dimension and over 85 without it. *)
Definition specWeightedAverage (nodes : list Node) (r : ValidationReport)
  : Q :=
  let weight (d : ValidationDimension) : Z :=
    (if String.eqb (dim_id d) "reliability" then 25
     else if String.eqb (dim_id d) "performance" then 20
     else if String.eqb (dim_id d) "dataIntegrity" then 15
     else if String.eqb (dim_id d) "security" then 15
     else if String.eqb (dim_id d) "observability" then 10
     else if String.eqb (dim_id d) "ai" then 15
     else 0)%Z in
  (inject_Z (fold_right (fun d acc => (score d * weight d + acc)%Z) 0%Z
                        (dimensions r))
   / (if graphHasAI nodes then 100 else 85))%Q.

(** C7, as amended: the overall score is the weighted average of the
    dimension scores, with weights reliability 25, performance 20,
    dataIntegrity 15, security 15, observability 10 and ai 15, divided by 100
    when AI components exist and by 85 (no ai dimension) when they do not,
    and rounded to the nearest integer; the grade is A from 90, B from 80,
    C from 70, D from 60 and F below, so that 90 grades A and 89 grades B. *)
Theorem overallScore_rounded_weighted_average :
  (forall nodes edges spofNodeIds metrics trafficLoad trafficPattern activeScenario,
     let r := validate nodes edges spofNodeIds metrics trafficLoad trafficPattern
                       activeScenario in
     let ctx := context r in
     let rel := checkReliability nodes edges spofNodeIds ctx in
     let perf := checkPerformance nodes metrics ctx in
     let dat := checkDataIntegrity nodes edges ctx in
     let sec := checkSecurity nodes edges ctx in
     let obs := checkObservability nodes ctx in
     let aid := checkAIBestPractices nodes ctx in
     (dimensions r =
        if graphHasAI nodes then [rel; perf; dat; sec; obs; aid]
        else [rel; perf; dat; sec; obs]) /\
     (overallScore r =
        if graphHasAI nodes then
          Js.round (inject_Z (25 * score rel + 20 * score perf + 15 * score dat
                              + 15 * score sec + 10 * score obs + 15 * score aid)
                    / 100)
        else
          Js.round (inject_Z (25 * score rel + 20 * score perf + 15 * score dat
                              + 15 * score sec + 10 * score obs)
                    / 85)) /\
     (overallScore r = Js.round (specWeightedAverage nodes r)) /\
     ((90 <= overallScore r)%Z -> grade r = gradeA) /\
     ((80 <= overallScore r < 90)%Z -> grade r = gradeB) /\
     ((70 <= overallScore r < 80)%Z -> grade r = gradeC) /\
     ((60 <= overallScore r < 70)%Z -> grade r = gradeD) /\
     ((overallScore r < 60)%Z -> grade r = gradeF)) /\
  gradeOf 90 = gradeA /\ gradeOf 89 = gradeB.
Proof.
  split; [|done].
  intros nodes edges spofs metrics load pattern scen r ctx rel perf dat sec obs aid.
  assert (Hdims : dimensions r =
            if graphHasAI nodes then [rel; perf; dat; sec; obs; aid]
            else [rel; perf; dat; sec; obs]).
  { unfold r, validate, graphHasAI. cbn [dimensions].
    by destruct (existsb _ nodes). }
  assert (Hscore : overallScore r =
    Js.round (inject_Z (fold_left
                 (fun acc d => (acc + score d * weightOf (dim_id d))%Z)
                 (dimensions r) 0%Z)
              / inject_Z (if graphHasAI nodes then 100 else 85))).
  { unfold r, validate, graphHasAI. cbn [overallScore dimensions]. done. }
  assert (Hai : dim_id aid = "ai") by apply checkAIBestPractices_id.
  assert (Hgrade : grade r = gradeOf (overallScore r)) by done.
  split; [exact Hdims|].
  split_and!.
  - rewrite Hscore, Hdims. destruct (graphHasAI nodes); cbn [fold_left].
    + rewrite Hai.
      change (dim_id rel) with "reliability".
      change (dim_id perf) with "performance".
      change (dim_id dat) with "dataIntegrity".
      change (dim_id sec) with "security".
      change (dim_id obs) with "observability".
      change (weightOf "reliability") with 25%Z.
      change (weightOf "performance") with 20%Z.
      change (weightOf "dataIntegrity") with 15%Z.
      change (weightOf "security") with 15%Z.
      change (weightOf "observability") with 10%Z.
      change (weightOf "ai") with 15%Z.
      f_equal. f_equal. f_equal. lia.
    + change (dim_id rel) with "reliability".
      change (dim_id perf) with "performance".
      change (dim_id dat) with "dataIntegrity".
      change (dim_id sec) with "security".
      change (dim_id obs) with "observability".
      change (weightOf "reliability") with 25%Z.
      change (weightOf "performance") with 20%Z.
      change (weightOf "dataIntegrity") with 15%Z.
      change (weightOf "security") with 15%Z.
      change (weightOf "observability") with 10%Z.
      f_equal. f_equal. f_equal. lia.
  - rewrite Hscore. unfold specWeightedAverage. rewrite Hdims.
    destruct (graphHasAI nodes); cbn [fold_left fold_right].
    + rewrite Hai.
      change (dim_id rel) with "reliability".
      change (dim_id perf) with "performance".
      change (dim_id dat) with "dataIntegrity".
      change (dim_id sec) with "security".
      change (dim_id obs) with "observability".
      cbn [String.eqb Ascii.eqb Bool.eqb].
      change (weightOf "reliability") with 25%Z.
      change (weightOf "performance") with 20%Z.
      change (weightOf "dataIntegrity") with 15%Z.
      change (weightOf "security") with 15%Z.
      change (weightOf "observability") with 10%Z.
      change (weightOf "ai") with 15%Z.
      f_equal. f_equal. f_equal. lia.
    + change (dim_id rel) with "reliability".
      change (dim_id perf) with "performance".
      change (dim_id dat) with "dataIntegrity".
      change (dim_id sec) with "security".
      change (dim_id obs) with "observability".
      cbn [String.eqb Ascii.eqb Bool.eqb].
      change (weightOf "reliability") with 25%Z.
      change (weightOf "performance") with 20%Z.
      change (weightOf "dataIntegrity") with 15%Z.
      change (weightOf "security") with 15%Z.
      change (weightOf "observability") with 10%Z.
      f_equal. f_equal. f_equal. lia.
  - intros H. rewrite Hgrade. unfold gradeOf.
    destruct (90 <=? overallScore r)%Z eqn:E; [done|]. apply Z.leb_gt in E. lia.
  - intros H. rewrite Hgrade. unfold gradeOf.
    destruct (90 <=? overallScore r)%Z eqn:E1; [apply Z.leb_le in E1; lia|].
    destruct (80 <=? overallScore r)%Z eqn:E2; [done|]. apply Z.leb_gt in E2. lia.
  - intros H. rewrite Hgrade. unfold gradeOf.
    destruct (90 <=? overallScore r)%Z eqn:E1; [apply Z.leb_le in E1; lia|].
    destruct (80 <=? overallScore r)%Z eqn:E2; [apply Z.leb_le in E2; lia|].
    destruct (70 <=? overallScore r)%Z eqn:E3; [done|]. apply Z.leb_gt in E3. lia.
  - intros H. rewrite Hgrade. unfold gradeOf.
    destruct (90 <=? overallScore r)%Z eqn:E1; [apply Z.leb_le in E1; lia|].
    destruct (80 <=? overallScore r)%Z eqn:E2; [apply Z.leb_le in E2; lia|].
    destruct (70 <=? overallScore r)%Z eqn:E3; [apply Z.leb_le in E3; lia|].
    destruct (60 <=? overallScore r)%Z eqn:E4; [done|]. apply Z.leb_gt in E4. lia.
  - intros H. rewrite Hgrade. unfold gradeOf.
    destruct (90 <=? overallScore r)%Z eqn:E1; [apply Z.leb_le in E1; lia|].
    destruct (80 <=? overallScore r)%Z eqn:E2; [apply Z.leb_le in E2; lia|].
    destruct (70 <=? overallScore r)%Z eqn:E3; [apply Z.leb_le in E3; lia|].
    destruct (60 <=? overallScore r)%Z eqn:E4; [apply Z.leb_le in E4; lia|].
    done.
Qed.

(** The empty graph: its dimension scores are 100, 100, 48, 95 and 100, whose
    weighted average is 7645/85, about 89.94; the overall score is 90, and the
    grade is A. *)
Lemma overallScore_is_rounded :
  exists m,
    computeMetrics sampleCatalog [] [] 0 = Some m /\
    map score (dimensions (validate [] [] [] m 0 "steady" None))
      = [100; 100; 48; 95; 100]%Z /\
    (specWeightedAverage [] (validate [] [] [] m 0 "steady" None)
     == 7645 # 85)%Q /\
    overallScore (validate [] [] [] m 0 "steady" None) = 90%Z /\
    grade (validate [] [] [] m 0 "steady" None) = gradeA /\
    ~ (inject_Z (overallScore (validate [] [] [] m 0 "steady" None))
       == specWeightedAverage [] (validate [] [] [] m 0 "steady" None))%Q.
Proof.
  eexists. split; [reflexivity|]. split; [by vm_compute|].
  split; [by vm_compute|]. split; [by vm_compute|]. split; [by vm_compute|].
  by vm_compute.
Qed.

(** ** More on propagateLoad: signs, reachability, scaling *)

Section PropagationSigns.
Import Propagation.

Variables (nodes : list Node) (edges : list Edge) (trafficLoad : Q).

Lemma getOr0_nonneg (lm : gmap string Q) k :
  (forall j v, lm !! j = Some v -> (0 <= v)%Q) -> (0 <= Js.getOr0 lm k)%Q.
Proof.
  intros H. unfold Js.getOr0. destruct (lm !! k) as [v|] eqn:E; [|lra].
  rewrite Js_orElse_eq. by apply (H k).
Qed.

Lemma ofNat_nonneg n : (0 <= Js.ofNat n)%Q.
Proof.
  unfold Js.ofNat. change 0%Q with (inject_Z 0). rewrite <- Zle_Qle. lia.
Qed.

Lemma ofNat_pos n : (0 < n)%nat -> (0 < Js.ofNat n)%Q.
Proof.
  intros H. unfold Js.ofNat. change 0%Q with (inject_Z 0). rewrite <- Zlt_Qlt. lia.
Qed.

Lemma Qdiv_nonneg a b : (0 <= a)%Q -> (0 <= b)%Q -> (0 <= a / b)%Q.
Proof.
  intros Ha Hb. unfold Qdiv. apply Qmult_le_0_compat; [done|].
  by apply Qinv_le_0_compat.
Qed.

Lemma Qdiv_pos a b : (0 < a)%Q -> (0 < b)%Q -> (0 < a / b)%Q.
Proof.
  intros Ha Hb. unfold Qdiv. apply Qmult_lt_0_compat; [done|].
  by apply Qinv_lt_0_compat.
Qed.

(** Every stored load is non-negative. *)
Definition nonnegLoads (st : LoopState) : Prop :=
  forall k v, loadMap st !! k = Some v -> (0 <= v)%Q.

Lemma distribute_lookup p ns k v : forall lm q,
  fst (distribute p ns lm q) !! k = Some v ->
  ((k ∉ ns) /\ (lm !! k = Some v)) \/
  ((k ∈ ns) /\
   (v == Js.getOr0 lm k + Js.ofNat (count_occ string_dec ns k) * p)%Q /\
   (1 <= count_occ string_dec ns k)%nat).
Proof.
  intros lm q Hv. destruct (decide (k ∈ ns)) as [Hin|Hin].
  - right. split; [done|]. split.
    + pose proof (distribute_load p ns k lm q) as H.
      unfold Js.getOr0 at 1 in H. rewrite Hv in H.
      by rewrite Js_orElse_eq in H.
    + apply list_elem_of_In in Hin. by apply (count_occ_In string_dec) in Hin.
  - left. split; [done|]. by rewrite distribute_other in Hv.
Qed.

Lemma step_nonnegLoads adj st nodeId rest :
  queue st = nodeId :: rest ->
  nonnegLoads st -> nonnegLoads (step adj nodeId rest st).
Proof.
  intros _ Hnn. unfold step. case_bool_decide as Hvis; [done|].
  destruct (default [] (adj !! nodeId)) as [|n ns] eqn:Hns; [done|].
  destruct (distribute _ _ _ _) as [lm q] eqn:Hd.
  intros k v. cbn [loadMap]. change lm with (fst (lm, q)). rewrite <- Hd.
  intros [[_ Hk]|(_ & Hv & _)]%distribute_lookup; [by apply (Hnn k)|].
  rewrite Hv.
  pose proof (getOr0_nonneg (loadMap st) k Hnn).
  pose proof (getOr0_nonneg (loadMap st) nodeId Hnn).
  pose proof (ofNat_nonneg (count_occ string_dec (n :: ns) k)).
  pose proof (Qdiv_nonneg _ _ H0 (ofNat_nonneg (length (n :: ns)))).
  nra.
Qed.

Lemma run_nonnegLoads st :
  (0 <= trafficLoad)%Q ->
  run nodes edges trafficLoad = Some st -> nonnegLoads st.
Proof.
  intros HL Hrun. unfold run in Hrun.
  eapply (loop_invariant _ nonnegLoads); [| |exact Hrun].
  - apply step_nonnegLoads.
  - intros k v. unfold initState. cbn [loadMap]. rewrite sources_lookup.
    case_bool_decide; [|by rewrite lookup_empty].
    intros [= <-]. unfold perSourceOf.
    destruct (0 <? length (sourcesOf nodes edges))%nat; [|lra].
    apply Qdiv_nonneg; [done|apply ofNat_nonneg].
Qed.

(** With a positive traffic load: stored loads are positive, queued and
    visited ids have an entry, the outgoing edges of a visited node lead to
    ids that are visited or queued, and so are the sources. *)
Definition exploring (st : LoopState) : Prop :=
  (forall k v, loadMap st !! k = Some v -> (0 < v)%Q) /\
  (forall k, k ∈ queue st \/ k ∈ visited st -> is_Some (loadMap st !! k)) /\
  (forall v t, v ∈ visited st -> v ∈ map node_id nodes ->
               t ∈ outTargets edges v -> t ∈ visited st \/ t ∈ queue st) /\
  (forall n, n ∈ nodes -> noIncoming edges n = true ->
             node_id n ∈ visited st \/ node_id n ∈ queue st).

Lemma step_exploring st nodeId rest :
  queue st = nodeId :: rest ->
  exploring st ->
  exploring (step (fst (buildTables nodes edges)) nodeId rest st).
Proof.
  intros Hq (Hpos & Hkeys & Hclosed & Hsrc). unfold step.
  case_bool_decide as Hvis.
  - split_and!; cbn [loadMap queue visited]; [done| | |].
    + intros k [Hk|Hk]; apply Hkeys; [left; rewrite Hq; by right|by right].
    + intros v t Hv Hin Ht. destruct (Hclosed v t Hv Hin Ht) as [?|Ht'];
        [by left|]. rewrite Hq in Ht'.
      apply elem_of_cons in Ht' as [->|?]; [by left|by right].
    + intros n Hn Hs. destruct (Hsrc n Hn Hs) as [?|Ht']; [by left|].
      rewrite Hq in Ht'. apply elem_of_cons in Ht' as [->|?]; [by left|by right].
  - assert (Hnb : default [] (fst (buildTables nodes edges) !! nodeId) =
                  if bool_decide (nodeId ∈ map node_id nodes)
                  then outTargets edges nodeId else []).
    { rewrite buildTables_adj. by case_bool_decide. }
    rewrite Hnb. clear Hnb.
    assert (Hhead : is_Some (loadMap st !! nodeId)).
    { apply Hkeys. left. rewrite Hq. by left. }
    assert (Hin : (0 < Js.getOr0 (loadMap st) nodeId)%Q).
    { destruct Hhead as [v Hv]. unfold Js.getOr0. rewrite Hv, Js_orElse_eq.
      by apply (Hpos nodeId). }
    assert (Hold : forall v t, v ∈ visited st -> v ∈ map node_id nodes ->
              t ∈ outTargets edges v -> forall extra,
              t ∈ {[nodeId]} ∪ visited st \/ t ∈ rest ++ extra).
    { intros v t Hv Hvn Ht extra.
      destruct (Hclosed v t Hv Hvn Ht) as [?|Ht']; [left; set_solver|].
      rewrite Hq in Ht'. apply elem_of_cons in Ht' as [->|?]; [left; set_solver|].
      right. apply elem_of_app. by left. }
    assert (Hsrc' : forall n, n ∈ nodes -> noIncoming edges n = true ->
              forall extra,
              node_id n ∈ {[nodeId]} ∪ visited st \/ node_id n ∈ rest ++ extra).
    { intros n Hn Hs extra.
      destruct (Hsrc n Hn Hs) as [?|Ht']; [left; set_solver|].
      rewrite Hq in Ht'. apply elem_of_cons in Ht' as [->|?]; [left; set_solver|].
      right. apply elem_of_app. by left. }
    assert (Hkeys' : forall k, k ∈ rest \/ k ∈ {[nodeId]} ∪ visited st ->
              is_Some (loadMap st !! k)).
    { intros k [Hk|Hk]; [apply Hkeys; left; rewrite Hq; by right|].
      apply elem_of_union in Hk as [->%elem_of_singleton|Hk]; [done|].
      apply Hkeys. by right. }
    case_bool_decide as Hnode.
    2:{ split_and!; cbn [loadMap queue visited]; [done|by apply Hkeys'| |].
        - intros v t [->%elem_of_singleton|Hv]%elem_of_union Hvn Ht; [done|].
          specialize (Hold v t Hv Hvn Ht []). by rewrite app_nil_r in Hold.
        - intros n Hn Hs. specialize (Hsrc' n Hn Hs []).
          by rewrite app_nil_r in Hsrc'. }
    destruct (outTargets edges nodeId) as [|n ns] eqn:Hout.
    { split_and!; cbn [loadMap queue visited]; [done|by apply Hkeys'| |].
      - intros v t [->%elem_of_singleton|Hv]%elem_of_union Hvn Ht.
        + rewrite Hout in Ht. by apply elem_of_nil in Ht.
        + specialize (Hold v t Hv Hvn Ht []). by rewrite app_nil_r in Hold.
      - intros m Hm Hs. specialize (Hsrc' m Hm Hs []).
        by rewrite app_nil_r in Hsrc'. }
    destruct (distribute _ _ _ _) as [lm q] eqn:Hd.
    assert (Hq' : q = rest ++ n :: ns).
    { change q with (snd (lm, q)). rewrite <- Hd. apply distribute_queue. }
    assert (Hper : (0 < Js.getOr0 (loadMap st) nodeId
                        / Js.ofNat (length (n :: ns)))%Q).
    { apply Qdiv_pos; [done|]. apply ofNat_pos. simpl. lia. }
    split_and!; cbn [loadMap queue visited].
    + intros k v. change lm with (fst (lm, q)). rewrite <- Hd.
      intros [[_ Hk]|(_ & Hv & Hc)]%distribute_lookup; [by apply (Hpos k)|].
      rewrite Hv.
      assert (0 <= Js.getOr0 (loadMap st) k)%Q.
      { apply getOr0_nonneg. intros j w Hw. apply Qlt_le_weak. by apply (Hpos j). }
      assert (1 <= Js.ofNat (count_occ string_dec (n :: ns) k))%Q.
      { unfold Js.ofNat. change 1%Q with (inject_Z 1). rewrite <- Zle_Qle. lia. }
      nra.
    + intros k Hk. change lm with (fst (lm, q)). rewrite <- Hd.
      apply distribute_dom. rewrite Hq' in Hk.
      destruct Hk as [[Hk|Hk]%elem_of_app|Hk]; [|by right|].
      * left. apply Hkeys'. by left.
      * left. apply Hkeys'. by right.
    + rewrite Hq'.
      intros v t [->%elem_of_singleton|Hv]%elem_of_union Hvn Ht.
      * right. apply elem_of_app. right. by rewrite <- Hout.
      * by apply (Hold v t).
    + rewrite Hq'. intros m Hm Hs. by apply (Hsrc' m).
Qed.

Lemma initState_exploring :
  (0 < trafficLoad)%Q -> exploring (initState nodes edges trafficLoad).
Proof.
  intros HL. unfold initState. split_and!; cbn [loadMap queue visited].
  - intros k v. rewrite sources_lookup. case_bool_decide as Hk;
      [|by rewrite lookup_empty].
    intros [= <-]. unfold perSourceOf.
    destruct (sourcesOf nodes edges) as [|s l] eqn:E.
    { by apply elem_of_nil in Hk. }
    apply Qdiv_pos; [done|]. apply ofNat_pos. simpl. lia.
  - intros k [Hk|Hk]; [|by apply elem_of_empty in Hk].
    rewrite sources_lookup. by rewrite bool_decide_eq_true_2.
  - intros v t Hv. by apply elem_of_empty in Hv.
  - intros n Hn Hs. right. apply list_elem_of_In, in_map, list_elem_of_In.
    by apply sourcesOf_elem.
Qed.

Lemma run_exploring st :
  (0 < trafficLoad)%Q ->
  run nodes edges trafficLoad = Some st ->
  exploring st /\ queue st = [].
Proof.
  intros HL Hrun. unfold run in Hrun.
  eapply (loop_invariant _ exploring); [| |exact Hrun].
  - apply step_exploring.
  - by apply initState_exploring.
Qed.

Lemma reached_visited st k :
  exploring st -> queue st = [] -> reached nodes edges k -> k ∈ visited st.
Proof.
  intros (_ & _ & Hclosed & Hsrc) Hq Hr.
  induction Hr as [n Hn Hs|e He Hin Hr IH].
  - destruct (Hsrc n Hn Hs) as [?|Hk]; [done|]. rewrite Hq in Hk.
    by apply elem_of_nil in Hk.
  - destruct (Hclosed (source e) (target e) IH Hin) as [?|Hk]; [|done|].
    + apply outTargets_elem. by exists e.
    + rewrite Hq in Hk. by apply elem_of_nil in Hk.
Qed.

End PropagationSigns.

Definition loopNodes : list Node :=
  [mkNode "P" "web-server" 1; mkNode "Q" "web-server" 1].
Definition loopEdges : list Edge := [mkEdge "P" "Q"; mkEdge "Q" "P"].

(** X1: The result of propagateLoad has an entry for every node of the graph,
    and with a non-negative traffic load no entry is negative. *)
Theorem propagateLoad_entries_nonneg :
  forall nodes edges trafficLoad,
    (0 <= trafficLoad)%Q ->
    exists m,
      Propagation.propagateLoad nodes edges trafficLoad = Some m /\
      (forall n, n ∈ nodes -> is_Some (m !! node_id n)) /\
      (forall k v, m !! k = Some v -> (0 <= v)%Q).
Proof.
  intros nodes edges L HL.
  destruct (run_total nodes edges L) as [st Hrun].
  exists (Propagation.fillUnreached nodes (Propagation.loadMap st)).
  split; [unfold Propagation.propagateLoad; by rewrite Hrun|]. split.
  - intros n Hn. rewrite fillUnreached_lookup.
    destruct (Propagation.loadMap st !! node_id n); [eauto|].
    rewrite bool_decide_eq_true_2; [eauto|].
    apply list_elem_of_In, in_map. by apply list_elem_of_In.
  - intros k v. rewrite fillUnreached_lookup.
    destruct (Propagation.loadMap st !! k) as [w|] eqn:E.
    + intros [= <-]. by apply (run_nonnegLoads nodes edges L st HL Hrun k).
    + case_bool_decide; [|done]. intros [= <-]. lra.
Qed.

Lemma propagateLoad_entries_nonneg_witness :
  exists m,
    Propagation.propagateLoad fanNodes fanEdges 1000 = Some m /\
    (forall n, n ∈ fanNodes -> is_Some (m !! node_id n)) /\
    (forall k v, m !! k = Some v -> (0 <= v)%Q).
Proof.
  apply (propagateLoad_entries_nonneg fanNodes fanEdges 1000). by vm_compute.
Defined.

(** X2: When every node has an incoming edge there is no source, the traffic
    is not injected anywhere, and every node gets load 0. *)
Theorem propagateLoad_without_source :
  forall nodes edges trafficLoad,
    (forall n, n ∈ nodes -> exists e, e ∈ edges /\ target e = node_id n) ->
    exists m,
      Propagation.propagateLoad nodes edges trafficLoad = Some m /\
      forall n, n ∈ nodes -> m !! node_id n = Some 0%Q.
Proof.
  intros nodes edges L Hin.
  destruct (run_total nodes edges L) as [st Hrun].
  exists (Propagation.fillUnreached nodes (Propagation.loadMap st)).
  split; [unfold Propagation.propagateLoad; by rewrite Hrun|].
  assert (Hnone : forall k, ~ reached nodes edges k).
  { intros k Hr. induction Hr as [n Hn Hs|e He Hs Hr IH]; [|done].
    destruct (Hin n Hn) as (e & He & Ht).
    rewrite noIncoming_spec in Hs. by apply (Hs e). }
  intros n Hn. rewrite fillUnreached_lookup.
  destruct (Propagation.loadMap st !! node_id n) as [v|] eqn:E.
  - exfalso. apply (Hnone (node_id n)).
    destruct (run_onlyReached _ _ _ _ Hrun) as [Hkeys _]. apply Hkeys. by rewrite E.
  - rewrite bool_decide_eq_true_2; [done|].
    apply list_elem_of_In, in_map. by apply list_elem_of_In.
Qed.

Lemma propagateLoad_without_source_witness :
  exists m,
    Propagation.propagateLoad loopNodes loopEdges 1000 = Some m /\
    forall n, n ∈ loopNodes -> m !! node_id n = Some 0%Q.
Proof.
  apply (propagateLoad_without_source loopNodes loopEdges 1000).
  intros n Hn. unfold loopNodes in Hn.
  apply elem_of_cons in Hn as [->|Hn].
  - exists (mkEdge "Q" "P"). split; [|reflexivity]. right. left.
  - apply elem_of_cons in Hn as [->|Hn].
    + exists (mkEdge "P" "Q"). split; [|reflexivity]. left.
    + by apply elem_of_nil in Hn.
Defined.

Lemma propagateLoad_reached_positive nodes edges trafficLoad :
  (0 < trafficLoad)%Q ->
  exists m,
    Propagation.propagateLoad nodes edges trafficLoad = Some m /\
    forall n, n ∈ nodes ->
      (reached nodes edges (node_id n) <->
       exists v, m !! node_id n = Some v /\ (0 < v)%Q).
Proof.
  intros HL. set (L := trafficLoad) in *.
  destruct (run_total nodes edges L) as [st Hrun].
  exists (Propagation.fillUnreached nodes (Propagation.loadMap st)).
  split; [unfold Propagation.propagateLoad; by rewrite Hrun|].
  destruct (run_exploring nodes edges L st HL Hrun) as [Hexp Hq].
  intros n Hn. rewrite fillUnreached_lookup. split.
  - intros Hr. pose proof (reached_visited nodes edges st _ Hexp Hq Hr) as Hv.
    destruct Hexp as (Hpos & Hkeys & _).
    destruct (Hkeys (node_id n)) as [v Hk]; [by right|].
    rewrite Hk. exists v. split; [done|]. by apply (Hpos (node_id n)).
  - intros (v & Hv & Hp).
    destruct (Propagation.loadMap st !! node_id n) as [w|] eqn:E.
    + destruct (run_onlyReached _ _ _ _ Hrun) as [Hkeys _]. apply Hkeys.
      by rewrite E.
    + case_bool_decide; [|done]. injection Hv as <-. lra.
Qed.

Lemma propagateLoad_unreached nodes edges trafficLoad m n :
  Propagation.propagateLoad nodes edges trafficLoad = Some m ->
  n ∈ nodes -> ~ reached nodes edges (node_id n) ->
  m !! node_id n = Some 0%Q.
Proof.
  unfold Propagation.propagateLoad. intros Hm Hn Hnot.
  destruct (Propagation.run nodes edges trafficLoad) as [st|] eqn:Hrun;
    [|done].
  simpl in Hm. injection Hm as <-. rewrite fillUnreached_lookup.
  destruct (Propagation.loadMap st !! node_id n) as [v|] eqn:E.
  - exfalso. apply Hnot.
    destruct (run_onlyReached _ _ _ _ Hrun) as [Hkeys _]. apply Hkeys.
    by rewrite E.
  - rewrite bool_decide_eq_true_2; [done|].
    apply list_elem_of_In, in_map. by apply list_elem_of_In.
Qed.

(** X3: With a positive traffic load, a node gets a positive load exactly when
    it can be reached from a source along the edges. *)
Theorem propagateLoad_positive_iff_reached :
  forall nodes edges trafficLoad,
    (0 < trafficLoad)%Q ->
    exists m,
      Propagation.propagateLoad nodes edges trafficLoad = Some m /\
      forall n, n ∈ nodes ->
        (reached nodes edges (node_id n) <->
         exists v, m !! node_id n = Some v /\ (0 < v)%Q).
Proof. apply propagateLoad_reached_positive. Qed.

Lemma propagateLoad_positive_iff_reached_witness :
  exists m,
    Propagation.propagateLoad mergeNodes mergeEdges 1000 = Some m /\
    forall n, n ∈ mergeNodes ->
      (reached mergeNodes mergeEdges (node_id n) <->
       exists v, m !! node_id n = Some v /\ (0 < v)%Q).
Proof.
  apply (propagateLoad_positive_iff_reached mergeNodes mergeEdges 1000).
  by vm_compute.
Defined.

(** X4: Multiplying the traffic load by a factor multiplies the load of every
    node by that factor. *)
Theorem propagateLoad_homogeneous :
  forall nodes edges trafficLoad c,
    exists m m',
      Propagation.propagateLoad nodes edges trafficLoad = Some m /\
      Propagation.propagateLoad nodes edges (c * trafficLoad) = Some m' /\
      forall n, n ∈ nodes ->
        exists v v', m !! node_id n = Some v /\ m' !! node_id n = Some v' /\
                     (v' == c * v)%Q.
Proof.
  intros nodes edges L c.
  destruct (run_total nodes edges L) as [st Hrun].
  assert (Hm : Propagation.propagateLoad nodes edges L =
               Some (Propagation.fillUnreached nodes (Propagation.loadMap st))).
  { unfold Propagation.propagateLoad. by rewrite Hrun. }
  destruct (propagateLoad_scaled c nodes edges L (c * L)%Q (Qeq_refl _) _ Hm)
    as (m' & Hm' & Hscale).
  eexists _, m'. split; [exact Hm|]. split; [done|]. intros n Hn.
  assert (Hk : is_Some (Propagation.fillUnreached nodes (Propagation.loadMap st)
                          !! node_id n)).
  { rewrite fillUnreached_lookup.
    destruct (Propagation.loadMap st !! node_id n); [eauto|].
    rewrite bool_decide_eq_true_2; [eauto|].
    apply list_elem_of_In, in_map. by apply list_elem_of_In. }
  destruct Hk as [v Hv]. specialize (Hscale (node_id n) v).
  unfold holds in Hscale. rewrite Hv in Hscale.
  specialize (Hscale (Qeq_refl _)).
  destruct (m' !! node_id n) as [v'|]; [|done]. by exists v, v'.
Qed.

(** ** propagateLoad on a forest *)

Lemma count_occ_outTargets edges u k :
  count_occ string_dec (outTargets edges u) k <= inCount edges k.
Proof.
  unfold outTargets, inCount.
  induction edges as [|e edges IH]; simpl; [lia|].
  repeat case_bool_decide; simpl; try destruct (string_dec _ _); simpl;
    try lia; congruence.
Qed.

Lemma count_occ_outTargets_two edges u u' k :
  u <> u' ->
  count_occ string_dec (outTargets edges u) k
  + count_occ string_dec (outTargets edges u') k <= inCount edges k.
Proof.
  intros Hne. unfold outTargets, inCount.
  induction edges as [|e edges IH]; simpl; [lia|].
  repeat case_bool_decide; simpl; repeat destruct (string_dec _ _); simpl;
    try lia; congruence.
Qed.

Section PropagationForest.
Import Propagation.

Variables (nodes : list Node) (edges : list Edge) (trafficLoad : Q).
Hypothesis oneIncoming : forall v, inCount edges v <= 1.

Lemma predecessor_unique u u' k :
  k ∈ outTargets edges u -> k ∈ outTargets edges u' -> u = u'.
Proof.
  intros Hu Hu'. destruct (decide (u = u')) as [|Hne]; [done|]. exfalso.
  apply list_elem_of_In, (count_occ_In string_dec) in Hu, Hu'.
  pose proof (count_occ_outTargets_two edges u u' k Hne).
  pose proof (oneIncoming k). lia.
Qed.

Lemma predecessor_once u k :
  k ∈ outTargets edges u ->
  count_occ string_dec (outTargets edges u) k = 1.
Proof.
  intros Hu. apply list_elem_of_In, (count_occ_In string_dec) in Hu.
  pose proof (count_occ_outTargets edges u k).
  pose proof (oneIncoming k). lia.
Qed.

(** The loop on a graph without merges: visited ids are logged, every key
    is queued or logged, the predecessors of a queued or logged id are
    logged, and a logged load is still the load of its node. *)
Definition forestState (st : LoopState) : Prop :=
  forwardedOnce st /\
  (forall x, x ∈ visited st -> x ∈ map fst (forwarded st)) /\
  (forall k, is_Some (loadMap st !! k) ->
             k ∈ queue st \/ k ∈ map fst (forwarded st)) /\
  (forall k u, k ∈ queue st \/ k ∈ map fst (forwarded st) ->
               u ∈ map node_id nodes -> k ∈ outTargets edges u ->
               u ∈ map fst (forwarded st)) /\
  (forall u l, (u, l) ∈ forwarded st -> Js.getOr0 (loadMap st) u = l).

Lemma step_forestState st nodeId rest :
  queue st = nodeId :: rest ->
  forestState st ->
  forestState (step (fst (buildTables nodes edges)) nodeId rest st).
Proof.
  intros Hq (Honce & Hvis & Hkeys & Hpred & Hlog).
  pose proof (step_forwardedOnce (fst (buildTables nodes edges)) st nodeId rest
                Hq Honce) as Honce'.
  split; [exact Honce'|]. clear Honce'. unfold step.
  case_bool_decide as Hv.
  { cbn [visited forwarded loadMap queue]. split_and!.
    - done.
    - intros k Hk. destruct (Hkeys k Hk) as [Hin|?]; [|by right].
      rewrite Hq in Hin. apply elem_of_cons in Hin as [->|?]; [|by left].
      right. by apply Hvis.
    - intros k u [Hk|Hk]; [|by apply Hpred; right].
      apply Hpred. left. rewrite Hq. by right.
    - done. }
  rewrite adj_neighbours.
  set (targets := if bool_decide (nodeId ∈ map node_id nodes)
                  then outTargets edges nodeId else []).
  assert (Htargets : forall t, t ∈ targets ->
            nodeId ∈ map node_id nodes /\ t ∈ outTargets edges nodeId).
  { intros t Ht. unfold targets in Ht. case_bool_decide; [done|].
    by apply elem_of_nil in Ht. }
  assert (Hfresh : forall t, t ∈ targets ->
            t <> nodeId /\ t ∉ map fst (forwarded st)).
  { intros t Ht. destruct (Htargets t Ht) as [Hnode Hout].
    destruct Honce as [_ Hsub]. split.
    - intros ->. apply Hv, Hsub. apply (Hpred nodeId nodeId); [|done|done].
      left. rewrite Hq. by left.
    - intros Hlogged. apply Hv, Hsub. apply (Hpred t nodeId); [|done|done].
      by right. }
  assert (Hlm : forall lm q k,
            (match targets with
             | [] => (loadMap st, rest)
             | _ :: _ =>
                 distribute (Js.getOr0 (loadMap st) nodeId
                             / Js.ofNat (length targets)) targets
                            (loadMap st) rest
             end) = (lm, q) ->
            q = rest ++ targets /\
            (k ∉ targets -> lm !! k = loadMap st !! k) /\
            (is_Some (lm !! k) -> is_Some (loadMap st !! k) \/ k ∈ targets)).
  { intros lm q k E. destruct targets as [|t ts] eqn:Et.
    - injection E as <- <-. rewrite app_nil_r. split; [done|].
      split; [done|]. by left.
    - rewrite <- Et in *. split_and!.
      + change q with (snd (lm, q)). rewrite <- E. apply distribute_queue.
      + intros Hk. change lm with (fst (lm, q)). rewrite <- E.
        by apply distribute_other.
      + intros Hk. change lm with (fst (lm, q)) in Hk. rewrite <- E in Hk.
        by apply distribute_keys in Hk. }
  destruct (match targets with [] => _ | _ :: _ => _ end) as [lm q] eqn:E.
  cbn [visited forwarded loadMap queue].
  assert (Hqueue : q = rest ++ targets) by apply (Hlm lm q nodeId eq_refl).
  split_and!.
  - intros x [->%elem_of_singleton|Hx]%elem_of_union; rewrite map_app,
      elem_of_app; [right; by left|left; by apply Hvis].
  - intros k Hk. rewrite map_app, elem_of_app, Hqueue, elem_of_app.
    destruct (Hlm lm q k eq_refl) as (_ & _ & Hdom).
    destruct (Hdom Hk) as [Hold|Hnew]; [|left; by right].
    destruct (Hkeys k Hold) as [Hin|?]; [|right; by left].
    rewrite Hq in Hin. apply elem_of_cons in Hin as [->|?]; [|left; by left].
    right. right. by left.
  - intros k u Hk Hu Hout. rewrite map_app, elem_of_app.
    rewrite Hqueue, map_app, !elem_of_app in Hk. cbn [map fst] in Hk.
    rewrite list_elem_of_singleton in Hk.
    destruct Hk as [[Hk|Hk]|[Hk | ->]].
    + left. apply (Hpred k u); [|done|done]. left. rewrite Hq. by right.
    + right. destruct (Htargets k Hk) as [_ Hout'].
      rewrite (predecessor_unique u nodeId k Hout Hout'). by left.
    + left. apply (Hpred k u); [by right|done|done].
    + left. apply (Hpred nodeId u); [|done|done]. left. rewrite Hq. by left.
  - intros u l [Hin|Hin%list_elem_of_singleton]%elem_of_app.
    + rewrite <- (Hlog u l Hin). unfold Js.getOr0.
      destruct (Hlm lm q u eq_refl) as (_ & Hsame & _). rewrite Hsame; [done|].
      intros Ht. destruct (Hfresh u Ht) as [_ Hn]. apply Hn.
      apply list_elem_of_In, in_map_iff. exists (u, l).
      split; [done|by apply list_elem_of_In].
    + injection Hin as -> ->. unfold Js.getOr0.
      destruct (Hlm lm q nodeId eq_refl) as (_ & Hsame & _). rewrite Hsame; [done|].
      intros Ht. by destruct (Hfresh nodeId Ht).
Qed.

Lemma initState_forestState : forestState (initState nodes edges trafficLoad).
Proof.
  unfold initState. split_and!; cbn [visited forwarded loadMap queue map].
  - split; [constructor|]. by intros x Hx%elem_of_nil.
  - by intros x Hx%elem_of_empty.
  - intros k Hk. left. rewrite sources_lookup in Hk.
    case_bool_decide; [done|]. rewrite lookup_empty in Hk. by destruct Hk.
  - intros k u [Hk|Hk%elem_of_nil] Hu Hout; [|done]. exfalso.
    apply list_elem_of_In, in_map_iff in Hk as (n & <- & Hn).
    apply list_elem_of_In, sourcesOf_elem in Hn as [_ Hsrc].
    rewrite noIncoming_spec in Hsrc.
    apply outTargets_elem in Hout as (e & He & _ & Ht). by apply (Hsrc e).
  - by intros u l Hin%elem_of_nil.
Qed.

Lemma run_forestState st :
  run nodes edges trafficLoad = Some st -> forestState st /\ queue st = [].
Proof.
  intros Hrun. unfold run in Hrun.
  eapply (loop_invariant _ forestState); [| |exact Hrun].
  - apply step_forestState.
  - apply initState_forestState.
Qed.

Lemma forwardedTotal_none adj k log :
  (forall p, p ∈ log -> (forwardedShare adj k p == 0)%Q) ->
  (forwardedTotal adj k log == 0)%Q.
Proof.
  induction log as [|p log IH]; intros Hz; simpl; [reflexivity|].
  rewrite IH by (intros q Hq; apply Hz; by right).
  rewrite (Hz p) by by left. ring.
Qed.

Lemma forwardedTotal_single adj k s l log :
  NoDup (map fst log) -> (s, l) ∈ log ->
  (forall p, p ∈ log -> fst p <> s -> (forwardedShare adj k p == 0)%Q) ->
  (forwardedTotal adj k log == forwardedShare adj k (s, l))%Q.
Proof.
  induction log as [|p log IH]; intros Hnd Hin Hz;
    [by apply elem_of_nil in Hin|].
  cbn [map] in Hnd. apply NoDup_cons in Hnd as [Hp Hnd]. simpl.
  apply elem_of_cons in Hin as [<-|Hin].
  - rewrite forwardedTotal_none; [ring|]. intros q Hq. apply Hz; [by right|].
    intros Hs. apply Hp. simpl. rewrite <- Hs.
    apply list_elem_of_In, in_map. by apply list_elem_of_In.
  - rewrite IH; [|done|done|intros q Hq; apply Hz; by right].
    rewrite (Hz p); [ring|by left|]. intros Hs. apply Hp. rewrite Hs.
    apply list_elem_of_In, in_map_iff. exists (s, l).
    split; [done|by apply list_elem_of_In].
Qed.

Lemma forest_edge_load m e :
  propagateLoad nodes edges trafficLoad = Some m ->
  e ∈ edges -> source e ∈ map node_id nodes ->
  (Js.getOr0 m (target e) ==
   Js.getOr0 m (source e) / Js.ofNat (length (outTargets edges (source e))))%Q.
Proof.
  unfold propagateLoad. intros Hm He Hs.
  destruct (run nodes edges trafficLoad) as [st|] eqn:Hrun; [|done].
  simpl in Hm. injection Hm as <-.
  destruct (run_forestState st Hrun)
    as ((Honce & Hvis & Hkeys & Hpred & Hlog) & Hq).
  assert (Hout : target e ∈ outTargets edges (source e)).
  { apply outTargets_elem. by exists e. }
  rewrite (run_load_accounting nodes edges trafficLoad st (target e) Hrun).
  rewrite bool_decide_eq_false_2.
  2:{ intros Hin. apply list_elem_of_In, in_map_iff in Hin as (n & Hid & Hn).
      apply filter_In in Hn as [_ Hsrc]. rewrite noIncoming_spec in Hsrc.
      by apply (Hsrc e). }
  assert (Hother : forall p, p ∈ forwarded st -> fst p <> source e ->
            (forwardedShare (fst (buildTables nodes edges)) (target e) p == 0)%Q).
  { intros [x l] Hp Hne. unfold forwardedShare. cbn [fst snd] in *.
    rewrite adj_neighbours. case_bool_decide as Hx.
    - destruct (count_occ string_dec (outTargets edges x) (target e)) eqn:Hc.
      + unfold Js.ofNat. simpl. ring.
      + exfalso. apply Hne.
        apply (predecessor_unique x (source e) (target e)); [|done].
        apply list_elem_of_In, (count_occ_In string_dec). lia.
    - unfold Js.ofNat. simpl. ring. }
  rewrite fillUnreached_getOr0.
  destruct (decide (source e ∈ map fst (forwarded st))) as [Hin|Hnot].
  - apply list_elem_of_In, in_map_iff in Hin as ([s l] & Hfst & Hin).
    cbn [fst] in Hfst. subst s. apply list_elem_of_In in Hin.
    destruct Honce as [Hnd _].
    rewrite (forwardedTotal_single _ _ (source e) l _ Hnd Hin Hother).
    rewrite (Hlog _ _ Hin).
    rewrite forwardedShare_node by done.
    rewrite (predecessor_once _ _ Hout). unfold Js.ofNat at 1. simpl. ring.
  - rewrite forwardedTotal_none.
    2:{ intros p Hp. apply Hother; [done|]. intros Hfst. apply Hnot.
        rewrite <- Hfst. apply list_elem_of_In, in_map.
        by apply list_elem_of_In. }
    assert (Hnone : loadMap st !! source e = None).
    { destruct (loadMap st !! source e) eqn:E; [|done]. exfalso.
      destruct (Hkeys (source e)) as [Hin|Hin]; [by rewrite E| |done].
      rewrite Hq in Hin. by apply elem_of_nil in Hin. }
    unfold Js.getOr0. rewrite Hnone. unfold Qdiv. ring.
Qed.

End PropagationForest.

(** X5: When no node has more than one incoming edge the even split holds on
    every edge of the final map: the load of the target of an edge that leaves
    a node is the load of that node divided by the number of its outgoing
    edges. *)
Theorem propagateLoad_forest_split :
  forall nodes edges trafficLoad,
    (forall v, inCount edges v <= 1) ->
    exists m,
      Propagation.propagateLoad nodes edges trafficLoad = Some m /\
      forall e, e ∈ edges -> source e ∈ map node_id nodes ->
        (Js.getOr0 m (target e) ==
         Js.getOr0 m (source e)
         / Js.ofNat (length (outTargets edges (source e))))%Q.
Proof.
  intros nodes edges L Hone.
  destruct (run_total nodes edges L) as [st Hrun].
  assert (Hm : Propagation.propagateLoad nodes edges L =
               Some (Propagation.fillUnreached nodes (Propagation.loadMap st))).
  { unfold Propagation.propagateLoad. by rewrite Hrun. }
  eexists. split; [exact Hm|]. intros e He Hs.
  by apply (forest_edge_load nodes edges L Hone).
Qed.

Lemma fanEdges_oneIncoming : forall v, inCount fanEdges v <= 1.
Proof.
  intros v. unfold inCount, fanEdges. simpl.
  repeat case_bool_decide; simpl; try lia; congruence.
Qed.

Lemma propagateLoad_forest_split_witness :
  exists m,
    Propagation.propagateLoad fanNodes fanEdges 1000 = Some m /\
    forall e, e ∈ fanEdges -> source e ∈ map node_id fanNodes ->
      (Js.getOr0 m (target e) ==
       Js.getOr0 m (source e)
       / Js.ofNat (length (outTargets fanEdges (source e))))%Q.
Proof.
  apply (propagateLoad_forest_split fanNodes fanEdges 1000).
  exact fanEdges_oneIncoming.
Defined.

(** ** The reachability search of findSPOFs *)

(** [x] can be reached from [src] along the lists of [adj]. *)
Inductive adjReach (adj : gmap string (list string)) (src : string)
  : string -> Prop :=
| adjReach_here : adjReach adj src src
| adjReach_next v w ns :
    adjReach adj src v -> adj !! v = Some ns -> w ∈ ns -> adjReach adj src w.

(** [x] can be reached from [src] along the edges. *)
Inductive edgePath (edges : list Edge) (src : string) : string -> Prop :=
| edgePath_here : edgePath edges src src
| edgePath_next e :
    edgePath edges src (source e) -> e ∈ edges -> edgePath edges src (target e).

(** [x] can be reached from [src] along edges that do not touch [removed]. *)
Inductive edgePathAvoiding (edges : list Edge) (removed src : string)
  : string -> Prop :=
| edgePathAvoiding_here : edgePathAvoiding edges removed src src
| edgePathAvoiding_next e :
    edgePathAvoiding edges removed src (source e) -> e ∈ edges ->
    source e <> removed -> target e <> removed ->
    edgePathAvoiding edges removed src (target e).

Section SearchCorrect.
Variable adj : gmap string (list string).
Variable src : string.

(** The search has found only reachable ids, has seen the start, and has
    queued or found every neighbour of a found id. *)
Definition searching (queue : list string) (reachable : gset string) : Prop :=
  (forall x, x ∈ queue \/ x ∈ reachable -> adjReach adj src x) /\
  (src ∈ reachable \/ src ∈ queue) /\
  (forall v ns w, v ∈ reachable -> adj !! v = Some ns -> w ∈ ns ->
                  w ∈ reachable \/ w ∈ queue).

Lemma bfs_searching : forall fuel queue reachable result,
  searching queue reachable ->
  bfs fuel adj queue reachable = Some result ->
  searching [] result.
Proof.
  induction fuel as [|fuel IH]; intros queue reachable result Hs Hrun.
  - destruct queue; [|done]. simpl in Hrun. by injection Hrun as <-.
  - destruct queue as [|cur rest]; simpl in Hrun; [by injection Hrun as <-|].
    destruct Hs as (Hsound & Hsrc & Hclosed).
    case_bool_decide as Hcur.
    + apply (IH rest reachable); [|done]. split_and!.
      * intros x [Hx|Hx]; apply Hsound; [left; by right|by right].
      * destruct Hsrc as [?|[->|?]%elem_of_cons]; [by left|by left|by right].
      * intros v ns w Hv Hns Hw.
        destruct (Hclosed v ns w Hv Hns Hw) as [?|[->|?]%elem_of_cons];
          [by left|by left|by right].
    + eapply IH; [|exact Hrun]. split_and!.
      * intros x [[Hx|Hx]%elem_of_app|[->%elem_of_singleton|Hx]%elem_of_union].
        -- apply Hsound. left. by right.
        -- apply list_elem_of_In, filter_In in Hx as [Hx _].
           destruct (adj !! cur) as [ns|] eqn:Hns; [|done].
           apply (adjReach_next adj src cur x ns); [|done|by apply list_elem_of_In].
           apply Hsound. left. by left.
        -- apply Hsound. left. by left.
        -- apply Hsound. by right.
      * destruct Hsrc as [?|[->|?]%elem_of_cons].
        -- left. set_solver.
        -- left. set_solver.
        -- right. apply elem_of_app. by left.
      * intros v ns w [->%elem_of_singleton|Hv]%elem_of_union Hns Hw.
        -- destruct (decide (w ∈ {[cur]} ∪ reachable)) as [Hin|Hin]; [by left|].
           right. apply elem_of_app. right. rewrite Hns. simpl.
           apply list_elem_of_In, filter_In. split; [by apply list_elem_of_In|].
           by rewrite bool_decide_eq_false_2.
        -- destruct (Hclosed v ns w Hv Hns Hw) as [?|[->|?]%elem_of_cons].
           ++ left. set_solver.
           ++ left. set_solver.
           ++ right. apply elem_of_app. by left.
Qed.

(** The search from [src] returns exactly the ids reachable from [src]. *)
Lemma bfs_adjReach fuel result :
  bfs fuel adj [src] ∅ = Some result ->
  forall x, x ∈ result <-> adjReach adj src x.
Proof.
  intros Hrun.
  assert (Hinit : searching [src] ∅).
  { split_and!.
    - intros x [Hx|Hx]; [|by apply elem_of_empty in Hx].
      apply list_elem_of_singleton in Hx as ->. constructor.
    - right. by left.
    - intros v ns w Hv. by apply elem_of_empty in Hv. }
  destruct (bfs_searching _ _ _ _ Hinit Hrun) as (Hsound & Hsrc & Hclosed).
  intros x. split.
  - intros Hx. apply Hsound. by right.
  - intros Hr. induction Hr as [|v w ns Hr IH Hns Hw].
    + destruct Hsrc as [?|H]; [done|]. by apply elem_of_nil in H.
    + destruct (Hclosed v ns w IH Hns Hw) as [?|H]; [done|].
      by apply elem_of_nil in H.
Qed.

End SearchCorrect.

Lemma adjReach_edgePath edges src x :
  adjReach (buildAdjacencyList edges) src x <-> edgePath edges src x.
Proof.
  split.
  - intros H. induction H as [|v w ns Hr IH Hns Hw]; [constructor|].
    rewrite buildAdjacencyList_lookup in Hns.
    destruct (outTargets edges v) as [|t ts] eqn:E; [done|].
    injection Hns as <-. rewrite <- E in Hw.
    apply outTargets_elem in Hw as (e & He & <- & <-). by constructor.
  - intros H. induction H as [|e Hr IH He]; [constructor|].
    assert (Ht : target e ∈ outTargets edges (source e)).
    { apply outTargets_elem. by exists e. }
    apply (adjReach_next _ _ (source e) _ (outTargets edges (source e)));
      [done| |done].
    rewrite buildAdjacencyList_lookup.
    destruct (outTargets edges (source e)); [by apply elem_of_nil in Ht|done].
Qed.

Lemma remainingAdjOf_elem edges removed v w :
  (exists ns, remainingAdjOf (buildAdjacencyList edges) removed !! v = Some ns
              /\ w ∈ ns) <->
  exists e, e ∈ edges /\ source e = v /\ target e = w /\
            v <> removed /\ w <> removed.
Proof.
  unfold remainingAdjOf. rewrite lookup_fmap. split.
  - intros (ns & Hns & Hw).
    destruct (delete removed (buildAdjacencyList edges) !! v) as [l|] eqn:E;
      [|done].
    simpl in Hns. injection Hns as <-.
    apply list_elem_of_In, filter_In in Hw as [Hw Hne].
    apply negb_true_iff, bool_decide_eq_false in Hne.
    destruct (decide (removed = v)) as [->|Hv].
    { by rewrite lookup_delete_eq in E. }
    rewrite lookup_delete_ne in E by done.
    rewrite buildAdjacencyList_lookup in E.
    destruct (outTargets edges v) as [|t ts] eqn:Eo; [done|].
    injection E as <-. rewrite <- Eo in Hw.
    apply list_elem_of_In, outTargets_elem in Hw as (e & He & Hs & Ht).
    exists e. split_and!; try done; by intros ->.
  - intros (e & He & <- & <- & Hv & Hw).
    assert (Ht : target e ∈ outTargets edges (source e)).
    { apply outTargets_elem. by exists e. }
    rewrite lookup_delete_ne by done. rewrite buildAdjacencyList_lookup.
    destruct (outTargets edges (source e)) as [|t ts] eqn:Eo;
      [by apply elem_of_nil in Ht|].
    eexists. split; [reflexivity|].
    apply list_elem_of_In, filter_In. split; [by apply list_elem_of_In|].
    apply negb_true_iff, bool_decide_eq_false. done.
Qed.

Lemma adjReach_edgePathAvoiding edges removed src x :
  adjReach (remainingAdjOf (buildAdjacencyList edges) removed) src x <->
  edgePathAvoiding edges removed src x.
Proof.
  split.
  - intros H. induction H as [|v w ns Hr IH Hns Hw]; [constructor|].
    destruct (proj1 (remainingAdjOf_elem edges removed v w)) as
      (e & He & <- & <- & Hv & Hw'); [eauto|]. by constructor.
  - intros H. induction H as [|e Hr IH He Hs Ht]; [constructor|].
    destruct (proj2 (remainingAdjOf_elem edges removed (source e) (target e)))
      as (ns & Hns & Hw); [by exists e|].
    by apply (adjReach_next _ _ (source e) _ ns).
Qed.

(** X6: The search over the whole graph returns, within its fuel, exactly the
    ids that a path of edges connects to the start. *)
Theorem bfs_finds_edge_paths :
  forall edges src,
    exists result,
      bfs (bfsFuel edges) (buildAdjacencyList edges) [src] ∅ = Some result /\
      forall x, x ∈ result <-> edgePath edges src x.
Proof.
  intros edges src. destruct (bfs_total_adj edges src) as [result Hrun].
  exists result. split; [done|]. intros x.
  rewrite (bfs_adjReach _ _ _ _ Hrun). apply adjReach_edgePath.
Qed.

(** X7: The search over the graph without one node returns, within its fuel,
    exactly the ids that a path avoiding that node connects to the start. *)
Theorem bfs_finds_paths_avoiding :
  forall edges removed src,
    exists result,
      bfs (bfsFuel edges) (remainingAdjOf (buildAdjacencyList edges) removed)
          [src] ∅ = Some result /\
      forall x, x ∈ result <-> edgePathAvoiding edges removed src x.
Proof.
  intros edges removed src.
  destruct (bfs_total_remaining edges removed src) as [result Hrun].
  exists result. split; [done|]. intros x.
  rewrite (bfs_adjReach _ _ _ _ Hrun). apply adjReach_edgePathAvoiding.
Qed.

(** ** The structural test of findSPOFs *)

Lemma existsM_existsb {A : Type} (f : A -> option bool) (g : A -> bool) l :
  (forall x, x ∈ l -> f x = Some (g x)) -> existsM f l = Some (existsb g l).
Proof.
  induction l as [|x l IH]; intros H; simpl; [done|].
  rewrite (H x) by by left. destruct (g x); [done|].
  apply IH. intros y Hy. apply H. by right.
Qed.

(** Removing [x] cuts a sink off a source: a path of edges joins them, and
    no path that avoids [x] does. *)
Definition cutsOff (edges : list Edge) (sources sinks : list string)
    (x : string) : Prop :=
  exists src sink,
    src ∈ sources /\ sink ∈ sinks /\ src <> x /\ sink <> x /\
    edgePath edges src sink /\ ~ edgePathAvoiding edges x src sink.

Lemma disconnectsGraph_cutsOff edges sources sinks x :
  exists b,
    disconnectsGraph edges (buildAdjacencyList edges) sources sinks x = Some b /\
    (b = true <-> cutsOff edges sources sinks x).
Proof.
  set (without src := default ∅ (bfs (bfsFuel edges)
         (remainingAdjOf (buildAdjacencyList edges) x) [src] ∅)).
  set (whole src := default ∅ (bfs (bfsFuel edges)
         (buildAdjacencyList edges) [src] ∅)).
  assert (Hwithout : forall src y,
            y ∈ without src <-> edgePathAvoiding edges x src y).
  { intros src y. unfold without.
    destruct (bfs_total_remaining edges x src) as [r Hr]. rewrite Hr. simpl.
    rewrite (bfs_adjReach _ _ _ _ Hr). apply adjReach_edgePathAvoiding. }
  assert (Hwhole : forall src y, y ∈ whole src <-> edgePath edges src y).
  { intros src y. unfold whole.
    destruct (bfs_total_adj edges src) as [r Hr]. rewrite Hr. simpl.
    rewrite (bfs_adjReach _ _ _ _ Hr). apply adjReach_edgePath. }
  set (lost src sink :=
         negb (bool_decide (sink = x))
         && negb (bool_decide (sink ∈ without src))
         && bool_decide (sink ∈ whole src)).
  set (cut src := negb (bool_decide (src = x)) && existsb (lost src) sinks).
  exists (existsb cut sources). split.
  - unfold disconnectsGraph. apply existsM_existsb. intros src _.
    unfold cut. case_bool_decide as Hsrc; [done|]. cbn [negb andb].
    destruct (bfs_total_remaining edges x src) as [r Hr]. rewrite Hr.
    apply existsM_existsb. intros sink _. unfold lost, without, whole.
    rewrite Hr. change (default ∅ (Some r)) with r.
    case_bool_decide; [done|]. case_bool_decide; [done|]. cbn [negb andb].
    by destruct (bfs_total_adj edges src) as [r' ->].
  - rewrite existsb_exists. unfold cutsOff, cut. split.
    + intros (src & Hin & Hcut).
      apply andb_true_iff in Hcut as [Hsrc Hsinks].
      apply existsb_exists in Hsinks as (sink & Hsink & Hlost).
      unfold lost in Hlost.
      apply andb_true_iff in Hlost as [Hlost Horig].
      apply andb_true_iff in Hlost as [Hne Hgone].
      apply negb_true_iff, bool_decide_eq_false in Hsrc, Hne, Hgone.
      apply bool_decide_eq_true in Horig.
      exists src, sink. split_and!; try done.
      * by apply list_elem_of_In.
      * by apply list_elem_of_In.
      * by apply Hwhole.
      * intros Hp. by apply Hgone, Hwithout.
    + intros (src & sink & Hsrc & Hsink & Hne & Hne' & Hp & Hnp).
      exists src. split; [by apply list_elem_of_In|].
      apply andb_true_iff. split.
      { by apply negb_true_iff, bool_decide_eq_false. }
      apply existsb_exists. exists sink. split; [by apply list_elem_of_In|].
      unfold lost. rewrite !andb_true_iff. split_and!.
      * by apply negb_true_iff, bool_decide_eq_false.
      * apply negb_true_iff, bool_decide_eq_false. intros Hw.
        by apply Hnp, Hwithout.
      * by apply bool_decide_eq_true, Hwhole.
Qed.

(** X8: The structural test of findSPOFs is the cut test: it answers, and its
    answer is true exactly when removing the node leaves some sink, reached
    from a source by a path of edges, without a path that avoids the node. *)
Theorem disconnectsGraph_cut_test :
  forall edges sources sinks x,
    exists b,
      disconnectsGraph edges (buildAdjacencyList edges) sources sinks x
        = Some b /\
      (b = true <-> cutsOff edges sources sinks x).
Proof. apply disconnectsGraph_cutsOff. Qed.

Lemma dedupFirst_elem_iff xs : forall seen x,
  x ∈ dedupFirst seen xs <-> x ∈ xs /\ x ∉ seen.
Proof.
  induction xs as [|y xs IH]; intros seen x; simpl.
  - split; [by intros H%elem_of_nil|by intros [H%elem_of_nil _]].
  - case_bool_decide as Hy.
    + rewrite IH, elem_of_cons. split; [naive_solver|].
      intros [[->|?] ?]; [done|done].
    + rewrite !elem_of_cons, IH, elem_of_cons. split.
      * intros [->|[? Hn]]; [by split; [left|]|].
        split; [by right|]. intros ?. apply Hn. by right.
      * intros [[->|Hx] Hn]; [by left|].
        destruct (decide (x = y)) as [->|Hxy]; [by left|].
        right. split; [done|]. by intros [?|?].
Qed.

Lemma dedupFirst_NoDup xs : forall seen, NoDup (dedupFirst seen xs).
Proof.
  induction xs as [|y xs IH]; intros seen; simpl; [constructor|].
  case_bool_decide; [apply IH|]. constructor; [|apply IH].
  rewrite dedupFirst_elem_iff. intros [_ Hn]. apply Hn. by left.
Qed.

Section SpofRules.
Variable COMPONENT_MAP : gmap string ComponentDefinition.

Lemma cutVertexSPOFs_elem_iff edges sources sinks candidates :
  forall spofs result x,
    cutVertexSPOFs COMPONENT_MAP edges (buildAdjacencyList edges) sources sinks
                   candidates spofs = Some result ->
    (x ∈ result <->
     x ∈ spofs \/
     exists n, n ∈ candidates /\ node_id n = x /\
               spofCandidate COMPONENT_MAP n /\ cutsOff edges sources sinks x).
Proof.
  induction candidates as [|node rest IH]; intros spofs result x Hrun;
    simpl in Hrun.
  - injection Hrun as <-. split; [by left|].
    intros [?|(n & Hn & _)]; [done|by apply elem_of_nil in Hn].
  - assert (Hskip :
      (spofCandidate COMPONENT_MAP node /\
       cutsOff edges sources sinks (node_id node) -> False) ->
      cutVertexSPOFs COMPONENT_MAP edges (buildAdjacencyList edges) sources
                     sinks rest spofs = Some result ->
      (x ∈ result <->
       x ∈ spofs \/
       exists n, n ∈ node :: rest /\ node_id n = x /\
                 spofCandidate COMPONENT_MAP n /\ cutsOff edges sources sinks x)).
    { intros Hno Hrest. rewrite (IH _ _ x Hrest). split.
      - intros [?|(n & Hn & ?)]; [by left|]. right. exists n.
        split; [by right|done].
      - intros [?|(n & [->|Hn]%elem_of_cons & Hid & Hc & Hcut)]; [by left| |].
        + subst x. destruct Hno. by split.
        + right. by exists n. }
    destruct (isClientOrObservability COMPONENT_MAP node) eqn:Hcat.
    { apply Hskip; [|done]. intros [[Hc _] _]. congruence. }
    destruct (Js.ltb 1 (replicas (config (data node)))) eqn:Hrep.
    { apply Hskip; [|done]. intros [[_ Hr] _].
      apply Js_ltb_lt in Hrep. lra. }
    destruct (disconnectsGraph_cutsOff edges sources sinks (node_id node))
      as (b & Hb & Hcut).
    rewrite Hb in Hrun. destruct b.
    + rewrite (IH _ _ x Hrun), elem_of_app, list_elem_of_singleton. split.
      * intros [[? | ->] | (n & Hn & ?)]; [by left| |].
        -- right. exists node. split; [by left|]. split; [done|].
           split; [split; [done|by apply Js_ltb_ge]|by apply Hcut].
        -- right. exists n. split; [by right|done].
      * intros [?|(n & [->|Hn]%elem_of_cons & Hid & ?)];
          [by left; left|by left; right|].
        right. by exists n.
    + apply Hskip; [|done]. intros [_ Hc]. by apply Hcut in Hc.
Qed.

Lemma criticalPathSPOFs_elem_iff nodes critPath : forall spofs x,
  x ∈ criticalPathSPOFs COMPONENT_MAP nodes critPath spofs <->
  x ∈ spofs \/
  (x ∈ critPath /\
   exists n, findNode nodes x = Some n /\ spofCandidate COMPONENT_MAP n).
Proof.
  unfold criticalPathSPOFs.
  induction critPath as [|nid critPath IH]; intros spofs x; simpl.
  - split; [by left|]. intros [?|[H%elem_of_nil _]]; done.
  - rewrite IH. clear IH.
    assert (Hskip :
      ~ (exists n, findNode nodes nid = Some n /\ spofCandidate COMPONENT_MAP n) ->
      (x ∈ spofs \/
       x ∈ critPath /\
       (exists n, findNode nodes x = Some n /\ spofCandidate COMPONENT_MAP n)) <->
      (x ∈ spofs \/
       x ∈ nid :: critPath /\
       (exists n, findNode nodes x = Some n /\ spofCandidate COMPONENT_MAP n))).
    { intros Hno. split.
      - intros [?|[? ?]]; [by left|]. right. split; [by right|done].
      - intros [?|[[->|?]%elem_of_cons ?]]; [by left|done|by right]. }
    destruct (findNode nodes nid) as [node|] eqn:Hfind.
    2:{ apply Hskip. by intros (n & ? & _). }
    destruct (isClientOrObservability COMPONENT_MAP node) eqn:Hcat.
    { apply Hskip. intros (n & [= <-] & Hc & _). congruence. }
    destruct (Js.leb (replicas (config (data node))) 1) eqn:Hrep; simpl.
    2:{ apply Hskip. intros (n & [= <-] & _ & Hr).
        apply Js_leb_le in Hr. congruence. }
    assert (Hcand : spofCandidate COMPONENT_MAP node).
    { split; [done|]. by apply Js_leb_le. }
    case_bool_decide as Hin; simpl.
    + split.
      * intros [?|[? ?]]; [by left|]. right. split; [by right|done].
      * intros [?|[[->|?]%elem_of_cons ?]]; [by left|by left|by right].
    + rewrite elem_of_app, list_elem_of_singleton. split.
      * intros [[? | ->] | [? ?]]; [by left| |].
        -- right. split; [by left|by exists node].
        -- right. split; [by right|done].
      * intros [?|[[->|?]%elem_of_cons ?]];
          [by left; left|by left; right|by right].
Qed.

Lemma findSPOFs_rules nodes edges :
  2 <= length nodes ->
  exists spofs critPath latency,
    findSPOFs COMPONENT_MAP nodes edges = Some spofs /\
    findCriticalPath COMPONENT_MAP nodes edges = Some (critPath, latency) /\
    NoDup spofs /\
    forall x,
      x ∈ spofs <->
      (exists n, n ∈ nodes /\ node_id n = x /\ spofCandidate COMPONENT_MAP n /\
                 cutsOff edges (findSourceNodes nodes edges)
                         (findSinkNodes nodes edges) x)
      \/ (x ∈ critPath /\
          exists n, findNode nodes x = Some n /\ spofCandidate COMPONENT_MAP n).
Proof.
  intros Hlen. unfold findSPOFs.
  destruct (length nodes <=? 1)%nat eqn:E; [apply Nat.leb_le in E; lia|].
  destruct (cutVertexSPOFs_total COMPONENT_MAP edges
              (findSourceNodes nodes edges) (findSinkNodes nodes edges) nodes [])
    as [cut Hcut].
  destruct (findCriticalPath_total COMPONENT_MAP nodes edges) as [[p l] Hp].
  rewrite Hcut, Hp. eexists _, p, l. split; [done|]. split; [done|].
  split; [apply dedupFirst_NoDup|]. intros x.
  rewrite dedupFirst_elem_iff, criticalPathSPOFs_elem_iff,
    (cutVertexSPOFs_elem_iff _ _ _ _ _ _ x Hcut).
  split.
  - intros [[[Hn%elem_of_nil|?]|?] _]; [done|by left|by right].
  - intros [?|?]; (split; [|by intros Hn%elem_of_nil]);
      [left; by right|by right].
Qed.

End SpofRules.

(** X9: On a graph with at least two nodes findSPOFs lists, without
    repetition, exactly the ids of the nodes accepted by one of its two rules:
    a node that is neither client nor observability, has at most one replica
    and whose removal cuts a sink off a source; or such a node on the critical
    path. *)
Theorem findSPOFs_exactly_two_rules :
  forall COMPONENT_MAP nodes edges,
    2 <= length nodes ->
    exists spofs critPath latency,
      findSPOFs COMPONENT_MAP nodes edges = Some spofs /\
      findCriticalPath COMPONENT_MAP nodes edges = Some (critPath, latency) /\
      NoDup spofs /\
      forall x,
        x ∈ spofs <->
        (exists n, n ∈ nodes /\ node_id n = x /\
                   spofCandidate COMPONENT_MAP n /\
                   cutsOff edges (findSourceNodes nodes edges)
                           (findSinkNodes nodes edges) x)
        \/ (x ∈ critPath /\
            exists n, findNode nodes x = Some n /\
                      spofCandidate COMPONENT_MAP n).
Proof. apply findSPOFs_rules. Qed.

Lemma findSPOFs_exactly_two_rules_witness :
  2 <= length webAppNodes /\
  exists spofs critPath latency,
    findSPOFs sampleCatalog webAppNodes webAppEdges = Some spofs /\
    findCriticalPath sampleCatalog webAppNodes webAppEdges
      = Some (critPath, latency) /\
    NoDup spofs /\
    forall x,
      x ∈ spofs <->
      (exists n, n ∈ webAppNodes /\ node_id n = x /\
                 spofCandidate sampleCatalog n /\
                 cutsOff webAppEdges (findSourceNodes webAppNodes webAppEdges)
                         (findSinkNodes webAppNodes webAppEdges) x)
      \/ (x ∈ critPath /\
          exists n, findNode webAppNodes x = Some n /\
                    spofCandidate sampleCatalog n).
Proof.
  split; [simpl; lia|].
  apply (findSPOFs_exactly_two_rules sampleCatalog webAppNodes webAppEdges).
  simpl. lia.
Defined.

(** ** The shape of the critical path *)

Lemma fold_option_None {A B : Type} (g : B -> A -> option B) (l : list A) :
  fold_left (fun acc x => match acc with
                          | None => None
                          | Some b => g b x
                          end) l None = None.
Proof. induction l as [|x l IH]; simpl; [done|apply IH]. Qed.

Lemma fold_option_invariant {A B : Type} (g : B -> A -> option B)
    (P : B -> Prop) (l : list A) :
  (forall x b b', x ∈ l -> P b -> g b x = Some b' -> P b') ->
  forall b r,
    P b ->
    fold_left (fun acc x => match acc with
                            | None => None
                            | Some b => g b x
                            end) l (Some b) = Some r ->
    P r.
Proof.
  induction l as [|x l IH]; intros Hstep b r Hb Hrun; simpl in Hrun.
  - by injection Hrun as <-.
  - destruct (g b x) as [b'|] eqn:Hg.
    + apply (IH (fun y c c' Hy => Hstep y c c' (list_elem_of_further _ _ _ Hy)) b');
        [|done].
      apply (Hstep x b b'); [by left|done|done].
    + by rewrite fold_option_None in Hrun.
Qed.

Lemma neighbours_outTargets edges a :
  default [] (buildAdjacencyList edges !! a) = outTargets edges a.
Proof.
  rewrite buildAdjacencyList_lookup. by destruct (outTargets edges a).
Qed.

Section CriticalPathShape.
Variable COMPONENT_MAP : gmap string ComponentDefinition.
Variable nodeMap : gmap string Node.
Variable adj : gmap string (list string).

(** Every id of the list is followed by one of its neighbours. *)
Fixpoint linked (p : list string) : Prop :=
  match p with
  | [] => True
  | a :: t => (forall b, head t = Some b -> b ∈ default [] (adj !! a)) /\ linked t
  end.

Lemma linked_snoc p x :
  linked p ->
  (forall a, last p = Some a -> x ∈ default [] (adj !! a)) ->
  linked (p ++ [x]).
Proof.
  induction p as [|a p IH]; simpl; intros Hl Hlast.
  - split; [by intros b|done].
  - destruct Hl as [Hhead Hl]. split.
    + intros b Hb. destruct p as [|c p]; simpl in Hb.
      * injection Hb as <-. by apply Hlast.
      * by apply Hhead.
    + apply IH; [done|]. intros a' Ha'. apply Hlast.
      destruct p as [|c p]; [done|]. by rewrite last_cons_cons.
Qed.

Lemma linked_lookup p : forall i a b,
  linked p -> p !! i = Some a -> p !! S i = Some b ->
  b ∈ default [] (adj !! a).
Proof.
  induction p as [|c p IH]; intros i a b Hl Ha Hb; [done|].
  destruct Hl as [Hhead Hl]. destruct i as [|i].
  - simpl in Ha. injection Ha as ->. apply Hhead.
    simpl in Hb. by destruct p.
  - by apply (IH i).
Qed.

(** A path without repetition that starts at [src], runs through known
    nodes and follows the adjacency. *)
Definition simplePath (src : string) (p : list string) : Prop :=
  head p = Some src /\ NoDup p /\
  (forall x, x ∈ p -> is_Some (nodeMap !! x)) /\ linked p.

(** Every neighbour of the last id is already on the path. *)
Definition endsAtLeaf (p : list string) : Prop :=
  forall a y, last p = Some a -> y ∈ default [] (adj !! a) -> y ∈ p.

(** What the search has recorded: nothing yet, or a simple path from an
    accepted start that ends at a leaf. *)
Definition recorded (starts : string -> Prop) (b : list string * Q) : Prop :=
  fst b = [] \/
  exists src, starts src /\ simplePath src (fst b) /\ endsAtLeaf (fst b).

(** The state of one call: the path so far, extended by the current node,
    is a simple path, and [visited] holds exactly its ids. *)
Definition descending (src nodeId : string) (path : list string)
    (visited : gset string) : Prop :=
  head (path ++ [nodeId]) = Some src /\ NoDup (path ++ [nodeId]) /\
  (forall x, x ∈ path -> is_Some (nodeMap !! x)) /\
  linked (path ++ [nodeId]) /\
  (forall y, y ∈ visited <-> y ∈ path ++ [nodeId]).

Lemma dfs_recorded (starts : string -> Prop) src : starts src ->
  forall fuel nodeId path totalLatency visited best result,
    descending src nodeId path visited ->
    recorded starts best ->
    dfs COMPONENT_MAP fuel nodeMap adj nodeId path totalLatency visited best
      = Some result ->
    recorded starts result.
Proof.
  intros Hsrc.
  induction fuel as [|fuel IH];
    intros nodeId path totalLatency visited best result Hd Hbest Hrun; [done|].
  cbn [dfs] in Hrun.
  destruct (nodeMap !! nodeId) as [node|] eqn:Hnode; [|by injection Hrun as <-].
  destruct Hd as (Hhead & Hnd & Hknown & Hlinked & Hvis).
  assert (Hknown' : forall x, x ∈ path ++ [nodeId] -> is_Some (nodeMap !! x)).
  { intros x [Hx|Hx%list_elem_of_singleton]%elem_of_app; [by apply Hknown|].
    subst x. by rewrite Hnode. }
  destruct (List.filter _ _) as [|u us] eqn:Hun.
  - destruct (Js.ltb _ _); injection Hrun as <-; [|done].
    right. exists src. split; [done|]. split; [done|].
    unfold endsAtLeaf. cbn [fst].
    intros a y Ha Hy. rewrite last_snoc in Ha. injection Ha as <-.
    apply Hvis. destruct (decide (y ∈ visited)) as [|Hn]; [done|].
    assert (Hin : y ∈ List.filter
                    (fun n => negb (bool_decide (n ∈ visited)))
                    (default [] (adj !! nodeId))).
    { apply list_elem_of_In, filter_In. split; [by apply list_elem_of_In|].
      by apply negb_true_iff, bool_decide_eq_false. }
    rewrite Hun in Hin. by apply elem_of_nil in Hin.
  - rewrite <- Hun in Hrun. clear Hun.
    revert Hrun. apply fold_option_invariant; [|done].
    intros next b b' Hnext Hb Hcall.
    apply list_elem_of_In, filter_In in Hnext as [Hnb Hnv].
    apply negb_true_iff, bool_decide_eq_false in Hnv.
    assert (Hd' : descending src next (path ++ [nodeId]) ({[next]} ∪ visited)).
    { split_and!.
      - rewrite <- Hhead. by destruct path.
      - apply NoDup_app. split; [done|]. split; [|apply NoDup_singleton].
        intros x Hx ->%list_elem_of_singleton. by apply Hnv, Hvis.
      - exact Hknown'.
      - apply linked_snoc; [done|]. intros a Ha. rewrite last_snoc in Ha.
        injection Ha as <-. by apply list_elem_of_In.
      - intros y. rewrite elem_of_union, elem_of_singleton, Hvis,
          (elem_of_app (path ++ [nodeId])), list_elem_of_singleton. tauto. }
    exact (IH _ _ _ _ _ _ Hd' Hb Hcall).
Qed.

(** ** The recorded latency is the largest *)

(** A simple path from [x] that leaves [visited] after its first id and
    ends where every neighbour is visited or on it. *)
Definition pathFrom (visited : gset string) (x : string) (q : list string)
  : Prop :=
  head q = Some x /\ NoDup q /\
  (forall y, y ∈ q -> is_Some (nodeMap !! y)) /\ linked q /\
  (forall y, y ∈ tail q -> y ∉ visited) /\
  (forall a y, last q = Some a -> y ∈ default [] (adj !! a) ->
               y ∈ visited \/ y ∈ q).

Lemma dfs_increases :
  forall fuel nodeId path totalLatency visited best result (c : Q),
    dfs COMPONENT_MAP fuel nodeMap adj nodeId path totalLatency visited best
      = Some result ->
    (c <= snd best)%Q -> (c <= snd result)%Q.
Proof.
  induction fuel as [|fuel IH];
    intros nodeId path totalLatency visited best result c Hrun Hc; [done|].
  cbn [dfs] in Hrun.
  destruct (nodeMap !! nodeId) as [node|] eqn:Hnode; [|by injection Hrun as <-].
  destruct (List.filter _ _) as [|u us] eqn:Hun.
  - destruct (Js.ltb _ _) eqn:Hlt; injection Hrun as <-; [|done].
    apply Js_ltb_lt in Hlt. simpl. lra.
  - revert Hrun. generalize (u :: us). intros l Hrun.
    revert Hrun. apply (fold_option_invariant _ (fun b => (c <= snd b)%Q));
      [|done].
    intros next b b' _ Hb Hcall. exact (IH _ _ _ _ _ _ _ Hcall Hb).
Qed.

Lemma dfs_covers :
  forall fuel nodeId path totalLatency visited best result q,
    nodeId ∈ visited ->
    dfs COMPONENT_MAP fuel nodeMap adj nodeId path totalLatency visited best
      = Some result ->
    pathFrom visited nodeId q ->
    (totalLatency + pathLatency COMPONENT_MAP nodeMap q <= snd result)%Q.
Proof.
  induction fuel as [|fuel IH];
    intros nodeId path totalLatency visited best result q Hin Hrun Hq; [done|].
  cbn [dfs] in Hrun.
  destruct Hq as (Hhead & Hnd & Hknown & Hlinked & Hfresh & Hleaf).
  destruct q as [|x q]; [done|]. injection Hhead as ->.
  destruct (Hknown nodeId) as [node Hnode]; [by left|].
  rewrite Hnode in Hrun.
  assert (Hcharge : chargedLatency COMPONENT_MAP nodeMap nodeId
                    = getNodeLatency COMPONENT_MAP node).
  { unfold chargedLatency. by rewrite Hnode. }
  cbn [pathLatency fold_right]. rewrite Hcharge.
  change (fold_right _ _ q) with (pathLatency COMPONENT_MAP nodeMap q).
  set (unvisited := List.filter _ _) in Hrun.
  assert (Hunv : forall y, y ∈ unvisited <->
                   y ∈ default [] (adj !! nodeId) /\ y ∉ visited).
  { intros y. unfold unvisited. rewrite list_elem_of_In, filter_In,
      negb_true_iff, bool_decide_eq_false, <- list_elem_of_In. tauto. }
  destruct q as [|y q].
  - (* the path stops here: the node is a leaf of the search *)
    destruct unvisited as [|u us] eqn:Hun.
    + cbn [pathLatency fold_right].
      destruct (Js.ltb _ _) eqn:Hlt; injection Hrun as <-; simpl.
      * lra.
      * apply Js_ltb_ge in Hlt. lra.
    + exfalso. destruct (proj1 (Hunv u)) as [Hu Hnv]; [by left|].
      destruct (Hleaf nodeId u eq_refl Hu) as [?|Hu']; [done|].
      apply list_elem_of_singleton in Hu' as ->. done.
  - (* the path goes on to the neighbour [y] *)
    destruct Hlinked as [Hnext Hlinked].
    assert (Hy : y ∈ unvisited).
    { apply Hunv. split; [by apply Hnext|]. apply Hfresh. by left. }
    apply NoDup_cons in Hnd as [Hx Hnd].
    assert (Hq' : pathFrom ({[y]} ∪ visited) y (y :: q)).
    { split_and!; try done.
      - intros z Hz. apply Hknown. by right.
      - intros z Hz [->%elem_of_singleton|Hv]%elem_of_union.
        + apply NoDup_cons in Hnd as [Hn _]. done.
        + apply (Hfresh z); [|done]. by right.
      - intros a z Ha Hz. rewrite last_cons_cons in Hleaf.
        destruct (Hleaf a z Ha Hz) as [?|[->|?]%elem_of_cons].
        + left. set_solver.
        + left. set_solver.
        + by right. }
    assert (Hne : unvisited <> []).
    { intros E. rewrite E in Hy. by apply elem_of_nil in Hy. }
    destruct unvisited as [|u us] eqn:Hun; [done|]. clear Hne Hunv.
    revert Hy Hrun. generalize (u :: us). intros l. revert best.
    induction l as [|next l IHl]; intros best Hy Hrun;
      [by apply elem_of_nil in Hy|].
    cbn [fold_left] in Hrun.
    destruct (dfs COMPONENT_MAP fuel nodeMap adj next (path ++ [nodeId])
                (totalLatency + getNodeLatency COMPONENT_MAP node)
                ({[next]} ∪ visited) best) as [b|] eqn:Hcall;
      [|by rewrite fold_option_None in Hrun].
    destruct (decide (y = next)) as [->|Hyn].
    + assert (Hb : (totalLatency + getNodeLatency COMPONENT_MAP node
                    + pathLatency COMPONENT_MAP nodeMap (next :: q) <= snd b)%Q).
      { apply (IH _ _ _ _ _ _ _ (elem_of_union_l _ _ _ (elem_of_singleton_2 _ _ eq_refl))
                  Hcall Hq'). }
      assert (Hr : (totalLatency + getNodeLatency COMPONENT_MAP node
                    + pathLatency COMPONENT_MAP nodeMap (next :: q)
                    <= snd result)%Q).
      { revert Hrun.
        apply (fold_option_invariant _
                 (fun b => (totalLatency + getNodeLatency COMPONENT_MAP node
                    + pathLatency COMPONENT_MAP nodeMap (next :: q) <= snd b)%Q));
          [|done].
        intros z c c' _ Hc Hz. exact (dfs_increases _ _ _ _ _ _ _ _ Hz Hc). }
      lra.
    + apply (IHl b); [|done]. by apply elem_of_cons in Hy as [?|?].
Qed.

End CriticalPathShape.

(** The loop of findCriticalPath over the sources. *)
Definition searchSources (COMPONENT_MAP : gmap string ComponentDefinition)
    (nodes : list Node) (edges : list Edge) (sources : list string)
    (best : list string * Q) : option (list string * Q) :=
  fold_left
    (fun acc src =>
       match acc with
       | None => None
       | Some b =>
           dfs COMPONENT_MAP (S (length nodes)) (nodeMapOf nodes)
               (buildAdjacencyList edges) src [] 0 {[src]} b
       end)
    sources (Some best).

(** Every catalog entry has a non-negative base latency. *)
Definition nonnegLatencies (COMPONENT_MAP : gmap string ComponentDefinition)
  : Prop :=
  forall k d, COMPONENT_MAP !! k = Some d -> (0 <= baseLatency d)%Q.

Lemma sampleCatalog_latencies : nonnegLatencies sampleCatalog.
Proof.
  intros k d Hd. unfold sampleCatalog in Hd.
  apply elem_of_list_to_map_2 in Hd.
  repeat (apply elem_of_cons in Hd as [[= -> ->]|Hd]; [by vm_compute|]).
  by apply elem_of_nil in Hd.
Qed.

Section CriticalPathFacts.
Variable COMPONENT_MAP : gmap string ComponentDefinition.

Lemma findCriticalPath_searchSources nodes edges :
  findCriticalPath COMPONENT_MAP nodes edges =
  match searchSources COMPONENT_MAP nodes edges
          (findSourceNodes nodes edges) ([], 0%Q) with
  | None => None
  | Some (bestPath, bestLatency) =>
      match bestPath, nodes with
      | [], n0 :: _ => Some ([node_id n0], getNodeLatency COMPONENT_MAP n0)
      | _, _ => Some (bestPath, bestLatency)
      end
  end.
Proof.
  unfold findCriticalPath, searchSources.
  destruct (findSourceNodes nodes edges) as [|s srcs]; [|done].
  by destruct nodes.
Qed.

Lemma searchSources_total nodes edges sources best :
  (forall src, src ∈ sources -> src ∈ map node_id nodes) ->
  is_Some (searchSources COMPONENT_MAP nodes edges sources best).
Proof.
  intros Hsrc. unfold searchSources. apply fold_option_total.
  intros src b Hin. apply dfs_terminates. right.
  pose proof (nodeMapOf_dom_size nodes) as Hsize.
  assert (Hdom : src ∈ dom (nodeMapOf nodes)).
  { apply elem_of_dom, nodeMapOf_lookup. by apply Hsrc. }
  pose proof (size_difference_step (dom (nodeMapOf nodes)) ∅ src Hdom
                ltac:(set_solver)) as Hstep.
  assert (Hle : size (dom (nodeMapOf nodes) ∖ (∅ : gset string))
                <= size (dom (nodeMapOf nodes))).
  { apply subseteq_size. set_solver. }
  replace ({[src]} ∪ (∅ : gset string)) with ({[src]} : gset string) in Hstep
    by set_solver.
  lia.
Qed.

Lemma searchSources_recorded nodes edges sources result :
  searchSources COMPONENT_MAP nodes edges sources ([], 0%Q) = Some result ->
  recorded (nodeMapOf nodes) (buildAdjacencyList edges) (fun s => s ∈ sources)
           result.
Proof.
  unfold searchSources. apply fold_option_invariant; [|by left].
  intros src b b' Hsrc Hb Hcall.
  refine (dfs_recorded COMPONENT_MAP _ _ (fun s => s ∈ sources) src Hsrc
            _ _ _ _ _ _ _ _ Hb Hcall).
  split_and!.
  - done.
  - apply NoDup_singleton.
  - intros x Hx. by apply elem_of_nil in Hx.
  - simpl. split; [by intros b0|done].
  - intros y. simpl. by rewrite elem_of_singleton, list_elem_of_singleton.
Qed.

Lemma searchSources_latencyOfPath nodes edges sources result :
  searchSources COMPONENT_MAP nodes edges sources ([], 0%Q) = Some result ->
  latencyOfPath COMPONENT_MAP (nodeMapOf nodes) result.
Proof.
  unfold searchSources. apply fold_option_invariant.
  - intros src b b' _ Hb Hcall.
    exact (dfs_latencyOfPath COMPONENT_MAP _ _ _ _ _ _ _ _ _
             (Qeq_refl _) Hb Hcall).
  - unfold latencyOfPath. simpl. reflexivity.
Qed.

Lemma searchSources_covers nodes edges sources : forall best result src q,
  searchSources COMPONENT_MAP nodes edges sources best = Some result ->
  src ∈ sources ->
  simplePath (nodeMapOf nodes) (buildAdjacencyList edges) src q ->
  endsAtLeaf (buildAdjacencyList edges) q ->
  (pathLatency COMPONENT_MAP (nodeMapOf nodes) q <= snd result)%Q.
Proof.
  unfold searchSources.
  induction sources as [|s sources IH]; intros best result src q Hrun Hsrc Hq Hleaf;
    [by apply elem_of_nil in Hsrc|].
  cbn [fold_left] in Hrun.
  destruct (dfs COMPONENT_MAP (S (length nodes)) (nodeMapOf nodes)
              (buildAdjacencyList edges) s [] 0 {[s]} best) as [b|] eqn:Hcall;
    [|by rewrite fold_option_None in Hrun].
  apply elem_of_cons in Hsrc as [->|Hsrc]; [|by apply (IH b result src)].
  assert (Hfrom : pathFrom (nodeMapOf nodes) (buildAdjacencyList edges)
                           {[s]} s q).
  { destruct Hq as (Hhead & Hnd & Hknown & Hlinked). split_and!; try done.
    - intros y Hy ->%elem_of_singleton.
      destruct q as [|x q]; [done|]. injection Hhead as ->.
      apply NoDup_cons in Hnd as [Hn _]. done.
    - intros a y Ha Hy. right. by apply (Hleaf a). }
  pose proof (dfs_covers COMPONENT_MAP _ _ _ _ _ _ _ _ _ q
                ltac:(by apply elem_of_singleton) Hcall Hfrom) as Hb.
  assert (Hr : (0 + pathLatency COMPONENT_MAP (nodeMapOf nodes) q
                <= snd result)%Q).
  { revert Hrun.
    apply (fold_option_invariant _
             (fun b => (0 + pathLatency COMPONENT_MAP (nodeMapOf nodes) q
                        <= snd b)%Q)); [|done].
    intros z c c' _ Hc Hz.
    exact (dfs_increases COMPONENT_MAP _ _ _ _ _ _ _ _ _ _ Hz Hc). }
  lra.
Qed.

Lemma getNodeLatency_nonneg n :
  nonnegLatencies COMPONENT_MAP -> (0 <= getNodeLatency COMPONENT_MAP n)%Q.
Proof.
  intros H. unfold getNodeLatency, defOf.
  destruct (COMPONENT_MAP !! componentType (data n)) as [d|] eqn:E;
    [by apply (H _ _ E)|done].
Qed.

Lemma findCriticalPath_structure nodes edges :
  exists path latency,
    findCriticalPath COMPONENT_MAP nodes edges = Some (path, latency) /\
    (path = [] <-> nodes = []) /\
    NoDup path /\
    (forall x, x ∈ path -> x ∈ map node_id nodes) /\
    (forall i a b, path !! i = Some a -> path !! S i = Some b ->
                   exists e, e ∈ edges /\ source e = a /\ target e = b) /\
    (path = map node_id (take 1 nodes) \/
     exists src, src ∈ findSourceNodes nodes edges /\ head path = Some src /\
       forall a e, last path = Some a -> e ∈ edges -> source e = a ->
                   target e ∈ path).
Proof.
  rewrite findCriticalPath_searchSources.
  destruct (searchSources_total nodes edges (findSourceNodes nodes edges)
              ([], 0%Q) (findSourceNodes_elem nodes edges)) as [[bp bl] Hrun].
  rewrite Hrun. apply searchSources_recorded in Hrun as Hrec.
  destruct bp as [|b0 bp].
  - destruct nodes as [|n0 rest].
    + exists [], 0%Q. split_and!; try done.
      * constructor.
      * by left.
    + exists [node_id n0], (getNodeLatency COMPONENT_MAP n0).
      split_and!; try done.
      * apply NoDup_singleton.
      * intros x ->%list_elem_of_singleton. simpl. by left.
      * by left.
  - destruct Hrec as [?|(src & Hsrc & (Hhead & Hnd & Hknown & Hlinked) & Hleaf)];
      [done|].
    cbn [fst] in Hhead, Hnd, Hknown, Hlinked, Hleaf.
    assert (Hne : nodes <> []).
    { intros ->. by apply elem_of_nil in Hsrc. }
    exists (b0 :: bp), bl. split_and!.
    + done.
    + split; [done|]. by intros ->.
    + done.
    + intros x Hx. by apply nodeMapOf_lookup, Hknown.
    + intros i a b Ha Hb.
      pose proof (linked_lookup _ _ i a b Hlinked Ha Hb) as Hl.
      rewrite neighbours_outTargets in Hl. by apply outTargets_elem in Hl.
    + right. exists src. split; [done|]. split; [done|].
      intros a e Ha He Hs. apply (Hleaf a); [done|].
      rewrite neighbours_outTargets. apply outTargets_elem. by exists e.
Qed.

Lemma findCriticalPath_maximal nodes edges :
  nonnegLatencies COMPONENT_MAP ->
  exists path latency,
    findCriticalPath COMPONENT_MAP nodes edges = Some (path, latency) /\
    forall src q,
      src ∈ findSourceNodes nodes edges ->
      simplePath (nodeMapOf nodes) (buildAdjacencyList edges) src q ->
      endsAtLeaf (buildAdjacencyList edges) q ->
      (pathLatency COMPONENT_MAP (nodeMapOf nodes) q <= latency)%Q.
Proof.
  intros Hlat. rewrite findCriticalPath_searchSources.
  destruct (searchSources_total nodes edges (findSourceNodes nodes edges)
              ([], 0%Q) (findSourceNodes_elem nodes edges)) as [[bp bl] Hrun].
  rewrite Hrun.
  pose proof (searchSources_latencyOfPath _ _ _ _ Hrun) as Hsum.
  pose proof (fun src q => searchSources_covers _ _ _ _ _ src q Hrun) as Hcov.
  unfold latencyOfPath in Hsum. simpl in Hsum, Hcov.
  destruct bp as [|b0 bp]; [destruct nodes as [|n0 rest]|].
  - exists [], bl. split; [done|]. intros src q Hsrc. by apply Hcov.
  - exists [node_id n0], (getNodeLatency COMPONENT_MAP n0). split; [done|].
    intros src q Hsrc Hq Hleaf.
    pose proof (Hcov src q Hsrc Hq Hleaf) as Hle.
    pose proof (getNodeLatency_nonneg n0 Hlat). simpl in Hsum. lra.
  - exists (b0 :: bp), bl. split; [done|]. intros src q Hsrc. by apply Hcov.
Qed.

End CriticalPathFacts.

(** X10: findCriticalPath returns a path that is empty only for the empty
    graph, repeats no id, names only nodes of the graph and follows an edge at
    every step; it is the id of the first node (the fallback), or it starts at
    a source and ends at a node whose successors are all on the path. *)
Theorem findCriticalPath_simple_path :
  forall COMPONENT_MAP nodes edges,
    exists path latency,
      findCriticalPath COMPONENT_MAP nodes edges = Some (path, latency) /\
      (path = [] <-> nodes = []) /\
      NoDup path /\
      (forall x, x ∈ path -> x ∈ map node_id nodes) /\
      (forall i a b, path !! i = Some a -> path !! S i = Some b ->
                     exists e, e ∈ edges /\ source e = a /\ target e = b) /\
      (path = map node_id (take 1 nodes) \/
       exists src, src ∈ findSourceNodes nodes edges /\ head path = Some src /\
         forall a e, last path = Some a -> e ∈ edges -> source e = a ->
                     target e ∈ path).
Proof. apply findCriticalPath_structure. Qed.

(** X11: With non-negative catalog latencies, the latency that
    findCriticalPath returns is at least the latency charged along every
    simple path that starts at a source, runs through nodes of the graph and
    ends at a node whose successors are all on it. *)
Theorem findCriticalPath_longest :
  forall COMPONENT_MAP nodes edges,
    nonnegLatencies COMPONENT_MAP ->
    exists path latency,
      findCriticalPath COMPONENT_MAP nodes edges = Some (path, latency) /\
      forall src q,
        src ∈ findSourceNodes nodes edges ->
        simplePath (nodeMapOf nodes) (buildAdjacencyList edges) src q ->
        endsAtLeaf (buildAdjacencyList edges) q ->
        (pathLatency COMPONENT_MAP (nodeMapOf nodes) q <= latency)%Q.
Proof. apply findCriticalPath_maximal. Qed.

Lemma findCriticalPath_longest_witness :
  nonnegLatencies sampleCatalog /\
  exists path latency,
    findCriticalPath sampleCatalog diamondNodes diamondEdges
      = Some (path, latency) /\
    forall src q,
      src ∈ findSourceNodes diamondNodes diamondEdges ->
      simplePath (nodeMapOf diamondNodes) (buildAdjacencyList diamondEdges)
                 src q ->
      endsAtLeaf (buildAdjacencyList diamondEdges) q ->
      (pathLatency sampleCatalog (nodeMapOf diamondNodes) q <= latency)%Q.
Proof.
  split; [exact sampleCatalog_latencies|].
  apply (findCriticalPath_longest sampleCatalog diamondNodes diamondEdges).
  exact sampleCatalog_latencies.
Defined.

(** ** Redundancy groups *)

(** The ids of the nodes of one component type, in node order. *)
Definition idsOfType (nodes : list Node) (type : string) : list string :=
  map node_id
      (List.filter (fun n => bool_decide (componentType (data n) = type)) nodes).

Lemma findRedundancyGroups_lookup nodes type :
  findRedundancyGroups nodes !! type =
    match idsOfType nodes type with
    | [] => None
    | ids => Some ids
    end.
Proof.
  unfold findRedundancyGroups.
  assert (G : forall m : gmap string (list string),
    fold_left
      (fun groups n =>
         let type := componentType (data n) in
         <[type := default [] (groups !! type) ++ [node_id n]]> groups)
      nodes m !! type =
    match idsOfType nodes type with
    | [] => m !! type
    | ids => Some (default [] (m !! type) ++ ids)
    end).
  { induction nodes as [|n nodes IH]; intros m; [done|].
    cbn [fold_left]. cbn zeta. rewrite IH. unfold idsOfType.
    cbn [List.filter].
    destruct (decide (componentType (data n) = type)) as [->|Hne].
    - rewrite bool_decide_eq_true_2 by done. cbn [map].
      rewrite lookup_insert_eq. cbn [default].
      destruct (map node_id _) as [|t ts]; [done|].
      unfold id. by rewrite <- app_assoc.
    - rewrite bool_decide_eq_false_2 by done.
      by rewrite lookup_insert_ne. }
  rewrite G, lookup_empty. by destruct (idsOfType nodes type).
Qed.

(** X12: The redundancy groups of the analysis partition the nodes by
    component type: the group of a type lists, in node order, the ids of
    exactly the nodes of that type, and a type without nodes has no group. *)
Theorem redundancyGroups_by_type :
  forall COMPONENT_MAP nodes edges,
    exists t,
      analyzeTopology COMPONENT_MAP nodes edges = Some t /\
      forall type,
        redundancyGroups t !! type =
          match idsOfType nodes type with
          | [] => None
          | ids => Some ids
          end.
Proof.
  intros COMPONENT_MAP nodes edges.
  destruct (analyzeTopology_total COMPONENT_MAP nodes edges) as [t Ht].
  exists t. split; [done|]. intros type.
  rewrite <- findRedundancyGroups_lookup.
  unfold analyzeTopology in Ht. destruct nodes as [|n nodes].
  - by injection Ht as <-.
  - destruct (findCriticalPath _ _ _) as [[p l]|]; [|done].
    destruct (findSPOFs _ _ _); [|done]. by injection Ht as <-.
Qed.

(** ** Ranges and monotonicity of the metrics *)

Lemma Js_round_le x y : (x <= y)%Q -> (Js.round x <= Js.round y)%Z.
Proof. intros H. unfold Js.round. apply Qfloor_resp_le. lra. Qed.

Lemma Js_round_nonneg x : (0 <= x)%Q -> (0 <= Js.round x)%Z.
Proof. intros H. apply (Js_round_le 0 x H). Qed.

Lemma Js_ofNat_nonneg n : (0 <= Js.ofNat n)%Q.
Proof.
  unfold Js.ofNat. change 0%Q with (inject_Z 0). rewrite <- Zle_Qle. lia.
Qed.

(** Every catalog entry has a failure rate between 0 and 1. *)
Definition unitFailureRates (COMPONENT_MAP : gmap string ComponentDefinition)
  : Prop :=
  forall k d, COMPONENT_MAP !! k = Some d ->
    (0 <= failureRateAtCapacity d)%Q /\ (failureRateAtCapacity d <= 1)%Q.

(** Every catalog entry has a non-negative maximal throughput. *)
Definition nonnegThroughputs (COMPONENT_MAP : gmap string ComponentDefinition)
  : Prop :=
  forall k d, COMPONENT_MAP !! k = Some d -> (0 <= maxThroughput d)%Q.

(** Every node has a non-negative replica count. *)
Definition nonnegReplicas (nodes : list Node) : Prop :=
  forall n, n ∈ nodes -> (0 <= replicas (config (data n)))%Q.

Lemma sampleCatalog_failureRates : unitFailureRates sampleCatalog.
Proof.
  intros k d Hd. unfold sampleCatalog in Hd.
  apply elem_of_list_to_map_2 in Hd.
  repeat (apply elem_of_cons in Hd as [[= -> ->]|Hd]; [split; by vm_compute|]).
  by apply elem_of_nil in Hd.
Qed.

Lemma sampleCatalog_throughputs : nonnegThroughputs sampleCatalog.
Proof.
  intros k d Hd. unfold sampleCatalog in Hd.
  apply elem_of_list_to_map_2 in Hd.
  repeat (apply elem_of_cons in Hd as [[= -> ->]|Hd]; [by vm_compute|]).
  by apply elem_of_nil in Hd.
Qed.

Lemma ramp_range (r : Q) :
  (0.8 < r)%Q -> (r <= 1)%Q ->
  (0 <= (r - 0.8) / 0.2)%Q /\ ((r - 0.8) / 0.2 <= 1)%Q.
Proof.
  intros H1 H2. split.
  - apply Qle_shift_div_l; [reflexivity|]. lra.
  - apply Qle_shift_div_r; [reflexivity|]. lra.
Qed.

Lemma ramp_monotone (r1 r2 : Q) :
  (r1 <= r2)%Q -> ((r1 - 0.8) / 0.2 <= (r2 - 0.8) / 0.2)%Q.
Proof.
  intros H. unfold Qdiv. apply Qmult_le_compat_r; [lra|]. by vm_compute.
Qed.

Lemma errorTerm_range f load capacity :
  (0 <= f)%Q -> (f <= 1)%Q ->
  (0 <= errorTerm f load capacity)%Q /\ (errorTerm f load capacity <= 1)%Q.
Proof.
  intros Hf0 Hf1. unfold errorTerm.
  destruct (Js.eqb capacity 0).
  { destruct (Js.ltb 0 load); split; by vm_compute. }
  set (r := (load / capacity)%Q).
  destruct (Js.ltb 1 r) eqn:H1.
  - apply Js_ltb_lt in H1. split; [|apply Q.le_min_l].
    apply Q.min_glb; [by vm_compute|lra].
  - apply Js_ltb_ge in H1. destruct (Js.ltb 0.8 r) eqn:H2.
    + apply Js_ltb_lt in H2. destruct (ramp_range r H2 H1) as [Ht0 Ht1].
      set (t := ((r - 0.8) / 0.2)%Q) in *. split; nra.
    + split; by vm_compute.
Qed.

Lemma errorTerm_monotone f load1 load2 capacity :
  (0 <= f)%Q -> (f <= 1)%Q -> (0 <= capacity)%Q -> (load1 <= load2)%Q ->
  (errorTerm f load1 capacity <= errorTerm f load2 capacity)%Q.
Proof.
  intros Hf0 Hf1 Hc Hl. unfold errorTerm.
  destruct (Js.eqb capacity 0) eqn:Hz.
  { destruct (Js.ltb 0 load1) eqn:H1; destruct (Js.ltb 0 load2) eqn:H2;
      try by vm_compute.
    apply Js_ltb_lt in H1. apply Js_ltb_ge in H2. lra. }
  assert (Hpos : (0 < capacity)%Q).
  { apply Qle_lteq in Hc as [?|Hc]; [done|].
    unfold Js.eqb in Hz. symmetry in Hc. apply Qeq_bool_iff in Hc. congruence. }
  assert (Hr : (load1 / capacity <= load2 / capacity)%Q).
  { unfold Qdiv. apply Qmult_le_compat_r; [done|].
    apply Qlt_le_weak, Qinv_lt_0_compat, Hpos. }
  set (r1 := (load1 / capacity)%Q) in *. set (r2 := (load2 / capacity)%Q) in *.
  destruct (Js.ltb 1 r1) eqn:A1; destruct (Js.ltb 1 r2) eqn:A2;
    destruct (Js.ltb 0.8 r1) eqn:B1; destruct (Js.ltb 0.8 r2) eqn:B2;
    repeat match goal with
           | H : Js.ltb _ _ = true |- _ => apply Js_ltb_lt in H
           | H : Js.ltb _ _ = false |- _ => apply Js_ltb_ge in H
           end;
    try lra.
  - apply Q.min_glb; [apply Q.le_min_l|]. apply Q.min_le_iff. right. lra.
  - destruct (ramp_range r1 B1 A1) as [Ht0 Ht1].
    set (t := ((r1 - 0.8) / 0.2)%Q) in *. apply Q.min_glb; nra.
  - apply Q.min_glb; [by vm_compute|lra].
  - pose proof (ramp_monotone r1 r2 Hr) as Hm.
    destruct (ramp_range r1 B1 A1) as [Ht0 Ht1].
    set (t1 := ((r1 - 0.8) / 0.2)%Q) in *.
    set (t2 := ((r2 - 0.8) / 0.2)%Q) in *. nra.
  - destruct (ramp_range r2 B2 A2) as [Ht0 Ht1].
    set (t := ((r2 - 0.8) / 0.2)%Q) in *. nra.
Qed.

Section MetricFacts.
Variable COMPONENT_MAP : gmap string ComponentDefinition.

(** computeMetrics always returns, and every field is the value of its
    function on the topology analysis. *)
Lemma computeMetrics_fields nodes edges trafficLoad :
  exists t m,
    analyzeTopology COMPONENT_MAP nodes edges = Some t /\
    computeMetrics COMPONENT_MAP nodes edges trafficLoad = Some m /\
    throughput m = computeThroughput COMPONENT_MAP nodes t trafficLoad /\
    (latencyP50 m, latencyP95 m, latencyP99 m)
      = computeLatency COMPONENT_MAP nodes t /\
    errorRate m = computeErrorRate COMPONENT_MAP nodes t trafficLoad /\
    scalabilityScore m = computeScalabilityScore COMPONENT_MAP nodes t /\
    cacheHitRate m = computeCacheHitRate nodes t /\
    queueDepth m = computeQueueDepth t trafficLoad
                     (computeThroughput COMPONENT_MAP nodes t trafficLoad).
Proof.
  destruct (analyzeTopology_total COMPONENT_MAP nodes edges) as [t Ht].
  exists t. unfold computeMetrics. rewrite Ht.
  destruct (computeLatency COMPONENT_MAP nodes t) as [[p50 p95] p99] eqn:E.
  eexists. split; [done|]. split; [done|]. by simpl.
Qed.

Lemma analyzeTopology_nonempty_path nodes edges t :
  analyzeTopology COMPONENT_MAP nodes edges = Some t ->
  nodes <> [] -> criticalPath t <> [].
Proof.
  intros Ht Hne.
  destruct (analyzeTopology_path COMPONENT_MAP nodes edges t Ht)
    as [[? _]|[Hp _]]; [done|].
  destruct (findCriticalPath_structure COMPONENT_MAP nodes edges)
    as (p & l & Hp' & Hempty & _).
  rewrite Hp in Hp'. injection Hp' as -> _. by rewrite Hempty.
Qed.

(** *** Throughput *)

Lemma minCapacityOn_min nodes path :
  let r := minCapacityOn COMPONENT_MAP nodes path in
  (forall node d, onPathNonClient COMPONENT_MAP nodes path node d ->
     exists c, r = Some c /\ (c <= capacityOf d node)%Q) /\
  (forall c, r = Some c ->
     exists node d, onPathNonClient COMPONENT_MAP nodes path node d /\
                    c = capacityOf d node).
Proof.
  unfold minCapacityOn.
  assert (G : forall acc : option Q,
    let r := fold_left
      (fun (minCapacity : option Q) nid =>
         match findNode nodes nid with
         | None => minCapacity
         | Some node =>
             match defOf COMPONENT_MAP node with
             | None => minCapacity
             | Some d =>
                 if bool_decide (category d = clients) then minCapacity
                 else
                   let capacity := capacityOf d node in
                   match minCapacity with
                   | None => Some capacity
                   | Some m => if Js.ltb capacity m then Some capacity else Some m
                   end
             end
         end) path acc in
    (forall a, acc = Some a -> exists c, r = Some c /\ (c <= a)%Q) /\
    (forall node d, onPathNonClient COMPONENT_MAP nodes path node d ->
       exists c, r = Some c /\ (c <= capacityOf d node)%Q) /\
    (forall c, r = Some c ->
       acc = Some c \/
       exists node d, onPathNonClient COMPONENT_MAP nodes path node d /\
                      c = capacityOf d node)).
  { induction path as [|nid path IH]; intros acc; cbn [fold_left].
    - split_and!.
      + intros a ->. exists a. split; [done|apply Qle_refl].
      + intros node d (x & Hx & _). by apply elem_of_nil in Hx.
      + intros c ->. by left.
    - set (acc' := match findNode nodes nid with
                   | None => acc
                   | Some node => _
                   end).
      destruct (IH acc') as (Hacc & Hall & Hsome). clear IH.
      assert (Hweaken : forall node d,
                onPathNonClient COMPONENT_MAP nodes path node d ->
                onPathNonClient COMPONENT_MAP nodes (nid :: path) node d).
      { intros node d (x & Hx & ?). exists x. split; [by right|done]. }
      assert (Hstep :
        (forall a, acc = Some a -> exists c, acc' = Some c /\ (c <= a)%Q) /\
        (forall node d, findNode nodes nid = Some node ->
           defOf COMPONENT_MAP node = Some d -> category d <> clients ->
           exists c, acc' = Some c /\ (c <= capacityOf d node)%Q) /\
        (forall c, acc' = Some c ->
           acc = Some c \/
           exists node d, findNode nodes nid = Some node /\
             defOf COMPONENT_MAP node = Some d /\ category d <> clients /\
             c = capacityOf d node)).
      { assert (Hkeep : forall a, acc = Some a ->
                  exists c, acc = Some c /\ (c <= a)%Q).
        { intros a ->. exists a. split; [done|apply Qle_refl]. }
        unfold acc'. destruct (findNode nodes nid) as [node|];
          [|split_and!; [done|done|by left]].
        destruct (defOf COMPONENT_MAP node) as [d|] eqn:Hd;
          [|split_and!; [done|intros ? ? [= <-] ?; congruence|by left]].
        case_bool_decide as Hcat;
          [split_and!; [done|intros ? ? [= <-] ? ?; congruence|by left]|].
        clear Hkeep.
        destruct acc as [m|]; cbn zeta.
        - destruct (Js.ltb (capacityOf d node) m) eqn:Hlt.
          + apply Js_ltb_lt in Hlt. split_and!.
            * intros a [= <-]. eexists. split; [done|lra].
            * intros ? ? [= <-] Hd' _. rewrite Hd in Hd'. injection Hd' as <-.
              eexists. split; [done|apply Qle_refl].
            * intros c [= <-]. right. by exists node, d.
          + apply Js_ltb_ge in Hlt. split_and!.
            * intros a [= <-]. eexists. split; [done|apply Qle_refl].
            * intros ? ? [= <-] Hd' _. rewrite Hd in Hd'. injection Hd' as <-.
              eexists. split; [done|done].
            * intros c [= <-]. by left.
        - split_and!.
          + done.
          + intros ? ? [= <-] Hd' _. rewrite Hd in Hd'. injection Hd' as <-.
            eexists. split; [done|apply Qle_refl].
          + intros c [= <-]. right. by exists node, d. }
      destruct Hstep as (Hs1 & Hs2 & Hs3). split_and!.
      + intros a Ha. destruct (Hs1 a Ha) as (c & Hc & Hle).
        destruct (Hacc c Hc) as (c' & Hc' & Hle'). exists c'.
        split; [done|lra].
      + intros node d (x & [->|Hx]%elem_of_cons & Hf & Hd & Hcat).
        * destruct (Hs2 node d Hf Hd Hcat) as (c & Hc & Hle).
          destruct (Hacc c Hc) as (c' & Hc' & Hle'). exists c'.
          split; [done|lra].
        * apply Hall. by exists x.
      + intros c Hc. destruct (Hsome c Hc) as [Hc'|(node & d & Hon & ->)].
        * destruct (Hs3 c Hc') as [?|(node & d & Hf & Hd & Hcat & ->)];
            [by left|].
          right. exists node, d. split; [|done]. exists nid.
          split; [by left|done].
        * right. exists node, d. split; [by apply Hweaken|done]. }
  destruct (G None) as (_ & Hall & Hsome). split; [done|].
  intros c Hc. by destruct (Hsome c Hc) as [?|?].
Qed.

Lemma computeThroughput_min nodes t trafficLoad :
  criticalPath t <> [] ->
  let T := computeThroughput COMPONENT_MAP nodes t trafficLoad in
  (T <= trafficLoad)%Q /\
  (forall node d,
     onPathNonClient COMPONENT_MAP nodes (criticalPath t) node d ->
     (T <= capacityOf d node)%Q) /\
  ((T == trafficLoad)%Q \/
   exists node d,
     onPathNonClient COMPONENT_MAP nodes (criticalPath t) node d /\
     (T == capacityOf d node)%Q).
Proof.
  intros Hne. unfold computeThroughput.
  destruct (criticalPath t) as [|p0 path] eqn:Hp; [done|].
  destruct (minCapacityOn_min nodes (p0 :: path)) as [Hall Hsome].
  destruct (minCapacityOn COMPONENT_MAP nodes (p0 :: path)) as [c|] eqn:Hc;
    cbn zeta.
  - split_and!.
    + apply Q.le_min_l.
    + intros node d Hon. destruct (Hall node d Hon) as (c' & [= <-] & Hle).
      eapply Qle_trans; [apply Q.le_min_r|done].
    + destruct (Q.min_spec trafficLoad c) as [[_ E]|[_ E]]; [by left|].
      right. destruct (Hsome c eq_refl) as (node & d & Hon & ->).
      by exists node, d.
  - split_and!.
    + apply Qle_refl.
    + intros node d Hon. by destruct (Hall node d Hon) as (c' & ? & _).
    + by left.
Qed.

(** *** Latency percentiles *)

Lemma baseLatencyOn_nonneg nodes path :
  nonnegLatencies COMPONENT_MAP ->
  (0 <= baseLatencyOn COMPONENT_MAP nodes path)%Q.
Proof.
  intros Hlat. unfold baseLatencyOn.
  assert (G : forall acc : Q, (0 <= acc)%Q ->
    (0 <= fold_left
       (fun (totalLatency : Q) nid =>
          match findNode nodes nid with
          | None => totalLatency
          | Some node =>
              match defOf COMPONENT_MAP node with
              | None => totalLatency
              | Some d => (totalLatency + baseLatency d)%Q
              end
          end) path acc)%Q).
  { induction path as [|nid path IH]; intros acc Hacc; cbn [fold_left]; [done|].
    apply IH. destruct (findNode nodes nid) as [node|]; [|done].
    destruct (defOf COMPONENT_MAP node) as [d|] eqn:Hd; [|done].
    pose proof (Hlat _ _ Hd). lra. }
  by apply G.
Qed.

Lemma computeLatency_ordered nodes t :
  nonnegLatencies COMPONENT_MAP ->
  let '(p50, p95, p99) := computeLatency COMPONENT_MAP nodes t in
  (0 <= p50)%Q /\ (p50 <= p95)%Q /\ (p95 <= p99)%Q.
Proof.
  intros Hlat. unfold computeLatency.
  destruct (criticalPath t) as [|p0 path]; [by vm_compute|].
  set (base := (baseLatencyOn COMPONENT_MAP nodes (p0 :: path)
                + Js.ofNat (networkHops t) * 2)%Q).
  assert (Hbase : (0 <= base)%Q).
  { unfold base. pose proof (baseLatencyOn_nonneg nodes (p0 :: path) Hlat).
    pose proof (Js_ofNat_nonneg (networkHops t)). lra. }
  set (total := if hasTypeIn cacheTypes nodes then (base * 0.6)%Q else base).
  assert (Htotal : (0 <= total)%Q).
  { unfold total. destruct (hasTypeIn cacheTypes nodes); lra. }
  cbn zeta. fold base. fold total. split_and!.
  - change 0%Q with (inject_Z 0). rewrite <- Zle_Qle.
    by apply Js_round_nonneg.
  - rewrite <- Zle_Qle. apply Js_round_le. lra.
  - rewrite <- Zle_Qle. apply Js_round_le. lra.
Qed.

(** *** Error rate *)

Lemma maxErrorRateOn_range nodes path trafficLoad :
  unitFailureRates COMPONENT_MAP ->
  (0 <= maxErrorRateOn COMPONENT_MAP nodes path trafficLoad)%Q /\
  (maxErrorRateOn COMPONENT_MAP nodes path trafficLoad <= 1)%Q.
Proof.
  intros Hf.
  destruct (maxErrorRateOn_max COMPONENT_MAP nodes path trafficLoad)
    as (H0 & _ & [->|(node & d & (nid & _ & _ & Hd & _) & ->)]).
  - done.
  - destruct (Hf _ _ Hd) as [Hf0 Hf1]. by apply errorTerm_range.
Qed.

Lemma maxErrorRateOn_monotone nodes path load1 load2 :
  unitFailureRates COMPONENT_MAP -> nonnegThroughputs COMPONENT_MAP ->
  nonnegReplicas nodes -> (load1 <= load2)%Q ->
  (maxErrorRateOn COMPONENT_MAP nodes path load1
   <= maxErrorRateOn COMPONENT_MAP nodes path load2)%Q.
Proof.
  intros Hf Ht Hr Hl.
  destruct (maxErrorRateOn_max COMPONENT_MAP nodes path load2)
    as (H0 & Hmax & _).
  destruct (maxErrorRateOn_max COMPONENT_MAP nodes path load1)
    as (_ & _ & [->|(node & d & Hon & ->)]); [done|].
  eapply Qle_trans; [|exact (Hmax node d Hon)].
  destruct Hon as (nid & _ & Hfind & Hd & _).
  destruct (Hf _ _ Hd) as [Hf0 Hf1].
  apply errorTerm_monotone; try done.
  unfold capacityOf. apply Qmult_le_0_compat; [by apply (Ht _ _ Hd)|].
  apply findNode_Some in Hfind as [Hin _].
  unfold replicasOr1, Js.orElse.
  destruct (Qeq_bool _ 0); [by vm_compute|by apply Hr].
Qed.

Lemma roundedRate_range (x : Q) :
  (0 <= x)%Q -> (x <= 1)%Q ->
  (0 <= inject_Z (Js.round (x * 10000)) / 10000)%Q /\
  (inject_Z (Js.round (x * 10000)) / 10000 <= 1)%Q.
Proof.
  intros H0 H1.
  assert (Hlo : (0 <= Js.round (x * 10000))%Z).
  { apply Js_round_nonneg. lra. }
  assert (Hhi : (Js.round (x * 10000) <= 10000)%Z).
  { transitivity (Js.round 10000); [apply Js_round_le; lra|by vm_compute]. }
  rewrite Zle_Qle in Hlo, Hhi.
  change (inject_Z 0) with 0%Q in Hlo.
  change (inject_Z 10000) with 10000%Q in Hhi.
  set (R := inject_Z (Js.round (x * 10000))) in *. split.
  - apply Qle_shift_div_l; [reflexivity|]. lra.
  - apply Qle_shift_div_r; [reflexivity|]. lra.
Qed.

Lemma computeErrorRate_range nodes t trafficLoad :
  unitFailureRates COMPONENT_MAP ->
  (0 <= computeErrorRate COMPONENT_MAP nodes t trafficLoad)%Q /\
  (computeErrorRate COMPONENT_MAP nodes t trafficLoad <= 1)%Q.
Proof.
  intros Hf. unfold computeErrorRate.
  destruct (criticalPath t) as [|p0 path]; [split; by vm_compute|].
  cbn zeta. destruct (failedOnPath nodes (p0 :: path)); [split; by vm_compute|].
  destruct (maxErrorRateOn_range nodes (p0 :: path) trafficLoad Hf).
  by apply roundedRate_range.
Qed.

Lemma computeErrorRate_monotone nodes t load1 load2 :
  unitFailureRates COMPONENT_MAP -> nonnegThroughputs COMPONENT_MAP ->
  nonnegReplicas nodes -> (load1 <= load2)%Q ->
  (computeErrorRate COMPONENT_MAP nodes t load1
   <= computeErrorRate COMPONENT_MAP nodes t load2)%Q.
Proof.
  intros Hf Ht Hr Hl. unfold computeErrorRate.
  destruct (criticalPath t) as [|p0 path]; [done|].
  cbn zeta. destruct (failedOnPath nodes (p0 :: path)); [done|].
  pose proof (maxErrorRateOn_monotone nodes (p0 :: path) _ _ Hf Ht Hr Hl) as Hm.
  unfold Qdiv. apply Qmult_le_compat_r; [|by vm_compute].
  rewrite <- Zle_Qle. apply Js_round_le. lra.
Qed.

End MetricFacts.

Lemma webAppNodes_replicas : nonnegReplicas webAppNodes.
Proof.
  intros n Hn. unfold webAppNodes in Hn.
  repeat (apply elem_of_cons in Hn as [->|Hn]; [by vm_compute|]).
  by apply elem_of_nil in Hn.
Qed.

(** X13: On a non-empty graph the throughput of computeMetrics is the smallest
    of the traffic load and the effective capacities (maxThroughput times
    replicas) of the catalogued non-client nodes on the critical path: it
    exceeds none of them and equals one of them. *)
Theorem throughput_is_smallest_capacity :
  forall COMPONENT_MAP nodes edges trafficLoad,
    nodes <> [] ->
    exists t m,
      analyzeTopology COMPONENT_MAP nodes edges = Some t /\
      computeMetrics COMPONENT_MAP nodes edges trafficLoad = Some m /\
      (throughput m <= trafficLoad)%Q /\
      (forall node d,
         onPathNonClient COMPONENT_MAP nodes (criticalPath t) node d ->
         (throughput m <= capacityOf d node)%Q) /\
      ((throughput m == trafficLoad)%Q \/
       exists node d,
         onPathNonClient COMPONENT_MAP nodes (criticalPath t) node d /\
         (throughput m == capacityOf d node)%Q).
Proof.
  intros COMPONENT_MAP nodes edges trafficLoad Hne.
  destruct (computeMetrics_fields COMPONENT_MAP nodes edges trafficLoad)
    as (t & m & Ht & Hm & Hthr & _).
  exists t, m. split; [done|]. split; [done|]. rewrite Hthr.
  apply computeThroughput_min.
  by apply (analyzeTopology_nonempty_path COMPONENT_MAP nodes edges).
Qed.

Lemma throughput_is_smallest_capacity_witness :
  webAppNodes <> [] /\
  exists t m,
    analyzeTopology sampleCatalog webAppNodes webAppEdges = Some t /\
    computeMetrics sampleCatalog webAppNodes webAppEdges 1500 = Some m /\
    (throughput m <= 1500)%Q /\
    (forall node d,
       onPathNonClient sampleCatalog webAppNodes (criticalPath t) node d ->
       (throughput m <= capacityOf d node)%Q) /\
    ((throughput m == 1500)%Q \/
     exists node d,
       onPathNonClient sampleCatalog webAppNodes (criticalPath t) node d /\
       (throughput m == capacityOf d node)%Q).
Proof.
  split; [discriminate|].
  apply (throughput_is_smallest_capacity sampleCatalog webAppNodes webAppEdges
           1500).
  discriminate.
Defined.

(** X14: With non-negative catalog latencies the three latency percentiles of
    computeMetrics are ordered: 0 <= P50 <= P95 <= P99. *)
Theorem latency_percentiles_ordered :
  forall COMPONENT_MAP nodes edges trafficLoad,
    nonnegLatencies COMPONENT_MAP ->
    exists m,
      computeMetrics COMPONENT_MAP nodes edges trafficLoad = Some m /\
      (0 <= latencyP50 m)%Q /\ (latencyP50 m <= latencyP95 m)%Q /\
      (latencyP95 m <= latencyP99 m)%Q.
Proof.
  intros COMPONENT_MAP nodes edges trafficLoad Hlat.
  destruct (computeMetrics_fields COMPONENT_MAP nodes edges trafficLoad)
    as (t & m & Ht & Hm & _ & Hl & _).
  exists m. split; [done|].
  pose proof (computeLatency_ordered COMPONENT_MAP nodes t Hlat) as Hord.
  rewrite <- Hl in Hord. exact Hord.
Qed.

Lemma latency_percentiles_ordered_witness :
  nonnegLatencies sampleCatalog /\
  exists m,
    computeMetrics sampleCatalog diamondNodes diamondEdges 1000 = Some m /\
    (0 <= latencyP50 m)%Q /\ (latencyP50 m <= latencyP95 m)%Q /\
    (latencyP95 m <= latencyP99 m)%Q.
Proof.
  split; [exact sampleCatalog_latencies|].
  apply (latency_percentiles_ordered sampleCatalog diamondNodes diamondEdges
           1000).
  exact sampleCatalog_latencies.
Defined.

(** X15: With catalog failure rates between 0 and 1 the error rate of
    computeMetrics lies between 0 and 1, for every graph and every load. *)
Theorem errorRate_in_unit_interval :
  forall COMPONENT_MAP nodes edges trafficLoad,
    unitFailureRates COMPONENT_MAP ->
    exists m,
      computeMetrics COMPONENT_MAP nodes edges trafficLoad = Some m /\
      (0 <= errorRate m)%Q /\ (errorRate m <= 1)%Q.
Proof.
  intros COMPONENT_MAP nodes edges trafficLoad Hf.
  destruct (computeMetrics_fields COMPONENT_MAP nodes edges trafficLoad)
    as (t & m & Ht & Hm & _ & _ & Herr & _).
  exists m. split; [done|]. rewrite Herr. by apply computeErrorRate_range.
Qed.

Lemma errorRate_in_unit_interval_witness :
  unitFailureRates sampleCatalog /\
  exists m,
    computeMetrics sampleCatalog webAppNodes webAppEdges 5000 = Some m /\
    (0 <= errorRate m)%Q /\ (errorRate m <= 1)%Q.
Proof.
  split; [exact sampleCatalog_failureRates|].
  apply (errorRate_in_unit_interval sampleCatalog webAppNodes webAppEdges 5000).
  exact sampleCatalog_failureRates.
Defined.

(** X16: More traffic never lowers the throughput or the error rate: with
    catalog failure rates between 0 and 1, non-negative catalog throughputs
    and non-negative replica counts, a larger load on the same graph gives a
    throughput and an error rate at least as large. *)
Theorem more_load_never_lowers_errorRate :
  forall COMPONENT_MAP nodes edges load1 load2,
    unitFailureRates COMPONENT_MAP ->
    nonnegThroughputs COMPONENT_MAP ->
    nonnegReplicas nodes ->
    (load1 <= load2)%Q ->
    exists m1 m2,
      computeMetrics COMPONENT_MAP nodes edges load1 = Some m1 /\
      computeMetrics COMPONENT_MAP nodes edges load2 = Some m2 /\
      (throughput m1 <= throughput m2)%Q /\
      (errorRate m1 <= errorRate m2)%Q.
Proof.
  intros COMPONENT_MAP nodes edges load1 load2 Hf Ht Hr Hl.
  destruct (computeMetrics_fields COMPONENT_MAP nodes edges load1)
    as (t & m1 & Htop & Hm1 & Hthr1 & _ & Herr1 & _).
  destruct (computeMetrics_fields COMPONENT_MAP nodes edges load2)
    as (t' & m2 & Htop' & Hm2 & Hthr2 & _ & Herr2 & _).
  rewrite Htop in Htop'. injection Htop' as <-.
  exists m1, m2. split; [done|]. split; [done|].
  rewrite Hthr1, Hthr2, Herr1, Herr2. split.
  - unfold computeThroughput. destruct (criticalPath t); [done|].
    destruct (minCapacityOn COMPONENT_MAP nodes _) as [c|]; [|done].
    apply Q.min_glb.
    + eapply Qle_trans; [apply Q.le_min_l|done].
    + apply Q.le_min_r.
  - by apply computeErrorRate_monotone.
Qed.

Lemma more_load_never_lowers_errorRate_witness :
  unitFailureRates sampleCatalog /\ nonnegThroughputs sampleCatalog /\
  nonnegReplicas webAppNodes /\ (900 <= 1200)%Q /\
  exists m1 m2,
    computeMetrics sampleCatalog webAppNodes webAppEdges 900 = Some m1 /\
    computeMetrics sampleCatalog webAppNodes webAppEdges 1200 = Some m2 /\
    (throughput m1 <= throughput m2)%Q /\
    (errorRate m1 <= errorRate m2)%Q.
Proof.
  split; [exact sampleCatalog_failureRates|].
  split; [exact sampleCatalog_throughputs|].
  split; [exact webAppNodes_replicas|].
  split; [by vm_compute|].
  apply (more_load_never_lowers_errorRate sampleCatalog webAppNodes webAppEdges
           900 1200).
  - exact sampleCatalog_failureRates.
  - exact sampleCatalog_throughputs.
  - exact webAppNodes_replicas.
  - by vm_compute.
Defined.



(** ** The bottleneck *)

Section Bottleneck.
Variable COMPONENT_MAP : gmap string ComponentDefinition.

(** The pair kept by the loop of findBottleneck: both absent, or the id of
    a catalogued non-client node of the path with its capacity. *)
Definition bottleneckOf (nodes : list Node) (path : list string)
    (acc : option Q * option string) : Prop :=
  match acc with
  | (None, None) => True
  | (Some c, Some nid) =>
      exists node d, nid ∈ path /\ findNode nodes nid = Some node /\
        defOf COMPONENT_MAP node = Some d /\ category d <> clients /\
        c = capacityOf d node
  | _ => False
  end.

Lemma findBottleneck_fold nodes (whole : list string) :
  forall path acc,
    (forall x, x ∈ path -> x ∈ whole) ->
    bottleneckOf nodes whole acc ->
    let step := fun (acc : option Q * option string) nid =>
      match findNode nodes nid with
      | None => acc
      | Some node =>
          match defOf COMPONENT_MAP node with
          | None => acc
          | Some d =>
              if bool_decide (category d = clients) then acc
              else
                let effectiveThroughput := capacityOf d node in
                match fst acc with
                | None => (Some effectiveThroughput, Some nid)
                | Some minThroughput =>
                    if Js.ltb effectiveThroughput minThroughput
                    then (Some effectiveThroughput, Some nid)
                    else acc
                end
          end
      end in
    let minStep := fun (minCapacity : option Q) nid =>
      match findNode nodes nid with
      | None => minCapacity
      | Some node =>
          match defOf COMPONENT_MAP node with
          | None => minCapacity
          | Some d =>
              if bool_decide (category d = clients) then minCapacity
              else
                let capacity := capacityOf d node in
                match minCapacity with
                | None => Some capacity
                | Some m => if Js.ltb capacity m then Some capacity else Some m
                end
          end
      end in
    fst (fold_left step path acc) = fold_left minStep path (fst acc) /\
    bottleneckOf nodes whole (fold_left step path acc).
Proof.
  induction path as [|nid path IH]; intros acc Hsub Hacc; cbn zeta;
    cbn [fold_left]; [done|].
  assert (Hsub' : forall x, x ∈ path -> x ∈ whole).
  { intros x Hx. apply Hsub. by right. }
  assert (Hnid : nid ∈ whole) by (apply Hsub; by left).
  destruct (findNode nodes nid) as [node|] eqn:Hfind; [|by apply IH].
  destruct (defOf COMPONENT_MAP node) as [d|] eqn:Hd; [|by apply IH].
  case_bool_decide as Hcat; [by apply IH|].
  assert (Hnew : bottleneckOf nodes whole (Some (capacityOf d node), Some nid)).
  { by exists node, d. }
  destruct acc as [[m|] b]; cbn [fst].
  - destruct (Js.ltb (capacityOf d node) m).
    + by apply (IH (Some (capacityOf d node), Some nid)).
    + by apply (IH (Some m, b)).
  - by apply (IH (Some (capacityOf d node), Some nid)).
Qed.

Lemma findBottleneck_minCapacityOn nodes path :
  match findBottleneck COMPONENT_MAP nodes path with
  | None => minCapacityOn COMPONENT_MAP nodes path = None
  | Some nid =>
      exists node d, nid ∈ path /\ findNode nodes nid = Some node /\
        defOf COMPONENT_MAP node = Some d /\ category d <> clients /\
        minCapacityOn COMPONENT_MAP nodes path = Some (capacityOf d node)
  end.
Proof.
  unfold findBottleneck, minCapacityOn.
  destruct (findBottleneck_fold nodes path path (None, None)) as [Hfst Hb];
    [done|done|].
  cbn zeta in Hfst, Hb. cbn [fst] in Hfst. rewrite <- Hfst.
  destruct (fold_left _ path (None, None)) as [[c|] [nid|]]; simpl in *;
    try done.
  destruct Hb as (node & d & ? & ? & ? & ? & ->). by exists node, d.
Qed.

End Bottleneck.

(** X18: The bottleneck reported by the analysis is a catalogued non-client
    node of the critical path whose effective capacity is the smallest on the
    path, and the throughput is the traffic load capped by that capacity; no
    bottleneck is reported exactly when the path has no such node, and the
    throughput is then the traffic load. *)
Theorem bottleneck_caps_throughput :
  forall COMPONENT_MAP nodes edges trafficLoad,
    nodes <> [] ->
    exists t m,
      analyzeTopology COMPONENT_MAP nodes edges = Some t /\
      computeMetrics COMPONENT_MAP nodes edges trafficLoad = Some m /\
      match bottleneckNodeId t with
      | Some nid =>
          exists node d,
            nid ∈ criticalPath t /\ findNode nodes nid = Some node /\
            defOf COMPONENT_MAP node = Some d /\ category d <> clients /\
            throughput m = Qmin trafficLoad (capacityOf d node) /\
            forall node' d',
              onPathNonClient COMPONENT_MAP nodes (criticalPath t) node' d' ->
              (capacityOf d node <= capacityOf d' node')%Q
      | None =>
          throughput m = trafficLoad /\
          forall node' d',
            ~ onPathNonClient COMPONENT_MAP nodes (criticalPath t) node' d'
      end.
Proof.
  intros COMPONENT_MAP nodes edges trafficLoad Hne.
  destruct (computeMetrics_fields COMPONENT_MAP nodes edges trafficLoad)
    as (t & m & Ht & Hm & Hthr & _).
  exists t, m. split; [done|]. split; [done|]. rewrite Hthr.
  pose proof (analyzeTopology_nonempty_path COMPONENT_MAP nodes edges t Ht Hne)
    as Hpath.
  assert (Hb : bottleneckNodeId t
               = findBottleneck COMPONENT_MAP nodes (criticalPath t)).
  { unfold analyzeTopology in Ht. destruct nodes as [|n nodes]; [done|].
    destruct (findCriticalPath _ _ _) as [[p l]|]; [|done].
    destruct (findSPOFs _ _ _); [|done]. by injection Ht as <-. }
  rewrite Hb.
  pose proof (findBottleneck_minCapacityOn COMPONENT_MAP nodes (criticalPath t))
    as Hmin.
  destruct (minCapacityOn_min COMPONENT_MAP nodes (criticalPath t))
    as [Hall Hsome].
  unfold computeThroughput.
  destruct (criticalPath t) as [|p0 path] eqn:Hp; [done|].
  destruct (findBottleneck COMPONENT_MAP nodes (p0 :: path)) as [nid|].
  - destruct Hmin as (node & d & Hin & Hfind & Hd & Hcat & Hc).
    exists node, d. rewrite Hc. split_and!; try done.
    intros node' d' Hon. destruct (Hall node' d' Hon) as (c & Hc' & Hle).
    rewrite Hc in Hc'. by injection Hc' as <-.
  - rewrite Hmin. split; [done|]. intros node' d' Hon.
    destruct (Hall node' d' Hon) as (c & Hc' & _). by rewrite Hmin in Hc'.
Qed.

Lemma bottleneck_caps_throughput_witness :
  diamondNodes <> [] /\
  exists t m,
    analyzeTopology sampleCatalog diamondNodes diamondEdges = Some t /\
    computeMetrics sampleCatalog diamondNodes diamondEdges 3000 = Some m /\
    match bottleneckNodeId t with
    | Some nid =>
        exists node d,
          nid ∈ criticalPath t /\ findNode diamondNodes nid = Some node /\
          defOf sampleCatalog node = Some d /\ category d <> clients /\
          throughput m = Qmin 3000 (capacityOf d node) /\
          forall node' d',
            onPathNonClient sampleCatalog diamondNodes (criticalPath t)
                            node' d' ->
            (capacityOf d node <= capacityOf d' node')%Q
    | None =>
        throughput m = 3000%Q /\
        forall node' d',
          ~ onPathNonClient sampleCatalog diamondNodes (criticalPath t)
                            node' d'
    end.
Proof.
  split; [discriminate|].
  apply (bottleneck_caps_throughput sampleCatalog diamondNodes diamondEdges
           3000).
  discriminate.
Defined.

(** ** A fully replicated graph *)

Definition replicatedNodes : list Node :=
  [mkNode "client" "web-client" 2; mkNode "server" "web-server" 2;
   mkNode "db" "postgresql" 2].

Lemma replicatedNodes_replicas :
  forall n, n ∈ replicatedNodes -> (1 < replicas (config (data n)))%Q.
Proof.
  intros n Hn. unfold replicatedNodes in Hn.
  repeat (apply elem_of_cons in Hn as [->|Hn]; [by vm_compute|]).
  by apply elem_of_nil in Hn.
Qed.

(** X19: On a graph with at least two nodes in which every node has more than
    one replica, the analysis lists no SPOF, the availability of
    computeMetrics is 0.99999, and the SPOF check of the validator passes at
    every tier. *)
Theorem replicated_graph_has_no_spof :
  forall COMPONENT_MAP nodes edges trafficLoad,
    2 <= length nodes ->
    (forall n, n ∈ nodes -> (1 < replicas (config (data n)))%Q) ->
    exists t m,
      analyzeTopology COMPONENT_MAP nodes edges = Some t /\
      computeMetrics COMPONENT_MAP nodes edges trafficLoad = Some m /\
      spofNodeIds t = [] /\
      availability m = 0.99999%Q /\
      forall ctx, outcome (spofCheck (spofNodeIds t) ctx) = pass.
Proof.
  intros COMPONENT_MAP nodes edges L Hlen Hrep.
  destruct (computeMetrics_total COMPONENT_MAP nodes edges L)
    as (t & m & Ht & Hm & _ & _ & Hav & _).
  exists t, m. split; [done|]. split; [done|].
  assert (Hnone : spofNodeIds t = []).
  { destruct nodes as [|n0 rest] eqn:En; [simpl in Hlen; lia|].
    rewrite <- En in *.
    assert (Hs : findSPOFs COMPONENT_MAP nodes edges = Some (spofNodeIds t)).
    { rewrite En. apply analyzeTopology_spofs. by rewrite <- En. }
    destruct (spofNodeIds t) as [|x l] eqn:E; [done|]. exfalso.
    destruct (findSPOFs_candidates COMPONENT_MAP nodes edges (x :: l) x Hlen Hs)
      as (n & Hn & _ & _ & Hle); [by left|].
    pose proof (Hrep n Hn). lra. }
  split; [done|]. split.
  - rewrite Hav. unfold computeAvailability. rewrite Hnone.
    destruct nodes; [simpl in Hlen; lia|done].
  - intros ctx. by rewrite Hnone.
Qed.

Lemma replicated_graph_has_no_spof_witness :
  2 <= length replicatedNodes /\
  (forall n, n ∈ replicatedNodes -> (1 < replicas (config (data n)))%Q) /\
  exists t m,
    analyzeTopology sampleCatalog replicatedNodes webAppEdges = Some t /\
    computeMetrics sampleCatalog replicatedNodes webAppEdges 1000 = Some m /\
    spofNodeIds t = [] /\
    availability m = 0.99999%Q /\
    forall ctx, outcome (spofCheck (spofNodeIds t) ctx) = pass.
Proof.
  split; [simpl; lia|]. split; [exact replicatedNodes_replicas|].
  apply (replicated_graph_has_no_spof sampleCatalog replicatedNodes webAppEdges
           1000).
  - simpl. lia.
  - exact replicatedNodes_replicas.
Defined.

(** ** The resolved scale tier *)

(** The largest index among the signals that are present. *)
Definition maxIndex (tiers : list (option ScaleTier)) : nat :=
  fold_right
    (fun t acc => match t with
                  | Some t' => Nat.max (tierIndex t') acc
                  | None => acc
                  end)
    0 tiers.

Lemma maxTier_index tiers : tierIndex (maxTier tiers) = maxIndex tiers.
Proof.
  unfold maxTier.
  assert (G : forall best,
    tierIndex (fold_left
      (fun best t =>
         match t with
         | Some t' => if (tierIndex best <? tierIndex t')%nat then t' else best
         | None => best
         end) tiers best)
    = Nat.max (tierIndex best) (maxIndex tiers)).
  { induction tiers as [|t tiers IH]; intros best; simpl; [lia|].
    rewrite IH. destruct t as [t'|]; [|done].
    destruct (Nat.ltb_spec (tierIndex best) (tierIndex t')); lia. }
  by rewrite G.
Qed.

Lemma trafficToTier_monotone (rps1 rps2 : Q) :
  (rps1 <= rps2)%Q ->
  tierIndex (trafficToTier rps1) <= tierIndex (trafficToTier rps2).
Proof.
  intros H. unfold trafficToTier.
  repeat match goal with
         | |- context [Js.leb ?a ?b] =>
             let E := fresh "E" in
             destruct (Js.leb a b) eqn:E;
             [apply Js_leb_le in E
             |assert (~ (a <= b)%Q) by (rewrite <- Js_leb_le; congruence);
              clear E]
         end; simpl; try lia; exfalso; lra.
Qed.

(** [b] asks at least as much as [a]. *)
Definition atLeastAsStrict (a b : ContextThresholds) : Prop :=
  (maxAcceptableP99Ms b <= maxAcceptableP99Ms a)%Q /\
  (minAcceptableAvailability a <= minAcceptableAvailability b)%Q /\
  (replicasRequiredForHA a <= replicasRequiredForHA b)%Q /\
  (requiresLoadBalancer a = true -> requiresLoadBalancer b = true) /\
  (requiresCache a = true -> requiresCache b = true) /\
  (requiresObservability a = true -> requiresObservability b = true) /\
  (requiresGuardrails a = true -> requiresGuardrails b = true).

Lemma TIER_THRESHOLDS_stricter t1 t2 :
  tierIndex t1 <= tierIndex t2 ->
  atLeastAsStrict (TIER_THRESHOLDS t1) (TIER_THRESHOLDS t2).
Proof.
  intros H. destruct t1, t2; simpl in H; try lia;
    (split_and!; [by vm_compute|by vm_compute|by vm_compute|done|done|done|done]).
Qed.

Lemma tierIndex_inj t1 t2 : tierIndex t1 = tierIndex t2 -> t1 = t2.
Proof. by destruct t1, t2. Qed.

Lemma resolved_index nodes edges metrics trafficLoad pattern scenario :
  tierIndex (scaleTier (resolveValidationContext nodes edges metrics trafficLoad
                          pattern scenario))
  = Nat.max (tierIndex (trafficToTier trafficLoad))
      (Nat.max (tierIndex (architectureComplexityTier nodes edges))
         (Nat.max (tierIndex (componentMixTier nodes))
            (match scenario with
             | Some s => tierIndex (scenarioToTier (scenario_id s))
             | None => 0
             end))).
Proof.
  unfold resolveValidationContext. cbn [scaleTier]. rewrite maxTier_index.
  destruct scenario; simpl; lia.
Qed.

Lemma resolved_thresholds nodes edges metrics trafficLoad pattern scenario :
  let ctx := resolveValidationContext nodes edges metrics trafficLoad pattern
               scenario in
  let defaults := TIER_THRESHOLDS (scaleTier ctx) in
  maxAcceptableP99Ms (thresholds ctx)
    = default (maxAcceptableP99Ms defaults)
              (option_map targets scenario ≫= maxLatencyP95) /\
  minAcceptableAvailability (thresholds ctx)
    = default (minAcceptableAvailability defaults)
              (option_map targets scenario ≫= minAvailability) /\
  replicasRequiredForHA (thresholds ctx) = replicasRequiredForHA defaults /\
  requiresLoadBalancer (thresholds ctx) = requiresLoadBalancer defaults /\
  requiresCache (thresholds ctx) = requiresCache defaults /\
  requiresObservability (thresholds ctx) = requiresObservability defaults /\
  requiresGuardrails (thresholds ctx) = requiresGuardrails defaults.
Proof. done. Qed.

(** *** Growing the graph *)

Lemma ite_le (b1 b2 : bool) (k : nat) :
  (b1 = true -> b2 = true) ->
  (if b1 then k else 0) <= (if b2 then k else 0).
Proof. destruct b1, b2; intros H; try lia; by specialize (H eq_refl). Qed.

Lemma leb_le_mono (k a b : nat) :
  a <= b -> (k <=? a)%nat = true -> (k <=? b)%nat = true.
Proof. intros H Ha. apply Nat.leb_le in Ha. apply Nat.leb_le. lia. Qed.

Lemma countIn_app list l more :
  countIn list l <= countIn list (l ++ more).
Proof. unfold countIn. rewrite List.filter_app, length_app. lia. Qed.

Lemma someIn_app list l more :
  someIn list l = true -> someIn list (l ++ more) = true.
Proof. unfold someIn. rewrite existsb_app. by intros ->. Qed.

Lemma dedupFirst_length_le (l l' : list string) :
  (forall x, x ∈ l -> x ∈ l') ->
  length (dedupFirst [] l) <= length (dedupFirst [] l').
Proof.
  intros Hsub. apply NoDup_incl_length.
  - apply NoDup_ListNoDup, dedupFirst_NoDup.
  - intros x Hx%list_elem_of_In. apply list_elem_of_In.
    apply dedupFirst_elem_iff in Hx as [Hx _].
    apply dedupFirst_elem_iff. split; [by apply Hsub|]. by intros ?%elem_of_nil.
Qed.

Lemma complexity_score_tier (s1 s2 : nat) :
  s1 <= s2 ->
  tierIndex (if (12 <=? s1)%nat then enterprise
             else if (8 <=? s1)%nat then scale
             else if (5 <=? s1)%nat then growth
             else if (2 <=? s1)%nat then startup
             else prototype)
  <= tierIndex (if (12 <=? s2)%nat then enterprise
                else if (8 <=? s2)%nat then scale
                else if (5 <=? s2)%nat then growth
                else if (2 <=? s2)%nat then startup
                else prototype).
Proof.
  intros H.
  repeat match goal with
         | |- context [(?k <=? ?s)%nat] => destruct (Nat.leb_spec k s)
         end; simpl; lia.
Qed.

Lemma architectureComplexityTier_grows nodes more edges moreEdges :
  tierIndex (architectureComplexityTier nodes edges)
  <= tierIndex (architectureComplexityTier (nodes ++ more) (edges ++ moreEdges)).
Proof.
  unfold architectureComplexityTier. cbn zeta. apply complexity_score_tier.
  rewrite !map_app, !length_app.
  repeat apply Nat.add_le_mono; apply ite_le.
  - apply leb_le_mono. lia.
  - apply leb_le_mono. lia.
  - apply leb_le_mono. lia.
  - apply leb_le_mono. lia.
  - apply leb_le_mono. lia.
  - apply leb_le_mono, countIn_app.
  - apply leb_le_mono, countIn_app.
  - apply leb_le_mono, dedupFirst_length_le. intros x.
    rewrite !list_elem_of_In, !filter_In, in_app_iff. tauto.
  - apply someIn_app.
  - rewrite !bool_decide_eq_true, elem_of_app. tauto.
  - apply leb_le_mono, dedupFirst_length_le. intros x.
    rewrite !list_elem_of_In, !filter_In, in_app_iff. tauto.
  - apply someIn_app.
  - apply leb_le_mono, countIn_app.
  - apply leb_le_mono, countIn_app.
Qed.

Lemma componentMixTier_grows nodes more :
  tierIndex (componentMixTier nodes)
  <= tierIndex (componentMixTier (nodes ++ more)).
Proof.
  unfold componentMixTier. cbn zeta. rewrite map_app.
  set (types := map (fun n => componentType (data n)) nodes).
  set (added := map (fun n => componentType (data n)) more).
  repeat match goal with
         | |- context [someIn ?l types] =>
             let E := fresh "E" in
             destruct (someIn l types) eqn:E;
             [rewrite (someIn_app l types added E);
              repeat match goal with
                     | |- context [someIn ?l' (types ++ added)] =>
                         destruct (someIn l' (types ++ added))
                     end; simpl; lia|]
         end.
  repeat match goal with
         | |- context [someIn ?l' (types ++ added)] =>
             destruct (someIn l' (types ++ added))
         end; simpl; lia.
Qed.


(** X21: More traffic never lowers the resolved tier and never relaxes a
    threshold: on the same graph and scenario, a larger load gives a tier at
    least as high, a P99 limit at most as large, an availability floor and a
    replica requirement at least as large, and keeps every requirement flag
    that was set. *)
Theorem more_traffic_never_relaxes_thresholds :
  forall nodes edges metrics1 metrics2 load1 load2 pattern1 pattern2 scenario,
    (load1 <= load2)%Q ->
    let ctx1 := resolveValidationContext nodes edges metrics1 load1 pattern1
                  scenario in
    let ctx2 := resolveValidationContext nodes edges metrics2 load2 pattern2
                  scenario in
    tierIndex (scaleTier ctx1) <= tierIndex (scaleTier ctx2) /\
    atLeastAsStrict (thresholds ctx1) (thresholds ctx2).
Proof.
  intros nodes edges metrics1 metrics2 load1 load2 pattern1 pattern2 scenario Hl
         ctx1 ctx2.
  assert (Htier : tierIndex (scaleTier ctx1) <= tierIndex (scaleTier ctx2)).
  { unfold ctx1, ctx2. rewrite !resolved_index.
    pose proof (trafficToTier_monotone load1 load2 Hl). lia. }
  split; [done|].
  pose proof (TIER_THRESHOLDS_stricter _ _ Htier) as (H1 & H2 & H3 & H4).
  destruct (resolved_thresholds nodes edges metrics1 load1 pattern1 scenario)
    as (A1 & A2 & A3 & A4 & A5 & A6 & A7).
  destruct (resolved_thresholds nodes edges metrics2 load2 pattern2 scenario)
    as (B1 & B2 & B3 & B4 & B5 & B6 & B7).
  fold ctx1 in A1, A2, A3, A4, A5, A6, A7.
  fold ctx2 in B1, B2, B3, B4, B5, B6, B7.
  unfold atLeastAsStrict.
  rewrite A1, A2, A3, A4, A5, A6, A7, B1, B2, B3, B4, B5, B6, B7.
  split_and!; try tauto.
  - destruct (option_map targets scenario ≫= maxLatencyP95); simpl;
      [apply Qle_refl|done].
  - destruct (option_map targets scenario ≫= minAvailability); simpl;
      [apply Qle_refl|done].
Qed.

Lemma more_traffic_never_relaxes_thresholds_witness :
  (100 <= 100000)%Q /\
  tierIndex (scaleTier (resolveValidationContext singleDbNodes [] zeroMetrics
                          100 "steady" None))
  <= tierIndex (scaleTier (resolveValidationContext singleDbNodes [] zeroMetrics
                             100000 "steady" None)) /\
  atLeastAsStrict
    (thresholds (resolveValidationContext singleDbNodes [] zeroMetrics
                   100 "steady" None))
    (thresholds (resolveValidationContext singleDbNodes [] zeroMetrics
                   100000 "steady" None)).
Proof.
  split; [by vm_compute|].
  apply (more_traffic_never_relaxes_thresholds singleDbNodes [] zeroMetrics
           zeroMetrics 100 100000 "steady" "steady" None).
  by vm_compute.
Defined.

(** X22: Adding nodes and edges never lowers the resolved tier: the complexity
    score and the component-mix signal only count what is present. *)
Theorem growing_graph_never_lowers_tier :
  forall nodes more edges moreEdges metrics metrics' trafficLoad pattern
         scenario,
    tierIndex (scaleTier (resolveValidationContext nodes edges metrics
                            trafficLoad pattern scenario))
    <= tierIndex (scaleTier (resolveValidationContext (nodes ++ more)
                               (edges ++ moreEdges) metrics' trafficLoad
                               pattern scenario)).
Proof.
  intros. rewrite !resolved_index.
  pose proof (architectureComplexityTier_grows nodes more edges moreEdges).
  pose proof (componentMixTier_grows nodes more). lia.
Qed.

(** ** Scores stay between 0 and 100 *)

Lemma fold_left_Qsum {A : Type} (f : A -> Q) (l : list A) : forall a : Q,
  (fold_left (fun s c => (s + f c)%Q) l a
   == a + fold_right (fun c s => (f c + s)%Q) 0%Q l)%Q.
Proof.
  induction l as [|c l IH]; intros a; simpl; [ring|]. rewrite IH. ring.
Qed.

(** The impact that a check earns: all of it when it passes, 0.7 of it as
    an advisory, nothing when it fails. *)
Definition earnedImpact (c : ValidationCheck) : Q :=
  match outcome c with
  | pass => scoreImpact c
  | advisory => (scoreImpact c * 0.7)%Q
  | fail => 0
  end.

Lemma dimScore_earned checks :
  ~ (sumImpact checks == 0)%Q ->
  dimScore checks =
  Js.round ((sumImpact (List.filter (fun c => bool_decide (outcome c = pass)) checks)
             + fold_left (fun s c => (s + scoreImpact c * 0.7)%Q)
                 (List.filter (fun c => bool_decide (outcome c = advisory)) checks)
                 0%Q)
            / sumImpact checks * 100).
Proof.
  intros Hne. unfold dimScore. destruct checks as [|c checks].
  { exfalso. apply Hne. reflexivity. }
  unfold Js.eqb. destruct (Qeq_bool _ 0) eqn:E; [|done].
  by apply Qeq_bool_iff in E.
Qed.

Lemma earned_le_total checks :
  (forall c, c ∈ checks -> (0 <= scoreImpact c)%Q) ->
  let earned :=
    (sumImpact (List.filter (fun c => bool_decide (outcome c = pass)) checks)
     + fold_left (fun s c => (s + scoreImpact c * 0.7)%Q)
         (List.filter (fun c => bool_decide (outcome c = advisory)) checks)
         0%Q)%Q in
  (0 <= earned)%Q /\ (earned <= sumImpact checks)%Q.
Proof.
  intros Hpos. unfold sumImpact. cbn zeta.
  rewrite !fold_left_Qsum.
  induction checks as [|c checks IH]; simpl; [split; lra|].
  destruct IH as [IH0 IH1]; [intros x Hx; apply Hpos; by right|].
  pose proof (Hpos c ltac:(by left)) as Hc.
  destruct (outcome c); simpl; split; lra.
Qed.

Lemma dimScore_range checks :
  (forall c, c ∈ checks -> (0 <= scoreImpact c)%Q) ->
  (0 <= dimScore checks <= 100)%Z.
Proof.
  intros Hpos.
  destruct (Qeq_dec (sumImpact checks) 0) as [Hz|Hnz].
  { unfold dimScore. destruct checks; [lia|]. unfold Js.eqb.
    apply Qeq_bool_iff in Hz. rewrite Hz. lia. }
  rewrite (dimScore_earned checks Hnz).
  destruct (earned_le_total checks Hpos) as [H0 H1]. cbn zeta in H0, H1.
  set (earned := (sumImpact _ + fold_left _ _ _)%Q) in *.
  set (total := sumImpact checks) in *.
  assert (Htotal : (0 < total)%Q).
  { apply Qle_lteq in H0. assert (0 <= total)%Q by lra.
    apply Qnot_le_lt. intros Hle. apply Hnz. lra. }
  assert (Hr0 : (0 <= earned / total)%Q).
  { apply Qle_shift_div_l; [done|]. lra. }
  assert (Hr1 : (earned / total <= 1)%Q).
  { apply Qle_shift_div_r; [done|]. lra. }
  set (ratio := (earned / total)%Q) in *. split.
  - apply Js_round_nonneg. lra.
  - transitivity (Js.round 100); [apply Js_round_le; lra|by vm_compute].
Qed.

Ltac impact_cases :=
  repeat match goal with
         | |- context [if ?b then _ else _] => destruct b
         | |- context [match ?x with [] => _ | _ :: _ => _ end] => destruct x
         end;
  cbn [scoreImpact mkCheck]; by vm_compute.

Ltac each_check H :=
  repeat (first
    [ apply elem_of_app in H as [H|H]
    | apply elem_of_cons in H as [->|H]
    | apply elem_of_nil in H; destruct H ]).

Lemma checkReliability_range nodes edges spofs ctx :
  (0 <= score (checkReliability nodes edges spofs ctx) <= 100)%Z.
Proof.
  unfold checkReliability. cbn [score]. apply dimScore_range. intros c Hc.
  each_check Hc.
  - unfold spofCheck. impact_cases.
  - unfold dbReplicaCheck in Hc. cbn zeta in Hc.
    destruct (nodesOfType nodes validatorDbTypes);
      [by apply elem_of_nil in Hc|].
    repeat match type of Hc with
           | context [if ?b then _ else _] => destruct b
           end; apply list_elem_of_singleton in Hc as ->; by vm_compute.
  - unfold loadBalancerCheck. impact_cases.
  - unfold connectedCheck. impact_cases.
Qed.

Lemma checkPerformance_range nodes metrics ctx :
  (0 <= score (checkPerformance nodes metrics ctx) <= 100)%Z.
Proof.
  unfold checkPerformance. cbn [score]. apply dimScore_range. intros c Hc.
  cbn zeta in Hc. each_check Hc; impact_cases.
Qed.

Lemma checkDataIntegrity_range nodes edges ctx :
  (0 <= score (checkDataIntegrity nodes edges ctx) <= 100)%Z.
Proof.
  unfold checkDataIntegrity. cbn [score]. apply dimScore_range. intros c Hc.
  cbn zeta in Hc. each_check Hc; impact_cases.
Qed.

Lemma checkSecurity_range nodes edges ctx :
  (0 <= score (checkSecurity nodes edges ctx) <= 100)%Z.
Proof.
  unfold checkSecurity. cbn [score]. apply dimScore_range. intros c Hc.
  cbn zeta in Hc. each_check Hc; impact_cases.
Qed.

Lemma checkObservability_range nodes ctx :
  (0 <= score (checkObservability nodes ctx) <= 100)%Z.
Proof.
  unfold checkObservability. cbn [score]. apply dimScore_range. intros c Hc.
  cbn zeta in Hc. each_check Hc; impact_cases.
Qed.

Lemma checkAIBestPractices_range nodes ctx :
  (0 <= score (checkAIBestPractices nodes ctx) <= 100)%Z.
Proof.
  unfold checkAIBestPractices. cbn zeta.
  destruct (nodesOfType nodes ["llm-inference"]); cbn [score]; [lia|].
  apply dimScore_range. intros c Hc.
  destruct (hasType nodes ["training-cluster"]); each_check Hc; impact_cases.
Qed.

Lemma validate_dimensions nodes edges spofs metrics load pattern scen :
  let r := validate nodes edges spofs metrics load pattern scen in
  let ctx := context r in
  dimensions r =
    [checkReliability nodes edges spofs ctx; checkPerformance nodes metrics ctx;
     checkDataIntegrity nodes edges ctx; checkSecurity nodes edges ctx;
     checkObservability nodes ctx]
    ++ (if graphHasAI nodes then [checkAIBestPractices nodes ctx] else []).
Proof. done. Qed.

Lemma validate_overallScore nodes edges spofs metrics load pattern scen :
  let r := validate nodes edges spofs metrics load pattern scen in
  let ctx := context r in
  overallScore r =
    Js.round
      (inject_Z
         (25 * score (checkReliability nodes edges spofs ctx)
          + 20 * score (checkPerformance nodes metrics ctx)
          + 15 * score (checkDataIntegrity nodes edges ctx)
          + 15 * score (checkSecurity nodes edges ctx)
          + 10 * score (checkObservability nodes ctx)
          + (if graphHasAI nodes
             then 15 * score (checkAIBestPractices nodes ctx) else 0))
       / inject_Z (if graphHasAI nodes then 100 else 85)).
Proof.
  intros r ctx. unfold r, validate, graphHasAI. cbn [overallScore].
  fold (graphHasAI nodes). unfold ctx, r, validate. cbn [context].
  set (c := resolveValidationContext _ _ _ _ _ _).
  pose proof (checkAIBestPractices_id nodes c) as Hai.
  destruct (graphHasAI nodes); cbn [fold_left app].
  - rewrite Hai.
    change (weightOf "ai") with 15%Z.
    change (weightOf (dim_id (checkReliability nodes edges spofs c))) with 25%Z.
    change (weightOf (dim_id (checkPerformance nodes metrics c))) with 20%Z.
    change (weightOf (dim_id (checkDataIntegrity nodes edges c))) with 15%Z.
    change (weightOf (dim_id (checkSecurity nodes edges c))) with 15%Z.
    change (weightOf (dim_id (checkObservability nodes c))) with 10%Z.
    f_equal. f_equal. f_equal. lia.
  - change (weightOf (dim_id (checkReliability nodes edges spofs c))) with 25%Z.
    change (weightOf (dim_id (checkPerformance nodes metrics c))) with 20%Z.
    change (weightOf (dim_id (checkDataIntegrity nodes edges c))) with 15%Z.
    change (weightOf (dim_id (checkSecurity nodes edges c))) with 15%Z.
    change (weightOf (dim_id (checkObservability nodes c))) with 10%Z.
    f_equal. f_equal. f_equal. lia.
Qed.

(** X23: Every dimension score and the overall score of a validation report
    lie between 0 and 100, for every graph, metrics snapshot, load and
    scenario. *)
Theorem validate_scores_in_range :
  forall nodes edges spofNodeIds metrics trafficLoad trafficPattern
         activeScenario,
    let r := validate nodes edges spofNodeIds metrics trafficLoad
               trafficPattern activeScenario in
    (0 <= overallScore r <= 100)%Z /\
    forall d, d ∈ dimensions r -> (0 <= score d <= 100)%Z.
Proof.
  intros nodes edges spofs metrics load pattern scen r.
  pose proof (checkReliability_range nodes edges spofs (context r)) as H1.
  pose proof (checkPerformance_range nodes metrics (context r)) as H2.
  pose proof (checkDataIntegrity_range nodes edges (context r)) as H3.
  pose proof (checkSecurity_range nodes edges (context r)) as H4.
  pose proof (checkObservability_range nodes (context r)) as H5.
  pose proof (checkAIBestPractices_range nodes (context r)) as H6.
  split.
  - unfold r. rewrite validate_overallScore. fold r.
    destruct (graphHasAI nodes).
    + split.
      * apply Js_round_nonneg. apply Qle_shift_div_l; [reflexivity|].
        rewrite Qmult_0_l. change 0%Q with (inject_Z 0). rewrite <- Zle_Qle. lia.
      * transitivity (Js.round 100); [|by vm_compute]. apply Js_round_le.
        apply Qle_shift_div_r; [reflexivity|].
        change (100 * inject_Z 100)%Q with (inject_Z 10000).
        rewrite <- Zle_Qle. lia.
    + split.
      * apply Js_round_nonneg. apply Qle_shift_div_l; [reflexivity|].
        rewrite Qmult_0_l. change 0%Q with (inject_Z 0). rewrite <- Zle_Qle. lia.
      * transitivity (Js.round 100); [|by vm_compute]. apply Js_round_le.
        apply Qle_shift_div_r; [reflexivity|].
        change (100 * inject_Z 85)%Q with (inject_Z 8500).
        rewrite <- Zle_Qle. lia.
  - intros d Hd. unfold r in Hd. rewrite validate_dimensions in Hd. fold r in Hd.
    destruct (graphHasAI nodes); each_check Hd; done.
Qed.

(** ** Top issues and verdict *)

(** The rank that the sort of validate gives a severity. *)
Definition sevRank (s : Severity) : nat :=
  match s with critical => 3 | warning => 2 | info => 1 end.

(** The failed checks, the most severe first and otherwise in their order. *)
Definition bySeverity (failed : list ValidationCheck) : list ValidationCheck :=
  List.filter (fun c => bool_decide (severity c = critical)) failed
  ++ List.filter (fun c => bool_decide (severity c = warning)) failed
  ++ List.filter (fun c => bool_decide (severity c = info)) failed.

Lemma filter_lookup_rank (s : Severity) (l : list ValidationCheck) i c :
  List.filter (fun c => bool_decide (severity c = s)) l !! i = Some c ->
  severity c = s.
Proof.
  intros H. apply list_elem_of_lookup_2, list_elem_of_In, filter_In in H as [_ H].
  by apply bool_decide_eq_true in H.
Qed.

Lemma bySeverity_elem failed c : c ∈ bySeverity failed <-> c ∈ failed.
Proof.
  unfold bySeverity. rewrite !elem_of_app, !list_elem_of_In, !filter_In,
    !bool_decide_eq_true. destruct (severity c); naive_solver.
Qed.

Lemma bySeverity_sorted failed i j a b :
  i < j -> bySeverity failed !! i = Some a -> bySeverity failed !! j = Some b ->
  sevRank (severity b) <= sevRank (severity a).
Proof.
  unfold bySeverity. intros Hij Ha Hb.
  apply lookup_app_Some in Ha as [Ha|[Hi Ha]].
  { apply filter_lookup_rank in Ha as ->. destruct (severity b); simpl; lia. }
  apply lookup_app_Some in Hb as [Hb|[Hj Hb]].
  { apply lookup_lt_Some in Hb. lia. }
  apply lookup_app_Some in Ha as [Ha|[Hi' Ha]].
  - apply filter_lookup_rank in Ha as ->.
    apply lookup_app_Some in Hb as [Hb|[_ Hb]];
      apply filter_lookup_rank in Hb as ->; simpl; lia.
  - apply filter_lookup_rank in Ha as ->.
    apply lookup_app_Some in Hb as [Hb|[_ Hb]].
    + apply lookup_lt_Some in Hb. lia.
    + apply filter_lookup_rank in Hb as ->. simpl; lia.
Qed.

Lemma validate_topIssues nodes edges spofs metrics load pattern scen :
  let r := validate nodes edges spofs metrics load pattern scen in
  topIssues r =
  take 3 (bySeverity
            (List.filter (fun c => bool_decide (outcome c = fail))
                         (flat_map checks (dimensions r)))).
Proof. done. Qed.

Lemma flat_map_checks_elem (dims : list ValidationDimension) c :
  c ∈ flat_map checks dims <-> exists d, d ∈ dims /\ c ∈ checks d.
Proof.
  rewrite list_elem_of_In, in_flat_map. split.
  - intros (d & Hd & Hc). exists d. by rewrite !list_elem_of_In.
  - intros (d & Hd & Hc). exists d. by rewrite <- !list_elem_of_In.
Qed.

Lemma topIssues_failed nodes edges spofs metrics load pattern scen c :
  let r := validate nodes edges spofs metrics load pattern scen in
  c ∈ topIssues r ->
  outcome c = fail /\ exists d, d ∈ dimensions r /\ c ∈ checks d.
Proof.
  intros r.
  pose proof (validate_topIssues nodes edges spofs metrics load pattern scen)
    as Htop.
  cbn zeta in Htop. fold r in Htop. rewrite Htop. clear Htop. intros Hc.
  apply (subseteq_take 3) in Hc. apply (proj1 (bySeverity_elem _ _)) in Hc.
  apply list_elem_of_In, filter_In in Hc as [Hc Hf].
  apply bool_decide_eq_true in Hf.
  by apply list_elem_of_In, flat_map_checks_elem in Hc.
Qed.

(** X24: The top issues of a report are at most three failed checks of its
    dimensions, the most severe first; a failed check is left out only when
    three failed checks at least as severe are listed. *)
Theorem topIssues_are_worst_failures :
  forall nodes edges spofNodeIds metrics trafficLoad trafficPattern
         activeScenario,
    let r := validate nodes edges spofNodeIds metrics trafficLoad
               trafficPattern activeScenario in
    length (topIssues r) <= 3 /\
    (forall c, c ∈ topIssues r ->
       outcome c = fail /\ exists d, d ∈ dimensions r /\ c ∈ checks d) /\
    (forall i j a b, i < j ->
       topIssues r !! i = Some a -> topIssues r !! j = Some b ->
       sevRank (severity b) <= sevRank (severity a)) /\
    (forall d c, d ∈ dimensions r -> c ∈ checks d -> outcome c = fail ->
       c ∈ topIssues r \/
       (length (topIssues r) = 3 /\
        forall t, t ∈ topIssues r ->
          sevRank (severity c) <= sevRank (severity t))).
Proof.
  intros nodes edges spofs metrics load pattern scen r.
  pose proof (validate_topIssues nodes edges spofs metrics load pattern scen)
    as Htop.
  cbn zeta in Htop. fold r in Htop. rewrite Htop. clear Htop.
  set (failed := List.filter (fun c => bool_decide (outcome c = fail))
                             (flat_map checks (dimensions r))).
  assert (Hfailed : forall c, c ∈ failed <->
            outcome c = fail /\ exists d, d ∈ dimensions r /\ c ∈ checks d).
  { intros c. unfold failed.
    rewrite list_elem_of_In, filter_In, <- list_elem_of_In, bool_decide_eq_true,
      flat_map_checks_elem. tauto. }
  split_and!.
  - rewrite length_take. lia.
  - intros c Hc. apply Hfailed, bySeverity_elem.
    by apply (subseteq_take 3 (bySeverity failed)).
  - intros i j a b Hij Ha Hb.
    apply lookup_take_Some in Ha as [Ha _].
    apply lookup_take_Some in Hb as [Hb _].
    by apply (bySeverity_sorted failed i j).
  - intros d c Hd Hc Hfail.
    assert (Hin : c ∈ bySeverity failed).
    { apply bySeverity_elem, Hfailed. split; [done|]. by exists d. }
    rewrite <- (take_drop 3 (bySeverity failed)) in Hin.
    apply elem_of_app in Hin as [?|Hdrop]; [by left|]. right.
    apply list_elem_of_lookup in Hdrop as [k Hk]. rewrite lookup_drop in Hk.
    assert (Hlen : 3 < length (bySeverity failed)).
    { apply lookup_lt_Some in Hk. lia. }
    split; [rewrite length_take; lia|].
    intros t Ht. apply list_elem_of_lookup in Ht as [i Hi].
    apply lookup_take_Some in Hi as [Hi Hlt].
    apply (bySeverity_sorted failed i (3 + k)); [lia|done|done].
Qed.

Lemma computeVerdict_positive score failedCritical advisories ctx :
  isPositive (computeVerdict (inject_Z score) failedCritical advisories ctx)
    = true <->
  failedCritical = 0 /\
  ((65 <= score)%Z \/ (scaleTier ctx = prototype /\ (50 <= score)%Z)).
Proof.
  unfold computeVerdict.
  assert (Hleb : forall k : Z, Js.leb (inject_Z k) (inject_Z score) = true
                               <-> (k <= score)%Z).
  { intros k. rewrite Js_leb_le, <- Zle_Qle. done. }
  change 85%Q with (inject_Z 85). change 65%Q with (inject_Z 65).
  change 50%Q with (inject_Z 50).
  destruct (Nat.eqb_spec failedCritical 0) as [->|Hne]; simpl.
  2:{ split; [done|]. by intros [? _]. }
  destruct (Js.leb (inject_Z 85) (inject_Z score)) eqn:E85; simpl.
  { apply Hleb in E85. split; [|done]. intros _. split; [done|]. left. lia. }
  destruct (Js.leb (inject_Z 65) (inject_Z score)) eqn:E65; simpl.
  { apply Hleb in E65. split; [|done]. intros _. split; [done|]. by left. }
  assert (H65 : ~ (65 <= score)%Z) by (rewrite <- Hleb; congruence).
  case_bool_decide as Hp; simpl.
  - destruct (Js.leb (inject_Z 50) (inject_Z score)) eqn:E50; simpl.
    + apply Hleb in E50. split; [|done]. intros _. split; [done|]. by right.
    + assert (H50 : ~ (50 <= score)%Z) by (rewrite <- Hleb; congruence).
      split; [done|]. intros [_ [?|[_ ?]]]; done.
  - split; [done|]. intros [_ [?|[? _]]]; done.
Qed.

(** X25: The verdict of a report is positive exactly when no critical check
    has failed and the overall score is at least 65, or at least 50 at the
    prototype tier; a positive verdict comes with no critical top issue, and
    with a failed critical check the first top issue is critical. *)
Theorem verdict_positive_iff_no_critical_failure :
  forall nodes edges spofNodeIds metrics trafficLoad trafficPattern
         activeScenario,
    let r := validate nodes edges spofNodeIds metrics trafficLoad
               trafficPattern activeScenario in
    let v := validateVerdict nodes edges spofNodeIds metrics trafficLoad
               trafficPattern activeScenario in
    let criticalFailure :=
      exists d c, d ∈ dimensions r /\ c ∈ checks d /\
                  outcome c = fail /\ severity c = critical in
    (isPositive v = true <->
     ~ criticalFailure /\
     ((65 <= overallScore r)%Z \/
      (scaleTier (context r) = prototype /\ (50 <= overallScore r)%Z))) /\
    (isPositive v = true ->
     forall c, c ∈ topIssues r -> severity c <> critical) /\
    (criticalFailure ->
     isPositive v = false /\
     exists c, head (topIssues r) = Some c /\ severity c = critical).
Proof.
  intros nodes edges spofs metrics load pattern scen r v criticalFailure.
  set (failedCritical :=
         List.filter (fun c => bool_decide (outcome c = fail)
                               && bool_decide (severity c = critical))
                     (flat_map checks (dimensions r))).
  assert (Hv : isPositive v = true <->
               length failedCritical = 0 /\
               ((65 <= overallScore r)%Z \/
                (scaleTier (context r) = prototype /\ (50 <= overallScore r)%Z))).
  { unfold v, validateVerdict. cbn zeta. fold r. fold failedCritical.
    apply computeVerdict_positive. }
  assert (Hcrit : criticalFailure <-> length failedCritical <> 0).
  { unfold criticalFailure. split.
    - intros (d & c & Hd & Hc & Hf & Hs) Hlen.
      apply length_zero_iff_nil in Hlen.
      assert (Hin : c ∈ failedCritical).
      { unfold failedCritical. apply list_elem_of_In, filter_In.
        split; [apply list_elem_of_In, flat_map_checks_elem; by exists d|].
        by rewrite !bool_decide_eq_true_2. }
      rewrite Hlen in Hin. by apply elem_of_nil in Hin.
    - intros Hlen. destruct failedCritical as [|c l] eqn:E; [done|].
      assert (Hin : c ∈ failedCritical) by (rewrite E; by left).
      unfold failedCritical in Hin.
      apply list_elem_of_In, filter_In in Hin as [Hin Hb].
      apply andb_true_iff in Hb as [Hf Hs].
      apply bool_decide_eq_true in Hf, Hs.
      apply list_elem_of_In, flat_map_checks_elem in Hin as (d & Hd & Hc).
      by exists d, c. }
  assert (Hpos : isPositive v = true <->
                 ~ criticalFailure /\
                 ((65 <= overallScore r)%Z \/
                  (scaleTier (context r) = prototype /\
                   (50 <= overallScore r)%Z))).
  { rewrite Hv, Hcrit. split; intros [H1 H2]; (split; [|done]); lia. }
  split; [exact Hpos|]. split.
  - intros Hp c Hc Hs. apply Hpos in Hp as [Hno _]. apply Hno.
    destruct (topIssues_failed nodes edges spofs metrics load pattern scen
                c Hc) as (Hf & d & Hd & Hcd).
    by exists d, c.
  - intros Hcf. split.
    { apply not_true_is_false. intros E. apply Hpos in E as [Hno _]. done. }
    destruct Hcf as (d & c & Hd & Hc & Hf & Hs).
    pose proof (validate_topIssues nodes edges spofs metrics load pattern scen)
      as Htop.
    cbn zeta in Htop. fold r in Htop. rewrite Htop. clear Htop.
    set (failed := List.filter (fun c => bool_decide (outcome c = fail))
                               (flat_map checks (dimensions r))).
    assert (Hin : c ∈ List.filter
                        (fun c => bool_decide (severity c = critical)) failed).
    { apply list_elem_of_In, filter_In. split; [|by apply bool_decide_eq_true].
      apply filter_In. split; [|by apply bool_decide_eq_true].
      apply list_elem_of_In, flat_map_checks_elem. by exists d. }
    unfold bySeverity.
    destruct (List.filter (fun c => bool_decide (severity c = critical)) failed)
      as [|c0 l] eqn:E; [by apply elem_of_nil in Hin|].
    exists c0. split; [done|].
    apply (filter_lookup_rank critical failed 0). by rewrite E.
Qed.

(** ** simulationTick *)

Lemma to_uint_nonnil n : Nat.to_uint n <> Decimal.Nil.
Proof.
  pose proof (DecimalNat.Unsigned.to_of (Nat.to_uint n)) as H.
  rewrite DecimalNat.Unsigned.of_to in H. rewrite H.
  apply DecimalFacts.unorm_nonnil.
Qed.

Lemma natStr_inj n n' : natStr n = natStr n' -> n = n'.
Proof.
  unfold natStr. intros H. apply DecimalNat.Unsigned.to_uint_inj.
  assert (E : Some (Nat.to_uint n) = Some (Nat.to_uint n')).
  { rewrite <- (NilZero.usu (Nat.to_uint n)) by apply to_uint_nonnil.
    rewrite <- (NilZero.usu (Nat.to_uint n')) by apply to_uint_nonnil.
    by rewrite H. }
  by injection E.
Qed.

(** The id that makeAlert gives the alert number [i]. *)
Definition alertIdOf (i : nat) : string := "alert-" +:+ natStr i.

Lemma alertIdOf_inj i j : alertIdOf i = alertIdOf j -> i = j.
Proof. unfold alertIdOf. intros H. apply natStr_inj. by simplify_eq/=. Qed.

Section TickFacts.
Variable COMPONENT_MAP : gmap string ComponentDefinition.
Variable topology : TopologyAnalysis.
Variable loadMap : gmap string Q.

(** The load percentage that the tick computes for a catalogued node. *)
Definition nodeLoadPercent (d : ComponentDefinition) (node : Node) : Q :=
  loadPercentOf (Js.getOr0 loadMap (node_id node)) (capacityOf d node).

(** The update that the tick stores for a catalogued node. *)
Definition nodeUpdateOf (d : ComponentDefinition) (node : Node) : NodeUpdate :=
  {| currentLoad := nodeLoadPercent d node;
     update_currentRPS := Js.getOr0 loadMap (node_id node);
     update_errorRate := snd (statusOf d node (nodeLoadPercent d node));
     status := fst (statusOf d node (nodeLoadPercent d node));
     isBottleneck :=
       bool_decide (bottleneckNodeId topology = Some (node_id node));
     isSPOF := bool_decide (node_id node ∈ spofNodeIds topology) |}.

(** The messages that a node asks to raise, in order. *)
Definition wantedMessages (node : Node) : list (AlertType * string) :=
  match defOf COMPONENT_MAP node with
  | None => []
  | Some d =>
      (if bool_decide (node_id node ∈ spofNodeIds topology)
       then [(alert_warning, spofMessage node)] else [])
      ++ (if Js.ltb 0.9 (nodeLoadPercent d node)
          then [(alert_error, loadMessage node (nodeLoadPercent d node))]
          else [])
  end.

(** The wanted messages that are not among the existing ones. *)
Definition freshMessages (existing : gset string) (node : Node)
  : list (AlertType * string) :=
  List.filter (fun p => negb (bool_decide (snd p ∈ existing)))
              (wantedMessages node).

(** The alerts made, from counter [c] on, for a list of messages of
    [node]. *)
Fixpoint alertsFor (c : nat) (nodeId : string)
    (msgs : list (AlertType * string)) : list SystemAlert :=
  match msgs with
  | [] => []
  | (ty, msg) :: rest =>
      {| alert_id := alertIdOf (S c); alert_type := ty; message := msg;
         alert_nodeId := Some nodeId; dismissed := false |}
      :: alertsFor (S c) nodeId rest
  end.

Lemma tickNode_unfold existing st node :
  tickNode COMPONENT_MAP topology loadMap existing st node =
  match defOf COMPONENT_MAP node with
  | None => st
  | Some d =>
      {| tick_updates := <[node_id node := nodeUpdateOf d node]> (tick_updates st);
         tick_alerts :=
           tick_alerts st
           ++ alertsFor (tick_counter st) (node_id node)
                        (freshMessages existing node);
         tick_counter :=
           tick_counter st + length (freshMessages existing node) |}
  end.
Proof.
  unfold tickNode, freshMessages, wantedMessages, nodeUpdateOf.
  destruct (defOf COMPONENT_MAP node) as [d|]; [|done].
  fold (nodeLoadPercent d node).
  destruct (statusOf d node (nodeLoadPercent d node)) as [s e].
  cbn [fst snd].
  destruct (bool_decide (node_id node ∈ spofNodeIds topology));
    destruct (Js.ltb 0.9 (nodeLoadPercent d node));
    cbn [andb app List.filter snd];
    repeat match goal with
           | |- context [bool_decide (?m ∈ existing)] =>
               destruct (bool_decide (m ∈ existing))
           end;
    cbn [negb andb app List.filter snd alertsFor length makeAlert];
    unfold makeAlert, alertIdOf; cbn zeta;
    rewrite ?app_nil_r, ?Nat.add_0_r, <- ?app_assoc; cbn [app];
    f_equal; lia.
Qed.

(** The fold of the tick over the nodes, seen as three independent
    results. *)
Fixpoint updatesOf (nodes : list Node) (m : gmap string NodeUpdate)
  : gmap string NodeUpdate :=
  match nodes with
  | [] => m
  | node :: rest =>
      updatesOf rest
        (match defOf COMPONENT_MAP node with
         | Some d => <[node_id node := nodeUpdateOf d node]> m
         | None => m
         end)
  end.

Fixpoint alertsOf (existing : gset string) (c : nat) (nodes : list Node)
  : list SystemAlert :=
  match nodes with
  | [] => []
  | node :: rest =>
      alertsFor c (node_id node) (freshMessages existing node)
      ++ alertsOf existing (c + length (freshMessages existing node)) rest
  end.

Lemma freshMessages_None existing node :
  defOf COMPONENT_MAP node = None -> freshMessages existing node = [].
Proof. unfold freshMessages, wantedMessages. by intros ->. Qed.

Lemma alertsFor_length c k msgs : length (alertsFor c k msgs) = length msgs.
Proof.
  revert c. induction msgs as [|[ty m] msgs IH]; intros c; simpl; [done|].
  by rewrite IH.
Qed.

Lemma tick_fold existing nodes : forall st,
  fold_left (tickNode COMPONENT_MAP topology loadMap existing) nodes st =
  {| tick_updates := updatesOf nodes (tick_updates st);
     tick_alerts := tick_alerts st ++ alertsOf existing (tick_counter st) nodes;
     tick_counter :=
       tick_counter st + length (alertsOf existing (tick_counter st) nodes) |}.
Proof.
  induction nodes as [|node nodes IH]; intros st; cbn [fold_left].
  - simpl. rewrite app_nil_r, Nat.add_0_r. by destruct st.
  - rewrite IH, tickNode_unfold. cbn [updatesOf alertsOf].
    destruct (defOf COMPONENT_MAP node) as [d|] eqn:Hd.
    + cbn [tick_updates tick_alerts tick_counter].
      rewrite <- app_assoc, length_app, alertsFor_length. f_equal. lia.
    + rewrite (freshMessages_None existing node Hd). simpl.
      by rewrite Nat.add_0_r.
Qed.

Lemma alertsFor_ids c k msgs :
  map alert_id (alertsFor c k msgs) = map alertIdOf (seq (S c) (length msgs)).
Proof.
  revert c. induction msgs as [|[ty m] msgs IH]; intros c; simpl; [done|].
  by rewrite IH.
Qed.

Lemma alertsOf_ids existing nodes : forall c,
  map alert_id (alertsOf existing c nodes)
  = map alertIdOf (seq (S c) (length (alertsOf existing c nodes))).
Proof.
  induction nodes as [|node nodes IH]; intros c; cbn [alertsOf]; [done|].
  rewrite map_app, length_app, seq_app, map_app, alertsFor_ids, IH,
    alertsFor_length.
  done.
Qed.

Lemma alertsFor_messages c k msgs :
  map message (alertsFor c k msgs) = map snd msgs.
Proof.
  revert c. induction msgs as [|[ty m] msgs IH]; intros c; simpl; [done|].
  by rewrite IH.
Qed.

Lemma alertsOf_messages existing nodes : forall c,
  map message (alertsOf existing c nodes)
  = map snd (flat_map (freshMessages existing) nodes).
Proof.
  induction nodes as [|node nodes IH]; intros c; cbn [alertsOf flat_map];
    [done|].
  by rewrite !map_app, alertsFor_messages, IH.
Qed.

Lemma alertsFor_dismissed c k msgs a :
  a ∈ alertsFor c k msgs -> dismissed a = false /\ alert_nodeId a = Some k.
Proof.
  revert c. induction msgs as [|[ty m] msgs IH]; intros c; simpl.
  - by intros ?%elem_of_nil.
  - intros [->|H]%elem_of_cons; [done|]. by apply (IH (S c)).
Qed.

Lemma alertsOf_elem existing nodes a : forall c,
  a ∈ alertsOf existing c nodes ->
  dismissed a = false /\ (message a ∉ existing) /\
  exists node, node ∈ nodes /\ alert_nodeId a = Some (node_id node) /\
               (alert_type a, message a) ∈ wantedMessages node.
Proof.
  induction nodes as [|node nodes IH]; intros c; cbn [alertsOf].
  - by intros ?%elem_of_nil.
  - intros [H|H]%elem_of_app.
    + destruct (alertsFor_dismissed _ _ _ _ H) as [Hd Hn].
      assert (Hm : (alert_type a, message a) ∈ freshMessages existing node).
      { clear -H. revert c H.
        induction (freshMessages existing node) as [|[ty m] msgs IHm];
          intros c H; simpl in H; [by apply elem_of_nil in H|].
        apply elem_of_cons in H as [->|H]; [by left|].
        right. by apply (IHm (S c)). }
      apply list_elem_of_In, filter_In in Hm as [Hw Hf].
      apply negb_true_iff, bool_decide_eq_false in Hf. simpl in Hf.
      split; [done|]. split; [done|]. exists node.
      split; [by left|]. split; [done|]. by apply list_elem_of_In.
    + destruct (IH _ H) as (Hd & Hm & node' & Hin & Hrest).
      split; [done|]. split; [done|]. exists node'. split; [by right|done].
Qed.

(** With every wanted message among the existing ones, no alert is made. *)
Lemma alertsOf_quiet existing nodes c :
  (forall node p, node ∈ nodes -> p ∈ wantedMessages node -> snd p ∈ existing) ->
  alertsOf existing c nodes = [].
Proof.
  revert c. induction nodes as [|node nodes IH]; intros c Hall;
    cbn [alertsOf]; [done|].
  assert (Hnone : freshMessages existing node = []).
  { unfold freshMessages.
    assert (G : forall l : list (AlertType * string),
              (forall p, p ∈ l -> snd p ∈ existing) ->
              List.filter (fun p => negb (bool_decide (snd p ∈ existing))) l = []).
    { induction l as [|p l IHl]; intros Hl; simpl; [done|].
      rewrite bool_decide_eq_true_2 by (apply Hl; by left). simpl.
      apply IHl. intros q Hq. apply Hl. by right. }
    apply G. intros p Hp. apply (Hall node); [by left|done]. }
  rewrite Hnone. simpl. apply IH. intros n p Hn. apply Hall. by right.
Qed.

Lemma updatesOf_lookup nodes : forall m k u,
  updatesOf nodes m !! k = Some u ->
  m !! k = Some u \/
  exists node d, node ∈ nodes /\ node_id node = k /\
                 defOf COMPONENT_MAP node = Some d /\ u = nodeUpdateOf d node.
Proof.
  induction nodes as [|node nodes IH]; intros m k u H; cbn [updatesOf] in H;
    [by left|].
  apply IH in H as [H|(n & d & Hn & Hrest)].
  - destruct (defOf COMPONENT_MAP node) as [d|] eqn:Hd; [|by left].
    destruct (decide (node_id node = k)) as [<-|Hne].
    + rewrite lookup_insert_eq in H. injection H as <-. right.
      exists node, d. split; [by left|done].
    + rewrite lookup_insert_ne in H by done. by left.
  - right. exists n, d. split; [by right|done].
Qed.

Lemma updatesOf_unique nodes : forall m node d,
  NoDup (map node_id nodes) -> node ∈ nodes ->
  defOf COMPONENT_MAP node = Some d ->
  updatesOf nodes m !! node_id node = Some (nodeUpdateOf d node).
Proof.
  induction nodes as [|n nodes IH]; intros m node d Hnd Hin Hd;
    [by apply elem_of_nil in Hin|].
  cbn [map] in Hnd. apply NoDup_cons in Hnd as [Hfresh Hnd].
  cbn [updatesOf]. apply elem_of_cons in Hin as [->|Hin]; [|by apply IH].
  rewrite Hd.
  destruct (updatesOf nodes (<[node_id n := nodeUpdateOf d n]> m) !! node_id n)
    as [u|] eqn:E.
  - apply updatesOf_lookup in E as [E|(n' & d' & Hn' & Hid & _)].
    + by rewrite lookup_insert_eq in E.
    + exfalso. apply Hfresh. rewrite <- Hid.
      apply list_elem_of_In, in_map. by apply list_elem_of_In.
  - exfalso.
    assert (G : forall l (m' : gmap string NodeUpdate) k,
              is_Some (m' !! k) -> is_Some (updatesOf l m' !! k)).
    { induction l as [|x l IHl]; intros m' k Hk; cbn [updatesOf]; [done|].
      apply IHl. destruct (defOf COMPONENT_MAP x); [|done].
      destruct (decide (node_id x = k)) as [->|?].
      - rewrite lookup_insert_eq. eauto.
      - by rewrite lookup_insert_ne. }
    destruct (G nodes (<[node_id n := nodeUpdateOf d n]> m) (node_id n))
      as [u Hu]; [rewrite lookup_insert_eq; eauto|]. congruence.
Qed.

End TickFacts.

Section TickResults.
Variable COMPONENT_MAP : gmap string ComponentDefinition.

(** simulationTick always returns; its updates and alerts are those of the
    loop over the nodes. *)
Lemma simulationTick_unfold c nodes edges trafficLoad previousAlerts :
  exists topology loadMap metrics,
    analyzeTopology COMPONENT_MAP nodes edges = Some topology /\
    Propagation.propagateLoad nodes edges trafficLoad = Some loadMap /\
    computeMetrics COMPONENT_MAP nodes edges trafficLoad = Some metrics /\
    let existing : gset string := list_to_set (map message previousAlerts) in
    let newAlerts := alertsOf COMPONENT_MAP topology loadMap existing c nodes in
    simulationTick COMPONENT_MAP c nodes edges trafficLoad previousAlerts =
    Some (c + length newAlerts,
          {| result_metrics := metrics;
             nodeUpdates := updatesOf COMPONENT_MAP topology loadMap nodes ∅;
             alerts := newAlerts;
             bottleneckNodeIds :=
               match bottleneckNodeId topology with
               | Some b => if String.eqb b "" then [] else [b]
               | None => []
               end;
             result_spofNodeIds := spofNodeIds topology |}).
Proof.
  destruct (computeMetrics_fields COMPONENT_MAP nodes edges trafficLoad)
    as (t & m & Ht & Hm & _).
  destruct (run_total nodes edges trafficLoad) as [st Hrun].
  exists t, (Propagation.fillUnreached nodes (Propagation.loadMap st)), m.
  assert (Hlm : Propagation.propagateLoad nodes edges trafficLoad
                = Some (Propagation.fillUnreached nodes (Propagation.loadMap st))).
  { unfold Propagation.propagateLoad. by rewrite Hrun. }
  split; [done|]. split; [done|]. split; [done|]. cbn zeta.
  unfold simulationTick. rewrite Ht, Hlm, Hm. cbn [mbind option_bind].
  rewrite tick_fold. cbn [tick_updates tick_alerts tick_counter app]. done.
Qed.

Lemma statusOf_range d node loadPercent :
  (0 <= failureRateAtCapacity d)%Q -> (failureRateAtCapacity d <= 1)%Q ->
  let '(s, e) := statusOf d node loadPercent in
  (0 <= e)%Q /\ (e <= 1)%Q /\
  (s = status_failed <-> isFailed (data node) = true) /\
  (s = status_critical -> (1 < loadPercent)%Q) /\
  (s = status_warning -> (0.8 < loadPercent)%Q /\ (loadPercent <= 1)%Q) /\
  (s = status_healthy -> (loadPercent <= 0.8)%Q /\ e = 0%Q).
Proof.
  intros Hf0 Hf1. unfold statusOf.
  destruct (isFailed (data node)).
  { split_and!; try done; by vm_compute. }
  destruct (Js.ltb 1 loadPercent) eqn:H1.
  { apply Js_ltb_lt in H1. split_and!; try done.
    - apply Q.min_glb; [by vm_compute|lra].
    - apply Q.le_min_l. }
  apply Js_ltb_ge in H1.
  destruct (Js.ltb 0.8 loadPercent) eqn:H2.
  { apply Js_ltb_lt in H2. destruct (ramp_range loadPercent H2 H1) as [Ht0 Ht1].
    set (t := ((loadPercent - 0.8) / 0.2)%Q) in *.
    split_and!; try done; nra. }
  apply Js_ltb_ge in H2. split_and!; try done; by vm_compute.
Qed.

End TickResults.

(** X26: simulationTick stores an update for exactly the catalogued nodes.
    With catalog failure rates between 0 and 1 every stored error rate lies
    between 0 and 1; the status is failed exactly for a node marked failed,
    and otherwise it follows the load percentage: critical above 1, warning
    above 0.8 and up to 1, healthy (with error rate 0) up to 0.8. *)
Theorem simulationTick_node_updates :
  forall COMPONENT_MAP c nodes edges trafficLoad previousAlerts,
    unitFailureRates COMPONENT_MAP ->
    exists c' r,
      simulationTick COMPONENT_MAP c nodes edges trafficLoad previousAlerts
        = Some (c', r) /\
      (forall node, node ∈ nodes -> is_Some (defOf COMPONENT_MAP node) ->
                    is_Some (nodeUpdates r !! node_id node)) /\
      forall k u, nodeUpdates r !! k = Some u ->
        (0 <= update_errorRate u)%Q /\ (update_errorRate u <= 1)%Q /\
        exists node,
          node ∈ nodes /\ node_id node = k /\
          is_Some (defOf COMPONENT_MAP node) /\
          (status u = status_failed <-> isFailed (data node) = true) /\
          (status u = status_critical -> (1 < currentLoad u)%Q) /\
          (status u = status_warning ->
             (0.8 < currentLoad u)%Q /\ (currentLoad u <= 1)%Q) /\
          (status u = status_healthy ->
             (currentLoad u <= 0.8)%Q /\ update_errorRate u = 0%Q).
Proof.
  intros COMPONENT_MAP c nodes edges L prev Hf.
  destruct (simulationTick_unfold COMPONENT_MAP c nodes edges L prev)
    as (t & lm & m & Ht & Hlm & Hm & Htick).
  cbn zeta in Htick. eexists _, _. split; [exact Htick|].
  cbn [nodeUpdates]. split.
  - intros node Hin [d Hd].
    assert (G : forall l (m' : gmap string NodeUpdate),
              node ∈ l \/ is_Some (m' !! node_id node) ->
              is_Some (updatesOf COMPONENT_MAP t lm l m' !! node_id node)).
    { induction l as [|x l IHl]; intros m' Hk; cbn [updatesOf].
      - destruct Hk as [Hk|Hk]; [by apply elem_of_nil in Hk|done].
      - apply IHl. destruct Hk as [[->|Hk]%elem_of_cons|Hk].
        + right. rewrite Hd, lookup_insert_eq. eauto.
        + by left.
        + right. destruct (defOf COMPONENT_MAP x); [|done].
          destruct (decide (node_id x = node_id node)) as [->|?].
          * rewrite lookup_insert_eq. eauto.
          * by rewrite lookup_insert_ne. }
    apply G. by left.
  - intros k u Hu.
    apply updatesOf_lookup in Hu as [Hu|(node & d & Hin & Hid & Hd & ->)];
      [by rewrite lookup_empty in Hu|].
    destruct (Hf _ _ Hd) as [Hf0 Hf1].
    pose proof (statusOf_range d node (nodeLoadPercent lm d node) Hf0 Hf1)
      as Hs.
    cbn [update_errorRate status currentLoad nodeUpdateOf].
    destruct (statusOf d node (nodeLoadPercent lm d node)) as [s e].
    cbn [fst snd]. destruct Hs as (H0 & H1 & Hrest).
    split; [done|]. split; [done|]. exists node.
    split; [done|]. split; [done|]. split; [by exists d|]. exact Hrest.
Qed.

Lemma simulationTick_node_updates_witness :
  unitFailureRates sampleCatalog /\
  exists c' r,
    simulationTick sampleCatalog 0 webAppNodes webAppEdges 1500 []
      = Some (c', r) /\
    (forall node, node ∈ webAppNodes -> is_Some (defOf sampleCatalog node) ->
                  is_Some (nodeUpdates r !! node_id node)) /\
    forall k u, nodeUpdates r !! k = Some u ->
      (0 <= update_errorRate u)%Q /\ (update_errorRate u <= 1)%Q /\
      exists node,
        node ∈ webAppNodes /\ node_id node = k /\
        is_Some (defOf sampleCatalog node) /\
        (status u = status_failed <-> isFailed (data node) = true) /\
        (status u = status_critical -> (1 < currentLoad u)%Q) /\
        (status u = status_warning ->
           (0.8 < currentLoad u)%Q /\ (currentLoad u <= 1)%Q) /\
        (status u = status_healthy ->
           (currentLoad u <= 0.8)%Q /\ update_errorRate u = 0%Q).
Proof.
  split; [exact sampleCatalog_failureRates|].
  apply (simulationTick_node_updates sampleCatalog 0 webAppNodes webAppEdges
           1500 []).
  exact sampleCatalog_failureRates.
Defined.

(** X27: The alerts of a tick carry consecutive, distinct ids after the
    counter and advance it by their number; none repeats the message of a
    previous alert; and a second tick on the same input that is given the
    previous and the new alerts raises no alert and stores the same updates
    and metrics. *)
Theorem simulationTick_alerts_fresh :
  forall COMPONENT_MAP c nodes edges trafficLoad previousAlerts,
    exists c' r,
      simulationTick COMPONENT_MAP c nodes edges trafficLoad previousAlerts
        = Some (c', r) /\
      c' = c + length (alerts r) /\
      map alert_id (alerts r)
        = map alertIdOf (seq (S c) (length (alerts r))) /\
      NoDup (map alert_id (alerts r)) /\
      (forall a, a ∈ alerts r ->
         dismissed a = false /\
         (message a ∉ map message previousAlerts) /\
         exists node, node ∈ nodes /\ alert_nodeId a = Some (node_id node)) /\
      forall later,
        (forall a, a ∈ previousAlerts ++ alerts r ->
                   message a ∈ map message later) ->
        exists r',
          simulationTick COMPONENT_MAP c' nodes edges trafficLoad later
            = Some (c', r') /\
          alerts r' = [] /\ nodeUpdates r' = nodeUpdates r /\
          result_metrics r' = result_metrics r.
Proof.
  intros COMPONENT_MAP c nodes edges L prev.
  destruct (simulationTick_unfold COMPONENT_MAP c nodes edges L prev)
    as (t & lm & m & Ht & Hlm & Hm & Htick).
  cbn zeta in Htick. eexists _, _. split; [exact Htick|].
  cbn [alerts nodeUpdates result_metrics].
  set (existing := list_to_set (map message prev) : gset string) in *.
  set (new := alertsOf COMPONENT_MAP t lm existing c nodes) in *.
  split; [done|]. split; [apply alertsOf_ids|]. split.
  { unfold new. rewrite alertsOf_ids. apply NoDup_fmap_2.
    - intros i j. apply alertIdOf_inj.
    - apply NoDup_ListNoDup, seq_NoDup. }
  split.
  { intros a Ha.
    destruct (alertsOf_elem COMPONENT_MAP t lm existing nodes a c Ha)
      as (Hd & Hmsg & node & Hin & Hid & _).
    split; [done|]. split.
    - intros Hp. apply Hmsg. unfold existing. by apply elem_of_list_to_set.
    - by exists node. }
  intros later Hlater.
  destruct (simulationTick_unfold COMPONENT_MAP (c + length new) nodes edges L
              later) as (t' & lm' & m' & Ht' & Hlm' & Hm' & Htick').
  rewrite Ht in Ht'. injection Ht' as <-.
  rewrite Hlm in Hlm'. injection Hlm' as <-.
  rewrite Hm in Hm'. injection Hm' as <-.
  cbn zeta in Htick'.
  set (existing' := list_to_set (map message later) : gset string) in *.
  assert (Hquiet : alertsOf COMPONENT_MAP t lm existing' (c + length new) nodes
                   = []).
  { apply alertsOf_quiet. intros node p Hnode Hp.
    unfold existing'. apply elem_of_list_to_set.
    destruct (decide (snd p ∈ existing)) as [Hold|Hnew].
    - unfold existing in Hold. apply elem_of_list_to_set in Hold.
      apply list_elem_of_In, in_map_iff in Hold as (a & Ha & Hin).
      rewrite <- Ha. apply Hlater, elem_of_app. left. by apply list_elem_of_In.
    - assert (Hfresh : snd p ∈ map message new).
      { unfold new. rewrite alertsOf_messages.
        apply list_elem_of_In, in_map, in_flat_map. exists node.
        split; [by apply list_elem_of_In|]. apply filter_In.
        split; [by apply list_elem_of_In|].
        by apply negb_true_iff, bool_decide_eq_false. }
      apply list_elem_of_In, in_map_iff in Hfresh as (a & Ha & Hin).
      rewrite <- Ha. apply Hlater, elem_of_app. right.
      by apply list_elem_of_In. }
  rewrite Hquiet in Htick'. cbn [length] in Htick'.
  rewrite Nat.add_0_r in Htick'.
  eexists. split; [exact Htick'|]. done.
Qed.

Lemma webAppNodes_ids : NoDup (map node_id webAppNodes).
Proof.
  unfold webAppNodes. cbn [map node_id mkNode].
  repeat (constructor; [set_solver|]). constructor.
Qed.

Lemma getOr0_positive (m : gmap string Q) k :
  (0 < Js.getOr0 m k)%Q <-> exists v, m !! k = Some v /\ (0 < v)%Q.
Proof.
  unfold Js.getOr0, Js.orElse. destruct (m !! k) as [v|]; split.
  - destruct (Qeq_bool v 0); [lra|]. intros H. by exists v.
  - intros (w & [= <-] & Hw). destruct (Qeq_bool v 0) eqn:E; [|done].
    apply Qeq_bool_iff in E. lra.
  - lra.
  - by intros (w & ? & _).
Qed.

(** X28: With unique node ids and a positive load, the update of a catalogued
    node reports a positive request rate exactly when a source reaches the
    node along the edges; a node that no source reaches is reported with rate
    0, as healthy with error rate 0 unless it is marked failed. *)
Theorem simulationTick_rate_iff_reached :
  forall COMPONENT_MAP c nodes edges trafficLoad previousAlerts node,
    NoDup (map node_id nodes) -> (0 < trafficLoad)%Q ->
    node ∈ nodes -> is_Some (defOf COMPONENT_MAP node) ->
    exists c' r u,
      simulationTick COMPONENT_MAP c nodes edges trafficLoad previousAlerts
        = Some (c', r) /\
      nodeUpdates r !! node_id node = Some u /\
      ((0 < update_currentRPS u)%Q <-> reached nodes edges (node_id node)) /\
      (~ reached nodes edges (node_id node) ->
       update_currentRPS u = 0%Q /\
       status u = (if isFailed (data node) then status_failed
                   else status_healthy) /\
       update_errorRate u = (if isFailed (data node) then 1 else 0)%Q).
Proof.
  intros COMPONENT_MAP c nodes edges L prev node Hnd HL Hin [d Hd].
  destruct (simulationTick_unfold COMPONENT_MAP c nodes edges L prev)
    as (t & lm & m & Ht & Hlm & Hm & Htick).
  cbn zeta in Htick.
  eexists _, _, (nodeUpdateOf t lm d node). split; [exact Htick|].
  cbn [nodeUpdates]. split; [by apply updatesOf_unique|].
  cbn [update_currentRPS status update_errorRate nodeUpdateOf]. split.
  - destruct (propagateLoad_reached_positive nodes edges L HL)
      as (lm' & Hlm' & Hreach).
    rewrite Hlm in Hlm'. injection Hlm' as <-.
    rewrite getOr0_positive. symmetry. by apply Hreach.
  - intros Hnot.
    pose proof (propagateLoad_unreached nodes edges L lm node Hlm Hin Hnot)
      as Hzero.
    assert (Hrps : Js.getOr0 lm (node_id node) = 0%Q).
    { unfold Js.getOr0. by rewrite Hzero. }
    split; [done|].
    unfold nodeLoadPercent, loadPercentOf, statusOf. rewrite Hrps.
    destruct (isFailed (data node)); [done|].
    assert (Hlp : ((if Js.ltb 0 (capacityOf d node)
                    then 0 / capacityOf d node else 0) == 0)%Q).
    { destruct (Js.ltb 0 (capacityOf d node)); [|reflexivity].
      unfold Qdiv. apply Qmult_0_l. }
    set (lp := if Js.ltb 0 (capacityOf d node)
               then (0 / capacityOf d node)%Q else 0%Q) in *.
    assert (H1 : Js.ltb 1 lp = false) by (apply Js_ltb_ge; lra).
    assert (H2 : Js.ltb 0.8 lp = false) by (apply Js_ltb_ge; lra).
    by rewrite H1, H2.
Qed.

Lemma simulationTick_rate_iff_reached_witness :
  NoDup (map node_id webAppNodes) /\ (0 < 1500)%Q /\
  mkNode "server" "web-server" 1 ∈ webAppNodes /\
  is_Some (defOf sampleCatalog (mkNode "server" "web-server" 1)) /\
  exists c' r u,
    simulationTick sampleCatalog 0 webAppNodes webAppEdges 1500 []
      = Some (c', r) /\
    nodeUpdates r !! "server" = Some u /\
    ((0 < update_currentRPS u)%Q <-> reached webAppNodes webAppEdges "server") /\
    (~ reached webAppNodes webAppEdges "server" ->
     update_currentRPS u = 0%Q /\
     status u = status_healthy /\
     update_errorRate u = 0%Q).
Proof.
  assert (Hin : mkNode "server" "web-server" 1 ∈ webAppNodes).
  { right. left. }
  assert (Hdef : is_Some (defOf sampleCatalog (mkNode "server" "web-server" 1))).
  { eexists. vm_compute. reflexivity. }
  split; [exact webAppNodes_ids|]. split; [by vm_compute|].
  split; [exact Hin|]. split; [exact Hdef|].
  apply (simulationTick_rate_iff_reached sampleCatalog 0 webAppNodes webAppEdges
           1500 [] (mkNode "server" "web-server" 1)
           webAppNodes_ids ltac:(by vm_compute) Hin Hdef).
Defined.

(** ** Scenario progress *)

(** The targets that a scenario sets, in the order of the checks: key and
    outcome. *)
Definition targetChecks (targets : ProgressTargets) (metrics : MetricSnapshot)
    (nodeTypes : list string) : list (string * bool) :=
  match target_minAvailability targets with
  | Some t => [("availability", Js.leb t (availability metrics))]
  | None => []
  end
  ++ match target_maxLatencyP95 targets with
     | Some t => [("latencyP95", Js.leb (latencyP95 metrics) t)]
     | None => []
     end
  ++ match target_minThroughput targets with
     | Some t => [("throughput", Js.leb t (throughput metrics))]
     | None => []
     end
  ++ match target_maxCost targets with
     | Some t => [("cost", Js.leb (monthlyCost metrics) t)]
     | None => []
     end
  ++ match target_maxSPOFs targets with
     | Some _ => [("spofs", Js.leb 60 (scalabilityScore metrics))]
     | None => []
     end
  ++ match target_requiredComponents targets with
     | Some reqs =>
         map (fun req => ("component:" +:+ req, bool_decide (req ∈ nodeTypes)))
             reqs
     | None => []
     end.

(** Number of targets that a scenario sets. *)
Definition targetCount (targets : ProgressTargets) : nat :=
  match target_minAvailability targets with Some _ => 1 | None => 0 end
  + match target_maxLatencyP95 targets with Some _ => 1 | None => 0 end
  + match target_minThroughput targets with Some _ => 1 | None => 0 end
  + match target_maxCost targets with Some _ => 1 | None => 0 end
  + match target_maxSPOFs targets with Some _ => 1 | None => 0 end
  + match target_requiredComponents targets with
    | Some reqs => length reqs
    | None => 0
    end.

Definition recordAll (checks : list (string * bool)) (st : ProgressState)
  : ProgressState :=
  fold_left (fun st p => recordTarget (fst p) (snd p) st) checks st.

Lemma recordAll_cons k b l st :
  recordAll ((k, b) :: l) st = recordAll l (recordTarget k b st).
Proof. done. Qed.

Lemma recordAll_app l1 l2 st :
  recordAll (l1 ++ l2) st = recordAll l2 (recordAll l1 st).
Proof. unfold recordAll. apply fold_left_app. Qed.

Lemma computeScenarioProgress_checks targets metrics nodeTypes :
  let st := recordAll (targetChecks targets metrics nodeTypes)
              {| progress_targetsMet := ∅; metCount := 0; totalTargets := 0 |} in
  computeScenarioProgress targets metrics nodeTypes =
  {| progress_score :=
       if (0 <? totalTargets st)%nat then
         Js.round (Js.ofNat (metCount st) / Js.ofNat (totalTargets st) * 100)
       else 0%Z;
     targetsMet := progress_targetsMet st |}.
Proof.
  unfold computeScenarioProgress, targetChecks. cbn zeta.
  rewrite !recordAll_app.
  assert (Hreq : forall reqs st,
    fold_left
      (fun st req =>
         recordTarget ("component:" +:+ req) (bool_decide (req ∈ nodeTypes)) st)
      reqs st
    = recordAll
        (map (fun req => ("component:" +:+ req, bool_decide (req ∈ nodeTypes)))
             reqs) st).
  { induction reqs as [|r reqs IH]; intros st; [done|].
    cbn [fold_left map]. rewrite IH. done. }
  destruct (target_minAvailability targets), (target_maxLatencyP95 targets),
    (target_minThroughput targets), (target_maxCost targets),
    (target_maxSPOFs targets), (target_requiredComponents targets);
    rewrite ?Hreq; reflexivity.
Qed.

Lemma targetChecks_length targets metrics nodeTypes :
  length (targetChecks targets metrics nodeTypes) = targetCount targets.
Proof.
  unfold targetChecks, targetCount. rewrite !length_app.
  destruct (target_minAvailability targets), (target_maxLatencyP95 targets),
    (target_minThroughput targets), (target_maxCost targets),
    (target_maxSPOFs targets), (target_requiredComponents targets);
    cbn [length]; rewrite ?length_map; lia.
Qed.

(** Equal keys come with equal outcomes. *)
Definition consistentChecks (l : list (string * bool)) : Prop :=
  forall k b b', (k, b) ∈ l -> (k, b') ∈ l -> b = b'.

Lemma targetChecks_consistent targets metrics nodeTypes :
  consistentChecks (targetChecks targets metrics nodeTypes).
Proof.
  intros k b b' H H'. unfold targetChecks in H, H'.
  assert (Hcomp : forall reqs (x : string * bool),
    x ∈ map (fun req => ("component:" +:+ req, bool_decide (req ∈ nodeTypes)))
            reqs ->
    exists req, x = ("component:" +:+ req, bool_decide (req ∈ nodeTypes))).
  { intros reqs x Hx. apply list_elem_of_In, in_map_iff in Hx as (req & <- & _).
    by exists req. }
  assert (Hall : forall x : string * bool,
    x ∈ targetChecks targets metrics nodeTypes ->
    x = ("availability",
         match target_minAvailability targets with
         | Some t => Js.leb t (availability metrics) | None => false end)
    \/ x = ("latencyP95",
            match target_maxLatencyP95 targets with
            | Some t => Js.leb (latencyP95 metrics) t | None => false end)
    \/ x = ("throughput",
            match target_minThroughput targets with
            | Some t => Js.leb t (throughput metrics) | None => false end)
    \/ x = ("cost",
            match target_maxCost targets with
            | Some t => Js.leb (monthlyCost metrics) t | None => false end)
    \/ x = ("spofs", Js.leb 60 (scalabilityScore metrics))
    \/ exists req, x = ("component:" +:+ req, bool_decide (req ∈ nodeTypes))).
  { intros x Hx. unfold targetChecks in Hx.
    repeat (apply elem_of_app in Hx as [Hx|Hx]).
    - destruct (target_minAvailability targets);
        [|by apply elem_of_nil in Hx].
      apply list_elem_of_singleton in Hx. tauto.
    - destruct (target_maxLatencyP95 targets); [|by apply elem_of_nil in Hx].
      apply list_elem_of_singleton in Hx. tauto.
    - destruct (target_minThroughput targets); [|by apply elem_of_nil in Hx].
      apply list_elem_of_singleton in Hx. tauto.
    - destruct (target_maxCost targets); [|by apply elem_of_nil in Hx].
      apply list_elem_of_singleton in Hx. tauto.
    - destruct (target_maxSPOFs targets); [|by apply elem_of_nil in Hx].
      apply list_elem_of_singleton in Hx. tauto.
    - destruct (target_requiredComponents targets) as [reqs|];
        [|by apply elem_of_nil in Hx].
      do 5 right. by apply (Hcomp reqs). }
  apply Hall in H, H'.
  destruct H as [H|[H|[H|[H|[H|[r H]]]]]];
    destruct H' as [H'|[H'|[H'|[H'|[H'|[r' H']]]]]];
    simplify_eq/=; done.
Qed.

Lemma recordAll_counts checks : forall st,
  let r := recordAll checks st in
  totalTargets r = totalTargets st + length checks /\
  metCount r = metCount st + length (List.filter snd checks).
Proof.
  induction checks as [|[k b] checks IH]; intros st; cbn zeta.
  - simpl. lia.
  - rewrite recordAll_cons.
    destruct (IH (recordTarget k b st)) as [Ht Hm]. cbn zeta in Ht, Hm.
    rewrite Ht, Hm. destruct b; simpl; lia.
Qed.

Lemma recordAll_lookup checks : forall st k b,
  progress_targetsMet (recordAll checks st) !! k = Some b ->
  (k, b) ∈ checks \/ progress_targetsMet st !! k = Some b.
Proof.
  induction checks as [|[k0 b0] checks IH]; intros st k b H; [by right|].
  rewrite recordAll_cons in H.
  apply IH in H as [H|H]; [left; by right|].
  cbn [recordTarget progress_targetsMet fst snd] in H.
  destruct (decide (k0 = k)) as [->|Hne].
  - rewrite lookup_insert_eq in H. injection H as ->. left. by left.
  - rewrite lookup_insert_ne in H by done. by right.
Qed.

Lemma recordAll_present checks : forall st k b,
  (k, b) ∈ checks -> is_Some (progress_targetsMet (recordAll checks st) !! k).
Proof.
  assert (Hkeep : forall l st k,
            is_Some (progress_targetsMet st !! k) ->
            is_Some (progress_targetsMet (recordAll l st) !! k)).
  { induction l as [|[k0 b0] l IHl]; intros st k Hk; [done|].
    rewrite recordAll_cons. apply IHl.
    cbn [recordTarget progress_targetsMet fst snd].
    destruct (decide (k0 = k)) as [->|Hne].
    - rewrite lookup_insert_eq. eauto.
    - by rewrite lookup_insert_ne. }
  induction checks as [|[k0 b0] checks IH]; intros st k b Hin;
    [by apply elem_of_nil in Hin|].
  rewrite recordAll_cons.
  apply elem_of_cons in Hin as [[= -> ->]|Hin]; [|by apply (IH _ k b)].
  apply Hkeep. cbn [recordTarget progress_targetsMet fst snd].
  rewrite lookup_insert_eq. eauto.
Qed.

Lemma filter_snd_all (checks : list (string * bool)) :
  length (List.filter snd checks) = length checks <->
  forall k b, (k, b) ∈ checks -> b = true.
Proof.
  induction checks as [|[k0 b0] checks IH]; simpl.
  - split; [|done]. intros _ k b H. by apply elem_of_nil in H.
  - pose proof (filter_length_le snd checks) as Hle.
    destruct b0; simpl.
    + split.
      * intros H k b [[= -> ->]|Hin]%elem_of_cons; [done|].
        apply (proj1 IH ltac:(lia) k b Hin).
      * intros H. f_equal. apply IH. intros k b Hin. apply (H k b). by right.
    + split; [lia|]. intros H. specialize (H k0 false ltac:(by left)). done.
Qed.

(** X29: The score of computeScenarioProgress lies between 0 and 100; it is 0
    for a scenario without targets and 100 when every recorded target is met;
    with fewer than 200 targets a score of 100 is reached only when every
    recorded target is met. *)
Theorem scenario_score_full_iff_all_met :
  forall targets metrics nodeTypes,
    let p := computeScenarioProgress targets metrics nodeTypes in
    let allMet := forall k b, targetsMet p !! k = Some b -> b = true in
    (0 <= progress_score p <= 100)%Z /\
    (targetCount targets = 0 -> progress_score p = 0%Z) /\
    (0 < targetCount targets -> allMet -> progress_score p = 100%Z) /\
    (targetCount targets < 200 -> progress_score p = 100%Z -> allMet).
Proof.
  intros targets metrics nodeTypes p allMet.
  pose proof (computeScenarioProgress_checks targets metrics nodeTypes) as Hp.
  cbn zeta in Hp. fold p in Hp.
  set (checks := targetChecks targets metrics nodeTypes) in *.
  set (st0 := {| progress_targetsMet := ∅; metCount := 0; totalTargets := 0 |})
    in *.
  destruct (recordAll_counts checks st0) as [Htotal Hmet].
  cbn zeta in Htotal, Hmet. cbn [totalTargets metCount st0] in Htotal, Hmet.
  rewrite Nat.add_0_l in Htotal, Hmet.
  pose proof (targetChecks_length targets metrics nodeTypes) as Hlen.
  fold checks in Hlen. rewrite Hlen in Htotal.
  pose proof (filter_length_le snd checks) as Hle. rewrite Hlen in Hle.
  set (met := length (List.filter snd checks)) in *.
  set (total := targetCount targets) in *.
  assert (Hscore : progress_score p =
            if (0 <? total)%nat
            then Js.round (Js.ofNat met / Js.ofNat total * 100) else 0%Z).
  { rewrite Hp. cbn [progress_score]. by rewrite Htotal, Hmet. }
  assert (Hst0 : forall k, progress_targetsMet st0 !! k = None).
  { intros k. apply lookup_empty. }
  assert (Hall : allMet <-> met = total).
  { unfold allMet, met. rewrite <- Hlen, filter_snd_all, Hp.
    cbn [targetsMet]. split.
    - intros H k b Hin.
      destruct (recordAll_present checks st0 k b Hin) as [b' Hb'].
      pose proof (H k b' Hb') as ->.
      apply recordAll_lookup in Hb' as [Hb'|Hb']; [|by rewrite Hst0 in Hb'].
      by apply (targetChecks_consistent targets metrics nodeTypes k).
    - intros H k b Hk.
      apply recordAll_lookup in Hk as [Hk|Hk]; [|by rewrite Hst0 in Hk].
      by apply (H k). }
  destruct (Nat.ltb_spec 0 total) as [Hpos|Hzero].
  2:{ rewrite Hscore. split; [lia|]. split; [done|]. split; [lia|]. done. }
  assert (HposQ : (0 < Js.ofNat total)%Q).
  { unfold Js.ofNat. change 0%Q with (inject_Z 0). rewrite <- Zlt_Qlt. lia. }
  assert (HmetQ : (0 <= Js.ofNat met)%Q) by apply Js_ofNat_nonneg.
  assert (HleQ : (Js.ofNat met <= Js.ofNat total)%Q).
  { unfold Js.ofNat. rewrite <- Zle_Qle. lia. }
  assert (Hr0 : (0 <= Js.ofNat met / Js.ofNat total)%Q).
  { apply Qle_shift_div_l; [done|]. lra. }
  assert (Hr1 : (Js.ofNat met / Js.ofNat total <= 1)%Q).
  { apply Qle_shift_div_r; [done|]. lra. }
  rewrite Hscore. split_and!.
  - apply Js_round_nonneg. set (r := (_ / _)%Q) in *. lra.
  - transitivity (Js.round 100); [|by vm_compute].
    apply Js_round_le. set (r := (_ / _)%Q) in *. lra.
  - lia.
  - intros _ Hm. apply Hall in Hm. rewrite Hm.
    assert (E : (Js.ofNat total / Js.ofNat total * 100 + (1 # 2)
                 == 100 + (1 # 2))%Q).
    { field. lra. }
    unfold Js.round. rewrite (Qfloor_comp _ _ E). by vm_compute.
  - intros Hsmall Hfull. apply Hall.
    destruct (decide (met = total)) as [|Hne]; [done|]. exfalso.
    assert (Hlt : (Js.ofNat met / Js.ofNat total * 100 + (1 # 2) < 100)%Q).
    { assert (Hm1 : (Js.ofNat met + 1 <= Js.ofNat total)%Q).
      { unfold Js.ofNat. change 1%Q with (inject_Z 1).
        rewrite <- inject_Z_plus, <- Zle_Qle. lia. }
      assert (Ht200 : (Js.ofNat total <= 199)%Q).
      { unfold Js.ofNat. change 199%Q with (inject_Z 199).
        rewrite <- Zle_Qle. lia. }
      assert (E : (Js.ofNat met / Js.ofNat total * Js.ofNat total
                   == Js.ofNat met)%Q).
      { field. lra. }
      set (r := (Js.ofNat met / Js.ofNat total)%Q) in *.
      set (T := Js.ofNat total) in *. set (M := Js.ofNat met) in *.
      nra. }
    unfold Js.round in Hfull.
    assert (Hfl : (Qfloor (Js.ofNat met / Js.ofNat total * 100 + (1 # 2)) < 100)%Z).
    { rewrite Zlt_Qlt. change (inject_Z 100) with 100%Q.
      eapply Qle_lt_trans; [apply Qfloor_le|exact Hlt]. }
    lia.
Qed.
